(* ===== verification/_CoqProject ===== *)
-Q . S2P
Prelude.v
ParseConf.v
StateTree.v
Tracking.v
HidParser.v
HidValue.v
Platform.v
TokenStore.v
Session.v
MgmtHttp.v
MgmtLog.v
Authorization.v
Dns.v
