(* ===== verification/Prelude.v ===== *)
(** * ESP32-NUT verification library

    The firmware turns an ESP32-S3 into a Network UPS Tools (NUT) server: a USB
    HID driver (src/src/drivers) reads a UPS and publishes its variables, the
    NUT server (src/src/server) answers clients, both over the shared library of
    src/src/common, and the files directly under src/src add Wi-Fi set-up, an
    HTTPS management console and agent APIs.  This library models parts of that
    program in Gallina, line for line where the code has control flow, and proves
    what makes them correct.

    ** Conventions

    - A C string is the list of its character codes without the NUL ([str]); an
      array is the list of all its cells; [store], [rd] and [wr] answer [None]
      outside the array.  An operation that returns [option] returns [None]
      exactly where the code would access memory out of bounds, or shift by the
      width of an [int] or more.  A theorem that says the result is [Some ...]
      therefore says the code has no such undefined behaviour.
    - Integers are [Z]; where the code's width matters the wrap-around is written
      out ([u8], [u16], [u32], [s8] ... [s64]); [size_t] and [long] are 32 bits.
    - Allocation is taken to succeed where the code ends the process otherwise.
      The contents of fresh memory are a parameter ([junk]).
    - C loops are structural recursions where the data gives one.  The others
      carry fuel that no input can exhaust: [HIDParse] one unit per byte of the
      descriptor, [desc_loop] 256 per byte and 256 more (a repeat count is one
      byte), [cookie_loop] one more than the length of the header, [label_loop]
      one more than the length of the datagram.  That the fuel suffices is part
      of the theorems: running out is [None] (or a refusal the theorem excludes).

    ** Files

    - [Prelude] (this file): strings, buffers, [strcasecmp], [strtol], widths,
      little-endian numbers; the tactics [guards], [lens], [binds].
    - [ParseConf], src/src/common/parseconf.c: the context buffer [PCONF_CTX_t],
      one definition per C function, [parse_char] the automaton, and the entry
      points [pconf_line], [pconf_char], [pconf_file_next].  The specification
      [sp_step], [sp_line] is the same automaton over unbounded lists of words.
    - [StateTree], src/src/common/state.c: the variable tree as an inductive
      tree whose nodes are the C records; its specification is a finite map from
      case-folded names ([to_map], [bst]).
    - [Tracking], src/src/server/upsd.c: the list of pending commands and settings
      of the network server, newest first.
    - [HidParser] and [HidValue], src/src/drivers/hidparser.c: the descriptor
      parser with its fixed arrays, the object search, and reading and writing a
      field of a report.
    - [Platform]: interfaces to what is not in the repository, as type classes
      with laws: NVS flash, random numbers, hashing ([Platform],
      [PlatformLaws]) and the header functions of the HTTP server ([Httpd],
      [HttpdLaws]).  The instances [sim] and [headers] show that the laws can
      hold and let the witnesses compute.
    - [TokenStore], src/src/api-token-store.c and api_tokens.c: the store of API
      tokens, proved against [PlatformLaws]; [Session],
      src/src/management-session.c: browser sessions, cookies and login
      throttling, proved against [HttpdLaws]; [Authorization],
      src/src/management-authorization.c, their client.
    - [MgmtHttp], src/src/management-http.c: responses as the calls made, JSON
      text in a bounded buffer, form bodies; [MgmtLog],
      src/src/management-log.c: the log ring.
    - [Dns], src/src/dns-server.c: [Dns.Reply] builds the replies of the captive
      portal, [Dns.Lifetime] is the step relation of the worker task and
      [dns_server_stop] on the shared handle.
    Operations keep the names of the C functions.  A function that changes a
    static variable or an object behind a pointer takes the state as an argument
    and returns it; clocks and random numbers are arguments or part of the
    platform state.

    ** Theorems

    - Parsing: the C buffers refine the list automaton, for every context a
      program can have; the three entry points agree; what is rendered or encoded
      is parsed back.  Two theorems state where the code departs from its
      comments.
    - State tree: every operation refines the finite map and keeps the search
      order; a value set is read back; deletion removes exactly its variable.
      Two theorems state the defects of ranges and of escaped enumerations.
    - HID: parsing any descriptor ends, and accesses memory out of bounds only at
      two described operations, both of which are reached; parsed fields do not
      overlap; a field is read as the value its bits encode, and a write is read
      back and leaves the others.
    - Tokens: authorization is granted exactly for a stored, active record of the
      scope; creation and deletion do what they say on every error path; the two
      stores never affect each other, and each path is decided by its own store;
      bearer headers reach the right store.
    - Sessions: an authorized request carries the cookie of the last start, and
      the start or the last authorized request that refreshed the session is at
      most 15 minutes old; expiry, throttling, cookies.
    - Console: strings are escaped to JSON that reads back; forms are decoded to
      what was encoded, and a value that does not fit is reported; the log holds
      the last 50 lines of what the output and syslog calls wrote.
    - Name server: replies answer exactly the well-formed address queries; the
      handle is freed exactly once, with one access after the free on two cores.
    - Tracking: requests with distinct identifiers read back the status that was
      last recorded for them, and the clean-up drops exactly the old ones.

    ** Not modelled

    The TLS code (netssl.c) and the fallbacks for missing C functions are not
    built on the target or are vendored.  USB, Wi-Fi, sockets and flash drivers
    are the platform's; the pages and the tables of the HID subdrivers are data.
    The rest of the server (its clients, users, commands and its mirror of the
    driver's state), the driver's main loop and report buffering, the Wi-Fi
    portal, firmware update, the clock configuration and the HTTP handlers behind
    the guards of [Authorization] are not part of the library.  The source
    has conditional parts; the library models the build of config.h.sample. *)

From Stdlib Require Import ZArith Lia String Ascii.
From stdpp Require Import base tactics list numbers option.

#[local] Open Scope Z_scope.

(** ** C strings and bytes

    A C string is the list of its characters before the terminating NUL, each
    character its unsigned code (plain [char] is unsigned on the ESP32-S3). *)

Definition str (s : string) : list Z :=
  map (fun a => Z.of_N (N_of_ascii a)) (list_ascii_of_string s).

(** A buffer is the list of all its bytes; reading past its end is [None]. *)

Fixpoint strlen (buf : list Z) : option nat :=
  match buf with
  | [] => None
  | c :: buf' => if c =? 0 then Some 0%nat else S <$> strlen buf'
  end.

Definition cstr (buf : list Z) : option (list Z) :=
  n ← strlen buf; Some (take n buf).

(** [isspace] in the C locale. *)

Definition isspace (c : Z) : bool := (c =? 32) || ((9 <=? c) && (c <=? 13)).

(** ** Memory access

    [None] is an access outside the object: undefined behaviour in C. *)

Definition store {A} (buf : list A) (i : nat) (x : A) : option (list A) :=
  if (i <? length buf)%nat then Some (<[i:=x]> buf) else None.

(** [realloc] to [n] elements; the contents of new elements are whatever the
    allocator left there. *)

Definition realloc {A} (junk : nat → A) (buf : list A) (n : nat) : list A :=
  take n buf ++ (junk <$> seq (length buf) (n - length buf)).

(** [size_t] is 32 bits wide on the target. *)

Definition size_wrap (x : Z) : Z := x mod 2 ^ 32.

(** ** Lemmas on buffers *)

Lemma store_lt {A} (buf : list A) i x :
  (i < length buf)%nat → store buf i x = Some (<[i:=x]> buf).
Proof. intros H. unfold store. by rewrite (proj2 (Nat.ltb_lt _ _) H). Qed.

Lemma strlen_split w rest :
  Forall (λ x, x ≠ 0) w → strlen (w ++ 0 :: rest) = Some (length w).
Proof.
  induction 1 as [|x w Hx _ IH]; [done|]. cbn.
  rewrite (proj2 (Z.eqb_neq _ _) Hx), IH. done.
Qed.

Lemma cstr_split w rest : Forall (λ x, x ≠ 0) w → cstr (w ++ 0 :: rest) = Some w.
Proof. intros H. unfold cstr. rewrite strlen_split by done. cbn. by rewrite take_app_length. Qed.

Lemma realloc_length {A} junk (buf : list A) n :
  (length buf ≤ n)%nat → length (realloc junk buf n) = n.
Proof.
  intros H. unfold realloc.
  rewrite length_app, length_take, length_fmap, length_seq. lia.
Qed.

Lemma realloc_grow {A} junk (buf : list A) n :
  (length buf ≤ n)%nat → ∃ new, realloc junk buf n = buf ++ new ∧ length new = (n - length buf)%nat.
Proof.
  intros H. eexists. unfold realloc. rewrite take_ge by done. split; [done|].
  by rewrite length_fmap, length_seq.
Qed.

Lemma buf_split (buf : list Z) p :
  buf !! p = Some 0 → buf = take p buf ++ 0 :: drop (S p) buf.
Proof. intros H. by rewrite (take_drop_middle _ _ _ H). Qed.

(** ** Case-insensitive comparison

    [strcasecmp] in the C locale; only the sign of its result is specified.  A
    C string has no NUL inside, so a proper prefix comes first. *)

Definition tolower (c : Z) : Z := if (65 <=? c) && (c <=? 90) then c + 32 else c.

Definition fold_case (s : list Z) : list Z := tolower <$> s.

Fixpoint lex_compare (a b : list Z) : comparison :=
  match a, b with
  | [], [] => Eq
  | [], _ :: _ => Lt
  | _ :: _, [] => Gt
  | x :: a', y :: b' =>
    match Z.compare x y with Eq => lex_compare a' b' | c => c end
  end.

Definition strcasecmp (a b : list Z) : Z :=
  match lex_compare (fold_case a) (fold_case b) with Lt => -1 | Eq => 0 | Gt => 1 end.

Definition lex_lt (a b : list Z) : Prop := lex_compare a b = Lt.

Lemma lex_compare_eq a b : lex_compare a b = Eq ↔ a = b.
Proof.
  revert b. induction a as [|x a IH]; intros [|y b]; cbn; try done.
  destruct (Z.compare_spec x y) as [->| |]; rewrite ?IH; split; intros; simplify_eq; done || lia.
Qed.

Lemma lex_compare_antisym a b : lex_compare b a = CompOpp (lex_compare a b).
Proof.
  revert b. induction a as [|x a IH]; intros [|y b]; cbn; try done.
  rewrite (Z.compare_antisym x y). destruct (Z.compare x y); cbn; by rewrite ?IH.
Qed.

Lemma lex_lt_gt a b : lex_compare a b = Gt ↔ lex_lt b a.
Proof. unfold lex_lt. rewrite (lex_compare_antisym a b). destruct (lex_compare a b); done. Qed.

#[export] Instance lex_lt_trans : Transitive lex_lt.
Proof.
  unfold lex_lt. intros a. induction a as [|x a IH]; intros [|y b] [|z c]; cbn; try done.
  destruct (Z.compare_spec x y), (Z.compare_spec y z), (Z.compare_spec x z); subst; try done; try lia.
  apply IH.
Qed.

Lemma lex_lt_irrefl a : ¬ lex_lt a a.
Proof. unfold lex_lt. rewrite (proj2 (lex_compare_eq a a) eq_refl). done. Qed.

Lemma lex_lt_ne a b : lex_lt a b → a ≠ b.
Proof. intros H ->. by apply (lex_lt_irrefl b). Qed.

(** The three outcomes of the tests [strcasecmp(a, b) > 0], [< 0] in sequence. *)

Lemma strcasecmp_cases a b :
  (strcasecmp a b = 1 ∧ lex_lt (fold_case b) (fold_case a))
  ∨ (strcasecmp a b = -1 ∧ lex_lt (fold_case a) (fold_case b))
  ∨ (strcasecmp a b = 0 ∧ fold_case a = fold_case b).
Proof.
  unfold strcasecmp. destruct (lex_compare _ _) eqn:E.
  - right. right. by apply lex_compare_eq in E.
  - right. by left.
  - left. by apply lex_lt_gt in E.
Qed.

(** ** [strtol] in base 10 for a [long] of 32 bits (no error reporting). *)

Definition LONG_MAX : Z := 2 ^ 31 - 1.
Definition LONG_MIN : Z := - 2 ^ 31.

Definition isdigit (c : Z) : bool := (48 <=? c) && (c <=? 57).

Fixpoint digits_value (acc : Z) (s : list Z) : Z :=
  match s with
  | c :: s' => if isdigit c then digits_value (acc * 10 + (c - 48)) s' else acc
  | [] => acc
  end.

Fixpoint skip_space (s : list Z) : list Z :=
  match s with c :: s' => if isspace c then skip_space s' else s | [] => [] end.

Definition strtol (s : list Z) : Z :=
  let clamp x := Z.max LONG_MIN (Z.min LONG_MAX x) in
  match skip_space s with
  | 43 :: s' => clamp (digits_value 0 s')
  | 45 :: s' => clamp (- digits_value 0 s')
  | s' => clamp (digits_value 0 s')
  end.

(** ** Fixed-width integers *)

Definition wrap (w x : Z) : Z := x mod 2 ^ w.
Definition u8 (x : Z) : Z := wrap 8 x.
Definition u16 (x : Z) : Z := wrap 16 x.
Definition u32 (x : Z) : Z := wrap 32 x.

(** Two's complement of the low [w] bits. *)

Definition swrap (w x : Z) : Z := (x + 2 ^ (w - 1)) mod 2 ^ w - 2 ^ (w - 1).
Definition s8 (x : Z) : Z := swrap 8 x.
Definition s16 (x : Z) : Z := swrap 16 x.
Definition s32 (x : Z) : Z := swrap 32 x.
Definition s64 (x : Z) : Z := swrap 64 x.

(** Array access at a C integer index. *)

Definition rd {A} (l : list A) (i : Z) : option A :=
  if 0 <=? i then l !! Z.to_nat i else None.

Definition wr {A} (l : list A) (i : Z) (x : A) : option (list A) :=
  if 0 <=? i then store l (Z.to_nat i) x else None.

Lemma wrap_range w x : 0 ≤ w → 0 ≤ wrap w x < 2 ^ w.
Proof. intros. apply Z.mod_pos_bound. by apply Z.pow_pos_nonneg. Qed.

Lemma wrap_small w x : 0 ≤ x < 2 ^ w → wrap w x = x.
Proof. apply Z.mod_small. Qed.

Lemma swrap_small w x : 0 < w → - 2 ^ (w - 1) ≤ x < 2 ^ (w - 1) → swrap w x = x.
Proof.
  intros Hw Hx. unfold swrap. rewrite Z.mod_small; [lia|].
  replace (2 ^ w) with (2 * 2 ^ (w - 1)); [lia|].
  rewrite <- Z.pow_succ_r by lia. f_equal. lia.
Qed.

Lemma wrap_swrap w x : 0 < w → wrap w (swrap w x) = wrap w x.
Proof.
  intros Hw. unfold wrap, swrap. rewrite Zminus_mod_idemp_l. f_equal. lia.
Qed.

Lemma rd_lt {A} (l : list A) i : 0 ≤ i < Z.of_nat (length l) → is_Some (rd l i).
Proof.
  intros H. unfold rd. rewrite (proj2 (Z.leb_le _ _)) by lia. apply lookup_lt_is_Some. lia.
Qed.

Lemma wr_lt {A} (l : list A) i x :
  0 ≤ i < Z.of_nat (length l) → wr l i x = Some (<[Z.to_nat i := x]> l).
Proof.
  intros H. unfold wr. rewrite (proj2 (Z.leb_le _ _)) by lia. apply store_lt. lia.
Qed.

(** ** Bytes and little-endian numbers *)

Definition is_byte (b : Z) : Prop := 0 ≤ b < 256.

Fixpoint le_value (b : list Z) : Z :=
  match b with [] => 0 | x :: b' => x + 256 * le_value b' end.

Fixpoint le_bytes (n : nat) (x : Z) : list Z :=
  match n with O => [] | S n' => x mod 256 :: le_bytes n' (x / 256) end.

Lemma le_bytes_length n x : length (le_bytes n x) = n.
Proof. revert x. induction n as [|n IH]; intros x; cbn; [done|by rewrite IH]. Qed.

Lemma le_bytes_is_byte n x : Forall is_byte (le_bytes n x).
Proof.
  revert x. induction n as [|n IH]; intros x; cbn; constructor; [|done].
  apply Z.mod_pos_bound. lia.
Qed.

Lemma le_value_bytes n x : le_value (le_bytes n x) = x mod 2 ^ (8 * Z.of_nat n).
Proof.
  revert x. induction n as [|n IH]; intros x; cbn [le_bytes le_value]; [by rewrite Z.mod_1_r|].
  rewrite IH. replace (8 * Z.of_nat (S n)) with (8 + 8 * Z.of_nat n) by lia.
  rewrite Z.pow_add_r, Z.rem_mul_r by lia. done.
Qed.

Lemma s64_small x : - 2 ^ 63 ≤ x < 2 ^ 63 → s64 (x mod 2 ^ 64) = x.
Proof.
  intros Hx. unfold s64, swrap. rewrite Zplus_mod_idemp_l, Z.mod_small; lia.
Qed.

(** ** Automation *)

(** [guards] settles the comparisons in the goal that arithmetic decides, the way
    the code's early returns are taken or passed. *)

Ltac guards :=
  repeat match goal with
  | |- context [Nat.ltb ?a ?b] =>
    first [rewrite (proj2 (Nat.ltb_lt a b)) by lia | rewrite (proj2 (Nat.ltb_ge a b)) by lia]
  | |- context [Nat.leb ?a ?b] =>
    first [rewrite (proj2 (Nat.leb_le a b)) by lia | rewrite (proj2 (Nat.leb_gt a b)) by lia]
  | |- context [Z.ltb ?a ?b] =>
    first [rewrite (proj2 (Z.ltb_lt a b)) by lia | rewrite (proj2 (Z.ltb_ge a b)) by lia]
  | |- context [Z.leb ?a ?b] =>
    first [rewrite (proj2 (Z.leb_le a b)) by lia | rewrite (proj2 (Z.leb_gt a b)) by lia]
  | |- context [Z.eqb ?a ?b] =>
    first [rewrite (proj2 (Z.eqb_eq a b)) by lia | rewrite (proj2 (Z.eqb_neq a b)) by lia]
  end; cbn [negb andb orb].

(** [lens] proves facts about the lengths of buffers built from others. *)

Create Rewrite HintDb lengths.
#[export] Hint Rewrite @length_app @length_take @length_drop @length_fmap @length_insert
  @length_replicate @length_seq @length_cons @length_nil le_bytes_length : lengths.

Ltac lens := autorewrite with lengths in *; cbn [length] in *; lia.

(** [binds] runs the steps of the option monad whose result is known. *)

Ltac binds := cbn [mbind option_bind fmap option_fmap option_map].
