(* ===== verification/ParseConf.v ===== *)
(** * Configuration and protocol line parser (src/src/common/parseconf.c) *)

From Stdlib Require Import ZArith Lia String.
From stdpp Require Import base tactics list numbers option sets.
From S2P Require Import Prelude.

#[local] Open Scope Z_scope.

(** ** Data *)

Inductive pstate :=
  | STATE_FINDWORDSTART
  | STATE_FINDEOL
  | STATE_QUOTECOLLECT
  | STATE_QC_LITERAL
  | STATE_COLLECT
  | STATE_COLLECTLITERAL
  | STATE_ENDOFLINE
  | STATE_PARSEERR.

#[export] Instance pstate_eq_dec : EqDecision pstate.
Proof. solve_decision. Defined.

Definition PCONF_CTX_t_MAGIC : Z := 0x00726630.
Definition PCONF_ERR_LEN : nat := 256.
Definition PCONF_DEFAULT_ARG_LIMIT : nat := 32.
Definition PCONF_DEFAULT_WORDLEN_LIMIT : nat := 512.

(** The context buffer.  [f] is the rest of the open stream, [None] for a NULL
    [FILE *]; [arglist] holds the allocated words, [[]] for a NULL word;
    [wordptr] is the offset of the C pointer into [wordbuf]. *)

Record PCONF_CTX_t := MkCtx {
  f : option (list Z);
  state : pstate;
  ch : Z;
  arglist : list (list Z);
  argsize : list nat;
  numargs : nat;
  maxargs : nat;
  wordbuf : list Z;
  wordptr : nat;
  wordbufsize : nat;
  linenum : Z;
  error : Z;
  errmsg : list Z;
  magic : Z;
  arg_limit : nat;
  wordlen_limit : nat
}.

Definition set_f x c := MkCtx x (state c) (ch c) (arglist c) (argsize c) (numargs c) (maxargs c)
  (wordbuf c) (wordptr c) (wordbufsize c) (linenum c) (error c) (errmsg c) (magic c)
  (arg_limit c) (wordlen_limit c).
Definition set_state x c := MkCtx (f c) x (ch c) (arglist c) (argsize c) (numargs c) (maxargs c)
  (wordbuf c) (wordptr c) (wordbufsize c) (linenum c) (error c) (errmsg c) (magic c)
  (arg_limit c) (wordlen_limit c).
Definition set_ch x c := MkCtx (f c) (state c) x (arglist c) (argsize c) (numargs c) (maxargs c)
  (wordbuf c) (wordptr c) (wordbufsize c) (linenum c) (error c) (errmsg c) (magic c)
  (arg_limit c) (wordlen_limit c).
Definition set_args al az n m c := MkCtx (f c) (state c) (ch c) al az n m
  (wordbuf c) (wordptr c) (wordbufsize c) (linenum c) (error c) (errmsg c) (magic c)
  (arg_limit c) (wordlen_limit c).
Definition set_word wb wp ws c := MkCtx (f c) (state c) (ch c) (arglist c) (argsize c) (numargs c)
  (maxargs c) wb wp ws (linenum c) (error c) (errmsg c) (magic c) (arg_limit c) (wordlen_limit c).
Definition set_err e msg c := MkCtx (f c) (state c) (ch c) (arglist c) (argsize c) (numargs c)
  (maxargs c) (wordbuf c) (wordptr c) (wordbufsize c) (linenum c) e msg (magic c)
  (arg_limit c) (wordlen_limit c).
Definition set_linenum x c := MkCtx (f c) (state c) (ch c) (arglist c) (argsize c) (numargs c)
  (maxargs c) (wordbuf c) (wordptr c) (wordbufsize c) x (error c) (errmsg c) (magic c)
  (arg_limit c) (wordlen_limit c).
Definition set_magic x c := MkCtx (f c) (state c) (ch c) (arglist c) (argsize c) (numargs c)
  (maxargs c) (wordbuf c) (wordptr c) (wordbufsize c) (linenum c) (error c) (errmsg c) x
  (arg_limit c) (wordlen_limit c).

(** ** Operations

    [None] is an out-of-bounds access.  Allocations succeed: a failed one ends
    the process in [pconf_fatal]. *)

Section Ops.
(** What [realloc] leaves in fresh memory. *)
Context (junk : nat → Z).

Definition add_arg_word (c : PCONF_CTX_t) : option PCONF_CTX_t :=
  let argpos := numargs c in
  let n := S (numargs c) in
  let '(al, az, m) :=
    if (maxargs c <? n)%nat
    then (realloc (λ _, []) (arglist c) n, realloc (λ _, 0%nat) (argsize c) n, n)
    else (arglist c, argsize c, maxargs c) in
  wbuflen ← strlen (wordbuf c);
  sz ← az !! argpos;
  word ← al !! argpos;
  let '(word, sz) :=
    if (sz <=? wbuflen)%nat
    then (realloc junk word (S wbuflen), S wbuflen)
    else (word, sz) in
  (* memset to '\0', then strncpy of the first wbuflen characters *)
  if (sz <=? length word)%nat && (wbuflen <=? sz)%nat then
    let word := take wbuflen (wordbuf c) ++ replicate (sz - wbuflen) 0 ++ drop sz word in
    al ← store al argpos word;
    az ← store az argpos sz;
    Some (set_args al az n m c)
  else None.

Definition addchar (c : PCONF_CTX_t) : option PCONF_CTX_t :=
  wbuflen ← strlen (wordbuf c);
  if (ch c <? 0x20) || (0x7f <? ch c) then Some c
  else if negb (wordlen_limit c =? 0)%nat && (wordlen_limit c <=? wbuflen)%nat then Some c
  else
    (* wordbufsize starts at 16 and only grows: the subtraction cannot wrap *)
    let c :=
      if (wordbufsize c - 1 <=? wbuflen)%nat
      then set_word (realloc junk (wordbuf c) (wordbufsize c + 8)) wbuflen (wordbufsize c + 8) c
      else c in
    wb ← store (wordbuf c) (wordptr c) (ch c);
    wb ← store wb (S (wordptr c)) 0;
    Some (set_word wb (S (wordptr c)) (wordbufsize c) c).

Definition reset_word (c : PCONF_CTX_t) : option PCONF_CTX_t :=
  wb ← store (wordbuf c) 0 0;
  Some (set_word wb 0 (wordbufsize c) c).

Definition endofword (c : PCONF_CTX_t) : option PCONF_CTX_t :=
  if negb (arg_limit c =? 0)%nat && (arg_limit c <=? numargs c)%nat then reset_word c
  else c ← add_arg_word c; reset_word c.

Definition findwordstart (c : PCONF_CTX_t) : option (PCONF_CTX_t * pstate) :=
  if ch c =? 10 then Some (c, STATE_ENDOFLINE)
  else if ch c =? 35 then Some (c, STATE_FINDEOL)
  else if isspace (ch c) then Some (c, STATE_FINDWORDSTART)
  else if ch c =? 92 then Some (c, STATE_COLLECTLITERAL)
  else if ch c =? 34 then Some (c, STATE_QUOTECOLLECT)
  else
    c ← addchar c;
    if ch c =? 61 then c ← endofword c; Some (c, STATE_FINDWORDSTART)
    else Some (c, STATE_COLLECT).

Definition findeol (c : PCONF_CTX_t) : option (PCONF_CTX_t * pstate) :=
  if ch c =? 10 then Some (c, STATE_ENDOFLINE) else Some (c, STATE_FINDEOL).

Definition pconf_seterr (msg : list Z) (c : PCONF_CTX_t) : PCONF_CTX_t :=
  set_err 1 (take (PCONF_ERR_LEN - 1) msg) c.

Definition quotecollect (c : PCONF_CTX_t) : option (PCONF_CTX_t * pstate) :=
  if ch c =? 35 then
    c ← endofword (pconf_seterr (str "Unbalanced word due to unescaped # in quotes") c);
    Some (c, STATE_PARSEERR)
  else if ch c =? 34 then c ← endofword c; Some (c, STATE_FINDWORDSTART)
  else if ch c =? 92 then Some (c, STATE_QC_LITERAL)
  else c ← addchar c; Some (c, STATE_QUOTECOLLECT).

Definition qc_literal (c : PCONF_CTX_t) : option (PCONF_CTX_t * pstate) :=
  if ch c =? 10 then Some (c, STATE_QUOTECOLLECT)
  else c ← addchar c; Some (c, STATE_QUOTECOLLECT).

Definition collect (c : PCONF_CTX_t) : option (PCONF_CTX_t * pstate) :=
  if ch c =? 35 then c ← endofword c; Some (c, STATE_FINDEOL)
  else if ch c =? 10 then c ← endofword c; Some (c, STATE_ENDOFLINE)
  else if isspace (ch c) then c ← endofword c; Some (c, STATE_FINDWORDSTART)
  else if ch c =? 61 then
    c ← endofword c;
    '(c, _) ← findwordstart c;
    Some (c, STATE_FINDWORDSTART)
  else if ch c =? 92 then Some (c, STATE_COLLECTLITERAL)
  else c ← addchar c; Some (c, STATE_COLLECT).

Definition collectliteral (c : PCONF_CTX_t) : option (PCONF_CTX_t * pstate) :=
  if ch c =? 10 then Some (c, STATE_COLLECT)
  else c ← addchar c; Some (c, STATE_COLLECT).

Definition parse_char (c : PCONF_CTX_t) : option PCONF_CTX_t :=
  let step h := '(c, s) ← h c; Some (set_state s c) in
  match state c with
  | STATE_FINDWORDSTART => step findwordstart
  | STATE_FINDEOL => step findeol
  | STATE_QUOTECOLLECT => step quotecollect
  | STATE_QC_LITERAL => step qc_literal
  | STATE_COLLECT => step collect
  | STATE_COLLECTLITERAL => step collectliteral
  | _ => Some c
  end.

(** [free_storage] returns the word buffer and every argument to the heap; the
    context forgets the arguments (its [wordbuf] is left dangling). *)

Definition free_storage (c : PCONF_CTX_t) : PCONF_CTX_t :=
  set_word [] 0 (wordbufsize c) (set_args [] [] 0 0 c).

(** [pconf_init] keeps from the caller's memory only what it does not set. *)

Definition pconf_init (c : PCONF_CTX_t) : PCONF_CTX_t :=
  MkCtx None STATE_FINDWORDSTART (ch c) [] [] 0 0 (replicate 16 0) 0 16 0 0 (errmsg c)
    PCONF_CTX_t_MAGIC PCONF_DEFAULT_ARG_LIMIT PCONF_DEFAULT_WORDLEN_LIMIT.

Definition check_magic (c : PCONF_CTX_t) : bool * PCONF_CTX_t :=
  if magic c =? PCONF_CTX_t_MAGIC then (true, c)
  else (false, set_err (error c) (str "Invalid ctx buffer") c).

(** [file] is what opening the named file gives: its bytes, or the system's
    error text. *)

Definition pconf_file_begin (file : list Z + list Z) (fn : list Z) (c : PCONF_CTX_t)
    : PCONF_CTX_t * Z :=
  match check_magic c with
  | (false, c) => (c, 0)
  | (true, c) =>
    match file with
    | inl bytes => (set_f (Some bytes) c, 1)
    | inr why =>
      (set_f None (set_err (error c)
         (take (PCONF_ERR_LEN - 1) (str "Can't open " ++ fn ++ str ": " ++ why)) c), 0)
    end
  end.

Definition pconf_parse_error (c : PCONF_CTX_t) : PCONF_CTX_t * Z :=
  match check_magic c with
  | (false, c) => (c, 0)
  | (true, c) => if error c =? 1 then (set_err 0 (errmsg c) c, 1) else (c, 0)
  end.

Definition pconf_finish (c : PCONF_CTX_t) : PCONF_CTX_t :=
  match check_magic c with
  | (false, c) => c
  | (true, c) => set_magic 0 (free_storage c)
  end.

Definition line_done (s : pstate) : bool :=
  match s with STATE_PARSEERR | STATE_ENDOFLINE => true | _ => false end.

Definition begin_line (c : PCONF_CTX_t) : PCONF_CTX_t :=
  set_state STATE_FINDWORDSTART
    (set_args (arglist c) (argsize c) 0 (maxargs c) (set_linenum (linenum c + 1) c)).

(** The read loop of [pconf_file_next]; [true] when a line (or an error) ended it. *)

Fixpoint file_loop (bytes : list Z) (c : PCONF_CTX_t) : option (PCONF_CTX_t * bool) :=
  match bytes with
  | [] => Some (set_ch (-1) (set_f (Some []) c), false)
  | b :: bytes' =>
    c ← parse_char (set_ch b (set_f (Some bytes') c));
    if line_done (state c) then Some (c, true) else file_loop bytes' c
  end.

Definition pconf_file_next (c : PCONF_CTX_t) : option (PCONF_CTX_t * Z) :=
  match check_magic c with
  | (false, c) => Some (c, 0)
  | (true, c) =>
    let c := begin_line c in
    bytes ← f c;
    '(c, ended) ← file_loop bytes c;
    if (ended : bool) then Some (c, 1)
    else if negb (numargs c =? 0)%nat then
      if negb (wordptr c =? 0)%nat then c ← endofword c; Some (c, 1) else Some (c, 1)
    else Some (c, 0)
  end.

(** The character loop of [pconf_line]; [true] when the line ended early. *)

Fixpoint line_loop (line : list Z) (c : PCONF_CTX_t) : option (PCONF_CTX_t * bool) :=
  match line with
  | [] => Some (c, false)
  | x :: line' =>
    c ← parse_char (set_ch x c);
    if line_done (state c) then Some (c, true) else line_loop line' c
  end.

Definition pconf_line (line : list Z) (c : PCONF_CTX_t) : option (PCONF_CTX_t * Z) :=
  match check_magic c with
  | (false, c) => Some (c, 0)
  | (true, c) =>
    '(c, ended) ← line_loop line (begin_line c);
    if (ended : bool) then Some (c, 1)
    else if negb (wordptr c =? 0)%nat then c ← endofword c; Some (c, 1)
    else Some (c, 1)
  end.

Definition pconf_char (x : Z) (c : PCONF_CTX_t) : option (PCONF_CTX_t * Z) :=
  match check_magic c with
  | (false, c) => Some (c, -1)
  | (true, c) =>
    let c :=
      if line_done (state c)
      then set_state STATE_FINDWORDSTART (set_args (arglist c) (argsize c) 0 (maxargs c) c)
      else c in
    c ← parse_char (set_ch x c);
    match state c with
    | STATE_ENDOFLINE => Some (c, 1)
    | STATE_PARSEERR => Some (c, -1)
    | _ => Some (c, 0)
    end
  end.

End Ops.

(** [pconf_encode]: [dest] is the caller's buffer, [None] a write outside it. *)

Definition PCONF_ESCAPE : list Z := [35; 92; 34].

Fixpoint encode_loop (src dest : list Z) (destlen : nat) (maxlen : Z) : option (list Z) :=
  match src with
  | [] => Some dest
  | x :: src' =>
    let put dest destlen :=
      if maxlen <=? Z.of_nat destlen then Some dest
      else dest ← store dest destlen x; encode_loop src' dest (S destlen) maxlen in
    if bool_decide (x ∈ PCONF_ESCAPE) then
      if size_wrap (maxlen - 1) <=? Z.of_nat destlen then Some dest
      else dest ← store dest destlen 92; put dest (S destlen)
    else put dest destlen
  end.

Definition pconf_encode (src dest : list Z) (destsize : nat) : option (list Z) :=
  if (destsize <? 1)%nat then Some dest
  else if (length dest <? destsize)%nat then None
  else encode_loop src (replicate destsize 0 ++ drop destsize dest) 0 (Z.of_nat destsize - 1).

(** ** Specification: the parser over lists of words

    The same automaton with unbounded lists in place of the C buffers: the
    words committed so far, the word being collected and the error flag. *)

Record pspec := MkSpec {
  sp_state : pstate;
  sp_words : list (list Z);
  sp_cur : list Z;
  sp_error : Z
}.

Definition sp_goto (st : pstate) (s : pspec) : pspec :=
  MkSpec st (sp_words s) (sp_cur s) (sp_error s).

#[global] Arguments sp_goto st s /.

Definition printable (x : Z) : bool := (0x20 <=? x) && (x <=? 0x7f).

Definition sp_addchar (wl : nat) (x : Z) (s : pspec) : pspec :=
  if printable x && ((wl =? 0)%nat || (length (sp_cur s) <? wl)%nat)
  then MkSpec (sp_state s) (sp_words s) (sp_cur s ++ [x]) (sp_error s)
  else s.

Definition sp_endofword (al : nat) (s : pspec) : pspec :=
  if (al =? 0)%nat || (length (sp_words s) <? al)%nat
  then MkSpec (sp_state s) (sp_words s ++ [sp_cur s]) [] (sp_error s)
  else MkSpec (sp_state s) (sp_words s) [] (sp_error s).

Definition sp_seterr (s : pspec) : pspec := MkSpec (sp_state s) (sp_words s) (sp_cur s) 1.

Definition sp_step (al wl : nat) (x : Z) (s : pspec) : pspec :=
  match sp_state s with
  | STATE_FINDWORDSTART =>
    if x =? 10 then sp_goto STATE_ENDOFLINE s
    else if x =? 35 then sp_goto STATE_FINDEOL s
    else if isspace x then sp_goto STATE_FINDWORDSTART s
    else if x =? 92 then sp_goto STATE_COLLECTLITERAL s
    else if x =? 34 then sp_goto STATE_QUOTECOLLECT s
    else if x =? 61 then sp_goto STATE_FINDWORDSTART (sp_endofword al (sp_addchar wl x s))
    else sp_goto STATE_COLLECT (sp_addchar wl x s)
  | STATE_FINDEOL => sp_goto (if x =? 10 then STATE_ENDOFLINE else STATE_FINDEOL) s
  | STATE_QUOTECOLLECT =>
    if x =? 35 then sp_goto STATE_PARSEERR (sp_endofword al (sp_seterr s))
    else if x =? 34 then sp_goto STATE_FINDWORDSTART (sp_endofword al s)
    else if x =? 92 then sp_goto STATE_QC_LITERAL s
    else sp_goto STATE_QUOTECOLLECT (sp_addchar wl x s)
  | STATE_QC_LITERAL =>
    sp_goto STATE_QUOTECOLLECT (if x =? 10 then s else sp_addchar wl x s)
  | STATE_COLLECT =>
    if x =? 35 then sp_goto STATE_FINDEOL (sp_endofword al s)
    else if x =? 10 then sp_goto STATE_ENDOFLINE (sp_endofword al s)
    else if isspace x then sp_goto STATE_FINDWORDSTART (sp_endofword al s)
    else if x =? 61 then
      sp_goto STATE_FINDWORDSTART (sp_endofword al (sp_addchar wl x (sp_endofword al s)))
    else if x =? 92 then sp_goto STATE_COLLECTLITERAL s
    else sp_goto STATE_COLLECT (sp_addchar wl x s)
  | STATE_COLLECTLITERAL =>
    sp_goto STATE_COLLECT (if x =? 10 then s else sp_addchar wl x s)
  | _ => s
  end.

(** A whole line: the state where it ended with the characters left unread, or
    where the input ran out. *)

Fixpoint sp_run (al wl : nat) (line : list Z) (s : pspec) : pspec * option (list Z) :=
  match line with
  | [] => (s, None)
  | x :: line' =>
    let s' := sp_step al wl x s in
    if line_done (sp_state s') then (s', Some line') else sp_run al wl line' s'
  end.

Definition sp_start (s : pspec) : pspec := MkSpec STATE_FINDWORDSTART [] (sp_cur s) (sp_error s).

(** The end of a line given as a string: a word still being collected is committed. *)

Definition sp_line (al wl : nat) (line : list Z) (s : pspec) : pspec :=
  match sp_run al wl line (sp_start s) with
  | (s', Some _) => s'
  | (s', None) => match sp_cur s' with [] => s' | _ => sp_endofword al s' end
  end.

(** The words the caller finds in [arglist[0 .. numargs - 1]]. *)

Definition words (c : PCONF_CTX_t) : list (list Z) :=
  (λ b, default [] (cstr b)) <$> take (numargs c) (arglist c).

Definition cur (c : PCONF_CTX_t) : list Z := take (wordptr c) (wordbuf c).

Definition abs (c : PCONF_CTX_t) : pspec := MkSpec (state c) (words c) (cur c) (error c).

(** Well-formed contexts: the arrays have the sizes the context records, the
    collected word is NUL-terminated where [wordptr] points, and so is every
    committed argument. *)

Record ctx_ok (c : PCONF_CTX_t) : Prop := {
  ok_maxargs : length (arglist c) = maxargs c;
  ok_argsize : argsize c = length <$> arglist c;
  ok_numargs : (numargs c ≤ maxargs c)%nat;
  ok_bufsize : length (wordbuf c) = wordbufsize c;
  ok_ptr : wordbuf c !! wordptr c = Some 0;
  ok_word : Forall (λ x, x ≠ 0) (cur c);
  ok_nul : Forall (λ b, is_Some (strlen b)) (take (numargs c) (arglist c))
}.

(** What no parsing step touches, and what no line touches. *)

Definition env (c : PCONF_CTX_t) := (f c, ch c, linenum c, magic c, arg_limit c, wordlen_limit c).

Definition limits (c : PCONF_CTX_t) := (magic c, arg_limit c, wordlen_limit c).

(** Feeding a line a character at a time until [pconf_char] reports its end. *)

Fixpoint feed (junk : nat → Z) (line : list Z) (c : PCONF_CTX_t) : option (PCONF_CTX_t * Z) :=
  match line with
  | [] => Some (c, 0)
  | x :: line' =>
    '(c, r) ← pconf_char junk x c;
    if r =? 0 then feed junk line' c else Some (c, r)
  end.

(** ** The buffers refine the specification *)

Section Refinement.
Context (junk : nat → Z).

Lemma ok_ptr_lt c : ctx_ok c → (wordptr c < wordbufsize c)%nat.
Proof. intros H. rewrite <- (ok_bufsize c H). eapply lookup_lt_Some, (ok_ptr c H). Qed.

Lemma cur_length c : ctx_ok c → length (cur c) = wordptr c.
Proof.
  intros H. unfold cur. rewrite length_take, (ok_bufsize c H).
  pose proof (ok_ptr_lt c H). lia.
Qed.

Lemma ok_wordbuf c : ctx_ok c → wordbuf c = cur c ++ 0 :: drop (S (wordptr c)) (wordbuf c).
Proof. intros H. apply buf_split, (ok_ptr c H). Qed.

Lemma ok_strlen c : ctx_ok c → strlen (wordbuf c) = Some (wordptr c).
Proof.
  intros H. rewrite (ok_wordbuf c H), strlen_split by apply (ok_word c H).
  by rewrite cur_length.
Qed.

Lemma words_length c : ctx_ok c → length (words c) = numargs c.
Proof.
  intros H. unfold words. rewrite length_fmap, length_take, (ok_maxargs c H).
  pose proof (ok_numargs c H). lia.
Qed.

(** Storing a NUL-terminated word right after the committed ones. *)

Lemma words_snoc c al az m w pad :
  Forall (λ x, x ≠ 0) w → (numargs c ≤ length (arglist c))%nat →
  take (numargs c) al = take (numargs c) (arglist c) →
  al !! numargs c = Some (w ++ 0 :: pad) →
  words (set_args al az (S (numargs c)) m c) = words c ++ [w].
Proof.
  intros Hw Hn Htake Hal. unfold words. cbn.
  rewrite (take_S_r _ _ _ Hal), fmap_app, Htake. cbn.
  by rewrite cstr_split.
Qed.

Lemma take_store_snoc {A} (al : list A) n x : take n (<[n:=x]> al) = take n al.
Proof. by rewrite take_insert_ge. Qed.

(** The argument slot at [numargs], grown when it is new: its array stays
    consistent and its prefix is what it was. *)

Definition grown (c : PCONF_CTX_t) : list (list Z) :=
  if (maxargs c <? S (numargs c))%nat then realloc (λ _, []) (arglist c) (S (numargs c))
  else arglist c.

Lemma grown_ok c :
  ctx_ok c →
  (if (maxargs c <? S (numargs c))%nat
   then (realloc (λ _, []) (arglist c) (S (numargs c)),
         realloc (λ _, 0%nat) (argsize c) (S (numargs c)), S (numargs c))
   else (arglist c, argsize c, maxargs c))
  = (grown c, length <$> grown c, length (grown c))
  ∧ (numargs c < length (grown c))%nat
  ∧ take (numargs c) (grown c) = take (numargs c) (arglist c).
Proof.
  intros H. unfold grown. pose proof (ok_numargs c H). pose proof (ok_maxargs c H).
  destruct (Nat.ltb_spec (maxargs c) (S (numargs c))) as [Hlt|Hge].
  - assert (numargs c = length (arglist c)) as Heq by lia.
    rewrite realloc_length by lia. split_and!; [|lia|].
    + rewrite (ok_argsize c H). unfold realloc.
      rewrite length_fmap, fmap_app, fmap_take.
      replace (S (numargs c) - length (arglist c))%nat with 1%nat by lia. done.
    + destruct (realloc_grow (λ _, []) (arglist c) (S (numargs c)) ltac:(lia)) as (new & -> & _).
      by rewrite Heq, take_app_length, take_ge by lia.
  - split_and!; [|lia|done]. by rewrite (ok_argsize c H), (ok_maxargs c H).
Qed.

(** The slot after the optional growth has room for the word and its NUL. *)

Lemma slot_fit (word : list Z) n :
  ∃ b, (if (length word <=? n)%nat then (realloc junk word (S n), S n) else (word, length word))
       = (b, length b) ∧ (n < length b)%nat.
Proof.
  destruct (Nat.leb_spec (length word) n).
  - exists (realloc junk word (S n)). rewrite realloc_length by lia. split; [done|lia].
  - by exists word.
Qed.

(** Overwriting slot [numargs] with the padded word keeps the context well-formed. *)

Lemma commit_word_ok c (b : list Z) :
  ctx_ok c → (wordptr c < length b)%nat →
  let w := cur c ++ replicate (length b - wordptr c) 0 in
  let c' := set_args (<[numargs c:=w]> (grown c)) (<[numargs c:=length b]> (length <$> grown c))
              (S (numargs c)) (length (grown c)) c in
  ctx_ok c' ∧ words c' = words c ++ [cur c].
Proof.
  intros H Hb w c'. destruct (grown_ok c H) as (_ & Hlt & Htake).
  assert (length w = length b) as Hw
    by (unfold w; rewrite length_app, length_replicate, cur_length by done; lia).
  assert (w = cur c ++ 0 :: replicate (length b - S (wordptr c)) 0) as Hnul.
  { unfold w. f_equal. by replace (length b - wordptr c)%nat
      with (S (length b - S (wordptr c))) by lia. }
  assert (<[numargs c:=w]> (grown c) !! numargs c = Some w) as Hlook
    by by apply list_lookup_insert_eq.
  split.
  - constructor; unfold c';
      cbn [arglist argsize numargs maxargs wordbuf wordptr wordbufsize set_args].
    + by rewrite length_insert.
    + by rewrite list_fmap_insert, Hw.
    + lia.
    + apply (ok_bufsize c H).
    + apply (ok_ptr c H).
    + apply (ok_word c H).
    + rewrite (take_S_r _ _ _ Hlook), take_store_snoc, Htake, Forall_app, Forall_singleton.
      split; [apply (ok_nul c H)|]. rewrite Hnul, strlen_split by apply (ok_word c H). eauto.
  - eapply words_snoc; [apply (ok_word c H)|rewrite (ok_maxargs c H); apply (ok_numargs c H)| |].
    + by rewrite take_store_snoc.
    + by rewrite Hlook, Hnul.
Qed.

Lemma add_arg_word_ok c :
  ctx_ok c →
  ∃ c', add_arg_word junk c = Some c' ∧ ctx_ok c' ∧ env c' = env c ∧ state c' = state c
    ∧ error c' = error c ∧ words c' = words c ++ [cur c]
    ∧ wordbuf c' = wordbuf c ∧ wordptr c' = wordptr c ∧ wordbufsize c' = wordbufsize c.
Proof.
  intros H. destruct (grown_ok c H) as (Hg & Hlt & Htake).
  unfold add_arg_word. rewrite Hg. clear Hg. cbn zeta.
  rewrite (ok_strlen c H). cbn [mbind option_bind].
  destruct (lookup_lt_is_Some_2 _ _ Hlt) as [word Hword].
  rewrite list_lookup_fmap, Hword. cbn [fmap option_fmap option_map mbind option_bind].
  destruct (slot_fit word (wordptr c)) as (b & -> & Hb).
  rewrite (proj2 (Nat.leb_le (length b) (length b))),
    (proj2 (Nat.leb_le (wordptr c) (length b))) by lia.
  cbn [andb]. rewrite drop_all, app_nil_r.
  rewrite !store_lt by (rewrite ?length_fmap; lia). cbn [mbind option_bind].
  destruct (commit_word_ok c b H Hb) as [H1 Hw].
  eexists. split_and!; [reflexivity|exact H1|done..|exact Hw|done|done|done].
Qed.

Lemma reset_word_ok c :
  ctx_ok c →
  ∃ c', reset_word c = Some c' ∧ ctx_ok c' ∧ env c' = env c
    ∧ abs c' = MkSpec (state c) (words c) [] (error c).
Proof.
  intros H. pose proof (ok_ptr_lt c H). unfold reset_word.
  rewrite store_lt by (rewrite (ok_bufsize c H); lia). cbn.
  eexists. split_and!; [reflexivity| |done|done].
  constructor; cbn; try apply H.
  - rewrite length_insert. apply (ok_bufsize c H).
  - apply list_lookup_insert_eq. rewrite (ok_bufsize c H). lia.
  - constructor.
Qed.

Lemma endofword_ok c :
  ctx_ok c →
  ∃ c', endofword junk c = Some c' ∧ ctx_ok c' ∧ env c' = env c
    ∧ abs c' = sp_endofword (arg_limit c) (abs c).
Proof.
  intros H. unfold endofword, sp_endofword. cbn [abs sp_words sp_state sp_cur sp_error].
  rewrite (words_length c H).
  destruct (Nat.eqb_spec (arg_limit c) 0), (Nat.leb_spec (arg_limit c) (numargs c)),
    (Nat.ltb_spec (numargs c) (arg_limit c)); cbn [negb andb orb]; try lia;
    try (by apply reset_word_ok);
    destruct (add_arg_word_ok c H) as (c1 & -> & Hok1 & He & Hs & Hr & Hw & _);
    destruct (reset_word_ok c1 Hok1) as (c2 & Hc2 & Hok2 & He2 & Ha2);
    exists c2; cbn [mbind option_bind]; rewrite Ha2, Hs, Hr, Hw, He2, He; done.
Qed.

Lemma grow_word_ok c n :
  ctx_ok c → (wordbufsize c ≤ n)%nat →
  let c' := set_word (realloc junk (wordbuf c) n) (wordptr c) n c in
  ctx_ok c' ∧ abs c' = abs c.
Proof.
  intros H Hn c'. pose proof (ok_ptr_lt c H). pose proof (ok_bufsize c H) as Hb.
  destruct (realloc_grow junk (wordbuf c) n ltac:(lia)) as (new & E & Hnew).
  assert (cur c' = cur c) as Hcur.
  { unfold cur, c'. cbn. rewrite E. apply take_app_le. lia. }
  split; [|unfold abs; by rewrite Hcur].
  constructor; try apply H.
  - unfold c'. cbn. rewrite E, length_app. lia.
  - unfold c'. cbn. rewrite E, lookup_app_l by lia. apply (ok_ptr c H).
  - rewrite Hcur. apply (ok_word c H).
Qed.

Lemma push_ok c :
  ctx_ok c → (S (wordptr c) < wordbufsize c)%nat → ch c ≠ 0 →
  ∃ c', (wb ← store (wordbuf c) (wordptr c) (ch c);
         wb ← store wb (S (wordptr c)) 0;
         Some (set_word wb (S (wordptr c)) (wordbufsize c) c)) = Some c'
    ∧ ctx_ok c' ∧ env c' = env c
    ∧ abs c' = MkSpec (state c) (words c) (cur c ++ [ch c]) (error c).
Proof.
  intros H Hlt Hch. pose proof (ok_bufsize c H) as Hb.
  rewrite store_lt by lia. cbn [mbind option_bind].
  rewrite store_lt by (rewrite length_insert; lia). cbn [mbind option_bind].
  eexists. split; [reflexivity|].
  set (c' := set_word _ _ _ _).
  assert (cur c' = cur c ++ [ch c]) as Hcur.
  { unfold cur, c'. cbn [wordptr wordbuf set_word].
    rewrite take_insert_ge by lia. erewrite take_S_r by (apply list_lookup_insert_eq; lia).
    by rewrite take_insert_ge by lia. }
  split_and!; [|done|unfold abs; by rewrite Hcur].
  constructor; try apply H.
  - unfold c'. cbn. by rewrite !length_insert.
  - unfold c'. cbn. apply list_lookup_insert_eq. rewrite length_insert. lia.
  - rewrite Hcur, Forall_app, Forall_singleton. split; [apply (ok_word c H)|done].
Qed.

Lemma addchar_ok c :
  ctx_ok c →
  ∃ c', addchar junk c = Some c' ∧ ctx_ok c' ∧ env c' = env c
    ∧ abs c' = sp_addchar (wordlen_limit c) (ch c) (abs c).
Proof.
  intros H. unfold addchar, sp_addchar, printable. rewrite (ok_strlen c H).
  cbn [mbind option_bind abs sp_words sp_state sp_cur sp_error]. rewrite (cur_length c H).
  destruct (Z.ltb_spec (ch c) 0x20), (Z.leb_spec 0x20 (ch c)), (Z.ltb_spec 0x7f (ch c)),
    (Z.leb_spec (ch c) 0x7f); cbn [orb andb]; try lia; try by exists c.
  pose proof (ok_ptr_lt c H).
  assert (∃ c', (let c := if (wordbufsize c - 1 <=? wordptr c)%nat
      then set_word (realloc junk (wordbuf c) (wordbufsize c + 8)) (wordptr c) (wordbufsize c + 8) c
      else c in
      wb ← store (wordbuf c) (wordptr c) (ch c);
      wb ← store wb (S (wordptr c)) 0;
      Some (set_word wb (S (wordptr c)) (wordbufsize c) c)) = Some c'
    ∧ ctx_ok c' ∧ env c' = env c
    ∧ abs c' = MkSpec (state c) (words c) (cur c ++ [ch c]) (error c)) as Hpush.
  { destruct (Nat.leb_spec (wordbufsize c - 1) (wordptr c)); cbn zeta.
    - destruct (grow_word_ok c (wordbufsize c + 8) H ltac:(lia)) as [Hg Ha].
      destruct (push_ok _ Hg) as (c' & E & Hok & He & Habs); [cbn; lia|cbn; lia|].
      exists c'. split_and!; [exact E|done|done|]. rewrite Habs. by injection Ha as ->.
    - apply push_ok; [done|lia|lia]. }
  destruct (Nat.eqb_spec (wordlen_limit c) 0), (Nat.leb_spec (wordlen_limit c) (wordptr c)),
    (Nat.ltb_spec (wordptr c) (wordlen_limit c)); cbn [negb andb orb]; try lia;
    try exact Hpush; by exists c.
Qed.

(** [r] is defined, well-formed, leaves the environment alone and has the
    abstract state [s]. *)

Definition refines (c : PCONF_CTX_t) (r : option PCONF_CTX_t) (s : pspec) : Prop :=
  ∃ c', r = Some c' ∧ ctx_ok c' ∧ env c' = env c ∧ abs c' = s.

Lemma refines_goto c0 c st :
  ctx_ok c → env c = env c0 → refines c0 (Some (set_state st c)) (sp_goto st (abs c)).
Proof. intros H He. eexists. split_and!; [done| |done|done]. by destruct H. Qed.

Lemma env_fields c c' :
  env c' = env c → ch c' = ch c ∧ arg_limit c' = arg_limit c ∧ wordlen_limit c' = wordlen_limit c.
Proof. intros H. by injection H. Qed.

Lemma pconf_seterr_ok c msg :
  ctx_ok c →
  ctx_ok (pconf_seterr msg c) ∧ env (pconf_seterr msg c) = env c
  ∧ abs (pconf_seterr msg c) = sp_seterr (abs c)
  ∧ arg_limit (pconf_seterr msg c) = arg_limit c.
Proof. intros H. split_and!; [by destruct H|done..]. Qed.

(** Runs the next buffer operation of the goal through its lemma, reading the
    character and the limits back to those of the context it started from. *)

Ltac run_with lem c :=
  let c1 := fresh "c1" in let E := fresh "E" in let Hok := fresh "Hok" in
  let He := fresh "He" in let Ha := fresh "Ha" in
  destruct (lem c ltac:(assumption)) as (c1 & E & Hok & He & Ha);
  rewrite E; clear E; cbn [mbind option_bind];
  destruct (env_fields _ _ He) as (?Hch & ?Hal & ?Hwl);
  try rewrite Hch; try rewrite Hch in Ha; try rewrite Hal in Ha; try rewrite Hwl in Ha.

Ltac run_op :=
  match goal with
  | |- context [addchar junk ?c] => run_with addchar_ok c
  | |- context [endofword junk ?c] => run_with endofword_ok c
  end.

(** Splits a step into its branches and runs the operations of each. *)

Ltac step_ops := repeat (case_match || run_op); cbn [mbind option_bind]; try congruence.

Ltac close_step :=
  match goal with
  | |- refines _ (Some (set_state ?st ?cn)) (sp_goto ?st ?s) =>
      replace s with (abs cn) by congruence; apply refines_goto; [assumption|congruence]
  end.

(** One step of the C parser over its buffers never leaves them and is one step
    of the specification. *)

Lemma parse_char_ok c :
  ctx_ok c →
  refines c (parse_char junk c) (sp_step (arg_limit c) (wordlen_limit c) (ch c) (abs c)).
Proof.
  intros H.
  destruct (pconf_seterr_ok c (str "Unbalanced word due to unescaped # in quotes") H)
    as (Herr & Herre & Herra & Herrl).
  unfold parse_char, sp_step. cbn [abs sp_state]. destruct (state c) eqn:Es;
    cbn [mbind option_bind]; unfold findeol, quotecollect, qc_literal, collect, collectliteral.
  all: try (by exists c).
  all: step_ops; unfold findwordstart; step_ops; first [close_step|lia].
Qed.

Lemma parse_ch_ok c x :
  ctx_ok c →
  ∃ c', parse_char junk (set_ch x c) = Some c' ∧ ctx_ok c' ∧ limits c' = limits c
    ∧ f c' = f c ∧ linenum c' = linenum c
    ∧ abs c' = sp_step (arg_limit c) (wordlen_limit c) x (abs c).
Proof.
  intros H. destruct (parse_char_ok (set_ch x c)) as (c' & E & Hok & He & Ha).
  { by destruct H. }
  exists c'. injection He as ? ? ? ? ? ?. split_and!; try done. unfold limits. cbn in *. congruence.
Qed.

Lemma limits_fields c c' :
  limits c' = limits c →
  magic c' = magic c ∧ arg_limit c' = arg_limit c ∧ wordlen_limit c' = wordlen_limit c.
Proof. intros H. by injection H. Qed.

Lemma line_loop_ok line c :
  ctx_ok c →
  let r := sp_run (arg_limit c) (wordlen_limit c) line (abs c) in
  ∃ c', line_loop junk line c = Some (c', bool_decide (is_Some r.2)) ∧ ctx_ok c'
    ∧ limits c' = limits c ∧ linenum c' = linenum c ∧ f c' = f c ∧ abs c' = r.1.
Proof.
  revert c. induction line as [|x line IH]; intros c H; cbn [line_loop sp_run].
  { by exists c. }
  destruct (parse_ch_ok c x H) as (c1 & -> & H1 & Hl & Hf & Hn & Ha). cbn [mbind option_bind].
  destruct (limits_fields _ _ Hl) as (Hm & Hal & Hwl).
  rewrite <- Ha. cbn [sp_state abs]. destruct (line_done (state c1)) eqn:Ed.
  - cbn zeta. exists c1. by rewrite bool_decide_true by eauto.
  - destruct (IH c1 H1) as (c2 & E & H2 & Hl2 & Hn2 & Hf2 & Ha2).
    rewrite Hal, Hwl in *. exists c2. rewrite Hl2, Hn2, Hf2. split_and!; try done.
Qed.

Lemma begin_line_ok c :
  ctx_ok c →
  ctx_ok (begin_line c) ∧ limits (begin_line c) = limits c ∧ f (begin_line c) = f c
  ∧ abs (begin_line c) = sp_start (abs c).
Proof.
  intros H. split_and!; try done. destruct H. constructor; try done; cbn; lia || constructor.
Qed.

Lemma wordptr_cur c : ctx_ok c → (wordptr c =? 0)%nat = match cur c with [] => true | _ => false end.
Proof.
  intros H. rewrite <- (cur_length c H). by destruct (cur c).
Qed.

Lemma magic_ok c : magic c = PCONF_CTX_t_MAGIC → check_magic c = (true, c).
Proof. intros H. unfold check_magic. by rewrite H, Z.eqb_refl. Qed.

Lemma pconf_line_ok line c :
  ctx_ok c → magic c = PCONF_CTX_t_MAGIC →
  ∃ c', pconf_line junk line c = Some (c', 1) ∧ ctx_ok c' ∧ limits c' = limits c
    ∧ abs c' = sp_line (arg_limit c) (wordlen_limit c) line (abs c).
Proof.
  intros H Hm. unfold pconf_line, sp_line. rewrite magic_ok by done.
  destruct (begin_line_ok c H) as (Hb & Hbl & _ & Hba).
  destruct (line_loop_ok line (begin_line c) Hb) as (c1 & -> & H1 & Hl1 & _ & _ & Ha1).
  cbn [mbind option_bind]. change (arg_limit (begin_line c)) with (arg_limit c) in *.
  change (wordlen_limit (begin_line c)) with (wordlen_limit c) in *. rewrite Hba in *.
  destruct (sp_run _ _ line _) as [s [rest|]]; cbn [fst snd] in *; subst s.
  { exists c1. by rewrite bool_decide_true by eauto. }
  rewrite bool_decide_false by (intros [? ?]; done). cbn [sp_cur abs].
  rewrite wordptr_cur by done.
  destruct (cur c1) eqn:Ec; cbn [negb].
  { by exists c1. }
  destruct (endofword_ok c1 H1) as (c2 & -> & H2 & He2 & Ha2). cbn [mbind option_bind].
  destruct (limits_fields _ _ Hl1) as (_ & Hal & _).
  exists c2. split_and!; try done.
  - rewrite <- Hbl, <- Hl1. unfold limits. by injection He2 as _ _ _ -> -> ->.
  - by rewrite Ha2, Hal.
Qed.

(** ** The other two entry points *)

Lemma file_loop_ok bytes c :
  ctx_ok c →
  let r := sp_run (arg_limit c) (wordlen_limit c) bytes (abs c) in
  ∃ c', file_loop junk bytes c = Some (c', bool_decide (is_Some r.2)) ∧ ctx_ok c'
    ∧ limits c' = limits c ∧ f c' = Some (default [] r.2) ∧ abs c' = r.1.
Proof.
  revert c. induction bytes as [|x bytes IH]; intros c H; cbn [file_loop sp_run].
  { eexists. split_and!; try done. by destruct H. }
  destruct (parse_ch_ok (set_f (Some bytes) c) x) as (c1 & -> & H1 & Hl & Hf & Hn & Ha).
  { by destruct H. }
  cbn [mbind option_bind]. destruct (limits_fields _ _ Hl) as (Hm & Hal & Hwl).
  change (abs (set_f (Some bytes) c)) with (abs c) in Ha. cbn [arg_limit wordlen_limit set_f] in *.
  rewrite <- Ha. cbn [sp_state abs]. destruct (line_done (state c1)) eqn:Ed.
  - exists c1. by rewrite bool_decide_true by eauto.
  - destruct (IH c1 H1) as (c2 & E & H2 & Hl2 & Hf2 & Ha2).
    rewrite Hal, Hwl in *. exists c2. rewrite Hl2. by split_and!.
Qed.

(** What [pconf_file_next] makes of the rest of a stream: a line that ended, the
    words of an unfinished last line, or nothing. *)

Definition sp_file_next (al wl : nat) (bytes : list Z) (s : pspec) : pspec * Z :=
  match sp_run al wl bytes (sp_start s) with
  | (s', Some _) => (s', 1)
  | (s', None) =>
    match sp_words s' with
    | [] => (s', 0)
    | _ => (match sp_cur s' with [] => s' | _ => sp_endofword al s' end, 1)
    end
  end.

Lemma pconf_file_next_ok c bytes :
  ctx_ok c → magic c = PCONF_CTX_t_MAGIC → f c = Some bytes →
  let r := sp_file_next (arg_limit c) (wordlen_limit c) bytes (abs c) in
  ∃ c', pconf_file_next junk c = Some (c', r.2) ∧ ctx_ok c' ∧ limits c' = limits c ∧ abs c' = r.1
    ∧ f c' = Some (default [] (sp_run (arg_limit c) (wordlen_limit c) bytes (sp_start (abs c))).2).
Proof.
  intros H Hm Hf. unfold pconf_file_next, sp_file_next. rewrite magic_ok by done.
  destruct (begin_line_ok c H) as (Hb & Hbl & Hbf & Hba). rewrite Hbf, Hf. cbn [mbind option_bind].
  destruct (file_loop_ok bytes (begin_line c) Hb) as (c1 & -> & H1 & Hl1 & Hf1 & Ha1).
  rewrite Hba, Hbl in *. change (arg_limit (begin_line c)) with (arg_limit c) in *.
  change (wordlen_limit (begin_line c)) with (wordlen_limit c) in *.
  destruct (sp_run _ _ bytes _) as [s [rest|]]; cbn [fst snd default mbind option_bind] in *; subst s.
  { exists c1. by rewrite bool_decide_true by eauto. }
  rewrite bool_decide_false by (intros [? ?]; done). cbn [sp_cur sp_words abs].
  rewrite wordptr_cur by done.
  pose proof (words_length c1 H1) as Hn. destruct (Nat.eqb_spec (numargs c1) 0) as [E|E]; cbn [negb].
  { exists c1. rewrite (nil_length_inv (words c1)) by congruence. done. }
  destruct (words c1) eqn:Ew; [cbn in Hn; congruence|]. cbn [fst snd].
  destruct (cur c1) eqn:Ec; cbn [negb]; [by exists c1|].
  destruct (endofword_ok c1 H1) as (c2 & -> & H2 & He2 & Ha2). cbn [mbind option_bind].
  destruct (limits_fields _ _ Hl1) as (_ & Hal & _).
  exists c2. injection He2 as Hf2 _ _ Hm2 Ha2' Hw2. split_and!; try done.
  - rewrite <- Hl1. unfold limits. congruence.
  - by rewrite Ha2, Hal.
  - by rewrite Hf2.
Qed.

(** A call of [pconf_char] between lines starts the next one. *)

Definition next_char (s : pspec) : pspec := if line_done (sp_state s) then sp_start s else s.

Lemma pconf_char_ok x c :
  ctx_ok c → magic c = PCONF_CTX_t_MAGIC →
  let s := sp_step (arg_limit c) (wordlen_limit c) x (next_char (abs c)) in
  ∃ c', pconf_char junk x c =
      Some (c', match sp_state s with STATE_ENDOFLINE => 1 | STATE_PARSEERR => -1 | _ => 0 end)
    ∧ ctx_ok c' ∧ limits c' = limits c ∧ abs c' = s.
Proof.
  intros H Hm s. unfold pconf_char. rewrite magic_ok by done.
  set (c0 := if line_done (state c) then _ else _).
  assert (ctx_ok c0 ∧ limits c0 = limits c ∧ abs c0 = next_char (abs c)) as (H0 & Hl0 & Ha0).
  { unfold c0, next_char. cbn [sp_state abs]. destruct (line_done (state c)); [|done].
    split_and!; try done. destruct H. constructor; cbn; done || lia || constructor. }
  destruct (parse_ch_ok c0 x H0) as (c1 & -> & H1 & Hl1 & _ & _ & Ha1).
  destruct (limits_fields _ _ Hl0) as (_ & Hal & Hwl). rewrite Hal, Hwl, Ha0 in Ha1.
  fold s in Ha1. exists c1. cbn [mbind option_bind]. rewrite <- Ha1. cbn [sp_state abs].
  rewrite <- Hl0, <- Hl1. by destruct (state c1).
Qed.

Lemma feed_ok line c :
  ctx_ok c → magic c = PCONF_CTX_t_MAGIC →
  ∀ s rest, sp_run (arg_limit c) (wordlen_limit c) line (next_char (abs c)) = (s, Some rest) →
  ∃ c', feed junk line c = Some (c', if decide (sp_state s = STATE_ENDOFLINE) then 1 else -1)
    ∧ ctx_ok c' ∧ abs c' = s.
Proof.
  revert c. induction line as [|x line IH]; intros c H Hm s rest; cbn [feed sp_run]; [done|].
  destruct (pconf_char_ok x c H Hm) as (c1 & -> & H1 & Hl1 & Ha1). cbn [mbind option_bind].
  destruct (limits_fields _ _ Hl1) as (Hm1 & Hal & Hwl).
  rewrite <- Ha1. cbn [sp_state abs].
  destruct (state c1) eqn:Es; cbn [line_done].
  all: intros Hr; cbn [Z.eqb Pos.eqb].
  all: try (injection Hr as <- <-; exists c1; cbn [sp_state abs]; rewrite Es; done).
  all: destruct (IH c1 H1 ltac:(congruence) s rest) as (c2 & E2 & H2 & Ha2);
    [rewrite Hal, Hwl; unfold next_char; cbn [sp_state abs]; rewrite Es; exact Hr|by exists c2].
Qed.

End Refinement.

(** ** Properties of the words *)

Definition within (limit n : nat) : Prop := limit = 0%nat ∨ (n ≤ limit)%nat.

Definition word_clean (wl : nat) (w : list Z) : Prop :=
  Forall (λ x, printable x = true) w ∧ within wl (length w).

Record spec_ok (al wl : nat) (s : pspec) : Prop := {
  sok_words : Forall (word_clean wl) (sp_words s);
  sok_cur : word_clean wl (sp_cur s);
  sok_count : within al (length (sp_words s))
}.

Lemma sp_goto_ok al wl st s : spec_ok al wl s → spec_ok al wl (sp_goto st s).
Proof. by intros []. Qed.

Lemma sp_addchar_ok al wl x s : spec_ok al wl s → spec_ok al wl (sp_addchar wl x s).
Proof.
  intros [Hw [Hc Hl] Hn]. unfold sp_addchar.
  destruct (printable x) eqn:Ep; cbn [andb]; [|done].
  destruct (Nat.eqb_spec wl 0), (Nat.ltb_spec (length (sp_cur s)) wl); cbn [orb]; try done;
    (constructor; [done| |done]); (split; [by apply Forall_app_2, Forall_singleton|]);
    unfold within in *; cbn; rewrite length_app; cbn; lia.
Qed.

Lemma sp_endofword_spec_ok al wl s : spec_ok al wl s → spec_ok al wl (sp_endofword al s).
Proof.
  intros [Hw Hc Hn]. unfold sp_endofword. assert (word_clean wl []) by (split; [done|cbn; unfold within; lia]).
  destruct (Nat.eqb_spec al 0), (Nat.ltb_spec (length (sp_words s)) al); cbn [orb]; (constructor; [|done|]);
    cbn; rewrite ?length_app; cbn; try (by apply Forall_app_2, Forall_singleton);
    unfold within in *; lia || done.
Qed.

Lemma sp_seterr_ok al wl s : spec_ok al wl s → spec_ok al wl (sp_seterr s).
Proof. by intros []. Qed.

Create HintDb pconf.
#[export] Hint Resolve sp_goto_ok sp_addchar_ok sp_endofword_spec_ok sp_seterr_ok : pconf.

Lemma sp_step_ok al wl x s : spec_ok al wl s → spec_ok al wl (sp_step al wl x s).
Proof. intros H. unfold sp_step. repeat case_match; auto with pconf. Qed.

Lemma sp_run_ok al wl line s : spec_ok al wl s → spec_ok al wl (sp_run al wl line s).1.
Proof.
  revert s. induction line as [|x line IH]; intros s H; cbn [sp_run fst]; [done|].
  cbn zeta. case_match; [by apply sp_step_ok|]. by apply IH, sp_step_ok.
Qed.

Lemma sp_line_ok al wl line s :
  word_clean wl (sp_cur s) → spec_ok al wl (sp_line al wl line s).
Proof.
  intros H. unfold sp_line.
  assert (spec_ok al wl (sp_start s)) as Hs by (constructor; [done..|unfold within; cbn; lia]).
  pose proof (sp_run_ok al wl line _ Hs) as Hr.
  destruct (sp_run al wl line (sp_start s)) as [s' [rest|]]; cbn [fst] in Hr; [done|].
  case_match; auto with pconf.
Qed.

(** ** Round trip *)

Definition escape (w : list Z) : list Z :=
  flat_map (λ x, if bool_decide (x ∈ PCONF_ESCAPE) then [92; x] else [x]) w.

(** An argument as the NUT programs write it: bare, or quoted and escaped. *)

Inductive arg := Bare (w : list Z) | Quoted (w : list Z).

Definition arg_word (a : arg) : list Z := match a with Bare w => w | Quoted w => w end.

Definition render_arg (a : arg) : list Z :=
  match a with Bare w => w | Quoted w => [34] ++ escape w ++ [34] end.

(** A line: its arguments separated by one space, the last one directly before the
    newline, or before [blanks] spaces and the newline. *)

Fixpoint render (blanks : nat) (args : list arg) : list Z :=
  match args with
  | [] => replicate blanks 32 ++ [10]
  | [a] => render_arg a ++ replicate blanks 32 ++ [10]
  | a :: args => render_arg a ++ 32 :: render blanks args
  end.

Definition bare_char (x : Z) : bool :=
  printable x && negb (bool_decide (x ∈ [32; 34; 35; 61; 92])).

Definition arg_ok (a : arg) : Prop :=
  match a with
  | Bare w => w ≠ [] ∧ Forall (λ x, bare_char x = true) w
  | Quoted w => Forall (λ x, printable x = true) w
  end.

Lemma sp_addchar_push wl x st ws u e :
  printable x = true → within wl (length u + 1) →
  sp_addchar wl x (MkSpec st ws u e) = MkSpec st ws (u ++ [x]) e.
Proof.
  intros Hp Hw. unfold sp_addchar. rewrite Hp. cbn [andb sp_cur sp_words sp_state sp_error].
  destruct (Nat.eqb_spec wl 0), (Nat.ltb_spec (length u) wl); cbn [orb]; try done.
  unfold within in Hw. lia.
Qed.

Lemma sp_endofword_push al st ws u e :
  within al (length ws + 1) →
  sp_endofword al (MkSpec st ws u e) = MkSpec st (ws ++ [u]) [] e.
Proof.
  intros Hw. unfold sp_endofword. cbn [sp_words sp_state sp_cur sp_error].
  destruct (Nat.eqb_spec al 0), (Nat.ltb_spec (length ws) al); cbn [orb]; try done.
  unfold within in Hw. lia.
Qed.

Lemma run_escape al wl w l ws u e :
  Forall (λ x, printable x = true) w → within wl (length u + length w) →
  sp_run al wl (escape w ++ l) (MkSpec STATE_QUOTECOLLECT ws u e)
  = sp_run al wl l (MkSpec STATE_QUOTECOLLECT ws (u ++ w) e).
Proof.
  revert u. induction w as [|x w IH]; intros u Hp Hw; cbn [escape flat_map app].
  { by rewrite app_nil_r. }
  apply Forall_cons_1 in Hp as [Hx Hp]. cbn [length] in Hw.
  assert (within wl (length u + 1)) as Hw1 by (unfold within in *; lia).
  assert (within wl (length (u ++ [x]) + length w)) as Hw2
    by (unfold within in *; rewrite length_app; cbn; lia).
  replace (u ++ x :: w) with ((u ++ [x]) ++ w) by (by rewrite <- app_assoc).
  fold (escape w). assert (x ≠ 10) as Hnl by (unfold printable in Hx; lia).
  case_bool_decide as Hesc; cbn [app sp_run sp_step sp_state line_done sp_goto Z.eqb Pos.eqb
    sp_words sp_cur sp_error].
    rewrite (proj2 (Z.eqb_neq _ _) Hnl), sp_addchar_push by done.
    cbn [sp_goto sp_state line_done sp_words sp_cur sp_error]. by apply IH.
  - assert (x ≠ 35 ∧ x ≠ 34 ∧ x ≠ 92) as (H35 & H34 & H92) by (unfold PCONF_ESCAPE in *; set_solver).
    rewrite (proj2 (Z.eqb_neq _ _) H35), (proj2 (Z.eqb_neq _ _) H34), (proj2 (Z.eqb_neq _ _) H92).
    rewrite sp_addchar_push by done. by apply IH.
Qed.

Lemma bare_char_spec x :
  bare_char x = true →
  printable x = true ∧ isspace x = false ∧ x ≠ 10 ∧ x ≠ 35 ∧ x ≠ 92 ∧ x ≠ 34 ∧ x ≠ 61.
Proof.
  unfold bare_char. intros [Hp Hn]%andb_prop. apply negb_true_iff, bool_decide_eq_false in Hn.
  unfold printable, isspace in *. assert (x ≠ 32) by set_solver. split_and!; [done|lia|lia|set_solver..].
Qed.

(** Decides the character tests of a step from the disequalities in the context. *)

Ltac eval_tests :=
  repeat match goal with
  | H : ?x ≠ ?y |- context [?x =? ?y] => rewrite (proj2 (Z.eqb_neq x y) H)
  | H : isspace ?x = _ |- context [isspace ?x] => rewrite H
  end.

Lemma run_bare al wl w l ws u e :
  Forall (λ x, bare_char x = true) w → within wl (length u + length w) →
  sp_run al wl (w ++ l) (MkSpec STATE_COLLECT ws u e)
  = sp_run al wl l (MkSpec STATE_COLLECT ws (u ++ w) e).
Proof.
  revert u. induction w as [|x w IH]; intros u Hb Hw; cbn [app]; [by rewrite app_nil_r|].
  apply Forall_cons_1 in Hb as [Hx Hb]. cbn [length] in Hw.
  destruct (bare_char_spec x Hx) as (Hp & Hsp & H10 & H35 & H92 & H34 & H61).
  cbn [sp_run sp_step sp_state]. eval_tests.
  rewrite sp_addchar_push by (done || unfold within in *; lia).
  cbn [sp_goto sp_state sp_words sp_cur sp_error line_done].
  rewrite IH by (done || unfold within in *; rewrite length_app; cbn; lia).
  by rewrite <- app_assoc.
Qed.

Lemma run_arg al wl a l ws e :
  arg_ok a → within wl (length (arg_word a)) → within al (length ws + 1) →
  sp_run al wl ((render_arg a ++ [32]) ++ l) (MkSpec STATE_FINDWORDSTART ws [] e)
  = sp_run al wl l (MkSpec STATE_FINDWORDSTART (ws ++ [arg_word a]) [] e).
Proof.
  destruct a as [w|w]; cbn [arg_word render_arg arg_ok]; intros Ha Hw Hn.
  - destruct Ha as [Hne Hb]. destruct w as [|x w]; [done|].
    apply Forall_cons_1 in Hb as [Hx Hb]. cbn [length] in Hw.
    destruct (bare_char_spec x Hx) as (Hp & Hsp & H10 & H35 & H92 & H34 & H61).
    cbn [app sp_run sp_step sp_state]. eval_tests.
    rewrite sp_addchar_push by (done || unfold within in *; cbn; lia).
    cbn [sp_goto sp_state sp_words sp_cur sp_error line_done app].
    rewrite <- app_assoc, run_bare by done. cbn [app sp_run sp_step sp_state].
    change (isspace 32) with true. cbn [Z.eqb Pos.eqb]. by rewrite sp_endofword_push.
  - cbn [app sp_run sp_step sp_state]. cbn [sp_goto sp_state sp_words sp_cur sp_error line_done].
    change (isspace 34) with false. cbn [Z.eqb Pos.eqb].
    rewrite <- !app_assoc, run_escape by done.
    cbn [app sp_run sp_step sp_state Z.eqb Pos.eqb]. rewrite sp_endofword_push by done.
    cbn [sp_goto sp_state sp_words sp_cur sp_error line_done sp_run sp_step app].
    change (isspace 32) with true. cbn [Z.eqb Pos.eqb]. done.
Qed.

Lemma run_blanks al wl blanks l ws e :
  sp_run al wl (replicate blanks 32 ++ 10 :: l) (MkSpec STATE_FINDWORDSTART ws [] e)
  = (MkSpec STATE_ENDOFLINE ws [] e, Some l).
Proof.
  induction blanks as [|blanks IH]; [done|]. cbn [replicate app sp_run sp_step sp_state].
  change (isspace 32) with true. cbn [Z.eqb Pos.eqb sp_goto sp_state line_done sp_words sp_cur sp_error].
  exact IH.
Qed.

(** The last argument, its newline right behind it. *)

Lemma run_last al wl a l ws e :
  arg_ok a → within wl (length (arg_word a)) → within al (length ws + 1) →
  sp_run al wl (render_arg a ++ 10 :: l) (MkSpec STATE_FINDWORDSTART ws [] e)
  = (MkSpec STATE_ENDOFLINE (ws ++ [arg_word a]) [] e, Some l).
Proof.
  destruct a as [w|w]; cbn [arg_word render_arg arg_ok]; intros Ha Hw Hn.
  - destruct Ha as [Hne Hb]. destruct w as [|x w]; [done|].
    apply Forall_cons_1 in Hb as [Hx Hb]. cbn [length] in Hw.
    destruct (bare_char_spec x Hx) as (Hp & Hsp & H10 & H35 & H92 & H34 & H61).
    cbn [app sp_run sp_step sp_state]. eval_tests.
    rewrite sp_addchar_push by (done || unfold within in *; cbn; lia).
    cbn [sp_goto sp_state sp_words sp_cur sp_error line_done app].
    rewrite run_bare by done. cbn [app sp_run sp_step sp_state Z.eqb Pos.eqb].
    by rewrite sp_endofword_push.
  - cbn [app sp_run sp_step sp_state]. cbn [sp_goto sp_state sp_words sp_cur sp_error line_done].
    change (isspace 34) with false. cbn [Z.eqb Pos.eqb].
    rewrite <- !app_assoc, run_escape by done.
    cbn [app sp_run sp_step sp_state Z.eqb Pos.eqb]. rewrite sp_endofword_push by done.
    cbn [sp_goto sp_state sp_words sp_cur sp_error line_done sp_run sp_step app]. done.
Qed.

Lemma run_render al wl blanks args ws e :
  Forall arg_ok args → Forall (λ a, within wl (length (arg_word a))) args →
  within al (length ws + length args) →
  sp_run al wl (render blanks args) (MkSpec STATE_FINDWORDSTART ws [] e)
  = (MkSpec STATE_ENDOFLINE (ws ++ (arg_word <$> args)) [] e, Some []).
Proof.
  intros Ha. revert ws. induction Ha as [|a args Ha Hargs IH]; intros ws Hw Hn.
  { cbn [render fmap list_fmap]. by rewrite run_blanks, app_nil_r. }
  apply Forall_cons_1 in Hw as [Hw1 Hw]. cbn [length] in Hn.
  assert (within al (length ws + 1)) as Hn1 by (unfold within in *; lia).
  destruct args as [|b args].
  - cbn [render]. destruct blanks as [|blanks]; cbn [replicate app]; [by rewrite run_last|].
    change (render_arg a ++ 32 :: ?l) with (render_arg a ++ [32] ++ l).
    by rewrite app_assoc, run_arg, run_blanks.
  - replace (render blanks (a :: b :: args)) with ((render_arg a ++ [32]) ++ render blanks (b :: args))
      by (by rewrite <- app_assoc).
    rewrite run_arg by done.
    rewrite IH; [|done|unfold within in *; rewrite length_app; cbn [length] in *; lia].
    cbn [fmap list_fmap]. by rewrite <- app_assoc.
Qed.

(** ** Encoding *)

(** The escaped characters that fit in [room] bytes, never half of a pair. *)

Fixpoint escape_fit (room : nat) (src : list Z) : list Z :=
  match src with
  | [] => []
  | x :: src' =>
    let e := if bool_decide (x ∈ PCONF_ESCAPE) then [92; x] else [x] in
    if (length e <=? room)%nat then e ++ escape_fit (room - length e) src' else []
  end.

Lemma escape_fit_prefix room src :
  ∃ p q, src = p ++ q ∧ escape_fit room src = escape p
    ∧ ((length (escape src) ≤ room)%nat → q = []).
Proof.
  revert room. induction src as [|x src IH]; intros room; cbn [escape_fit]; [by exists [], []|].
  cbn zeta. set (e := if bool_decide (x ∈ PCONF_ESCAPE) then [92; x] else [x]).
  assert (∀ l, escape (x :: l) = e ++ escape l) as Hcons by done.
  destruct (Nat.leb_spec (length e) room).
  - destruct (IH (room - length e)%nat) as (p & q & -> & -> & Hq).
    exists (x :: p), q. rewrite !Hcons. split_and!; try done.
    rewrite length_app. intros. apply Hq. lia.
  - exists [], (x :: src). split_and!; try done. rewrite Hcons, length_app. lia.
Qed.

Lemma escape_fit_length room src : (length (escape_fit room src) ≤ room)%nat.
Proof.
  revert room. induction src as [|x src IH]; intros room; cbn [escape_fit length]; [lia|].
  cbn zeta. set (e := if bool_decide (x ∈ PCONF_ESCAPE) then [92; x] else [x]).
  destruct (Nat.leb_spec (length e) room); cbn [length]; [|lia].
  rewrite length_app. specialize (IH (room - length e)%nat). lia.
Qed.

Lemma store_zeros pre k tl x :
  store (pre ++ replicate (S k) 0 ++ tl) (length pre) x
  = Some ((pre ++ [x]) ++ replicate k 0 ++ tl).
Proof.
  rewrite store_lt by (rewrite !length_app, length_replicate; lia).
  by rewrite insert_app_r_alt, Nat.sub_diag, <- app_assoc by lia.
Qed.

Lemma encode_loop_ok src pre k tl :
  (1 ≤ length pre + k)%nat → Z.of_nat (length pre + k) < 2 ^ 32 →
  encode_loop src (pre ++ replicate (S k) 0 ++ tl) (length pre) (Z.of_nat (length pre + k))
  = Some (pre ++ escape_fit k src ++ replicate (S k - length (escape_fit k src)) 0 ++ tl).
Proof.
  revert pre k. induction src as [|x src IH]; intros pre k H1 Hmax; [done|].
  cbn [encode_loop escape_fit]. unfold size_wrap. rewrite Z.mod_small by lia.
  assert (∀ pre' k', (length pre' + k' = length pre + k)%nat →
    (if Z.of_nat (length pre + k) <=? Z.of_nat (length pre') then Some (pre' ++ replicate (S k') 0 ++ tl)
     else dest ← store (pre' ++ replicate (S k') 0 ++ tl) (length pre') x;
       encode_loop src dest (S (length pre')) (Z.of_nat (length pre + k)))
    = Some (pre' ++ (if (1 <=? k')%nat then [x] ++ escape_fit (k' - 1) src else [])
       ++ replicate (S k' - length (if (1 <=? k')%nat then [x] ++ escape_fit (k' - 1) src else [])) 0
       ++ tl)) as Hput.
  { intros pre' k' Hk. destruct k' as [|k']; cbn [Nat.leb].
    { rewrite (proj2 (Z.leb_le _ _)) by lia. done. }
    rewrite (proj2 (Z.leb_gt _ _)), store_zeros by lia. cbn [mbind option_bind].
    replace (S (length pre')) with (length (pre' ++ [x])) by (rewrite length_app; cbn; lia).
    replace (length pre + k)%nat with (length (pre' ++ [x]) + k')%nat by (rewrite length_app; cbn; lia).
    rewrite IH by (rewrite length_app; cbn; lia). cbn [app length].
    by rewrite <- app_assoc, Nat.sub_succ, Nat.sub_0_r. }
  case_bool_decide; cbn [length].
  - destruct (Z.leb_spec (Z.of_nat (length pre + k) - 1) (Z.of_nat (length pre))),
      (Nat.leb_spec 2 k); try lia; [done|].
    destruct k as [|k]; [lia|]. rewrite store_zeros. cbn [mbind option_bind].
    replace (S (length pre)) with (length (pre ++ [92])) by (rewrite length_app; cbn; lia).
    rewrite Hput by (rewrite length_app; cbn; lia).
    destruct (Nat.leb_spec 1 k); [|lia]. cbn [app length].
    by rewrite <- app_assoc, !Nat.sub_succ.
  - by rewrite Hput.
Qed.

Lemma pconf_encode_ok src dest destsize :
  (2 ≤ destsize)%nat → (destsize ≤ length dest)%nat → Z.of_nat destsize < 2 ^ 32 →
  let e := escape_fit (destsize - 1) src in
  pconf_encode src dest destsize
  = Some (e ++ replicate (destsize - length e) 0 ++ drop destsize dest).
Proof.
  intros H2 Hd Hmax e. unfold pconf_encode.
  destruct (Nat.ltb_spec destsize 1), (Nat.ltb_spec (length dest) destsize); try lia.
  pose proof (encode_loop_ok src [] (destsize - 1) (drop destsize dest)) as Hl.
  cbn [app length Nat.add] in Hl.
  replace (S (destsize - 1)) with destsize in Hl by lia.
  replace (Z.of_nat destsize - 1) with (Z.of_nat (destsize - 1)) by lia. apply Hl; lia.
Qed.

Lemma escape_nonzero w : Forall (λ x, x ≠ 0) w → Forall (λ x, x ≠ 0) (escape w).
Proof.
  induction 1; cbn; [done|]. apply Forall_app_2; [|done]. case_bool_decide; repeat constructor; done.
Qed.

(** ** Contexts a program can have

    A context is initialised, opened on a file, and then driven by any sequence
    of calls of the three entry points and of [pconf_parse_error]. *)

Inductive reach (junk : nat → Z) : PCONF_CTX_t → Prop :=
  | reach_init c : reach junk (pconf_init c)
  | reach_begin c file fn : reach junk c → reach junk (pconf_file_begin file fn c).1
  | reach_error c : reach junk c → reach junk (pconf_parse_error c).1
  | reach_line c l c' r : reach junk c → pconf_line junk l c = Some (c', r) → reach junk c'
  | reach_char c x c' r : reach junk c → pconf_char junk x c = Some (c', r) → reach junk c'
  | reach_next c c' r : reach junk c → pconf_file_next junk c = Some (c', r) → reach junk c'.

Definition ctx_inv (c : PCONF_CTX_t) : Prop :=
  ctx_ok c ∧ limits c = (PCONF_CTX_t_MAGIC, PCONF_DEFAULT_ARG_LIMIT, PCONF_DEFAULT_WORDLEN_LIMIT)
  ∧ spec_ok (arg_limit c) (wordlen_limit c) (abs c).

Lemma ctx_inv_fields c :
  ctx_inv c → ctx_ok c ∧ magic c = PCONF_CTX_t_MAGIC ∧ arg_limit c = PCONF_DEFAULT_ARG_LIMIT
    ∧ wordlen_limit c = PCONF_DEFAULT_WORDLEN_LIMIT ∧ spec_ok (arg_limit c) (wordlen_limit c) (abs c).
Proof. by intros (H & [= ? ? ?] & Hs). Qed.

Lemma ctx_inv_intro c c' s :
  ctx_inv c → ctx_ok c' → limits c' = limits c → abs c' = s →
  (spec_ok (arg_limit c) (wordlen_limit c) (abs c) → spec_ok (arg_limit c) (wordlen_limit c) s) →
  ctx_inv c'.
Proof.
  intros (H & Hl & Hs) H' Hl' <- Hk. destruct (limits_fields _ _ Hl') as (_ & Ha & Hw).
  unfold ctx_inv. rewrite Ha, Hw. split_and!; [done|congruence|by apply Hk].
Qed.

Lemma sp_file_next_ok al wl bytes s :
  word_clean wl (sp_cur s) → spec_ok al wl (sp_file_next al wl bytes s).1.
Proof.
  intros H. unfold sp_file_next.
  assert (spec_ok al wl (sp_start s)) as Hs by (constructor; [done..|unfold within; cbn; lia]).
  pose proof (sp_run_ok al wl bytes _ Hs) as Hr.
  destruct (sp_run al wl bytes (sp_start s)) as [s' [rest|]]; cbn [fst] in *; [done|].
  repeat case_match; cbn [fst]; auto with pconf.
Qed.

Lemma next_char_ok al wl s : spec_ok al wl s → spec_ok al wl (next_char s).
Proof. intros [? ? ?]. unfold next_char. case_match; constructor; try done. unfold within. cbn. lia. Qed.

#[export] Hint Resolve sp_step_ok next_char_ok : pconf.

Lemma reach_inv junk c : reach junk c → ctx_inv c.
Proof.
  induction 1 as [c|c file fn _ IH|c _ IH|c l c' r _ IH E|c x c' r _ IH E|c c' r _ IH E].
  - split_and!; [constructor; cbn; done || lia|done|].
    constructor; cbn; [done|split; [done|]|]; unfold within; cbn; lia.
  - destruct (ctx_inv_fields c IH) as (H & Hm & Hal & Hwl & Hs). unfold pconf_file_begin.
    rewrite magic_ok by done. destruct file; cbn [fst]; (eapply (ctx_inv_intro c); [done| |done|done|done]);
      by destruct H.
  - destruct (ctx_inv_fields c IH) as (H & Hm & Hal & Hwl & Hs). unfold pconf_parse_error.
    rewrite magic_ok by done. destruct (error c =? 1); cbn [fst]; [|done].
    eapply (ctx_inv_intro c); [done|by destruct H|done|done|]. by intros [].
  - destruct (ctx_inv_fields c IH) as (H & Hm & Hal & Hwl & Hs).
    destruct (pconf_line_ok junk l c H Hm) as (c1 & E1 & H1 & Hl1 & Ha1).
    rewrite E1 in E. injection E as <- <-.
    eapply (ctx_inv_intro c); [done..|]. intros _. apply sp_line_ok, Hs.
  - destruct (ctx_inv_fields c IH) as (H & Hm & Hal & Hwl & Hs).
    destruct (pconf_char_ok junk x c H Hm) as (c1 & E1 & H1 & Hl1 & Ha1).
    rewrite E1 in E. injection E as <- <-.
    eapply (ctx_inv_intro c); [done..|]. auto with pconf.
  - destruct (ctx_inv_fields c IH) as (H & Hm & Hal & Hwl & Hs).
    destruct (f c) as [bytes|] eqn:Ef.
    + destruct (pconf_file_next_ok junk c bytes H Hm Ef) as (c1 & E1 & H1 & Hl1 & Ha1 & _).
      rewrite E1 in E. injection E as <- <-. eapply (ctx_inv_intro c); [done..|]. intros _. apply sp_file_next_ok, Hs.
    + unfold pconf_file_next in E. rewrite magic_ok in E by done. cbn in E. by rewrite Ef in E.
Qed.

(** ** Theorems *)

(** C7. Memory safety and limits of every context a program can have: after
    [pconf_init] and any sequence of calls, the next [pconf_line] or
    [pconf_char] never reads or writes outside the parser's buffers, at most
    [PCONF_DEFAULT_ARG_LIMIT] words are held, and every word is at most
    [PCONF_DEFAULT_WORDLEN_LIMIT] characters, all from Space to 0x7f. *)

Theorem pconf_reachable_safe junk c :
  reach junk c →
  (∀ line, is_Some (pconf_line junk line c)) ∧ (∀ x, is_Some (pconf_char junk x c))
  ∧ (f c ≠ None → is_Some (pconf_file_next junk c))
  ∧ (length (words c) ≤ PCONF_DEFAULT_ARG_LIMIT)%nat
  ∧ Forall (λ w, Forall (λ x, 0x20 ≤ x ≤ 0x7f) w
       ∧ (length w ≤ PCONF_DEFAULT_WORDLEN_LIMIT)%nat) (words c).
Proof.
  intros Hr. destruct (ctx_inv_fields c (reach_inv junk c Hr)) as (H & Hm & Hal & Hwl & [Hw _ Hn]).
  cbn [sp_words abs] in *. rewrite Hal, Hwl in *. split_and!.
  - intros line. destruct (pconf_line_ok junk line c H Hm) as (c' & -> & _). eauto.
  - intros x. destruct (pconf_char_ok junk x c H Hm) as (c' & -> & _). eauto.
  - destruct (f c) as [bytes|] eqn:Ef; [intros _|done].
    destruct (pconf_file_next_ok junk c bytes H Hm Ef) as (c' & -> & _). eauto.
  - by destruct Hn.
  - eapply Forall_impl; [exact Hw|]. intros w [Hp [|Hl]]; [done|]. split; [|done].
    eapply Forall_impl; [exact Hp|]. unfold printable. lia.
Qed.

Definition blank : PCONF_CTX_t :=
  MkCtx None STATE_FINDEOL 0 [] [] 0 0 [] 0 0 0 0 [] 0 0 0.

Lemma pconf_reachable_safe_witness :
  is_Some (pconf_line (λ _, 7) (str "SETINFO ups.status OL") (pconf_init blank)).
Proof.
  exact (proj1 (pconf_reachable_safe (λ _, 7) (pconf_init blank) (reach_init _ blank))
    (str "SETINFO ups.status OL")).
Defined.

(** C1. The buffers refine the list specification: for every well-formed
    context, [pconf_line] returns 1 and leaves exactly the words, the state and
    the error flag that the automaton over plain lists computes, whatever
    [realloc] leaves in fresh memory. *)

Theorem pconf_line_refines junk line c :
  ctx_ok c → magic c = PCONF_CTX_t_MAGIC →
  ∃ c', pconf_line junk line c = Some (c', 1) ∧ ctx_ok c'
    ∧ abs c' = sp_line (arg_limit c) (wordlen_limit c) line (abs c).
Proof.
  intros H Hm. destruct (pconf_line_ok junk line c H Hm) as (c' & E & H' & _ & Ha).
  by exists c'.
Qed.

Lemma init_ok c : ctx_ok (pconf_init c).
Proof. constructor; cbn; done || lia. Qed.

Lemma pconf_line_refines_witness :
  ∃ c', pconf_line (λ _, 7) (str "a=b") (pconf_init blank) = Some (c', 1)
    ∧ words c' = [str "a"; str "="; str "b"].
Proof.
  destruct (pconf_line_refines (λ _, 7) (str "a=b") (pconf_init blank) (init_ok blank) eq_refl)
    as (c' & E & _ & Ha).
  exists c'. split; [exact E|]. apply (f_equal sp_words) in Ha. exact Ha.
Defined.

(** C12. Round trip of a protocol line, in a context with no word pending.  Arguments of printable characters, each
    within the word limit of the context and no more of them than its argument
    limit, are written bare (when not empty and free of blanks, quotes,
    backslashes, [#] and [=]) or quoted and escaped, and separated by a space; the
    newline follows the last one directly or after any number of spaces.
    [pconf_line] reads them back exactly, with no parse error. *)

Theorem pconf_line_roundtrip junk c blanks args :
  ctx_ok c → magic c = PCONF_CTX_t_MAGIC → cur c = [] →
  Forall arg_ok args →
  Forall (λ a, within (wordlen_limit c) (length (arg_word a))) args →
  within (arg_limit c) (length args) →
  ∃ c', pconf_line junk (render blanks args) c = Some (c', 1)
    ∧ words c' = arg_word <$> args ∧ error c' = error c ∧ state c' = STATE_ENDOFLINE.
Proof.
  intros H Hm Hc Ha Hw Hn.
  destruct (pconf_line_ok junk (render blanks args) c H Hm) as (c' & E & _ & _ & Habs).
  exists c'. split; [exact E|]. unfold sp_line, sp_start in Habs. cbn [abs sp_cur sp_error] in Habs.
  rewrite Hc, run_render in Habs by done. cbn [app] in Habs. by injection Habs.
Qed.

Lemma pconf_line_roundtrip_witness :
  ∃ c', pconf_line (λ _, 7) (str "SETINFO ups.id UPS1" ++ [10]) (pconf_init blank) = Some (c', 1)
    ∧ words c' = [str "SETINFO"; str "ups.id"; str "UPS1"].
Proof.
  destruct (pconf_line_roundtrip (λ _, 7) (pconf_init blank) 0
    [Bare (str "SETINFO"); Bare (str "ups.id"); Bare (str "UPS1")]) as (c' & E & Hw & _).
  - apply init_ok.
  - reflexivity.
  - reflexivity.
  - repeat constructor; done.
  - repeat constructor; right; apply Nat.leb_le; reflexivity.
  - right. apply Nat.leb_le. reflexivity.
  - exists c'. split; [exact E|exact Hw].
Defined.

(** What the parser keeps of a text: the characters that [addchar] accepts. *)

Definition kept_chars (w : list Z) : list Z := filter (λ x, printable x = true) w.

Lemma kept_chars_printable w : Forall (λ x, printable x = true) w → kept_chars w = w.
Proof.
  unfold kept_chars. induction 1 as [|x w Hx _ IH]; [done|]. by rewrite filter_cons_True, IH.
Qed.

Lemma sp_addchar_drop wl x s : printable x = false → sp_addchar wl x s = s.
Proof. intros Hx. unfold sp_addchar. by rewrite Hx. Qed.

Lemma run_escape_kept al wl w l ws u e :
  within wl (length u + length (kept_chars w)) →
  sp_run al wl (escape w ++ l) (MkSpec STATE_QUOTECOLLECT ws u e)
  = sp_run al wl l (MkSpec STATE_QUOTECOLLECT ws (u ++ kept_chars w) e).
Proof.
  revert u. induction w as [|x w IH]; intros u Hw; [cbn; by rewrite app_nil_r|].
  change (escape (x :: w)) with ((if bool_decide (x ∈ PCONF_ESCAPE) then [92; x] else [x]) ++ escape w).
  destruct (printable x) eqn:Hx.
  - assert (kept_chars (x :: w) = [x] ++ kept_chars w) as E by (unfold kept_chars; by rewrite filter_cons_True).
    rewrite E, length_app in Hw. cbn [length] in Hw.
    pose proof (run_escape al wl [x] (escape w ++ l) ws u e) as H1. cbn [escape flat_map] in H1.
    rewrite app_nil_r in H1. rewrite <- app_assoc, H1; [|by repeat constructor|unfold within in *; cbn; lia].
    rewrite IH; [by rewrite E, <- app_assoc|]. unfold within in *. rewrite length_app. cbn [length]. lia.
  - assert (kept_chars (x :: w) = kept_chars w) as E by (unfold kept_chars; by rewrite filter_cons_False by congruence).
    rewrite E in Hw |- *. assert (x ∉ PCONF_ESCAPE) as Hn.
    { intros Hin. unfold PCONF_ESCAPE in Hin. rewrite !elem_of_cons, elem_of_nil in Hin.
      destruct Hin as [->|[->|[->|[]]]]; discriminate. }
    rewrite bool_decide_eq_false_2 by done.
    assert (x ≠ 35 ∧ x ≠ 34 ∧ x ≠ 92) as (H35 & H34 & H92) by (unfold PCONF_ESCAPE in Hn; set_solver).
    cbn [app sp_run sp_step sp_state]. eval_tests. rewrite sp_addchar_drop by done.
    cbn [sp_goto sp_state line_done sp_words sp_cur sp_error]. by apply IH.
Qed.

Lemma run_quoted al wl w e :
  within wl (length (kept_chars w)) →
  sp_run al wl ([34] ++ escape w ++ [34; 10]) (MkSpec STATE_FINDWORDSTART [] [] e)
  = (MkSpec STATE_ENDOFLINE [kept_chars w] [] e, Some []).
Proof.
  intros Hw. cbn [app sp_run sp_step sp_state]. change (isspace 34) with false.
  cbn [Z.eqb Pos.eqb sp_goto sp_state sp_words sp_cur sp_error line_done].
  rewrite run_escape_kept by done. cbn [app sp_run sp_step sp_state Z.eqb Pos.eqb].
  rewrite sp_endofword_push by (destruct al; [by left|right; cbn; lia]). done.
Qed.

(** C31. [pconf_encode] into a buffer of at least two bytes, whatever string it is
    given, stays inside the buffer and leaves a NUL-terminated string: the escaped
    form of a prefix of the source, of the whole source when that fits.  Put
    between quotes, the string is parsed back, in a context with no word pending,
    to the characters of the prefix that the parser keeps (32 to 127), as long as
    they are within the word limit of the context; of a printable source that is
    the prefix itself. *)

Theorem pconf_encode_roundtrip junk c src dest destsize :
  ctx_ok c → magic c = PCONF_CTX_t_MAGIC → cur c = [] → Forall (λ x, x ≠ 0) src →
  (2 ≤ destsize ≤ length dest)%nat → Z.of_nat destsize < 2 ^ 32 →
  ∃ buf p q, pconf_encode src dest destsize = Some buf ∧ length buf = length dest
    ∧ drop destsize buf = drop destsize dest
    ∧ cstr buf = Some (escape p) ∧ src = p ++ q ∧ ((length (escape src) < destsize)%nat → q = [])
    ∧ (within (wordlen_limit c) (length (kept_chars p)) →
       ∃ c', pconf_line junk ([34] ++ escape p ++ [34; 10]) c = Some (c', 1)
         ∧ words c' = [kept_chars p])
    ∧ (Forall (λ x, printable x = true) src → kept_chars p = p).
Proof.
  intros H Hm Hc Hnul [H2 Hd] Hmax.
  rewrite pconf_encode_ok by done.
  destruct (escape_fit_prefix (destsize - 1) src) as (p & q & -> & He & Hq).
  pose proof (escape_fit_length (destsize - 1) (p ++ q)) as Hle. rewrite He in *.
  apply Forall_app in Hnul as [Hnul _]. pose proof (escape_nonzero p Hnul) as Hnz.
  replace (destsize - length (escape p))%nat with (S (destsize - 1 - length (escape p))) by lia.
  eexists _, p, q. split_and!; try done.
  - rewrite !length_app, length_replicate, length_drop. lia.
  - rewrite !drop_app, length_replicate, drop_ge, drop_ge by (rewrite ?length_replicate; lia).
    cbn [app]. by replace (destsize - length (escape p) - S (destsize - 1 - length (escape p)))%nat
      with 0%nat by lia.
  - cbn [replicate app]. by apply cstr_split.
  - intros. apply Hq. lia.
  - intros Hw. destruct (pconf_line_ok junk ([34] ++ escape p ++ [34; 10]) c H Hm) as (c' & E & _ & _ & Habs).
    unfold sp_line, sp_start in Habs. cbn [abs sp_cur sp_error] in Habs.
    rewrite Hc, run_quoted in Habs by done. exists c'. split; [done|]. by injection Habs.
  - intros [Hp _]%Forall_app. by apply kept_chars_printable.
Qed.

Lemma pconf_encode_roundtrip_witness :
  ∃ buf e c', pconf_encode [97; 35; 98] (replicate 5 9) 5 = Some buf ∧ cstr buf = Some e
    ∧ pconf_line (λ _, 7) ([34] ++ e ++ [34; 10]) (pconf_init blank)
      = Some (c', 1) ∧ words c' = [[97; 35; 98]].
Proof.
  destruct (pconf_encode_roundtrip (λ _, 7) (pconf_init blank) [97; 35; 98] (replicate 5 9) 5)
    as (buf & p & q & E & _ & _ & Ee & Epq & Hq & Hl & Hk).
  - apply init_ok.
  - reflexivity.
  - reflexivity.
  - repeat constructor; discriminate.
  - cbn. lia.
  - lia.
  - assert (q = []) as -> by (apply Hq, Nat.ltb_lt; reflexivity). rewrite app_nil_r in Epq.
    rewrite Hk in Hl by (repeat constructor). destruct Hl as (c' & El & Hw).
    { rewrite <- Epq. right. apply Nat.leb_le. reflexivity. }
    exists buf, (escape p), c'. rewrite Epq. rewrite Epq in E.
    split_and!; [exact E|exact Ee|exact El|exact Hw].
Defined.

(** C32. The three entry points agree: a line that the parser ends (by a newline
    or by a parse error) gives the same words, state and error flag whether it
    is passed to [pconf_line], fed to [pconf_char] a character at a time, or
    read from a file; [pconf_char] answers 0 until then and 1 (or -1 on a parse
    error) at the end, and the file is left at the first unread byte. *)

Theorem pconf_entry_points_agree junk c line s rest :
  ctx_ok c → magic c = PCONF_CTX_t_MAGIC → line_done (state c) = true → f c = Some line →
  sp_run (arg_limit c) (wordlen_limit c) line (sp_start (abs c)) = (s, Some rest) →
  ∃ c1 c2 c3, pconf_line junk line c = Some (c1, 1)
    ∧ feed junk line c = Some (c2, if decide (sp_state s = STATE_ENDOFLINE) then 1 else -1)
    ∧ pconf_file_next junk c = Some (c3, 1)
    ∧ abs c1 = s ∧ abs c2 = s ∧ abs c3 = s ∧ f c3 = Some rest.
Proof.
  intros H Hm Hd Hf Hr.
  destruct (pconf_line_ok junk line c H Hm) as (c1 & E1 & _ & _ & A1).
  unfold sp_line in A1. rewrite Hr in A1.
  assert (next_char (abs c) = sp_start (abs c)) as Hn
    by (unfold next_char; cbn [sp_state abs]; by rewrite Hd).
  rewrite <- Hn in Hr. destruct (feed_ok junk line c H Hm s rest Hr) as (c2 & E2 & _ & A2).
  destruct (pconf_file_next_ok junk c line H Hm Hf) as (c3 & E3 & _ & _ & A3 & F3).
  unfold sp_file_next in *. rewrite Hn in Hr. rewrite Hr in *. cbn [fst snd default] in *.
  exists c1, c2, c3. by split_and!.
Qed.

Definition between_lines : PCONF_CTX_t :=
  set_state STATE_ENDOFLINE (set_f (Some (str "MAXAGE 15" ++ [10; 65])) (pconf_init blank)).

Lemma pconf_entry_points_agree_witness :
  ∃ c2, feed (λ _, 7) (str "MAXAGE 15" ++ [10; 65]) between_lines = Some (c2, 1)
    ∧ words c2 = [str "MAXAGE"; str "15"].
Proof.
  destruct (pconf_entry_points_agree (λ _, 7) between_lines (str "MAXAGE 15" ++ [10; 65])
    (MkSpec STATE_ENDOFLINE [str "MAXAGE"; str "15"] [] 0) [65])
    as (c1 & c2 & c3 & _ & E2 & _ & _ & A2 & _).
  - destruct (init_ok blank). constructor; done.
  - reflexivity.
  - reflexivity.
  - reflexivity.
  - reflexivity.
  - exists c2. split; [exact E2|]. apply (f_equal sp_words) in A2. exact A2.
Defined.

(** C38. An unterminated last line of one word is lost: [pconf_file_next] reports
    the end of the file with no words, although the same text given to
    [pconf_line] is parsed as that word. *)

Theorem pconf_file_drops_last_word junk c w :
  ctx_ok c → magic c = PCONF_CTX_t_MAGIC → cur c = [] → w ≠ [] →
  Forall (λ x, bare_char x = true) w → within (wordlen_limit c) (length w) →
  f c = Some w →
  ∃ c1 c2, pconf_file_next junk c = Some (c1, 0) ∧ words c1 = [] ∧ f c1 = Some []
    ∧ pconf_line junk w c = Some (c2, 1) ∧ words c2 = [w].
Proof.
  intros H Hm Hc Hne Hb Hw Hf.
  assert (∀ e, sp_run (arg_limit c) (wordlen_limit c) w (MkSpec STATE_FINDWORDSTART [] [] e)
    = (MkSpec STATE_COLLECT [] w e, None)) as Hr.
  { intros e. destruct w as [|x w]; [done|]. apply Forall_cons_1 in Hb as [Hx Hb].
    destruct (bare_char_spec x Hx) as (Hp & Hsp & H10 & H35 & H92 & H34 & H61).
    cbn [length] in Hw. cbn [sp_run sp_step sp_state]. eval_tests.
    rewrite sp_addchar_push by (done || unfold within in *; cbn; lia).
    cbn [sp_goto sp_state sp_words sp_cur sp_error line_done app].
    rewrite <- (app_nil_r w), run_bare by done. by rewrite app_nil_r. }
  destruct (pconf_file_next_ok junk c w H Hm Hf) as (c1 & E1 & _ & _ & A1 & F1).
  destruct (pconf_line_ok junk w c H Hm) as (c2 & E2 & _ & _ & A2).
  unfold sp_file_next, sp_line, sp_start in *. cbn [abs sp_cur sp_error] in *.
  rewrite Hc, Hr in *. cbn [sp_words sp_cur fst snd default] in *.
  exists c1, c2. split_and!; try done; [by injection A1|].
  destruct w as [|x w]; [done|].
  rewrite sp_endofword_push in A2 by (destruct (arg_limit c); [by left|right; cbn; lia]).
  by injection A2.
Qed.

Lemma pconf_file_drops_last_word_witness :
  ∃ c1, pconf_file_next (λ _, 7) (set_f (Some (str "NOTIFYCMD")) (pconf_init blank)) = Some (c1, 0)
    ∧ words c1 = [].
Proof.
  destruct (pconf_file_drops_last_word (λ _, 7) (set_f (Some (str "NOTIFYCMD")) (pconf_init blank))
    (str "NOTIFYCMD")) as (c1 & _ & E & Hw & _).
  - destruct (init_ok blank). constructor; done.
  - reflexivity.
  - reflexivity.
  - discriminate.
  - repeat constructor.
  - right. apply Nat.leb_le. reflexivity.
  - reflexivity.
  - exists c1. split; [exact E|exact Hw].
Defined.

(** With a one-byte buffer the size test of [pconf_encode] wraps around: a
    source that starts with a character to escape fills the whole buffer with a
    backslash and leaves no terminating NUL. *)

Theorem pconf_encode_one_byte x src b :
  x ∈ PCONF_ESCAPE → pconf_encode (x :: src) [b] 1 = Some [92] ∧ cstr [92] = None.
Proof.
  intros Hx. split; [|done]. unfold pconf_encode. cbn [length Nat.ltb Nat.leb drop replicate app].
  cbn [encode_loop]. by rewrite bool_decide_true by done.
Qed.

Lemma pconf_encode_one_byte_witness : pconf_encode (str "#") [0] 1 = Some [92].
Proof. apply (pconf_encode_one_byte 35 [] 0). unfold PCONF_ESCAPE. set_solver. Defined.
