(* ===== verification/StateTree.v ===== *)
(** * Variable tree and command list (src/src/common/state.c) *)

From Stdlib Require Import ZArith Lia String.
From stdpp Require Import base tactics list numbers option sets gmap fin_maps sorting.
From S2P Require Import Prelude ParseConf.

#[local] Open Scope Z_scope.

(** ** Data (include/state.h, include/extstate.h) *)

Definition ST_MAX_VALUE_LEN : nat := 256.
Definition ST_FLAG_RW : Z := 0x0001.
Definition ST_FLAG_STRING : Z := 0x0002.
Definition ST_FLAG_NUMBER : Z := 0x0004.
Definition ST_FLAG_IMMUTABLE : Z := 0x0008.

Record timeval := MkTime { tv_sec : Z; tv_usec : Z }.

(** [val] is a pointer into the node: to its [raw] or to its [safe] buffer. *)

Inductive val_ptr := ToRaw | ToSafe.

Record range_t := MkRange { range_min : Z; range_max : Z }.

(** The payload of an [st_tree_t]; the two child pointers are in [st_tree]. *)

Record st_node := MkNode {
  var : list Z;
  val : val_ptr;
  raw : list Z;
  rawsize : nat;
  safe : list Z;
  safesize : nat;
  flags : Z;
  aux : Z;
  lastset : timeval;
  enum_list : list (list Z);
  range_list : list range_t
}.

Inductive st_tree :=
  | Leaf
  | Node (n : st_node) (left right : st_tree).

(** The string [node->val] points to. *)

Definition val_string (n : st_node) : list Z :=
  match val n with ToRaw => raw n | ToSafe => safe n end.

Definition set_lastset (now : timeval) (n : st_node) : st_node :=
  MkNode (var n) (val n) (raw n) (rawsize n) (safe n) (safesize n) (flags n) (aux n) now
    (enum_list n) (range_list n).
Definition set_raw (r : list Z) (sz : nat) (n : st_node) : st_node :=
  MkNode (var n) (val n) r sz (safe n) (safesize n) (flags n) (aux n) (lastset n)
    (enum_list n) (range_list n).
Definition set_val (v : val_ptr) (s : list Z) (sz : nat) (n : st_node) : st_node :=
  MkNode (var n) v (raw n) (rawsize n) s sz (flags n) (aux n) (lastset n)
    (enum_list n) (range_list n).
Definition set_flags (x : Z) (n : st_node) : st_node :=
  MkNode (var n) (val n) (raw n) (rawsize n) (safe n) (safesize n) x (aux n) (lastset n)
    (enum_list n) (range_list n).
Definition set_aux (x : Z) (n : st_node) : st_node :=
  MkNode (var n) (val n) (raw n) (rawsize n) (safe n) (safesize n) (flags n) x (lastset n)
    (enum_list n) (range_list n).
Definition set_enum_list (l : list (list Z)) (n : st_node) : st_node :=
  MkNode (var n) (val n) (raw n) (rawsize n) (safe n) (safesize n) (flags n) (aux n) (lastset n)
    l (range_list n).
Definition set_range_list (l : list range_t) (n : st_node) : st_node :=
  MkNode (var n) (val n) (raw n) (rawsize n) (safe n) (safesize n) (flags n) (aux n) (lastset n)
    (enum_list n) l.

(** ** Values *)

(** [pconf_encode] into a local buffer of [ST_MAX_VALUE_LEN] bytes. *)

Definition encode_value (src : list Z) : option (list Z) :=
  pconf_encode src (replicate ST_MAX_VALUE_LEN 0) ST_MAX_VALUE_LEN ≫= cstr.

Definition val_escape (n : st_node) : option st_node :=
  etmp ← encode_value (raw n);
  if decide (raw n = etmp) then Some (set_val ToRaw (safe n) (safesize n) n)
  else
    let sz := if (safesize n <? length etmp + 1)%nat then (length etmp + 1)%nat else safesize n in
    Some (set_val ToSafe (take (sz - 1) etmp) sz n).

(** ** Time stamps *)

(** [difftimeval] of src/src/common/common.c in microseconds.  The code adds up the
    same number of seconds in [double]; its one caller uses the sign, which the
    rounding keeps: the microseconds of the result are between 0 and 1000000, and
    whole seconds are exact.  (Without HAVE_CLOCK_GETTIME, as config.h.sample
    leaves it, [st_tree_timespec_t] is [struct timeval].) *)

Definition difftimeval (x y : timeval) : Z :=
  let y :=
    if tv_usec x <? tv_usec y then
      let numsec := (tv_usec y - tv_usec x) / 1000000 + 1 in
      MkTime (tv_sec y + numsec) (tv_usec y - 1000000 * numsec)
    else y in
  let y :=
    if 1000000 <? tv_usec x - tv_usec y then
      let numsec := (tv_usec x - tv_usec y) / 1000000 in
      MkTime (tv_sec y - numsec) (tv_usec y + 1000000 * numsec)
    else y in
  (tv_usec x - tv_usec y) + 1000000 * (tv_sec x - tv_sec y).

(** The NULL checks of the C function are [None] arguments. *)

Definition st_tree_node_compare_timestamp (node : option st_node) (cutoff : option timeval) : Z :=
  match node, cutoff with
  | None, _ => -2
  | _, None => -3
  | Some n, Some c =>
    let d := difftimeval (lastset n) c in
    if d <? 0 then -1 else if 0 <? d then 1 else 0
  end.

(** ** Tree operations

    The C loops walk down a pointer to the link to change; here the path is
    rebuilt on the way back.  [now] is the clock reading the call makes. *)

Fixpoint state_tree_find (node : st_tree) (v : list Z) : option st_node :=
  match node with
  | Leaf => None
  | Node n l r =>
    if 0 <? strcasecmp (var n) v then state_tree_find l v
    else if strcasecmp (var n) v <? 0 then state_tree_find r v
    else Some n
  end.

(** Writing through the pointer that [state_tree_find] returned. *)

Fixpoint tree_write (t : st_tree) (v : list Z) (g : st_node → st_node) : st_tree :=
  match t with
  | Leaf => Leaf
  | Node n l r =>
    if 0 <? strcasecmp (var n) v then Node n (tree_write l v g) r
    else if strcasecmp (var n) v <? 0 then Node n l (tree_write r v g)
    else Node (g n) l r
  end.

Fixpoint node_add_at (t : st_tree) (s : st_node) (sptr : st_tree) : st_tree :=
  match t with
  | Leaf => sptr
  | Node n l r =>
    if 0 <? strcasecmp (var n) (var s) then Node n (node_add_at l s sptr) r
    else if strcasecmp (var n) (var s) <? 0 then Node n l (node_add_at r s sptr)
    else t
  end.

Definition st_tree_node_add (t sptr : st_tree) : st_tree :=
  match sptr with Leaf => t | Node s _ _ => node_add_at t s sptr end.

Definition immutable (n : st_node) : bool := negb (Z.land (flags n) ST_FLAG_IMMUTABLE =? 0).

Fixpoint state_delinfo (t : st_tree) (v : list Z) : st_tree * Z :=
  match t with
  | Leaf => (Leaf, 0)
  | Node n l r =>
    if 0 <? strcasecmp (var n) v then let '(l', x) := state_delinfo l v in (Node n l' r, x)
    else if strcasecmp (var n) v <? 0 then let '(r', x) := state_delinfo r v in (Node n l r', x)
    else if immutable n then (t, 0)
    else (st_tree_node_add r l, 1)
  end.

Fixpoint state_delinfo_olderthan (t : st_tree) (v : list Z) (cutoff : option timeval)
    : st_tree * Z :=
  match t with
  | Leaf => (Leaf, 0)
  | Node n l r =>
    if 0 <? strcasecmp (var n) v then
      let '(l', x) := state_delinfo_olderthan l v cutoff in (Node n l' r, x)
    else if strcasecmp (var n) v <? 0 then
      let '(r', x) := state_delinfo_olderthan r v cutoff in (Node n l r', x)
    else if immutable n then (t, 0)
    else if 0 <=? st_tree_node_compare_timestamp (Some n) cutoff then (t, 0)
    else (st_tree_node_add r l, 1)
  end.

(** The node [state_setinfo] allocates for a new variable. *)

Definition new_node (v x : list Z) (now : timeval) : option st_node :=
  val_escape (MkNode v ToRaw x (length x + 1) [] 0 0 0 now [] []).

(** What it does to the node it found: the node and the return value. *)

Definition update_node (x : list Z) (now : timeval) (n : st_node) : option (st_node * Z) :=
  let n := set_lastset now n in
  if strcasecmp (raw n) x =? 0 then Some (n, 0)
  else if immutable n then Some (n, 0)
  else
    let sz := if (rawsize n <? length x + 1)%nat then (length x + 1)%nat else rawsize n in
    n ← val_escape (set_raw (take (sz - 1) x) sz n);
    Some (n, 1).

Fixpoint state_setinfo (t : st_tree) (v x : list Z) (now : timeval) : option (st_tree * Z) :=
  match t with
  | Leaf => n ← new_node v x now; Some (Node n Leaf Leaf, 1)
  | Node n l r =>
    if 0 <? strcasecmp (var n) v then '(l', k) ← state_setinfo l v x now; Some (Node n l' r, k)
    else if strcasecmp (var n) v <? 0 then
      '(r', k) ← state_setinfo r v x now; Some (Node n l r', k)
    else '(n', k) ← update_node x now n; Some (Node n' l r, k)
  end.

Fixpoint st_tree_enum_add (l : list (list Z)) (enc : list Z) : list (list Z) * Z :=
  match l with
  | [] => ([enc], 1)
  | e :: l' =>
    if decide (e = enc) then (l, 0) else let '(l'', k) := st_tree_enum_add l' enc in (e :: l'', k)
  end.

Definition state_addenum (root : st_tree) (v x : list Z) (now : timeval)
    : option (st_tree * Z) :=
  match state_tree_find root v with
  | None => Some (root, 0)
  | Some n =>
    enc ← encode_value x;
    let '(l, k) := st_tree_enum_add (enum_list n) enc in
    Some (tree_write root v (λ n, set_enum_list l (set_lastset now n)), k)
  end.

Fixpoint st_tree_range_add (l : list range_t) (mn mx : Z) : list range_t * Z :=
  match l with
  | [] => ([MkRange mn mx], 1)
  | i :: l' =>
    if negb (range_min i =? mn) && negb (range_max i =? mx)
    then let '(l'', k) := st_tree_range_add l' mn mx in (i :: l'', k)
    else (l, 0)
  end.

Definition state_addrange (root : st_tree) (v : list Z) (mn mx : Z) (now : timeval) : st_tree * Z :=
  if mx <? mn then (root, 0)
  else
    match state_tree_find root v with
    | None => (root, 0)
    | Some n =>
      let '(l, k) := st_tree_range_add (range_list n) mn mx in
      (tree_write root v (λ n, set_range_list l (set_lastset now n)), k)
    end.

Definition state_setaux (root : st_tree) (v auxs : list Z) (now : timeval) : st_tree * Z :=
  match state_tree_find root v with
  | None => (root, -1)
  | Some n =>
    let x := strtol auxs in
    if aux n =? x then (tree_write root v (set_lastset now), 0)
    else (tree_write root v (λ n, set_aux x (set_lastset now n)), 1)
  end.

Definition state_getinfo (root : st_tree) (v : list Z) : option (list Z) :=
  val_string <$> state_tree_find root v.

Definition state_getflags (root : st_tree) (v : list Z) : Z :=
  match state_tree_find root v with None => -1 | Some n => flags n end.

Definition state_getaux (root : st_tree) (v : list Z) : Z :=
  match state_tree_find root v with None => -1 | Some n => aux n end.

(** A NULL list is the empty one. *)

Definition state_getenumlist (root : st_tree) (v : list Z) : list (list Z) :=
  match state_tree_find root v with None => [] | Some n => enum_list n end.

Definition state_getrangelist (root : st_tree) (v : list Z) : list range_t :=
  match state_tree_find root v with None => [] | Some n => range_list n end.

Definition flag_bit (w : list Z) : Z :=
  if strcasecmp w (str "RW") =? 0 then ST_FLAG_RW
  else if strcasecmp w (str "STRING") =? 0 then ST_FLAG_STRING
  else if strcasecmp w (str "NUMBER") =? 0 then ST_FLAG_NUMBER
  else 0.

Definition state_setflags (root : st_tree) (v : list Z) (flag : list (list Z)) (now : timeval)
    : st_tree :=
  match state_tree_find root v with
  | None => root
  | Some _ =>
    tree_write root v (λ n,
      set_flags (foldl (λ acc w, Z.lor acc (flag_bit w)) 0 flag) (set_lastset now n))
  end.

Fixpoint st_tree_del_enum (l : list (list Z)) (x : list Z) : list (list Z) * Z :=
  match l with
  | [] => ([], 0)
  | e :: l' =>
    if negb (strcasecmp e x =? 0) then let '(l'', k) := st_tree_del_enum l' x in (e :: l'', k)
    else (l', 1)
  end.

Definition state_delenum (root : st_tree) (v x : list Z) (now : timeval) : st_tree * Z :=
  match state_tree_find root v with
  | None => (root, 0)
  | Some n =>
    let '(l, k) := st_tree_del_enum (enum_list n) x in
    (tree_write root v (λ n, set_enum_list l (set_lastset now n)), k)
  end.

Fixpoint st_tree_del_range (l : list range_t) (mn mx : Z) : list range_t * Z :=
  match l with
  | [] => ([], 0)
  | i :: l' =>
    if negb (range_min i =? mn) && negb (range_max i =? mx)
    then let '(l'', k) := st_tree_del_range l' mn mx in (i :: l'', k)
    else (l', 1)
  end.

Definition state_delrange (root : st_tree) (v : list Z) (mn mx : Z) (now : timeval) : st_tree * Z :=
  match state_tree_find root v with
  | None => (root, 0)
  | Some n =>
    let '(l, k) := st_tree_del_range (range_list n) mn mx in
    (tree_write root v (λ n, set_range_list l (set_lastset now n)), k)
  end.

(** ** Commands *)

Fixpoint state_addcmd (l : list (list Z)) (cmd : list Z) : list (list Z) * Z :=
  match l with
  | [] => ([cmd], 1)
  | c :: l' =>
    if 0 <? strcasecmp c cmd then (cmd :: l, 1)
    else if strcasecmp c cmd <? 0 then let '(l'', k) := state_addcmd l' cmd in (c :: l'', k)
    else (l, 0)
  end.

Fixpoint state_delcmd (l : list (list Z)) (cmd : list Z) : list (list Z) * Z :=
  match l with
  | [] => ([], 0)
  | c :: l' =>
    if 0 <? strcasecmp c cmd then (l, 0)
    else if strcasecmp c cmd <? 0 then let '(l'', k) := state_delcmd l' cmd in (c :: l'', k)
    else (l', 1)
  end.

(** ** Specification: a finite map from case-folded names to nodes *)

Definition key (n : st_node) : list Z := fold_case (var n).

Fixpoint to_map (t : st_tree) : gmap (list Z) st_node :=
  match t with
  | Leaf => ∅
  | Node n l r => <[key n := n]> (to_map l ∪ to_map r)
  end.

Fixpoint bst (t : st_tree) : Prop :=
  match t with
  | Leaf => True
  | Node n l r =>
    map_Forall (λ k _, lex_lt k (key n)) (to_map l)
    ∧ map_Forall (λ k _, lex_lt (key n) k) (to_map r)
    ∧ bst l ∧ bst r
  end.

Definition spec_del (m : gmap (list Z) st_node) (v : list Z) (keep : st_node → bool)
    : gmap (list Z) st_node * Z :=
  match m !! fold_case v with
  | None => (m, 0)
  | Some n => if keep n then (m, 0) else (delete (fold_case v) m, 1)
  end.

(** What a set does to the binding of its variable. *)

Definition set_node (v x : list Z) (now : timeval) (o : option st_node) : option (st_node * Z) :=
  match o with
  | None => n ← new_node v x now; Some (n, 1)
  | Some n => update_node x now n
  end.

Definition spec_set (m : gmap (list Z) st_node) (v x : list Z) (now : timeval)
    : option (gmap (list Z) st_node * Z) :=
  '(n, k) ← set_node v x now (m !! fold_case v);
  Some (<[fold_case v := n]> m, k).

(** ** The tree refines the map *)

(** Splits on the three outcomes of the comparison that steers a descent. *)

Ltac descend a b :=
  let E := fresh "Ecmp" in let H := fresh "Hcmp" in
  destruct (strcasecmp_cases a b) as [[E H]|[[E H]|[E H]]]; rewrite E; cbn [Z.ltb Z.compare].

Lemma below_none (m : gmap (list Z) st_node) b k :
  map_Forall (λ k _, lex_lt k b) m → (k = b ∨ lex_lt b k) → m !! k = None.
Proof.
  intros H Hk. destruct (m !! k) as [n|] eqn:E; [|done]. exfalso.
  specialize (H k n E). cbn in H. destruct Hk as [->|Hk]; [by apply (lex_lt_irrefl b)|].
  apply (lex_lt_irrefl b). by transitivity k.
Qed.

Lemma above_none (m : gmap (list Z) st_node) b k :
  map_Forall (λ k _, lex_lt b k) m → (k = b ∨ lex_lt k b) → m !! k = None.
Proof.
  intros H Hk. destruct (m !! k) as [n|] eqn:E; [|done]. exfalso.
  specialize (H k n E). cbn in H. destruct Hk as [->|Hk]; [by apply (lex_lt_irrefl b)|].
  apply (lex_lt_irrefl b). by transitivity k.
Qed.

(** Where the key of a search tree can be. *)

Lemma lookup_left n l r k :
  bst (Node n l r) → lex_lt k (key n) → to_map (Node n l r) !! k = to_map l !! k.
Proof.
  intros (Hl & Hr & _ & _) Hk. cbn [to_map].
  rewrite lookup_insert_ne by (intros ?; by apply (lex_lt_ne _ _ Hk)).
  rewrite lookup_union, (above_none _ _ _ Hr) by auto. by destruct (to_map l !! k).
Qed.

Lemma lookup_right n l r k :
  bst (Node n l r) → lex_lt (key n) k → to_map (Node n l r) !! k = to_map r !! k.
Proof.
  intros (Hl & Hr & _ & _) Hk. cbn [to_map].
  rewrite lookup_insert_ne by (intros ?; by apply (lex_lt_ne _ _ Hk)).
  rewrite lookup_union, (below_none _ _ _ Hl) by auto. by destruct (to_map r !! k).
Qed.

Lemma lookup_root n l r : to_map (Node n l r) !! key n = Some n.
Proof. apply lookup_insert_eq. Qed.

Lemma state_tree_find_map t v : bst t → state_tree_find t v = to_map t !! fold_case v.
Proof.
  induction t as [|n l IHl r IHr]; intros Hb; cbn [state_tree_find]; [done|].
  pose proof Hb as (_ & _ & Hbl & Hbr). descend (var n) v.
  - by rewrite lookup_left, IHl.
  - by rewrite lookup_right, IHr.
  - rewrite <- Hcmp. symmetry. apply lookup_root.
Qed.

(** Replacing a subtree by one with one more, fewer or changed binding. *)

Lemma union_insert_left (n : st_node) (ml mr : gmap (list Z) st_node) k x :
  lex_lt k (key n) → <[key n := n]> (<[k := x]> ml ∪ mr) = <[k := x]> (<[key n := n]> (ml ∪ mr)).
Proof.
  intros Hk. rewrite <- insert_union_l, insert_insert_ne; [done|].
  intros E. by apply (lex_lt_ne _ _ Hk).
Qed.

Lemma union_insert_right (n : st_node) (ml mr : gmap (list Z) st_node) k x :
  map_Forall (λ k _, lex_lt k (key n)) ml → lex_lt (key n) k →
  <[key n := n]> (ml ∪ <[k := x]> mr) = <[k := x]> (<[key n := n]> (ml ∪ mr)).
Proof.
  intros Hl Hk. rewrite <- insert_union_r, insert_insert_ne; [done| |].
  - apply lex_lt_ne, Hk.
  - apply (below_none _ _ _ Hl). auto.
Qed.

Lemma union_delete_left (n : st_node) (ml mr : gmap (list Z) st_node) k :
  map_Forall (λ k _, lex_lt (key n) k) mr → lex_lt k (key n) →
  <[key n := n]> (delete k ml ∪ mr) = delete k (<[key n := n]> (ml ∪ mr)).
Proof.
  intros Hr Hk. rewrite delete_insert_ne by (intros E; by apply (lex_lt_ne _ _ Hk)).
  f_equal. rewrite delete_union. f_equal. symmetry. apply delete_id, (above_none _ _ _ Hr). auto.
Qed.

Lemma union_delete_right (n : st_node) (ml mr : gmap (list Z) st_node) k :
  map_Forall (λ k _, lex_lt k (key n)) ml → lex_lt (key n) k →
  <[key n := n]> (ml ∪ delete k mr) = delete k (<[key n := n]> (ml ∪ mr)).
Proof.
  intros Hl Hk. rewrite delete_insert_ne by (intros E; by apply (lex_lt_ne _ _ Hk)).
  f_equal. rewrite delete_union. f_equal. symmetry. apply delete_id, (below_none _ _ _ Hl). auto.
Qed.

Lemma val_escape_var n n' : val_escape n = Some n' → var n' = var n.
Proof.
  unfold val_escape. destruct (encode_value (raw n)); cbn; [|done].
  case_decide; intros [= <-]; done.
Qed.

Lemma new_node_key v x now n : new_node v x now = Some n → key n = fold_case v.
Proof. intros H%val_escape_var. unfold key. by rewrite H. Qed.

Lemma update_node_key x now n n' k : update_node x now n = Some (n', k) → key n' = key n.
Proof.
  unfold update_node, key. intros H. repeat case_match; simplify_eq; try done.
  all: destruct (val_escape _) eqn:E in H; simplify_eq/=; apply val_escape_var in E; by rewrite E.
Qed.

Lemma map_Forall_insert_key (P : list Z → Prop) (m : gmap (list Z) st_node) k x :
  P k → map_Forall (λ k _, P k) m → map_Forall (λ k _, P k) (<[k := x]> m).
Proof. intros Hk Hm i y. rewrite lookup_insert. case_decide; [by subst|apply Hm]. Qed.

Lemma map_Forall_delete_key (P : list Z → Prop) (m : gmap (list Z) st_node) k :
  map_Forall (λ k _, P k) m → map_Forall (λ k _, P k) (delete k m).
Proof. intros Hm i y [_ H]%lookup_delete_Some. by apply (Hm i y). Qed.

Lemma state_setinfo_map t v x now :
  bst t →
  match set_node v x now (to_map t !! fold_case v) with
  | None => state_setinfo t v x now = None
  | Some (n', k) =>
    ∃ t', state_setinfo t v x now = Some (t', k) ∧ bst t'
      ∧ to_map t' = <[fold_case v := n']> (to_map t)
  end.
Proof.
  induction t as [|n l IHl r IHr]; intros Hb; cbn [state_setinfo].
  - cbn [to_map]. rewrite lookup_empty. cbn [set_node].
    destruct (new_node v x now) as [n|] eqn:E; cbn [mbind option_bind]; [|done].
    eexists. split_and!; [done|done|]. cbn [to_map].
    by rewrite (new_node_key _ _ _ _ E), map_empty_union.
  - pose proof Hb as (Hl & Hr & Hbl & Hbr). descend (var n) v.
    + rewrite lookup_left by done. specialize (IHl Hbl). revert IHl.
      destruct (set_node v x now (to_map l !! fold_case v)) as [[n' k]|]; intros IHl; [|by rewrite IHl].
      destruct IHl as (l' & -> & Hbl' & Hm). eexists. split_and!; [done| |]; cbn [bst to_map]; rewrite Hm.
      * split_and!; try done; by apply (map_Forall_insert_key (λ k, lex_lt k (key n))).
      * by apply union_insert_left.
    + rewrite lookup_right by done. specialize (IHr Hbr). revert IHr.
      destruct (set_node v x now (to_map r !! fold_case v)) as [[n' k]|]; intros IHr; [|by rewrite IHr].
      destruct IHr as (r' & -> & Hbr' & Hm). eexists. split_and!; [done| |]; cbn [bst to_map]; rewrite Hm.
      * split_and!; try done; by apply (map_Forall_insert_key (lex_lt (key n))).
      * by apply union_insert_right.
    + rewrite <- Hcmp. fold (key n). rewrite lookup_root. cbn [set_node].
      destruct (update_node x now n) as [[n' k]|] eqn:E; [|done].
      apply update_node_key in E. eexists. split_and!; [done| |]; cbn [bst to_map]; rewrite E.
      * done.
      * by rewrite insert_insert_eq.
Qed.

(** Writing through a found pointer. *)

Lemma tree_write_map t v g :
  bst t → (∀ n, key (g n) = key n) →
  bst (tree_write t v g)
  ∧ to_map (tree_write t v g)
    = match to_map t !! fold_case v with None => to_map t | Some n => <[fold_case v := g n]> (to_map t) end.
Proof.
  intros Hb Hg. induction t as [|n l IHl r IHr]; cbn [tree_write]; [done|].
  pose proof Hb as (Hl & Hr & Hbl & Hbr). descend (var n) v.
  - rewrite lookup_left by done. destruct (IHl Hbl) as [Hbl' Hm]. revert Hm.
    destruct (to_map l !! fold_case v); intros Hm; cbn [bst to_map]; rewrite Hm; [|done].
    split; [split_and!; try done; by apply (map_Forall_insert_key (λ k, lex_lt k (key n)))
      |by apply union_insert_left].
  - rewrite lookup_right by done. destruct (IHr Hbr) as [Hbr' Hm]. revert Hm.
    destruct (to_map r !! fold_case v); intros Hm; cbn [bst to_map]; rewrite Hm; [|done].
    split; [split_and!; try done; by apply (map_Forall_insert_key (lex_lt (key n)))
      |by apply union_insert_right].
  - rewrite <- Hcmp. fold (key n). rewrite lookup_root. cbn [bst to_map]. rewrite Hg, insert_insert_eq.
    done.
Qed.

(** Hanging a subtree of smaller keys off a tree leaves the union. *)

Lemma node_add_at_map t s sl sr :
  bst t → bst (Node s sl sr) →
  (∀ k, is_Some (to_map (Node s sl sr) !! k) → map_Forall (λ k' _, lex_lt k k') (to_map t)) →
  bst (node_add_at t s (Node s sl sr))
  ∧ to_map (node_add_at t s (Node s sl sr)) = to_map (Node s sl sr) ∪ to_map t.
Proof.
  intros Hb Hbs. induction t as [|n l IHl r IHr]; intros Hlt; cbn [node_add_at].
  { split; [done|]. change (to_map Leaf) with (∅ : gmap (list Z) st_node). by rewrite map_union_empty. }
  pose proof Hb as (Hl & Hr & Hbl & Hbr).
  assert (lex_lt (key s) (key n)) as Hsn.
  { refine (Hlt (key s) _ (key n) n (lookup_root _ _ _)). rewrite lookup_root. eauto. }
  descend (var n) (var s).
  2, 3: exfalso; apply (lex_lt_irrefl (key n)); unfold key in *.
  2: by transitivity (fold_case (var s)).
  2: by rewrite Hcmp in Hsn |- *.
  destruct IHl as [Hbl' Hm]; [done| |].
  { intros k Hk k' x Hk'. apply (Hlt k Hk k' x). rewrite lookup_left; [done|done|].
    apply (Hl k' x Hk'). }
  remember (Node s sl sr) as S eqn:ES. cbn [bst to_map]. rewrite Hm. split.
  - split_and!; try done. intros k x Hk. apply lookup_union_Some_raw in Hk as [Hk|[_ Hk]].
    + refine (Hlt k _ (key n) n (lookup_root _ _ _)). eauto.
    + by apply (Hl k x).
  - rewrite <- map_union_assoc. rewrite insert_union_r; [done|].
    destruct (to_map S !! key n) eqn:E; [|done]. exfalso.
    apply (lex_lt_irrefl (key n)). refine (Hlt (key n) _ (key n) n (lookup_root _ _ _)). eauto.
Qed.

Lemma st_tree_node_add_map l r b :
  bst l → bst r →
  map_Forall (λ k _, lex_lt k b) (to_map l) → map_Forall (λ k _, lex_lt b k) (to_map r) →
  bst (st_tree_node_add r l) ∧ to_map (st_tree_node_add r l) = to_map l ∪ to_map r.
Proof.
  intros Hbl Hbr Hl Hr. destruct l as [|s sl sr]; cbn [st_tree_node_add].
  { cbn [to_map]. by rewrite map_empty_union. }
  apply node_add_at_map; [done|done|]. intros k [x Hk] k' x' Hk'.
  transitivity b; [by apply (Hl k x)|by apply (Hr k' x')].
Qed.

(** Deletion, for any test of the found node. *)

Definition delinfo_if (keep : st_node → bool) : st_tree → list Z → st_tree * Z :=
  fix go t v :=
    match t with
    | Leaf => (Leaf, 0)
    | Node n l r =>
      if 0 <? strcasecmp (var n) v then let '(l', x) := go l v in (Node n l' r, x)
      else if strcasecmp (var n) v <? 0 then let '(r', x) := go r v in (Node n l r', x)
      else if keep n then (t, 0)
      else (st_tree_node_add r l, 1)
    end.

Lemma delinfo_if_map keep t v :
  bst t →
  ∃ t' k, delinfo_if keep t v = (t', k) ∧ bst t' ∧ spec_del (to_map t) v keep = (to_map t', k).
Proof.
  unfold spec_del. induction t as [|n l IHl r IHr]; intros Hb; cbn [delinfo_if].
  { by eexists _, _. }
  pose proof Hb as (Hl & Hr & Hbl & Hbr). descend (var n) v.
  - rewrite lookup_left by done. destruct (IHl Hbl) as (l' & k & E & Hbl' & Hs). rewrite E. clear E.
    eexists _, _. split; [done|]. revert Hs.
    destruct (to_map l !! fold_case v); [destruct (keep _)|]; intros [= Hm <-]; cbn [bst to_map];
      rewrite <- Hm; (split; [split_and!|]); try done;
      try by apply (map_Forall_delete_key (λ k, lex_lt k (key n))).
    by rewrite union_delete_left.
  - rewrite lookup_right by done. destruct (IHr Hbr) as (r' & k & E & Hbr' & Hs). rewrite E. clear E.
    eexists _, _. split; [done|]. revert Hs.
    destruct (to_map r !! fold_case v); [destruct (keep _)|]; intros [= Hm <-]; cbn [bst to_map];
      rewrite <- Hm; (split; [split_and!|]); try done;
      try by apply (map_Forall_delete_key (lex_lt (key n))).
    by rewrite union_delete_right.
  - rewrite <- Hcmp. fold (key n). rewrite lookup_root. destruct (keep n); [by eexists _, _|].
    destruct (st_tree_node_add_map l r (key n)) as [Hb' Hm]; [done..|].
    eexists _, _. split_and!; [done|done|]. rewrite Hm. cbn [to_map].
    rewrite delete_insert_id; [done|]. rewrite lookup_union, (below_none _ _ _ Hl), (above_none _ _ _ Hr); auto.
Qed.

Lemma state_delinfo_if t v : state_delinfo t v = delinfo_if immutable t v.
Proof. induction t as [|n l IHl r IHr]; cbn; [done|]. by rewrite IHl, IHr. Qed.

Lemma state_delinfo_olderthan_if t v cutoff :
  state_delinfo_olderthan t v cutoff
  = delinfo_if (λ n, immutable n || (0 <=? st_tree_node_compare_timestamp (Some n) cutoff)) t v.
Proof.
  induction t as [|n l IHl r IHr]; cbn [state_delinfo_olderthan delinfo_if]; [done|].
  rewrite IHl, IHr. by destruct (immutable n).
Qed.

(** ** Encoded values *)

Lemma strlen_some buf : 0 ∈ buf → is_Some (strlen buf).
Proof.
  induction buf as [|c buf IH]; intros H; [by apply elem_of_nil in H|]. cbn.
  destruct (Z.eqb_spec c 0); [eauto|]. apply elem_of_cons in H as [?|H]; [congruence|].
  destruct (IH H) as [m ->]. eauto.
Qed.

Lemma encode_value_ok x :
  pconf_encode x (replicate ST_MAX_VALUE_LEN 0) ST_MAX_VALUE_LEN
  = Some (escape_fit 255 x ++ replicate (256 - length (escape_fit 255 x)) 0).
Proof.
  rewrite pconf_encode_ok by (rewrite ?length_replicate; unfold ST_MAX_VALUE_LEN; lia).
  rewrite (drop_ge (replicate _ _)) by (rewrite length_replicate; lia).
  by rewrite app_nil_r.
Qed.

Lemma encode_value_some x : is_Some (encode_value x).
Proof.
  unfold encode_value. rewrite encode_value_ok. cbn [mbind option_bind]. unfold cstr.
  pose proof (escape_fit_length 255 x).
  destruct (strlen_some (escape_fit 255 x ++ replicate (256 - length (escape_fit 255 x)) 0)) as [n ->].
  { apply elem_of_app. right. apply elem_of_replicate. lia. }
  cbn. eauto.
Qed.

Definition c_string (s : list Z) : Prop := Forall (λ c, c ≠ 0) s.

Lemma encode_value_spec x : c_string x → encode_value x = Some (escape_fit 255 x).
Proof.
  intros Hx. unfold encode_value. rewrite encode_value_ok. cbn [mbind option_bind].
  pose proof (escape_fit_length 255 x).
  replace (256 - length (escape_fit 255 x))%nat with (S (255 - length (escape_fit 255 x))) by lia.
  apply cstr_split. destruct (escape_fit_prefix 255 x) as (p & q & -> & -> & _).
  apply Forall_app in Hx as [Hp _]. by apply escape_nonzero.
Qed.

Lemma val_escape_some n : is_Some (val_escape n).
Proof.
  unfold val_escape. destruct (encode_value_some (raw n)) as [e ->]. cbn. case_decide; eauto.
Qed.

Lemma val_escape_string n n' :
  c_string (raw n) → val_escape n = Some n' → raw n' = raw n ∧ val_string n' = escape_fit 255 (raw n).
Proof.
  intros Hr. unfold val_escape. rewrite encode_value_spec by done. cbn [mbind option_bind].
  case_decide as E; intros [= <-]; (split; [done|]); cbn [val_string set_val val safe raw]; [done|].
  rewrite take_ge; [done|]. destruct (Nat.ltb_spec (safesize n) (length (escape_fit 255 (raw n)) + 1)); lia.
Qed.

Ltac escape_some :=
  match goal with
  | |- context [val_escape ?m] => destruct (val_escape_some m) as [? ->]; cbn [mbind option_bind]
  end.

Lemma set_node_some v x now o : is_Some (set_node v x now o).
Proof.
  destruct o as [n|]; cbn [set_node]; unfold new_node, update_node; [|escape_some; eauto].
  destruct (strcasecmp _ _ =? 0); [eauto|]. destruct (immutable _); [eauto|]. escape_some. eauto.
Qed.

(** What [state_setinfo] leaves in the node of its variable. *)

Lemma set_node_value v x now o n' k :
  c_string x → set_node v x now o = Some (n', k) →
  match o with
  | Some n =>
    if (strcasecmp (raw n) x =? 0) || immutable n
    then k = 0 ∧ n' = set_lastset now n
    else k = 1 ∧ raw n' = x ∧ val_string n' = escape_fit 255 x
  | None => k = 1 ∧ raw n' = x ∧ val_string n' = escape_fit 255 x
  end.
Proof.
  intros Hx. destruct o as [n|]; cbn [set_node].
  - unfold update_node. change (raw (set_lastset now n)) with (raw n).
    change (immutable (set_lastset now n)) with (immutable n).
    change (rawsize (set_lastset now n)) with (rawsize n).
    destruct (strcasecmp (raw n) x =? 0); cbn [orb]; [by intros [= <- <-]|].
    destruct (immutable n); [by intros [= <- <-]|].
    set (sz := if (rawsize n <? length x + 1)%nat then (length x + 1)%nat else rawsize n).
    rewrite (take_ge x (sz - 1)) by (unfold sz; destruct (Nat.ltb_spec (rawsize n) (length x + 1)); lia).
    destruct (val_escape _) as [n1|] eqn:E; cbn; [|done]. intros [= <- <-].
    split; [done|]. apply val_escape_string in E; done.
  - unfold new_node. destruct (val_escape _) as [n1|] eqn:E; cbn; [|done]. intros [= <- <-].
    split; [done|]. apply val_escape_string in E; done.
Qed.

(** ** Sequences of operations *)

Inductive tree_op :=
  | SetInfo (x : list Z)
  | DelInfo
  | DelInfoOlderThan (cutoff : option timeval)
  | AddEnum (x : list Z)
  | DelEnum (x : list Z)
  | AddRange (mn mx : Z)
  | DelRange (mn mx : Z)
  | SetAux (auxs : list Z)
  | SetFlags (flag : list (list Z)).

Definition run_op (t : st_tree) (v : list Z) (op : tree_op) (now : timeval) : option st_tree :=
  match op with
  | SetInfo x => fst <$> state_setinfo t v x now
  | DelInfo => Some (state_delinfo t v).1
  | DelInfoOlderThan cutoff => Some (state_delinfo_olderthan t v cutoff).1
  | AddEnum x => fst <$> state_addenum t v x now
  | DelEnum x => Some (state_delenum t v x now).1
  | AddRange mn mx => Some (state_addrange t v mn mx now).1
  | DelRange mn mx => Some (state_delrange t v mn mx now).1
  | SetAux auxs => Some (state_setaux t v auxs now).1
  | SetFlags flag => Some (state_setflags t v flag now)
  end.

(** A tree whose other variables are untouched. *)

Definition frames (v : list Z) (t t' : st_tree) : Prop :=
  bst t' ∧ ∀ w, fold_case w ≠ fold_case v → state_tree_find t' w = state_tree_find t w.

Lemma frames_map v t t' :
  bst t → bst t' →
  (∀ k, k ≠ fold_case v → to_map t' !! k = to_map t !! k) → frames v t t'.
Proof.
  intros Hb Hb' H. split; [done|]. intros w Hw. rewrite !state_tree_find_map by done. by apply H.
Qed.

Lemma tree_write_frames t v g : bst t → (∀ n, key (g n) = key n) → frames v t (tree_write t v g).
Proof.
  intros Hb Hg. destruct (tree_write_map t v g Hb Hg) as [Hb' Hm]. apply frames_map; [done..|].
  intros k Hk. rewrite Hm. case_match; [|done]. by rewrite lookup_insert_ne.
Qed.

Lemma delinfo_if_frames keep t v : bst t → frames v t (delinfo_if keep t v).1.
Proof.
  intros Hb. destruct (delinfo_if_map keep t v Hb) as (t' & k & -> & Hb' & Hs).
  apply frames_map; [done..|]. intros k' Hk. unfold spec_del in Hs. cbn [fst].
  repeat case_match; injection Hs as <- <-; [done| |done]. by rewrite lookup_delete_ne.
Qed.

Lemma state_setinfo_ok t v x now :
  bst t → ∃ t' k n', state_setinfo t v x now = Some (t', k) ∧ bst t'
    ∧ set_node v x now (state_tree_find t v) = Some (n', k)
    ∧ to_map t' = <[fold_case v := n']> (to_map t).
Proof.
  intros Hb. pose proof (state_setinfo_map t v x now Hb) as H.
  rewrite state_tree_find_map by done.
  destruct (set_node_some v x now (to_map t !! fold_case v)) as [[n' k] E]. rewrite E in *.
  destruct H as (t' & ? & ? & ?). by exists t', k, n'.
Qed.

Lemma frames_refl v t : bst t → frames v t t.
Proof. by split. Qed.

Lemma run_op_frames t v op now : bst t → ∃ t', run_op t v op now = Some t' ∧ frames v t t'.
Proof.
  intros Hb. destruct op; cbn [run_op].
  - destruct (state_setinfo_ok t v x now Hb) as (t' & k & n' & -> & Hb' & _ & Hm).
    exists t'. split; [done|]. apply frames_map; [done..|]. intros k' Hk. by rewrite Hm, lookup_insert_ne.
  - eexists. split; [done|]. rewrite state_delinfo_if. by apply delinfo_if_frames.
  - eexists. split; [done|]. rewrite state_delinfo_olderthan_if. by apply delinfo_if_frames.
  - unfold state_addenum. destruct (state_tree_find t v); [|by eexists; split; [|apply frames_refl]].
    destruct (encode_value_some x) as [e ->]. cbn [mbind option_bind].
    destruct (st_tree_enum_add _ e). eexists. split; [done|]. by apply tree_write_frames.
  - unfold state_delenum. destruct (state_tree_find t v); [|by eexists; split; [|apply frames_refl]].
    destruct (st_tree_del_enum _ x). eexists. split; [done|]. by apply tree_write_frames.
  - unfold state_addrange. destruct (mx <? mn); [by eexists; split; [|apply frames_refl]|].
    destruct (state_tree_find t v); [|by eexists; split; [|apply frames_refl]].
    destruct (st_tree_range_add _ mn mx). eexists. split; [done|]. by apply tree_write_frames.
  - unfold state_delrange. destruct (state_tree_find t v); [|by eexists; split; [|apply frames_refl]].
    destruct (st_tree_del_range _ mn mx). eexists. split; [done|]. by apply tree_write_frames.
  - unfold state_setaux. destruct (state_tree_find t v); [|by eexists; split; [|apply frames_refl]].
    destruct (aux s =? strtol auxs); (eexists; split; [done|]); by apply tree_write_frames.
  - unfold state_setflags. destruct (state_tree_find t v); (eexists; split; [done|]);
      [by apply tree_write_frames|by apply frames_refl].
Qed.

Fixpoint run_ops (t : st_tree) (ops : list (list Z * tree_op * timeval)) : option st_tree :=
  match ops with
  | [] => Some t
  | (v, op, now) :: ops' => t' ← run_op t v op now; run_ops t' ops'
  end.

(** Command lists are kept in order, without duplicates up to case. *)

Definition cmd_sorted (l : list (list Z)) : Prop := StronglySorted lex_lt (fold_case <$> l).

Definition cmd_in (cmd : list Z) (l : list (list Z)) : Prop := fold_case cmd ∈ (fold_case <$> l).

#[export] Instance cmd_in_dec cmd l : Decision (cmd_in cmd l).
Proof. unfold cmd_in. apply _. Defined.

Lemma cmd_in_cons cmd c l : cmd_in cmd (c :: l) ↔ fold_case cmd = fold_case c ∨ cmd_in cmd l.
Proof. apply elem_of_cons. Qed.

Lemma cmd_sorted_cons c l :
  cmd_sorted (c :: l) ↔ cmd_sorted l ∧ ∀ d, cmd_in d l → lex_lt (fold_case c) (fold_case d).
Proof.
  unfold cmd_sorted, cmd_in. cbn. split.
  - intros [Hs Hc]%StronglySorted_inv. split; [done|]. intros d. by apply Forall_forall.
  - intros [Hs Hc]. constructor; [done|]. apply Forall_forall. intros d Hd.
    apply list_elem_of_fmap in Hd as (e & -> & He). apply Hc. by apply list_elem_of_fmap_2.
Qed.

(** A command below the head of a sorted list is not in it. *)

Lemma cmd_below c l cmd :
  cmd_sorted (c :: l) → lex_lt (fold_case cmd) (fold_case c) → ¬ cmd_in cmd (c :: l).
Proof.
  intros [_ Hc]%cmd_sorted_cons Hlt [E|Hin]%cmd_in_cons; [by apply (lex_lt_ne _ _ Hlt)|].
  apply (lex_lt_irrefl (fold_case cmd)). transitivity (fold_case c); [done|by apply Hc].
Qed.

Lemma state_addcmd_ok l cmd :
  cmd_sorted l →
  let '(l', k) := state_addcmd l cmd in
  cmd_sorted l' ∧ (∀ c, cmd_in c l' ↔ fold_case c = fold_case cmd ∨ cmd_in c l)
  ∧ k = if decide (cmd_in cmd l) then 0 else 1.
Proof.
  induction l as [|c l IH]; intros Hs; cbn [state_addcmd].
  { rewrite decide_False by (by intros ?%elem_of_nil). split_and!; [|by intros; rewrite cmd_in_cons|done].
    apply cmd_sorted_cons. split; [constructor|]. by intros d ?%elem_of_nil. }
  pose proof (proj1 (cmd_sorted_cons c l) Hs) as [Hsl Hc]. descend c cmd.
  - rewrite decide_False by (by apply cmd_below). split_and!; [|by intros; rewrite cmd_in_cons|done].
    apply cmd_sorted_cons. split; [done|]. intros d [->|Hd]%cmd_in_cons; [done|].
    transitivity (fold_case c); [done|by apply Hc].
  - specialize (IH Hsl). destruct (state_addcmd l cmd) as [l' k]. destruct IH as (Hs' & Hin & ->).
    pose proof (lex_lt_ne _ _ Hcmp). split_and!.
    + apply cmd_sorted_cons. split; [done|]. intros d [->|Hd]%Hin; [done|by apply Hc].
    + intros d. rewrite !cmd_in_cons, Hin. tauto.
    + apply decide_ext. rewrite cmd_in_cons. split; [by right|]. intros [?|?]; [congruence|done].
  - rewrite decide_True by (rewrite cmd_in_cons; by left). split_and!; [done| |done].
    intros d. rewrite cmd_in_cons, Hcmp. tauto.
Qed.

Lemma state_delcmd_ok l cmd :
  cmd_sorted l →
  let '(l', k) := state_delcmd l cmd in
  cmd_sorted l' ∧ (∀ c, cmd_in c l' ↔ fold_case c ≠ fold_case cmd ∧ cmd_in c l)
  ∧ k = if decide (cmd_in cmd l) then 1 else 0.
Proof.
  assert (∀ l, ¬ cmd_in cmd l → ∀ c, cmd_in c l ↔ fold_case c ≠ fold_case cmd ∧ cmd_in c l) as Hni.
  { intros l0 Hn c. split; [|tauto]. intros Hin. split; [|done]. intros E. apply Hn.
    unfold cmd_in in *. by rewrite <- E. }
  induction l as [|c l IH]; intros Hs; cbn [state_delcmd].
  { rewrite decide_False by (by intros ?%elem_of_nil). split_and!; [done| |done].
    apply Hni. by intros ?%elem_of_nil. }
  pose proof (proj1 (cmd_sorted_cons c l) Hs) as [Hsl Hc]. descend c cmd.
  - pose proof (cmd_below _ _ _ Hs Hcmp). rewrite decide_False by done. split_and!; [done|by apply Hni|done].
  - specialize (IH Hsl). destruct (state_delcmd l cmd) as [l' k]. destruct IH as (Hs' & Hin & ->).
    pose proof (lex_lt_ne _ _ Hcmp). split_and!.
    + apply cmd_sorted_cons. split; [done|]. intros d [_ Hd]%Hin. by apply Hc.
    + intros d. rewrite !cmd_in_cons, Hin. split; [|tauto]. intros [->|?]; [auto|tauto].
    + apply decide_ext. rewrite cmd_in_cons. split; [by right|]. intros [?|?]; [congruence|done].
  - rewrite decide_True by (rewrite cmd_in_cons; by left). split_and!; [done| |done].
    intros d. rewrite cmd_in_cons, Hcmp. split; [|tauto]. intros Hd. split; [|by right]. intros E.
    apply (lex_lt_irrefl (fold_case d)). rewrite E at 1. rewrite <- Hcmp. by apply Hc.
Qed.

Lemma difftimeval_us x y :
  difftimeval x y
  = (tv_sec x * 1000000 + tv_usec x) - (tv_sec y * 1000000 + tv_usec y).
Proof. unfold difftimeval. repeat case_match; cbn; lia. Qed.

(** ** Theorems *)

(** C4. The tree refines a finite map: on a search tree, [state_setinfo] always
    returns, keeps the tree a search tree, and changes the map from case-folded
    names to nodes exactly at its variable. *)

Theorem state_setinfo_refines t v x now :
  bst t →
  ∃ t' k, state_setinfo t v x now = Some (t', k) ∧ bst t'
    ∧ spec_set (to_map t) v x now = Some (to_map t', k)
    ∧ state_tree_find t' v = to_map t' !! fold_case v.
Proof.
  intros Hb. destruct (state_setinfo_ok t v x now Hb) as (t' & k & n' & E & Hb' & Hn & Hm).
  exists t', k. unfold spec_set. rewrite state_tree_find_map in Hn by done. rewrite Hn, Hm.
  split_and!; [done..|]. by rewrite state_tree_find_map, Hm.
Qed.

Definition t0 : timeval := MkTime 0 0.

Definition node_of (v x : list Z) : st_node := MkNode v ToRaw x (length x + 1) [] 0 0 0 t0 [] [].

Definition sample : st_tree :=
  Node (node_of (str "input.voltage") (str "230")) (Node (node_of (str "battery.charge") (str "100")) Leaf Leaf)
    (Node (node_of (str "ups.status") (str "OL")) Leaf Leaf).

Lemma sample_bst : bst sample.
Proof.
  split_and!; cbn [to_map]; rewrite ?map_union_empty, ?map_empty_union; try done;
    apply map_Forall_insert_2; reflexivity || apply map_Forall_empty.
Qed.

Lemma state_setinfo_refines_witness :
  ∃ t' k, state_setinfo sample (str "UPS.Status") (str "OB") (MkTime 5 0) = Some (t', k) ∧ bst t'.
Proof.
  destruct (state_setinfo_refines sample (str "UPS.Status") (str "OB") (MkTime 5 0) sample_bst)
    as (t' & k & E & Hb & _).
  exists t', k. exact (conj E Hb).
Defined.

(** C27. Set, then get: after [state_setinfo] on a search tree, [state_getinfo]
    gives the escaped value (cut to what fits in 255 bytes) for a new variable
    or a changed one; a value equal up to case or an immutable variable is left
    as it was, with return value 0; every other variable is unchanged. *)

Theorem state_setinfo_getinfo t v x now t' k :
  bst t → c_string x → state_setinfo t v x now = Some (t', k) →
  (∀ w, fold_case w ≠ fold_case v → state_getinfo t' w = state_getinfo t w)
  ∧ match state_tree_find t v with
    | Some n =>
      if (strcasecmp (raw n) x =? 0) || immutable n
      then k = 0 ∧ state_getinfo t' v = state_getinfo t v
      else k = 1 ∧ state_getinfo t' v = Some (escape_fit 255 x)
    | None => k = 1 ∧ state_getinfo t' v = Some (escape_fit 255 x)
    end.
Proof.
  intros Hb Hx E. destruct (state_setinfo_ok t v x now Hb) as (t1 & k1 & n' & E1 & Hb' & Hn & Hm).
  rewrite E1 in E. injection E as -> ->. split.
  { intros w Hw. unfold state_getinfo. by rewrite !state_tree_find_map, Hm, lookup_insert_ne by done. }
  assert (state_getinfo t' v = Some (val_string n')) as Hg.
  { unfold state_getinfo. by rewrite state_tree_find_map, Hm, lookup_insert_eq. }
  apply set_node_value in Hn; [|done]. unfold state_getinfo at 2. rewrite Hg.
  destruct (state_tree_find t v) as [n|]; [destruct ((strcasecmp (raw n) x =? 0) || immutable n)|];
    destruct Hn as [-> Hn]; (split; [done|]).
  - by rewrite Hn.
  - by destruct Hn as [_ ->].
  - by destruct Hn as [_ ->].
Qed.

Lemma state_setinfo_getinfo_witness :
  ∃ t' k, state_setinfo sample (str "ups.id") (str "a#b") (MkTime 5 0) = Some (t', k)
    ∧ state_getinfo t' (str "ups.id") = Some (str "a\#b").
Proof.
  destruct (state_setinfo sample (str "ups.id") (str "a#b") (MkTime 5 0)) as [[t' k]|] eqn:E;
    [|vm_compute in E; discriminate].
  destruct (state_setinfo_getinfo sample (str "ups.id") (str "a#b") (MkTime 5 0) t' k sample_bst)
    as [_ [_ Hg]].
  - repeat constructor; discriminate.
  - exact E.
  - exists t', k. split; [reflexivity|]. rewrite Hg. reflexivity.
Defined.

(** C28. Every operation on a variable, from an empty tree through any sequence
    of calls, returns, keeps the search-tree order and leaves all other
    variables as they were. *)

Theorem tree_ops_preserve ops t v op now :
  run_ops Leaf ops = Some t →
  bst t ∧ ∃ t', run_op t v op now = Some t' ∧ bst t'
    ∧ ∀ w, fold_case w ≠ fold_case v → state_tree_find t' w = state_tree_find t w.
Proof.
  intros H. assert (bst t) as Hb.
  { assert (∀ t1, bst t1 → run_ops t1 ops = Some t → bst t) as Hgen; [|by apply (Hgen Leaf)].
    clear H. induction ops as [|[[v1 op1] now1] ops IH]; intros t1 H1; cbn [run_ops].
    { by intros [= <-]. }
    destruct (run_op_frames t1 v1 op1 now1 H1) as (t2 & -> & H2 & _). by apply IH. }
  split; [done|]. destruct (run_op_frames t v op now Hb) as (t' & E & Hb' & Hf). by exists t'.
Qed.

Lemma tree_ops_preserve_witness :
  ∃ t', run_op Leaf (str "ups.load") (SetInfo (str "12")) t0 = Some t' ∧ bst t'.
Proof.
  destruct (tree_ops_preserve [] Leaf (str "ups.load") (SetInfo (str "12")) t0 eq_refl)
    as [_ (t' & E & Hb & _)].
  exists t'. exact (conj E Hb).
Defined.

(** C29. [state_delinfo] removes exactly its variable: a present variable that is
    not immutable is gone afterwards and 1 is returned; an immutable or absent
    one leaves the map as it was, with 0; the children of the removed node are
    all still found. *)

Theorem state_delinfo_correct t v :
  bst t →
  let '(t', k) := state_delinfo t v in
  bst t' ∧ (∀ w, fold_case w ≠ fold_case v → state_tree_find t' w = state_tree_find t w)
  ∧ match state_tree_find t v with
    | Some n => if immutable n then k = 0 ∧ state_tree_find t' v = Some n
                else k = 1 ∧ state_tree_find t' v = None
    | None => k = 0 ∧ state_tree_find t' v = None
    end.
Proof.
  intros Hb. pose proof (delinfo_if_frames immutable t v Hb) as [Hb' Hf]. rewrite state_delinfo_if.
  destruct (delinfo_if_map immutable t v Hb) as (t' & k & E & _ & Hs). rewrite E in *. cbn [fst] in *.
  split_and!; [done|done|]. unfold spec_del in Hs. rewrite !state_tree_find_map by done.
  destruct (to_map t !! fold_case v) as [n|] eqn:Ev; [destruct (immutable n)|]; injection Hs as <- <-;
    (split; [done|]); [done| |done]. apply lookup_delete_eq.
Qed.

Lemma state_delinfo_correct_witness :
  let '(t', k) := state_delinfo sample (str "INPUT.VOLTAGE") in
  bst t' ∧ state_tree_find t' (str "battery.charge") = state_tree_find sample (str "battery.charge").
Proof.
  pose proof (state_delinfo_correct sample (str "INPUT.VOLTAGE") sample_bst) as H.
  destruct (state_delinfo sample (str "INPUT.VOLTAGE")) as [t' k]. destruct H as (Hb & Hf & _).
  split; [exact Hb|]. apply Hf. discriminate.
Defined.

(** C30. [state_delinfo_olderthan] deletes a variable exactly when it exists, is
    not immutable and its last write is earlier than the cutoff, to the
    microsecond; every other variable stays. *)

Theorem state_delinfo_olderthan_correct t v cutoff :
  bst t →
  let '(t', k) := state_delinfo_olderthan t v (Some cutoff) in
  bst t' ∧ (∀ w, fold_case w ≠ fold_case v → state_tree_find t' w = state_tree_find t w)
  ∧ match state_tree_find t v with
    | Some n =>
      if bool_decide (tv_sec (lastset n) * 1000000 + tv_usec (lastset n)
                      < tv_sec cutoff * 1000000 + tv_usec cutoff) && negb (immutable n)
      then k = 1 ∧ state_tree_find t' v = None
      else k = 0 ∧ state_tree_find t' v = Some n
    | None => k = 0 ∧ state_tree_find t' v = None
    end.
Proof.
  intros Hb. rewrite state_delinfo_olderthan_if. set (keep := λ n : st_node, _).
  pose proof (delinfo_if_frames keep t v Hb) as [Hb' Hf].
  destruct (delinfo_if_map keep t v Hb) as (t' & k & E & _ & Hs). rewrite E in *. cbn [fst] in *.
  split_and!; [done|done|]. unfold spec_del in Hs. rewrite !state_tree_find_map by done.
  destruct (to_map t !! fold_case v) as [n|] eqn:Ev; [|injection Hs as <- <-; done].
  assert (keep n = negb (bool_decide (tv_sec (lastset n) * 1000000 + tv_usec (lastset n)
    < tv_sec cutoff * 1000000 + tv_usec cutoff) && negb (immutable n))) as Hk.
  { unfold keep. cbn [st_tree_node_compare_timestamp]. rewrite difftimeval_us.
    destruct (immutable n), (bool_decide_reflect (tv_sec (lastset n) * 1000000 + tv_usec (lastset n)
      < tv_sec cutoff * 1000000 + tv_usec cutoff)); cbn [orb andb negb]; repeat case_match; lia. }
  rewrite Hk in Hs. destruct (_ && _); cbn [negb] in Hs; injection Hs as <- <-; (split; [done|]);
    [apply lookup_delete_eq|done].
Qed.

Lemma state_delinfo_olderthan_correct_witness :
  let '(t', k) := state_delinfo_olderthan sample (str "ups.status") (Some (MkTime 1 0)) in bst t'.
Proof.
  pose proof (state_delinfo_olderthan_correct sample (str "ups.status") (MkTime 1 0) sample_bst) as H.
  destruct (state_delinfo_olderthan sample (str "ups.status") (Some (MkTime 1 0))) as [t' k].
  exact (proj1 H).
Defined.

(** Instant commands: [state_addcmd] and [state_delcmd] keep the list sorted
    without duplicates up to case, add or remove exactly the named command, and
    return 1 exactly when the list changed. *)

Theorem state_cmds_correct l cmd :
  cmd_sorted l →
  (let '(l', k) := state_addcmd l cmd in
   cmd_sorted l' ∧ (∀ c, cmd_in c l' ↔ fold_case c = fold_case cmd ∨ cmd_in c l)
   ∧ k = if decide (cmd_in cmd l) then 0 else 1)
  ∧ (let '(l', k) := state_delcmd l cmd in
   cmd_sorted l' ∧ (∀ c, cmd_in c l' ↔ fold_case c ≠ fold_case cmd ∧ cmd_in c l)
   ∧ k = if decide (cmd_in cmd l) then 1 else 0).
Proof. intros H. split; [by apply state_addcmd_ok|by apply state_delcmd_ok]. Qed.

Lemma state_cmds_correct_witness :
  let '(l', k) := state_addcmd [str "beeper.off"; str "load.off"] (str "Beeper.on") in cmd_sorted l'.
Proof.
  refine (proj1 (proj1 (state_cmds_correct [str "beeper.off"; str "load.off"] (str "Beeper.on") _))).
  apply cmd_sorted_cons. split.
  - apply cmd_sorted_cons. split; [constructor|]. intros d Hd. apply elem_of_nil in Hd. destruct Hd.
  - intros d Hd. apply cmd_in_cons in Hd as [->|Hd]; [reflexivity|].
    apply elem_of_nil in Hd. destruct Hd.
Defined.

(** C39. A range is taken for another one that shares only one of its bounds:
    [state_addrange] refuses a new range with the same minimum as "duplicate",
    and [state_delrange] deletes a range that was never asked for. *)

Theorem state_range_one_bound n a b c :
  a ≤ c → b ≠ c → range_list n = [MkRange a b] →
  let t := Node n Leaf Leaf in
  (∃ t', state_addrange t (var n) a c t0 = (t', 0) ∧ state_getrangelist t' (var n) = [MkRange a b])
  ∧ (∃ t', state_delrange t (var n) a c t0 = (t', 1) ∧ state_getrangelist t' (var n) = []).
Proof.
  intros Hac Hbc Hn t.
  assert (strcasecmp (var n) (var n) = 0) as Hs.
  { destruct (strcasecmp_cases (var n) (var n)) as [[E H]|[[E H]|[E H]]]; [..|done];
      by apply lex_lt_irrefl in H. }
  unfold state_addrange, state_delrange, state_getrangelist, t.
  cbn [state_tree_find tree_write]. rewrite Hs. cbn [Z.ltb Z.compare]. rewrite Hn.
  rewrite (proj2 (Z.ltb_ge c a)) by done. cbn [st_tree_range_add st_tree_del_range range_min range_max].
  rewrite Z.eqb_refl. cbn [negb andb]. split; (eexists; split; [done|]); cbn [state_tree_find var set_range_list set_lastset];
    rewrite Hs; done.
Qed.

Lemma state_range_one_bound_witness :
  ∃ t', state_delrange (Node (set_range_list [MkRange 100 120] (node_of (str "in.low") (str "110"))) Leaf Leaf)
          (str "in.low") 100 140 t0 = (t', 1) ∧ state_getrangelist t' (str "in.low") = [].
Proof.
  refine (proj2 (state_range_one_bound
    (set_range_list [MkRange 100 120] (node_of (str "in.low") (str "110"))) 100 120 140 _ _ _)).
  - lia.
  - discriminate.
  - reflexivity.
Defined.

Lemma escape_longer x :
  (length x ≤ length (escape x))%nat
  ∧ (Exists (λ c, c ∈ PCONF_ESCAPE) x → (length x < length (escape x))%nat).
Proof.
  induction x as [|c x [IH1 IH2]]; [split; [done|by intros ?%Exists_nil]|].
  change (escape (c :: x)) with ((if bool_decide (c ∈ PCONF_ESCAPE) then [92; c] else [c]) ++ escape x).
  rewrite length_app. split.
  - case_bool_decide; cbn; lia.
  - intros [Hc|H]%Exists_cons; [rewrite bool_decide_true by done; cbn; lia|].
    specialize (IH2 H). case_bool_decide; cbn; lia.
Qed.

Lemma strcasecmp_length a b : length a ≠ length b → strcasecmp a b ≠ 0.
Proof.
  intros Hl. destruct (strcasecmp_cases a b) as [[E H]|[[E H]|[E H]]]; try lia. exfalso. apply Hl.
  unfold fold_case in H. by rewrite <- (length_fmap tolower a), H, length_fmap.
Qed.

Lemma strcasecmp_refl a : strcasecmp a a = 0.
Proof.
  destruct (strcasecmp_cases a a) as [[E H]|[[E H]|[E H]]]; [..|done]; by apply lex_lt_irrefl in H.
Qed.

(** C40. An enumerated value with a character that [pconf_encode] escapes cannot
    be deleted by the value it was added with: [state_addenum] stores the
    escaped form, [state_delenum] compares with the unescaped one. *)

Theorem state_delenum_misses_escaped n x now :
  enum_list n = [] → c_string x → Exists (λ c, c ∈ PCONF_ESCAPE) x → (length (escape x) ≤ 255)%nat →
  ∃ t1 t2, state_addenum (Node n Leaf Leaf) (var n) x now = Some (t1, 1)
    ∧ state_delenum t1 (var n) x now = (t2, 0)
    ∧ state_getenumlist t2 (var n) = [escape x].
Proof.
  intros Hn Hx He Hl.
  assert (escape_fit 255 x = escape x) as Hfit.
  { destruct (escape_fit_prefix 255 x) as (p & q & -> & -> & Hq). by rewrite (Hq Hl), app_nil_r. }
  unfold state_addenum, state_delenum, state_getenumlist. cbn [state_tree_find tree_write].
  rewrite strcasecmp_refl. cbn [Z.ltb Z.compare]. rewrite encode_value_spec, Hn, Hfit by done.
  cbn [mbind option_bind st_tree_enum_add]. eexists _, _. split; [done|].
  cbn [state_tree_find tree_write var set_enum_list set_lastset enum_list].
  rewrite strcasecmp_refl. cbn [Z.ltb Z.compare].
  change (enum_list (set_enum_list [escape x] (set_lastset now n))) with [escape x].
  cbn [st_tree_del_enum]. rewrite (proj2 (Z.eqb_neq _ _)); [|apply strcasecmp_length; pose proof (proj2 (escape_longer x) He); lia].
  cbn [negb]. split; [done|].
  cbn [state_tree_find tree_write var set_enum_list set_lastset enum_list]. by rewrite strcasecmp_refl.
Qed.

Lemma state_delenum_misses_escaped_witness :
  ∃ t1 t2, state_addenum (Node (node_of (str "outlet.desc") []) Leaf Leaf) (str "outlet.desc") (str "Outlet #1") t0
      = Some (t1, 1)
    ∧ state_delenum t1 (str "outlet.desc") (str "Outlet #1") t0 = (t2, 0).
Proof.
  destruct (state_delenum_misses_escaped (node_of (str "outlet.desc") []) (str "Outlet #1") t0)
    as (t1 & t2 & E1 & E2 & _).
  - reflexivity.
  - repeat constructor; discriminate.
  - do 7 apply Exists_cons_tl. apply Exists_cons_hd. unfold PCONF_ESCAPE. set_solver.
  - apply Nat.leb_le. reflexivity.
  - exists t1, t2. exact (conj E1 E2).
Defined.
