(* ===== verification/Tracking.v ===== *)
(** * Status tracking of commands and settings (src/src/server/upsd.c)

    The doubly linked list [tracking_list] as a list, newest first, and the flag
    [tracking_enabled].  Identifiers and values are strings: the tests for null
    pointers are left out. *)

From Stdlib Require Import ZArith Lia String.
From stdpp Require Import base tactics list numbers option sets.
From S2P Require Import Prelude.

#[local] Open Scope Z_scope.

Definition STAT_PENDING : Z := -1.
Definition STAT_HANDLED : Z := 0.
Definition STAT_UNKNOWN : Z := 1.
Definition STAT_INVALID : Z := 2.
Definition STAT_FAILED : Z := 3.
Definition STAT_CONVERSION_FAILED : Z := 4.

(** [atoi]: [long] and [int] are both 32 bits wide on the target. *)

Definition atoi (s : list Z) : Z := strtol s.

Record tracking_t := MkTracking { id : list Z; status : Z; request_time : Z }.

Record tracking_state := MkTrackingState { tracking_enabled : bool; tracking_list : list tracking_t }.

Definition tracking0 : tracking_state := MkTrackingState false [].

Definition same_id (item : tracking_t) (i : list Z) : bool := strcasecmp (id item) i =? 0.

Definition tracking_add (i : list Z) (now : Z) (s : tracking_state) : tracking_state * Z :=
  if tracking_enabled s
  then (MkTrackingState true (MkTracking i STAT_PENDING now :: tracking_list s), 1)
  else (s, 0).

Fixpoint set_status (l : list tracking_t) (i : list Z) (x : Z) : list tracking_t * Z :=
  match l with
  | [] => ([], 0)
  | item :: l' =>
    if same_id item i then (MkTracking (id item) x (request_time item) :: l', 1)
    else let '(l'', r) := set_status l' i x in (item :: l'', r)
  end.

Definition tracking_set (i value : list Z) (s : tracking_state) : tracking_state * Z :=
  let '(l, r) := set_status (tracking_list s) i (atoi value) in
  (MkTrackingState (tracking_enabled s) l, r).

Fixpoint del_item (l : list tracking_t) (i : list Z) : list tracking_t * Z :=
  match l with
  | [] => ([], 0)
  | item :: l' =>
    if same_id item i then (l', 1) else let '(l'', r) := del_item l' i in (item :: l'', r)
  end.

Definition tracking_del (i : list Z) (s : tracking_state) : tracking_state * Z :=
  let '(l, r) := del_item (tracking_list s) i in (MkTrackingState (tracking_enabled s) l, r).

(** The loops remember the next item before they delete, and a deletion removes
    an item that is not after the current one: they visit the list as it was. *)

Definition tracking_free (s : tracking_state) : tracking_state :=
  foldl (λ s item, fst (tracking_del (id item) s)) s (tracking_list s).

Definition tracking_cleanup (tracking_delay now : Z) (s : tracking_state) : tracking_state :=
  foldl (λ s item, if tracking_delay <? now - request_time item
                   then fst (tracking_del (id item) s) else s) s (tracking_list s).

(** A status that the [switch] does not know goes on to the next item. *)

Fixpoint get_status (l : list tracking_t) (i : list Z) : list Z :=
  match l with
  | [] => str "ERR UNKNOWN"
  | item :: l' =>
    if negb (same_id item i) then get_status l' i
    else if status item =? STAT_PENDING then str "PENDING"
    else if status item =? STAT_HANDLED then str "SUCCESS"
    else if status item =? STAT_UNKNOWN then str "ERR UNKNOWN"
    else if (status item =? STAT_INVALID) || (status item =? STAT_CONVERSION_FAILED)
    then str "ERR INVALID-ARGUMENT"
    else if status item =? STAT_FAILED then str "ERR FAILED"
    else get_status l' i
  end.

Definition tracking_get (i : list Z) (s : tracking_state) : list Z := get_status (tracking_list s) i.

Definition tracking_enable (s : tracking_state) : tracking_state * Z :=
  (MkTrackingState true (tracking_list s), 1).

(** [clients]: the [tracking] field of every connected client. *)

Definition tracking_disable (clients : list Z) : Z :=
  if existsb (λ t, t =? 1) clients then 1 else 0.

Definition tracking_is_enabled (s : tracking_state) : bool := tracking_enabled s.

(** ** Lemmas *)

Definition id_key (i : list Z) : list Z := fold_case i.

(** Distinct requests have distinct identifiers. *)

Definition ids_unique (l : list tracking_t) : Prop := NoDup ((λ item, id_key (id item)) <$> l).

Lemma same_id_spec item i : same_id item i = bool_decide (id_key (id item) = id_key i).
Proof.
  unfold same_id, id_key. symmetry.
  destruct (strcasecmp_cases (id item) i) as [[-> H]|[[-> H]|[-> H]]]; cbn.
  - apply bool_decide_eq_false_2. intros E. rewrite E in H. by apply lex_lt_irrefl in H.
  - apply bool_decide_eq_false_2. intros E. rewrite E in H. by apply lex_lt_irrefl in H.
  - by apply bool_decide_eq_true_2.
Qed.

Lemma del_item_absent l i : id_key i ∉ ((λ item, id_key (id item)) <$> l) → del_item l i = (l, 0).
Proof.
  induction l as [|item l IH]; intros Hn; cbn [del_item]; [done|].
  cbn in Hn. rewrite not_elem_of_cons in Hn. destruct Hn as [Hne Hn].
  rewrite same_id_spec, bool_decide_eq_false_2 by done. by rewrite IH.
Qed.

Lemma del_item_middle a item b :
  ids_unique (a ++ item :: b) → del_item (a ++ item :: b) (id item) = (a ++ b, 1).
Proof.
  induction a as [|x a IH]; intros Hu; cbn [app del_item]; rewrite same_id_spec.
  - by rewrite bool_decide_eq_true_2.
  - unfold ids_unique in Hu. cbn in Hu. apply NoDup_cons in Hu as [Hx Hu].
    rewrite bool_decide_eq_false_2; [by rewrite IH|]. intros E. apply Hx. rewrite E.
    rewrite fmap_app. cbn. set_solver.
Qed.

(** Visiting [b] with [a] already kept leaves [a] and the young items of [b]. *)

Lemma cleanup_loop e delay now a b :
  ids_unique (a ++ b) →
  foldl (λ s item, if delay <? now - request_time item then fst (tracking_del (id item) s) else s)
    (MkTrackingState e (a ++ b)) b
  = MkTrackingState e (a ++ filter (λ item, now - request_time item ≤ delay) b).
Proof.
  revert a. induction b as [|item b IH]; intros a Hu; cbn [foldl]; [done|].
  destruct (Z.ltb_spec delay (now - request_time item)).
  - unfold tracking_del. cbn [tracking_list tracking_enabled]. rewrite del_item_middle by done. cbn [fst].
    rewrite filter_cons_False by lia. rewrite IH; [done|].
    unfold ids_unique in *. rewrite fmap_app in *. cbn in Hu.
    apply NoDup_app in Hu as (? & Hd & [_ ?]%NoDup_cons). apply NoDup_app. split_and!; try done.
    intros x Hx Hxb. apply (Hd x Hx). by right.
  - rewrite filter_cons_True by lia.
    replace (a ++ item :: b) with ((a ++ [item]) ++ b) in * by (by rewrite <- app_assoc).
    rewrite IH by done. by rewrite <- app_assoc.
Qed.

(** The answer for a status, and what a list of items says of an identifier. *)

Definition status_text (x : Z) : list Z :=
  if x =? STAT_PENDING then str "PENDING"
  else if x =? STAT_HANDLED then str "SUCCESS"
  else if (x =? STAT_INVALID) || (x =? STAT_CONVERSION_FAILED) then str "ERR INVALID-ARGUMENT"
  else if x =? STAT_FAILED then str "ERR FAILED"
  else str "ERR UNKNOWN".

Lemma get_status_absent l i : id_key i ∉ ((λ item, id_key (id item)) <$> l) → get_status l i = str "ERR UNKNOWN".
Proof.
  induction l as [|item l IH]; intros Hn; cbn [get_status]; [done|].
  cbn in Hn. rewrite not_elem_of_cons in Hn. destruct Hn as [Hne Hn].
  rewrite same_id_spec, bool_decide_eq_false_2 by done. by apply IH.
Qed.

Lemma get_status_cons item l i :
  ids_unique (item :: l) →
  get_status (item :: l) i
  = if decide (id_key (id item) = id_key i) then status_text (status item) else get_status l i.
Proof.
  intros [Hx _]%NoDup_cons. cbn [get_status]. rewrite same_id_spec.
  case_decide as E; [rewrite bool_decide_eq_true_2 by done|by rewrite bool_decide_eq_false_2].
  cbn [negb]. unfold status_text. rewrite get_status_absent by by rewrite <- E.
  unfold STAT_PENDING, STAT_HANDLED, STAT_UNKNOWN, STAT_INVALID, STAT_FAILED, STAT_CONVERSION_FAILED.
  destruct (Z.eqb_spec (status item) (-1)), (Z.eqb_spec (status item) 0); try done.
  destruct (Z.eqb_spec (status item) 1) as [->|]; [done|].
  by destruct (_ || _), (status item =? 3).
Qed.

Lemma set_status_ids l i x : (λ item, id_key (id item)) <$> (set_status l i x).1 = (λ item, id_key (id item)) <$> l.
Proof.
  induction l as [|item l IH]; cbn [set_status]; [done|].
  destruct (same_id item i); [done|]. destruct (set_status l i x) as [l' r]. cbn in *. by rewrite IH.
Qed.

Lemma set_status_spec l i x :
  ids_unique l →
  (set_status l i x).2 = (if decide (id_key i ∈ (λ item, id_key (id item)) <$> l) then 1 else 0)
  ∧ ∀ j, get_status (set_status l i x).1 j
     = if decide (id_key j = id_key i ∧ id_key i ∈ (λ item, id_key (id item)) <$> l) then status_text x
       else get_status l j.
Proof.
  induction l as [|item l IH]; intros Hu.
  { split; [done|]. intros j. rewrite decide_False; [done|]. intros [_ H]. by apply elem_of_nil in H. }
  pose proof Hu as [Hx Hl]%NoDup_cons. destruct (IH Hl) as [IHr IHg].
  cbn [set_status]. rewrite same_id_spec. case_bool_decide as E; cbn [fst snd].
  - split; [rewrite decide_True; [done|]; cbn; rewrite E; by left|]. intros j.
    rewrite !get_status_cons by done. cbn [id status].
    assert (id_key i ∈ ((λ item, id_key (id item)) <$> item :: l)) by (cbn; rewrite E; by left).
    destruct (decide (id_key (id item) = id_key j)),
      (decide (id_key j = id_key i ∧ id_key i ∈ ((λ item, id_key (id item)) <$> item :: l))) as [[]|Hn]; try done;
      [destruct Hn; split; [congruence|done]|congruence].
  - pose proof (set_status_ids l i x) as Hids. destruct (set_status l i x) as [l' r]. cbn [fst snd] in *.
    assert (ids_unique (item :: l')) as Hu'.
    { unfold ids_unique in *. cbn. rewrite Hids. exact Hu. }
    assert (id_key i ∈ ((λ item, id_key (id item)) <$> item :: l) ↔ id_key i ∈ ((λ item, id_key (id item)) <$> l)) as Hin.
    { rewrite fmap_cons, elem_of_cons. split; [intros [?|?]; [congruence|done]|intros; by right]. }
    split.
    + rewrite IHr. by apply decide_ext.
    + intros j. rewrite !get_status_cons by done. destruct (decide (id_key (id item) = id_key j)) as [Ej|Ej].
      * destruct (decide (id_key j = id_key i ∧ id_key i ∈ ((λ item, id_key (id item)) <$> item :: l)))
          as [[]|]; [congruence|done].
      * rewrite IHg. apply decide_ext. by rewrite Hin.
Qed.

(** While the identifiers of pending requests are distinct up to case: a new
    request reads as pending; a result is recorded exactly when its request is
    known, reads back as the answer for its status and leaves the other requests
    alone; and the clean-up drops exactly the requests older than the delay. *)
Theorem tracking_correct s i value delay now :
  ids_unique (tracking_list s) →
  (tracking_enabled s = true → id_key i ∉ ((λ item, id_key (id item)) <$> tracking_list s) →
   tracking_get i (tracking_add i now s).1 = str "PENDING"
   ∧ ids_unique (tracking_list (tracking_add i now s).1))
  ∧ (let '(s', r) := tracking_set i value s in
     r = (if decide (id_key i ∈ (λ item, id_key (id item)) <$> tracking_list s) then 1 else 0)
     ∧ ids_unique (tracking_list s')
     ∧ ∀ j, tracking_get j s'
       = if decide (id_key j = id_key i ∧ r = 1) then status_text (atoi value) else tracking_get j s)
  ∧ tracking_list (tracking_cleanup delay now s)
    = filter (λ item, now - request_time item ≤ delay) (tracking_list s).
Proof.
  intros Hu. split_and!.
  - intros He Hn. unfold tracking_add. rewrite He. cbn [fst tracking_list].
    assert (ids_unique (MkTracking i STAT_PENDING now :: tracking_list s)) as Hu' by (by apply NoDup_cons).
    split; [|done]. unfold tracking_get. cbn [tracking_list].
    rewrite get_status_cons by done. cbn [id status]. by rewrite decide_True.
  - unfold tracking_set, tracking_get. pose proof (set_status_ids (tracking_list s) i (atoi value)) as Hids.
    destruct (set_status_spec (tracking_list s) i (atoi value) Hu) as [Hr Hg].
    destruct (set_status _ _ _) as [l r]. cbn [fst snd tracking_list] in *.
    split_and!; [done|unfold ids_unique; by rewrite Hids|]. intros j. rewrite Hg. apply decide_ext.
    rewrite Hr. case_decide; intuition congruence.
  - destruct s as [e l]. unfold tracking_cleanup. cbn [tracking_list].
    pose proof (cleanup_loop e delay now [] l Hu) as E. cbn [app] in E. by rewrite E.
Qed.

Lemma tracking_correct_witness :
  let s := MkTrackingState true [MkTracking (str "b") 0 50; MkTracking (str "a") (-1) 10] in
  tracking_list (tracking_cleanup 60 100 s) = [MkTracking (str "b") 0 50]
  ∧ tracking_get (str "c") (tracking_add (str "c") 100 s).1 = str "PENDING".
Proof.
  cbn zeta.
  destruct (tracking_correct
    (MkTrackingState true [MkTracking (str "b") 0 50; MkTracking (str "a") (-1) 10])
    (str "c") (str "0") 60 100) as (Hadd & _ & Hc).
  - unfold ids_unique. apply NoDup_cons. split; [|apply NoDup_singleton].
    cbn. rewrite elem_of_cons, elem_of_nil. intros [H|[]]; discriminate.
  - split.
    + rewrite Hc. reflexivity.
    + apply Hadd; [reflexivity|]. cbn. rewrite !elem_of_cons, elem_of_nil.
      intros [H|[H|H]]; [discriminate|discriminate|done].
Defined.
