(* ===== verification/HidParser.v ===== *)
(** * HID report descriptors (src/src/drivers/hidparser.c, hidtypes.h) *)

From Stdlib Require Import ZArith Lia.
From stdpp Require Import base tactics list numbers option relations.
From S2P Require Import Prelude.

#[local] Open Scope Z_scope.

(** ** Data

    [long] is 32 bits wide on the target.  A fixed array is a list of its
    declared length. *)

Definition PATH_SIZE : Z := 10.
Definition USAGE_TAB_SIZE : Z := 50.
Definition MAX_REPORT : nat := 500.
Definition REPORT_DSC_SIZE : Z := 6144.

Definition ITEM_COLLECTION : Z := 0xA0.
Definition ITEM_END_COLLECTION : Z := 0xC0.
Definition ITEM_FEATURE : Z := 0xB0.
Definition ITEM_INPUT : Z := 0x80.
Definition ITEM_OUTPUT : Z := 0x90.
Definition ITEM_UPAGE : Z := 0x04.
Definition ITEM_LOG_MIN : Z := 0x14.
Definition ITEM_LOG_MAX : Z := 0x24.
Definition ITEM_PHY_MIN : Z := 0x34.
Definition ITEM_PHY_MAX : Z := 0x44.
Definition ITEM_UNIT_EXP : Z := 0x54.
Definition ITEM_UNIT : Z := 0x64.
Definition ITEM_REP_SIZE : Z := 0x74.
Definition ITEM_REP_ID : Z := 0x84.
Definition ITEM_REP_COUNT : Z := 0x94.
Definition ITEM_USAGE : Z := 0x08.
Definition ITEM_LONG : Z := 0xFC.

Definition is_field (op : Z) : bool :=
  (op =? ITEM_FEATURE) || (op =? ITEM_INPUT) || (op =? ITEM_OUTPUT).

Definition ItemSize : list Z := [0; 1; 2; 4].

Record HIDPath_t := MkPath { path_size : Z; path_node : list Z }.

Record HIDData_t := MkData {
  Path : HIDPath_t;
  ReportID : Z;
  Offset : Z;
  Size : Z;
  Type_ : Z;
  Attribute : Z;
  Unit : Z;
  UnitExp : Z;
  LogMin : Z;
  LogMax : Z;
  assumed_LogMax : bool;
  PhyMin : Z;
  PhyMax : Z;
  have_PhyMin : Z;
  have_PhyMax : Z
}.

#[export] Instance HIDPath_t_eq_dec : EqDecision HIDPath_t.
Proof. solve_decision. Defined.

#[export] Instance HIDData_t_eq_dec : EqDecision HIDData_t.
Proof. solve_decision. Defined.

(** A row of [OffsetTab]: report id, type and the next free bit. *)

Record offset_row := MkRow { row_id : Z; row_type : Z; row_offset : Z }.

Record HIDParser_t := MkParser {
  Pos : Z;
  Item : Z;
  Value : Z;
  Data : HIDData_t;
  OffsetTab : list offset_row;
  ReportCount : Z;
  Count : Z;
  UPage : Z;
  UsageTab : list Z;
  UsageSize : Z
}.

(** [calloc]: all zero. *)

Definition data0 : HIDData_t :=
  MkData (MkPath 0 (replicate 10 0)) 0 0 0 0 0 0 0 0 0 false 0 0 0 0.

Definition parser0 : HIDParser_t :=
  MkParser 0 0 0 data0 (replicate MAX_REPORT (MkRow 0 0 0)) 0 0 0 (replicate 50 0) 0.

Definition set_Data d p := MkParser (Pos p) (Item p) (Value p) d (OffsetTab p) (ReportCount p)
  (Count p) (UPage p) (UsageTab p) (UsageSize p).
Definition set_item pos it v p := MkParser pos it v (Data p) (OffsetTab p) (ReportCount p)
  (Count p) (UPage p) (UsageTab p) (UsageSize p).
Definition set_offsets t p := MkParser (Pos p) (Item p) (Value p) (Data p) t (ReportCount p)
  (Count p) (UPage p) (UsageTab p) (UsageSize p).
Definition set_count c p := MkParser (Pos p) (Item p) (Value p) (Data p) (OffsetTab p)
  (ReportCount p) c (UPage p) (UsageTab p) (UsageSize p).
Definition set_report_count c p := MkParser (Pos p) (Item p) (Value p) (Data p) (OffsetTab p) c
  (Count p) (UPage p) (UsageTab p) (UsageSize p).
Definition set_upage u p := MkParser (Pos p) (Item p) (Value p) (Data p) (OffsetTab p)
  (ReportCount p) (Count p) u (UsageTab p) (UsageSize p).
Definition set_usage t n p := MkParser (Pos p) (Item p) (Value p) (Data p) (OffsetTab p)
  (ReportCount p) (Count p) (UPage p) t n.

Definition set_path x d := MkData x (ReportID d) (Offset d) (Size d) (Type_ d) (Attribute d)
  (Unit d) (UnitExp d) (LogMin d) (LogMax d) (assumed_LogMax d) (PhyMin d) (PhyMax d)
  (have_PhyMin d) (have_PhyMax d).
Definition set_id x d := MkData (Path d) x (Offset d) (Size d) (Type_ d) (Attribute d)
  (Unit d) (UnitExp d) (LogMin d) (LogMax d) (assumed_LogMax d) (PhyMin d) (PhyMax d)
  (have_PhyMin d) (have_PhyMax d).
Definition set_size x d := MkData (Path d) (ReportID d) (Offset d) x (Type_ d) (Attribute d)
  (Unit d) (UnitExp d) (LogMin d) (LogMax d) (assumed_LogMax d) (PhyMin d) (PhyMax d)
  (have_PhyMin d) (have_PhyMax d).
Definition set_field off ty attr d := MkData (Path d) (ReportID d) off (Size d) ty attr
  (Unit d) (UnitExp d) (LogMin d) (LogMax d) (assumed_LogMax d) (PhyMin d) (PhyMax d)
  (have_PhyMin d) (have_PhyMax d).
Definition set_unit u e d := MkData (Path d) (ReportID d) (Offset d) (Size d) (Type_ d)
  (Attribute d) u e (LogMin d) (LogMax d) (assumed_LogMax d) (PhyMin d) (PhyMax d)
  (have_PhyMin d) (have_PhyMax d).
Definition set_log mn mx a d := MkData (Path d) (ReportID d) (Offset d) (Size d) (Type_ d)
  (Attribute d) (Unit d) (UnitExp d) mn mx a (PhyMin d) (PhyMax d)
  (have_PhyMin d) (have_PhyMax d).
Definition set_phy mn mx hmn hmx d := MkData (Path d) (ReportID d) (Offset d) (Size d) (Type_ d)
  (Attribute d) (Unit d) (UnitExp d) (LogMin d) (LogMax d) (assumed_LogMax d) mn mx hmn hmx.

(** ** Helpers *)

(** The two loops of [hibit]; 32 iterations exhaust a 32-bit word. *)

Fixpoint hibit_bits (fuel : nat) (x res : Z) : Z :=
  match fuel with
  | O => res
  | S fuel' => if x =? 0 then res else hibit_bits fuel' (Z.shiftr x 1) (res + 1)
  end.

Fixpoint hibit_bytes (fuel : nat) (x res : Z) : Z * Z :=
  match fuel with
  | O => (x, res)
  | S fuel' => if 0xff <? x then hibit_bytes fuel' (Z.shiftr x 8) (res + 8) else (x, res)
  end.

Definition hibit (x : Z) : Z := let '(x, res) := hibit_bytes 32 x 0 in hibit_bits 32 x res.

Definition ResetLocalState (p : HIDParser_t) : HIDParser_t := set_usage (replicate 50 0) 0 p.

(** The table after the search and the row whose offset cell is returned. *)

Fixpoint GetReportOffset (tab : list offset_row) (id ty : Z) : list offset_row * option nat :=
  match tab with
  | [] => ([], None)
  | row :: tab' =>
    let row := if row_id row =? 0 then MkRow id ty 0 else row in
    if negb (row_id row =? id) || negb (row_type row =? ty)
    then let '(t, i) := GetReportOffset tab' id ty in (row :: t, S <$> i)
    else (row :: tab', Some 0%nat)
  end.

Definition FormatValue (v sz : Z) : Z :=
  if sz =? 1 then s8 v
  else if sz =? 2 then s16 v
  else if sz =? 4 then s32 v
  else s32 v.

(** Little-endian value of the bytes of an item. *)

Fixpoint item_value (bytes : list Z) (i : Z) : Z :=
  match bytes with
  | [] => 0
  | b :: bytes' => Z.shiftl b (8 * i) + item_value bytes' (i + 1)
  end.

(** [for (j = 0; j < UsageSize; j++) UsageTab[j] = UsageTab[j + 1]]: every
    iteration reads the next cell. *)

Fixpoint shift_usages (j n : nat) (tab : list Z) : option (list Z) :=
  match n with
  | O => Some tab
  | S n' => x ← tab !! S j; tab ← store tab j x; shift_usages (S j) n' tab
  end.

Definition unstack_usage (p : HIDParser_t) : option HIDParser_t :=
  if 0 <? UsageSize p then
    tab ← shift_usages 0 (Z.to_nat (UsageSize p)) (UsageTab p);
    Some (set_usage tab (UsageSize p - 1) p)
  else Some p.

Definition push_node (x : Z) (p : HIDParser_t) : option HIDParser_t :=
  let path := Path (Data p) in
  nodes ← wr (path_node path) (path_size path) x;
  Some (set_Data (set_path (MkPath (u8 (path_size path + 1)) nodes) (Data p)) p).

Definition set_path_size (n : Z) (p : HIDParser_t) : HIDParser_t :=
  set_Data (set_path (MkPath n (path_node (Path (Data p)))) (Data p)) p.

(** ** HIDParse

    One iteration of its loop: go on, return, or access memory out of bounds.
    [Done r p d] returns [r] with [*pData] written when [d] is given. *)

Inductive iter_result :=
  | Continue (p : HIDParser_t)
  | Done (r : Z) (p : HIDParser_t) (d : option HIDData_t)
  | Fault.

Definition guard_iter (o : option HIDParser_t) (k : HIDParser_t → iter_result) : iter_result :=
  match o with Some p => k p | None => Fault end.

Definition iter_usage (p : HIDParser_t) : iter_result :=
  if USAGE_TAB_SIZE <=? UsageSize p then Done (-2) p None
  else
    let u := if 2 <? Z.land (Item p) 3 then Value p
             else Z.lor (Z.shiftl (UPage p) 16) (Z.land (Value p) 0xFFFF) in
    guard_iter (tab ← wr (UsageTab p) (UsageSize p) u;
                Some (set_usage tab (UsageSize p + 1) p)) Continue.

Definition iter_collection (p : HIDParser_t) : iter_result :=
  if PATH_SIZE <=? path_size (Path (Data p)) then Done (-2) p None
  else
    guard_iter (u ← UsageTab p !! 0%nat; push_node u p) (λ p,
    guard_iter (unstack_usage p) (λ p,
      if 0x80 <=? Value p then
        if PATH_SIZE <=? path_size (Path (Data p)) then Done (-2) p None
        else guard_iter (push_node (Z.lor 0x00ff0000 (Z.land (Value p) 0x7F)) p)
               (λ p, Continue (ResetLocalState p))
      else Continue (ResetLocalState p))).

Definition iter_end_collection (p : HIDParser_t) : iter_result :=
  let path := Path (Data p) in
  if path_size path =? 0 then Done (-2) p None
  else
    let n := path_size path - 1 in
    match rd (path_node path) n with
    | None => Fault
    | Some x =>
      let n := if Z.land x 0xffff0000 =? 0x00ff0000 then u8 (n - 1) else n in
      Continue (ResetLocalState (set_path_size n p))
    end.

(** INPUT, OUTPUT and FEATURE items. *)

Definition iter_field (p : HIDParser_t) : iter_result :=
  match UsageTab p !! 0%nat with
  | None => Fault
  | Some u =>
    let found := if negb (u =? 0) then 1 else 0 in
    let p := if Count p =? 0 then set_count (ReportCount p) p else p in
    if Count p =? 0 then Done (-2) p None
    else if PATH_SIZE <=? path_size (Path (Data p)) then Done (-2) p None
    else
      guard_iter (push_node u p) (λ p,
      guard_iter (unstack_usage p) (λ p,
        let ty := Z.land (Item p) 0xFC in
        let d := Data p in
        let d := set_field (Offset d) ty (u8 (Value p)) d in
        let '(tab, cell) := GetReportOffset (OffsetTab p) (ReportID d) ty in
        let p := set_offsets tab (set_Data d p) in
        match cell ≫= (λ i, row ← tab !! i; Some (i, row)) with
        | None => Done (-2) p None
        | Some (i, row) =>
          if 0xffff - row_offset row <? Size d then Done (-2) p None
          else
            let d := set_field (row_offset row) ty (u8 (Value p)) d in
            let tab := <[i := MkRow (row_id row) (row_type row)
                                (u16 (row_offset row + Size d))]> tab in
            let p := set_offsets tab (set_Data d p) in
            let p := set_path_size (path_size (Path d) - 1) p in
            let p := set_count (Count p - 1) p in
            let p := if Count p =? 0 then ResetLocalState p else p in
            Done found p (Some d)
        end))
  end.

Definition item_size (it : Z) : Z := default 0 (rd ItemSize (Z.land it 3)).

(** The switch on the item, the item and its value fetched. *)

Definition iter_item (desc : list Z) (p : HIDParser_t) : iter_result :=
  let d := Data p in
  let v := Value p in
  let sz := item_size (Item p) in
  let op := Z.land (Item p) 0xFC in
  if op =? ITEM_UPAGE then Continue (set_upage (u16 v) p)
  else if op =? ITEM_USAGE then iter_usage p
  else if op =? ITEM_COLLECTION then iter_collection p
  else if op =? ITEM_END_COLLECTION then iter_end_collection p
  else if is_field op then iter_field p
  else if op =? ITEM_REP_ID then Continue (set_Data (set_id (u8 v) d) p)
  else if op =? ITEM_REP_SIZE then Continue (set_Data (set_size (u8 v) d) p)
  else if op =? ITEM_REP_COUNT then Continue (set_report_count (u8 v) p)
  else if op =? ITEM_UNIT_EXP then
    let e := s8 v in
    Continue (set_Data (set_unit (Unit d) (if 7 <? e then s8 (Z.lor e 0xF0) else e) d) p)
  else if op =? ITEM_UNIT then Continue (set_Data (set_unit (s32 v) (UnitExp d) d) p)
  else if op =? ITEM_LOG_MIN then
    Continue (set_Data (set_log (FormatValue v sz) (LogMax d) (assumed_LogMax d) d) p)
  else if op =? ITEM_LOG_MAX then
    let mx := FormatValue v sz in
    if mx <? LogMin d
    then Continue (set_Data (set_log (LogMin d) (s32 v) true d) p)
    else Continue (set_Data (set_log (LogMin d) mx (assumed_LogMax d) d) p)
  else if op =? ITEM_PHY_MIN then
    Continue (set_Data (set_phy (FormatValue v sz) (PhyMax d) 1 (have_PhyMax d) d) p)
  else if op =? ITEM_PHY_MAX then
    Continue (set_Data (set_phy (PhyMin d) (FormatValue v sz) (have_PhyMin d) 1 d) p)
  else if op =? ITEM_LONG then
    if Z.of_nat (length desc) - Pos p <? Z.land v 0xff then Done (-2) p None
    else Continue (set_item (u16 (Pos p + Z.land v 0xff)) (Item p) v p)
  else Continue p.

(** The fetch of the next item when no repetition is pending: the parser at the
    switch, or the error return ([inr]); [None] is a read past the descriptor. *)

Definition fetch (desc : list Z) (p : HIDParser_t) : option (HIDParser_t + HIDParser_t) :=
  if Count p =? 0 then
    it ← rd desc (Pos p);
    let pos := u16 (Pos p + 1) in
    let sz := item_size it in
    if Z.of_nat (length desc) - pos <? sz then Some (inr (set_item pos it 0 p))
    else
      let v := u32 (item_value (take (Z.to_nat sz) (drop (Z.to_nat pos) desc)) 0) in
      Some (inl (set_item (u16 (pos + sz)) it v p))
  else Some (inl p).

Definition iter (desc : list Z) (p : HIDParser_t) : iter_result :=
  match fetch desc p with
  | None => Fault
  | Some (inr p) => Done (-2) p None
  | Some (inl p) => iter_item desc p
  end.

(** The whole function: its return value with the parser and the object, a
    fault, or [Stuck] when the fuel ran out. *)

Inductive outcome :=
  | Ret (r : Z) (p : HIDParser_t) (d : option HIDData_t)
  | UB
  | Stuck.

Fixpoint HIDParse_loop (fuel : nat) (desc : list Z) (p : HIDParser_t) : outcome :=
  if Pos p <? Z.of_nat (length desc) then
    match fuel with
    | O => Stuck
    | S fuel' =>
      match iter desc p with
      | Continue p => HIDParse_loop fuel' desc p
      | Done r p d => Ret r p d
      | Fault => UB
      end
    end
  else Ret (-1) p None.

(** Every iteration of a call reads at least one byte of the descriptor. *)

Definition HIDParse (desc : list Z) (p : HIDParser_t) : outcome :=
  HIDParse_loop (length desc) desc p.

(** ** Parse_ReportDesc *)

Record HIDDesc_t := MkDesc { nitems : nat; item : list HIDData_t; replen : list Z }.

Inductive desc_result :=
  | Parsed (d : HIDDesc_t)
  | NullDesc
  | DescUB
  | DescStuck.

(** The loop over the objects: [ret] is the last result of [HIDParse]. *)

Fixpoint desc_loop (fuel : nat) (desc : list Z) (p : HIDParser_t) (d : HIDDesc_t) : desc_result :=
  if (nitems d <? MAX_REPORT)%nat then
    match fuel with
    | O => DescStuck
    | S fuel' =>
      match HIDParse desc p with
      | UB => DescUB
      | Stuck => DescStuck
      | Ret r p out =>
        if r <? 0 then
          if r =? -2 then NullDesc
          else if (nitems d =? 0)%nat then NullDesc
          else Parsed (MkDesc (nitems d) (take (nitems d) (item d)) (replen d))
        else
          match store (item d) (nitems d) (default data0 out) with
          | None => DescUB
          | Some items =>
            let o := default data0 out in
            let mx := Z.shiftr (Offset o + Size o + 7) 3 in
            match rd (replen d) (ReportID o) with
            | None => DescUB
            | Some old =>
              let rl := if old <? mx then <[Z.to_nat (ReportID o) := mx]> (replen d) else replen d in
              desc_loop fuel' desc p (MkDesc (nitems d + Z.to_nat r) items rl)
            end
          end
      end
    end
  else Parsed (MkDesc (nitems d) (take (nitems d) (item d)) (replen d)).

(** A call of [HIDParse] that finds an object uses up a byte of the descriptor
    or one of at most 255 repetitions. *)

Definition Parse_ReportDesc (desc : list Z) : desc_result :=
  if (Z.of_nat (length desc) =? 0) || (REPORT_DSC_SIZE <? Z.of_nat (length desc)) then NullDesc
  else
    desc_loop (256 * length desc + 256) desc parser0
      (MkDesc 0 (replicate MAX_REPORT data0) (replicate 256 0)).

(** ** Lookup in a parsed descriptor *)

(** [memcmp] of the first [n] nodes; [None] when an array is shorter. *)

Definition nodes_equal (a b : list Z) (n : Z) : option bool :=
  if (Z.of_nat (length a) <? n) || (Z.of_nat (length b) <? n) then None
  else Some (bool_decide (take (Z.to_nat n) a = take (Z.to_nat n) b)).

Fixpoint FindObject_with_Path (items : list HIDData_t) (path : HIDPath_t) (ty : Z)
    : option (option HIDData_t) :=
  match items with
  | [] => Some None
  | d :: items' =>
    if negb (Type_ d =? ty) then FindObject_with_Path items' path ty
    else
      same ← nodes_equal (path_node (Path d)) (path_node path) (path_size path);
      if (same : bool) then Some (Some d) else FindObject_with_Path items' path ty
  end.

Definition FindObject (items : list HIDData_t) (d : HIDData_t) : option (HIDData_t * Z) :=
  o ← FindObject_with_Path items (Path d) (Type_ d);
  match o with None => Some (d, 0) | Some d' => Some (d', 1) end.

Fixpoint FindObject_with_ID (items : list HIDData_t) (id off ty : Z) : option HIDData_t :=
  match items with
  | [] => None
  | d :: items' =>
    if negb (ReportID d =? id) then FindObject_with_ID items' id off ty
    else if negb (Type_ d =? ty) then FindObject_with_ID items' id off ty
    else if negb (Offset d =? off) then FindObject_with_ID items' id off ty
    else Some d
  end.

Fixpoint FindObject_with_ID_Node (items : list HIDData_t) (id node : Z) : option (option HIDData_t) :=
  match items with
  | [] => Some None
  | d :: items' =>
    if negb (ReportID d =? id) then FindObject_with_ID_Node items' id node
    else
      let size := path_size (Path d) in
      if size =? 0 then FindObject_with_ID_Node items' id node
      else
        last ← rd (path_node (Path d)) (size - 1);
        if negb (last =? node) then FindObject_with_ID_Node items' id node else Some (Some d)
  end.


(** ** The parser terminates *)

(** What steers the loops: the position, the pending item and the counts. *)

Definition scan (p : HIDParser_t) := (Pos p, Item p, Value p, ReportCount p, Count p).

Lemma push_node_scan x p p' : push_node x p = Some p' → scan p' = scan p.
Proof. unfold push_node. destruct (wr _ _ _); cbn; [|done]. by intros [= <-]. Qed.

Lemma unstack_usage_scan p p' : unstack_usage p = Some p' → scan p' = scan p.
Proof.
  unfold unstack_usage. destruct (0 <? UsageSize p); [|by intros [= <-]].
  destruct (shift_usages _ _ _); cbn; [|done]. by intros [= <-].
Qed.

Lemma iter_collection_scan p p' : iter_collection p = Continue p' → scan p' = scan p.
Proof.
  unfold iter_collection, guard_iter. intros H. repeat case_match; simplify_eq.
  all: repeat match goal with
    | H : unstack_usage _ = Some _ |- _ => apply unstack_usage_scan in H
    | H : push_node _ _ = Some _ |- _ => apply push_node_scan in H
    | H : _ ≫= _ = Some _ |- _ => apply bind_Some in H as (? & _ & H)
    end.
  all: unfold scan in *; cbn in *; congruence.
Qed.

Lemma iter_end_collection_scan p p' : iter_end_collection p = Continue p' → scan p' = scan p.
Proof. unfold iter_end_collection. intros H. repeat case_match; by simplify_eq. Qed.

Lemma no_done_collection p r p' d :
  iter_collection p = Done r p' d ∨ iter_end_collection p = Done r p' d → r < 0.
Proof.
  unfold iter_collection, iter_end_collection, guard_iter.
  intros [H|H]; repeat case_match; simplify_eq; lia.
Qed.

(** An object found: one repetition of its item is used up. *)

Lemma iter_field_done p r p' d :
  iter_field p = Done r p' d → 0 ≤ r →
  is_Some d ∧ Pos p' = Pos p ∧ Item p' = Item p ∧ ReportCount p' = ReportCount p
  ∧ (if Count p =? 0 then ReportCount p else Count p) ≠ 0
  ∧ Count p' = (if Count p =? 0 then ReportCount p else Count p) - 1.
Proof.
  unfold iter_field, guard_iter. intros H Hr.
  destruct (UsageTab p !! 0%nat) as [u|]; [|done].
  set (p0 := if Count p =? 0 then set_count (ReportCount p) p else p) in *.
  assert (Count p0 = if Count p =? 0 then ReportCount p else Count p) as Hc
    by (unfold p0; by destruct (Count p =? 0)).
  assert ((Pos p0, Item p0, ReportCount p0) = (Pos p, Item p, ReportCount p)) as Hs
    by (unfold p0; by destruct (Count p =? 0)).
  destruct (Z.eqb_spec (Count p0) 0); [simplify_eq; lia|].
  destruct (PATH_SIZE <=? _); [simplify_eq; lia|].
  destruct (push_node u p0) as [p1|] eqn:E1; [|done]. apply push_node_scan in E1.
  destruct (unstack_usage p1) as [p2|] eqn:E2; [|done]. apply unstack_usage_scan in E2.
  destruct (GetReportOffset _ _ _) as [tab cell].
  destruct (cell ≫= _) as [[i row]|]; [|simplify_eq; lia].
  destruct (0xffff - row_offset row <? _); [simplify_eq; lia|].
  unfold scan in *. injection H as <- <- <-. rewrite <- Hc.
  split; [eauto|]. match goal with |- context [if ?b then ResetLocalState _ else _] => destruct b end;
    cbn in *; split_and!; congruence.
Qed.

Lemma iter_field_continue p p' : iter_field p ≠ Continue p'.
Proof. unfold iter_field, guard_iter. repeat case_match; done. Qed.

Record scan_ok (desc : list Z) (p : HIDParser_t) : Prop := {
  scan_pos : 0 ≤ Pos p ≤ Z.of_nat (length desc);
  scan_rc : 0 ≤ ReportCount p ≤ 255;
  scan_count : 0 ≤ Count p ≤ 255;
  scan_pending : Count p ≠ 0 → is_field (Z.land (Item p) 0xFC) = true
}.

Lemma item_size_range it : 0 ≤ item_size it ≤ 4.
Proof.
  unfold item_size. destruct (rd ItemSize (Z.land it 3)) as [x|] eqn:E; cbn; [|lia].
  unfold rd in E. destruct (0 <=? _); [|done]. apply list_elem_of_lookup_2 in E.
  unfold ItemSize in E. repeat (apply elem_of_cons in E as [->|E]; [lia|]). by apply elem_of_nil in E.
Qed.

Lemma u8_range x : 0 ≤ u8 x ≤ 255.
Proof. unfold u8. pose proof (wrap_range 8 x). lia. Qed.

(** The fetch: nothing happens while repetitions are pending; otherwise at least
    one byte is read. *)

Lemma fetch_ok desc p :
  Z.of_nat (length desc) ≤ REPORT_DSC_SIZE → scan_ok desc p → Pos p < Z.of_nat (length desc) →
  match fetch desc p with
  | None => False
  | Some (inr _) => Count p = 0
  | Some (inl q) =>
    0 ≤ Pos q ≤ Z.of_nat (length desc) ∧ ReportCount q = ReportCount p ∧ Count q = Count p
    ∧ Data q = Data p ∧ OffsetTab q = OffsetTab p ∧ UsageTab q = UsageTab p
    ∧ UsageSize q = UsageSize p
    ∧ (if Count p =? 0 then Pos p < Pos q else q = p)
  end.
Proof.
  intros Hlen [Hp Hrc Hc Hf] Hlt. unfold REPORT_DSC_SIZE in Hlen. unfold fetch.
  destruct (Z.eqb_spec (Count p) 0) as [E|E]; [|split_and!; done || lia].
  destruct (rd_lt desc (Pos p)) as [it ->]; [lia|]. cbn [mbind option_bind].
  unfold u16. rewrite (wrap_small 16 (Pos p + 1)) by lia.
  destruct (Z.ltb_spec (Z.of_nat (length desc) - (Pos p + 1)) (item_size it)); [done|].
  pose proof (item_size_range it). cbn. rewrite wrap_small by lia.
  split_and!; try done; lia.
Qed.

(** The items that only set a global or the position. *)

Record quiet (desc : list Z) (q q' : HIDParser_t) : Prop := {
  quiet_count : Count q' = Count q;
  quiet_offsets : OffsetTab q' = OffsetTab q;
  quiet_usage : UsageTab q' = UsageTab q ∧ UsageSize q' = UsageSize q;
  quiet_path : Path (Data q') = Path (Data q);
  quiet_pos : 0 ≤ Pos q ≤ Z.of_nat (length desc) → Pos q ≤ Pos q' ≤ Z.of_nat (length desc);
  quiet_rc : ReportCount q' = ReportCount q ∨ 0 ≤ ReportCount q' ≤ 255;
  quiet_id : ReportID (Data q') = ReportID (Data q) ∨ 0 ≤ ReportID (Data q') ≤ 255;
  quiet_size : Size (Data q') = Size (Data q) ∨ 0 ≤ Size (Data q') ≤ 255
}.

(** The switch: one of the main or local items, an error, or a quiet item. *)

Ltac quiet_tac :=
  constructor; cbn; auto using u8_range; lia.

Lemma quiet_long desc q :
  Z.of_nat (length desc) ≤ REPORT_DSC_SIZE →
  (Z.of_nat (length desc) - Pos q <? Z.land (Value q) 0xff) = false →
  quiet desc q (set_item (u16 (Pos q + Z.land (Value q) 0xff)) (Item q) (Value q) q).
Proof.
  intros Hlen H%Z.ltb_ge. unfold REPORT_DSC_SIZE in Hlen.
  assert (0 ≤ Z.land (Value q) 0xff) by (apply Z.land_nonneg; lia).
  constructor; cbn; auto. intros. unfold u16. rewrite wrap_small by lia. lia.
Qed.

Lemma iter_item_inv desc q :
  Z.of_nat (length desc) ≤ REPORT_DSC_SIZE →
  let op := Z.land (Item q) 0xFC in
  (is_field op = true ∧ iter_item desc q = iter_field q)
  ∨ (is_field op = false ∧
     (iter_item desc q = iter_usage q
      ∨ (op = ITEM_COLLECTION ∧ iter_item desc q = iter_collection q)
      ∨ (op = ITEM_END_COLLECTION ∧ iter_item desc q = iter_end_collection q)
      ∨ iter_item desc q = Done (-2) q None
      ∨ ∃ q', iter_item desc q = Continue q' ∧ quiet desc q q')).
Proof.
  intros Hlen op. unfold iter_item. cbn zeta. fold op.
  destruct (is_field op) eqn:Ef.
  { left. split; [done|]. unfold is_field in Ef.
    rewrite !orb_true_iff, !Z.eqb_eq in Ef. by destruct Ef as [[-> | ->] | ->]. }
  right. split; [done|].
  destruct (Z.eqb_spec op ITEM_UPAGE); [do 4 right; eexists; split; [done|quiet_tac]|].
  destruct (op =? ITEM_USAGE); [by left|].
  destruct (Z.eqb_spec op ITEM_COLLECTION); [right; left; auto|].
  destruct (Z.eqb_spec op ITEM_END_COLLECTION); [right; right; left; auto|].
  do 3 right.
  repeat match goal with |- context [if op =? ?c then _ else _] => destruct (op =? c) end.
  all: repeat match goal with |- context [if ?b then Continue _ else Continue _] => destruct b end.
  all: try (right; eexists; split; [reflexivity|quiet_tac]).
  destruct (_ <? _) eqn:E; [by left|right]. eexists; split; [reflexivity|by apply quiet_long].
Qed.

(** ** The shape of a parser *)

(** A [path_size] of 255 is what an end of collection leaves when it removes two
    nodes of a path of one. *)

Record shape (p : HIDParser_t) : Prop := {
  sh_usage : length (UsageTab p) = 50%nat;
  sh_usages : 0 ≤ UsageSize p ≤ 50;
  sh_nodes : length (path_node (Path (Data p))) = 10%nat;
  sh_path : 0 ≤ path_size (Path (Data p)) ≤ 10 ∨ path_size (Path (Data p)) = 255;
  sh_tab : length (OffsetTab p) = MAX_REPORT;
  sh_rows : Forall (λ r, 0 ≤ row_offset r ≤ 65535) (OffsetTab p);
  sh_id : 0 ≤ ReportID (Data p) ≤ 255;
  sh_size : 0 ≤ Size (Data p) ≤ 255
}.

Ltac shape_tac :=
  constructor; cbn; rewrite ?length_replicate, ?length_insert; first [assumption|lia|auto].

Lemma shape_reset p : shape p → shape (ResetLocalState p).
Proof. intros []. shape_tac. Qed.

Lemma shape_quiet desc p p' : shape p → quiet desc p p' → shape p'.
Proof.
  intros [] [? ? [? ?] Hpath ? ? Hid Hsize].
  constructor; try congruence; try (rewrite Hpath; assumption).
  - destruct Hid; congruence || lia.
  - destruct Hsize; congruence || lia.
Qed.

Lemma shift_usages_length n : ∀ j tab tab',
  shift_usages j n tab = Some tab' → length tab' = length tab.
Proof.
  induction n as [|n IH]; intros j tab tab' H; cbn in H; [congruence|].
  apply bind_Some in H as (x & _ & H). apply bind_Some in H as (t & Ht & H).
  apply IH in H. unfold store in Ht. destruct (_ <? _)%nat; simplify_eq.
  by rewrite H, length_insert.
Qed.

Lemma shift_usages_some n : ∀ j tab, (j + n < length tab)%nat → is_Some (shift_usages j n tab).
Proof.
  induction n as [|n IH]; intros j tab H; cbn; [eauto|].
  destruct (lookup_lt_is_Some_2 tab (S j)) as [x ->]; [lia|]. cbn.
  rewrite store_lt by lia. cbn. apply IH. rewrite length_insert. lia.
Qed.

Lemma unstack_usage_ok p :
  shape p →
  match unstack_usage p with
  | None => UsageSize p = 50
  | Some p' => shape p' ∧ Data p' = Data p ∧ OffsetTab p' = OffsetTab p
  end.
Proof.
  intros Hp. pose proof Hp as []. unfold unstack_usage.
  destruct (Z.ltb_spec 0 (UsageSize p)); [|done].
  destruct (shift_usages _ _ _) as [t|] eqn:E; cbn.
  - apply shift_usages_length in E. split; [|done]. constructor; cbn; congruence || lia || auto.
  - destruct (decide (UsageSize p = 50)) as [|Hne]; [done|].
    destruct (shift_usages_some (Z.to_nat (UsageSize p)) 0 (UsageTab p)) as [? ?]; [lia|congruence].
Qed.

Lemma push_node_ok x p :
  shape p → path_size (Path (Data p)) < PATH_SIZE →
  ∃ p', push_node x p = Some p' ∧ shape p' ∧ path_size (Path (Data p')) = path_size (Path (Data p)) + 1
    ∧ UsageTab p' = UsageTab p ∧ UsageSize p' = UsageSize p ∧ OffsetTab p' = OffsetTab p
    ∧ ReportID (Data p') = ReportID (Data p) ∧ Size (Data p') = Size (Data p).
Proof.
  intros [] Hlt. unfold PATH_SIZE in Hlt. unfold push_node. rewrite wr_lt by lia. cbn.
  eexists. split; [reflexivity|]. unfold u8. rewrite wrap_small by lia.
  split; [shape_tac|done].
Qed.

(** ** The offset table *)

(** The next free bit that the table records for a report. *)

Fixpoint next_offset (tab : list offset_row) (id ty : Z) : option Z :=
  match tab with
  | [] => None
  | row :: tab' =>
    let row := if row_id row =? 0 then MkRow id ty 0 else row in
    if negb (row_id row =? id) || negb (row_type row =? ty) then next_offset tab' id ty
    else Some (row_offset row)
  end.

Definition good_rows (tab : list offset_row) : Prop := Forall (λ r, 0 ≤ row_offset r ≤ 65535) tab.

Definition occupy (tab : list offset_row) (i : nat) (row : offset_row) (o : Z) : list offset_row :=
  <[i := MkRow (row_id row) (row_type row) o]> tab.

Lemma next_offset_nonneg tab id ty o : good_rows tab → next_offset tab id ty = Some o → 0 ≤ o.
Proof.
  induction 1 as [|row tab Hr _ IH]; cbn; [done|].
  destruct (row_id row =? 0); destruct (_ || _); cbn; try done; intros; simplify_eq; lia.
Qed.

Lemma GetReportOffset_shape tab id ty :
  good_rows tab →
  let '(tab', _) := GetReportOffset tab id ty in good_rows tab' ∧ length tab' = length tab.
Proof.
  induction 1 as [|row tab Hr Ht IH]; cbn; [split; [constructor|done]|].
  destruct (GetReportOffset tab id ty) as [t i]. destruct IH.
  destruct (row_id row =? 0); destruct (_ || _); cbn;
    (split; [constructor; [cbn; lia|done]|lia]).
Qed.

(** The row of id 0 counts as free, so its cell is reset by every lookup. *)

Lemma next_offset_zero tab ty o : next_offset tab 0 ty = Some o → o = 0.
Proof.
  induction tab as [|row tab IH]; cbn; [done|].
  destruct (row_id row =? 0) eqn:E; cbn; [rewrite Z.eqb_refl; cbn; congruence|].
  by rewrite E.
Qed.

Lemma row_match a b : negb (a =? b) = false ↔ a = b.
Proof. rewrite negb_false_iff. apply Z.eqb_eq. Qed.

(** The cell found is that of the report, and holds [next_offset]. *)

Lemma GetReportOffset_found tab id ty tab' i :
  GetReportOffset tab id ty = (tab', Some i) →
  ∃ row, tab' !! i = Some row ∧ row_id row = id ∧ row_type row = ty
    ∧ next_offset tab id ty = Some (row_offset row).
Proof.
  revert tab' i. induction tab as [|row tab IH]; intros tab' i; cbn; [done|].
  set (r := if row_id row =? 0 then MkRow id ty 0 else row).
  destruct (negb (row_id r =? id) || negb (row_type r =? ty)) eqn:E.
  - destruct (GetReportOffset tab id ty) as [t [k|]] eqn:Et; cbn; [|done].
    intros [= <- <-]. exact (IH t k eq_refl).
  - intros [= <- <-]. apply orb_false_iff in E as [H1%row_match H2%row_match]. exists r. done.
Qed.

(** Taking space in one report's cell moves that report's next offset and never
    moves another one's backwards. *)

Lemma next_offset_same tab id ty tab' i row o :
  id ≠ 0 → GetReportOffset tab id ty = (tab', Some i) → tab' !! i = Some row →
  next_offset (occupy tab' i row o) id ty = Some o.
Proof.
  intros Hid. revert tab' i. induction tab as [|r0 tab IH]; intros tab' i; cbn; [done|].
  set (r := if row_id r0 =? 0 then MkRow id ty 0 else r0).
  assert ((row_id r =? 0) = false) as Hr.
  { unfold r. destruct (row_id r0 =? 0) eqn:E; [by apply Z.eqb_neq|done]. }
  destruct (negb (row_id r =? id) || negb (row_type r =? ty)) eqn:E.
  - destruct (GetReportOffset tab id ty) as [t [k|]] eqn:Et; cbn; [|done].
    intros [= <- <-] Hk. cbn. rewrite Hr, E. by apply IH.
  - intros [= <- <-] [= <-]. cbn. rewrite Hr. cbn. by rewrite E.
Qed.

Lemma next_offset_other tab id ty tab' i row o id' ty' b :
  good_rows tab → 0 ≤ o ≤ 65535 → id' ≠ 0 → (id', ty') ≠ (id, ty) →
  GetReportOffset tab id ty = (tab', Some i) → tab' !! i = Some row →
  next_offset (occupy tab' i row o) id' ty' = Some b →
  ∃ a, next_offset tab id' ty' = Some a ∧ a ≤ b.
Proof.
  intros Hg Ho Hid' Hne. revert tab' i.
  induction Hg as [|r0 tab Hr0 Hg IH]; intros tab' i; cbn; [done|].
  set (r := if row_id r0 =? 0 then MkRow id ty 0 else r0).
  destruct (negb (row_id r =? id) || negb (row_type r =? ty)) eqn:E.
  - assert ((row_id r0 =? 0) = false) as Hz.
    { unfold r in E. destruct (row_id r0 =? 0) eqn:Ez; [|done].
      cbn in E. rewrite !Z.eqb_refl in E. done. }
    assert (r = r0) as -> by (unfold r; by rewrite Hz).
    destruct (GetReportOffset tab id ty) as [t [k|]] eqn:Et; cbn; [|done].
    intros [= <- <-] Hk. cbn. rewrite Hz.
    destruct (negb (_ =? id') || _); [exact (IH t k eq_refl Hk)|]. intros [= <-]. eauto with lia.
  - apply orb_false_iff in E as [E1%row_match E2%row_match].
    intros [= <- <-] [= <-] Hb. unfold occupy in Hb. cbn [list_insert insert] in Hb.
    rewrite E1, E2 in Hb. subst r. destruct (Z.eqb_spec (row_id r0) 0) as [Ez|Ez].
    + exists 0. cbn. rewrite !Z.eqb_refl. split; [done|].
      eapply next_offset_nonneg, Hb. constructor; [cbn; lia|done].
    + cbn in Hb. rewrite <- E1, <- E2, (proj2 (Z.eqb_neq _ _) Ez) in Hb. cbn in Hb.
      assert (negb (row_id r0 =? id') || negb (row_type r0 =? ty') = true) as Hx.
      { apply orb_true_iff. rewrite !negb_true_iff, !Z.eqb_neq.
        destruct (decide (row_id r0 = id')), (decide (row_type r0 = ty')); auto. congruence. }
      rewrite Hx in Hb |- *. eauto with lia.
Qed.

(** ** One iteration *)

(** An object [o] handed to the caller by the step from [p] to [p']. *)

Record emitted (p p' : HIDParser_t) (r : Z) (o : HIDData_t) : Prop := {
  em_ret : r = 0 ∨ r = 1;
  em_id : 0 ≤ ReportID o ≤ 255;
  em_size : 0 ≤ Size o ≤ 255;
  em_end : 0 ≤ Offset o ∧ Offset o + Size o ≤ 65535;
  em_path : 1 ≤ path_size (Path o) ≤ 10;
  em_nodes : length (path_node (Path o)) = 10%nat;
  em_next : next_offset (OffsetTab p) (ReportID o) (Type_ o) = Some (Offset o);
  em_same : ReportID o ≠ 0 →
    next_offset (OffsetTab p') (ReportID o) (Type_ o) = Some (Offset o + Size o);
  em_other : ∀ id ty b, id ≠ 0 → (id, ty) ≠ (ReportID o, Type_ o) →
    next_offset (OffsetTab p') id ty = Some b →
    ∃ a, next_offset (OffsetTab p) id ty = Some a ∧ a ≤ b
}.

(** The tail of a field item, its usage already pushed on the path. *)

Lemma field_tail q tab i row :
  shape q → 1 ≤ path_size (Path (Data q)) ≤ 10 →
  let ty := Z.land (Item q) 0xFC in
  GetReportOffset (OffsetTab q) (ReportID (Data q)) ty = (tab, Some i) →
  tab !! i = Some row → Size (Data q) ≤ 0xffff - row_offset row →
  let o := set_field (row_offset row) ty (u8 (Value q)) (Data q) in
  let q' := set_path_size (path_size (Path o) - 1)
    (set_offsets (occupy tab i row (u16 (row_offset row + Size (Data q)))) (set_Data o q)) in
  shape q' ∧ ∀ r, r = 0 ∨ r = 1 → emitted q q' r o.
Proof.
  intros Hq Hpath ty Hget Hrow Hfit o q'. pose proof Hq as [? ? ? ? ? Hrows ? ?].
  destruct (GetReportOffset_found _ _ _ _ _ Hget) as (row' & Hrow' & Hid & Hty & Hnext).
  rewrite Hrow in Hrow'. injection Hrow' as <-.
  pose proof (GetReportOffset_shape _ (ReportID (Data q)) ty Hrows) as Hgs.
  rewrite Hget in Hgs. destruct Hgs as [Hgr Hgl].
  pose proof (Forall_lookup_1 _ _ _ _ Hgr Hrow) as Hro. cbn in Hro.
  subst q'. unfold u16. rewrite (wrap_small 16) by lia.
  split.
  - constructor; cbn; try done; try lia.
    + unfold occupy. rewrite length_insert. congruence.
    + apply Forall_insert; [done|cbn; lia].
  - intros r Hr. constructor; cbn; try done; try lia.
    + intros Hne. by apply (next_offset_same (OffsetTab q)).
    + intros id' ty' b Hne Hd Hb. eapply next_offset_other; [..|exact Hb]; done || lia.
Qed.

Lemma emitted_tab p p' q q' r o :
  OffsetTab p = OffsetTab q → OffsetTab p' = OffsetTab q' → emitted q q' r o → emitted p p' r o.
Proof. intros E E' []. constructor; rewrite ?E, ?E'; done. Qed.

Lemma shape_count c p : shape p → shape (set_count c p).
Proof. intros []. shape_tac. Qed.

Lemma iter_field_ok p :
  shape p →
  match iter_field p with
  | Continue _ => False
  | Done r p' d => 0 ≤ r → ∃ o, d = Some o ∧ shape p' ∧ emitted p p' r o
  | Fault => UsageSize p = 50
  end.
Proof.
  intros Hp. unfold iter_field, guard_iter.
  destruct (lookup_lt_is_Some_2 (UsageTab p) 0) as [u ->]; [rewrite sh_usage; [lia|done]|].
  set (p0 := if Count p =? 0 then set_count (ReportCount p) p else p).
  assert (shape p0) as H0 by (unfold p0; destruct (_ =? _); auto using shape_count).
  assert (OffsetTab p0 = OffsetTab p ∧ UsageSize p0 = UsageSize p) as [Htab Hus]
    by (unfold p0; by destruct (_ =? _)).
  destruct (Count p0 =? 0); [lia|].
  destruct (Z.leb_spec PATH_SIZE (path_size (Path (Data p0)))) as [|Hlt]; [lia|].
  destruct (push_node_ok u p0 H0 Hlt) as (p1 & -> & H1 & Hsz & _ & Hus1 & Htab1 & _).
  pose proof (unstack_usage_ok p1 H1) as H2. destruct (unstack_usage p1) as [q|]; [|congruence].
  destruct H2 as (H2 & Hdata & Htab2). cbn [Data set_field ReportID].
  destruct (GetReportOffset _ _ _) as [tab [i|]] eqn:Hget; cbn [mbind option_bind]; [|lia].
  destruct (tab !! i) as [row|] eqn:Hrow; cbn [mbind option_bind]; [|lia].
  cbn [Size set_field]. destruct (Z.ltb_spec (0xffff - row_offset row) (Size (Data q))); [lia|].
  intros Hr. eexists. split; [reflexivity|].
  pose proof (sh_path p0 H0). unfold PATH_SIZE in Hlt.
  destruct (field_tail q tab i row H2) as [Hs He]; [rewrite Hdata; lia|done|done|lia|].
  split.
  - match goal with |- context [if ?b then _ else _] => destruct b end;
      auto using shape_reset, shape_count.
  - eapply emitted_tab; [..|apply (He (if negb (u =? 0) then 1 else 0))]; [congruence| |].
    + match goal with |- context [if ?b then _ else _] => destruct b end; done.
    + destruct (negb _); auto.
Qed.

Lemma iter_usage_ok p :
  shape p →
  match iter_usage p with
  | Continue p' => shape p' ∧ OffsetTab p' = OffsetTab p ∧ scan p' = scan p
  | Done r _ _ => r < 0
  | Fault => False
  end.
Proof.
  intros []. unfold iter_usage, guard_iter, USAGE_TAB_SIZE.
  destruct (Z.leb_spec 50 (UsageSize p)); [lia|]. rewrite wr_lt by lia. cbn.
  split; [|done]. shape_tac.
Qed.

Lemma iter_collection_ok p :
  shape p →
  match iter_collection p with
  | Continue p' => shape p' ∧ OffsetTab p' = OffsetTab p
  | Done r _ _ => r < 0
  | Fault => UsageSize p = 50
  end.
Proof.
  intros Hp. unfold iter_collection, guard_iter.
  destruct (Z.leb_spec PATH_SIZE (path_size (Path (Data p)))) as [|Hlt]; [lia|].
  destruct (lookup_lt_is_Some_2 (UsageTab p) 0) as [u ->]; [rewrite sh_usage; [lia|done]|].
  destruct (push_node_ok u p Hp Hlt) as (p1 & Hp1 & H1 & Hsz & _ & Hus1 & Htab1 & _).
  cbn. rewrite Hp1. pose proof (unstack_usage_ok p1 H1) as H2.
  destruct (unstack_usage p1) as [q|]; [|congruence]. destruct H2 as (H2 & _ & Htab2).
  destruct (0x80 <=? Value q); [|cbn; split; [by apply shape_reset|congruence]].
  destruct (Z.leb_spec PATH_SIZE (path_size (Path (Data q)))) as [|Hlt']; [lia|].
  match goal with |- context [push_node ?x q] =>
    destruct (push_node_ok x q H2 Hlt') as (p3 & -> & H3 & _ & _ & _ & Htab3 & _) end.
  split; [by apply shape_reset|cbn; congruence].
Qed.

Lemma iter_end_collection_ok p :
  shape p →
  match iter_end_collection p with
  | Continue p' => shape p' ∧ OffsetTab p' = OffsetTab p
  | Done r _ _ => r < 0
  | Fault => path_size (Path (Data p)) = 255
  end.
Proof.
  intros Hp. pose proof Hp as []. unfold iter_end_collection.
  destruct (Z.eqb_spec (path_size (Path (Data p))) 0); [lia|].
  destruct (rd _ _) as [x|] eqn:E.
  - split; [|done]. apply shape_reset. constructor; cbn; try done.
    assert (path_size (Path (Data p)) ≤ 10) as Hle.
    { unfold rd in E. destruct (0 <=? _); [|done]. apply lookup_lt_Some in E. lia. }
    destruct (_ =? _); [|lia].
    destruct (decide (path_size (Path (Data p)) = 1)) as [->|]; [by right|left].
    unfold u8. rewrite wrap_small by lia. lia.
  - destruct (decide (path_size (Path (Data p)) = 255)); [done|].
    destruct (rd_lt (path_node (Path (Data p))) (path_size (Path (Data p)) - 1)); [lia|congruence].
Qed.

Definition parser_ok (desc : list Z) (p : HIDParser_t) : Prop := scan_ok desc p ∧ shape p.

(** What is left to do: the bytes not yet read and the repetitions pending. *)

Definition work (desc : list Z) (p : HIDParser_t) : Z :=
  256 * (Z.of_nat (length desc) - Pos p) + Count p.

(** The two memory errors, as the switch meets them.  An item that takes a usage
    from the stack while 50 are queued: the shift moves 49 cells and then reads
    [UsageTab[50]].  An end of collection while the size of the path is 255: it
    reads node 254 of 10. *)

Definition takes_usage (op : Z) : bool := (op =? ITEM_COLLECTION) || is_field op.

Definition shift_overrun (p : HIDParser_t) : Prop :=
  takes_usage (Z.land (Item p) 0xFC) = true ∧ UsageSize p = USAGE_TAB_SIZE
  ∧ length (UsageTab p) = 50%nat ∧ is_Some (shift_usages 0 49 (UsageTab p))
  ∧ shift_usages 0 50 (UsageTab p) = None.

Definition end_overrun (p : HIDParser_t) : Prop :=
  Z.land (Item p) 0xFC = ITEM_END_COLLECTION ∧ path_size (Path (Data p)) = 255
  ∧ length (path_node (Path (Data p))) = 10%nat.

(** An iteration that makes one of them. *)

Definition faulty (desc : list Z) (p : HIDParser_t) : Prop :=
  ∃ q, fetch desc p = Some (inl q) ∧ iter_item desc q = Fault ∧ (shift_overrun q ∨ end_overrun q).

Lemma shift_usages_overrun n : ∀ j tab,
  (j + n = length tab)%nat → (0 < n)%nat → shift_usages j n tab = None.
Proof.
  induction n as [|n IH]; intros j tab H Hn; [lia|]. cbn.
  destruct (tab !! S j) as [x|] eqn:E; [|done]. apply lookup_lt_Some in E. cbn.
  rewrite store_lt by lia. cbn. apply IH; rewrite ?length_insert; lia.
Qed.

Lemma shift_overrun_intro p :
  shape p → UsageSize p = 50 → takes_usage (Z.land (Item p) 0xFC) = true → shift_overrun p.
Proof.
  intros [] Hu Ht. split_and!; [done..|apply shift_usages_some; lia|].
  apply shift_usages_overrun; lia.
Qed.

Lemma scan_keep desc p q q' :
  scan_ok desc p → Count p = 0 → 0 ≤ Pos q ≤ Z.of_nat (length desc) →
  ReportCount q = ReportCount p → Count q = Count p → scan q' = scan q → scan_ok desc q'.
Proof.
  unfold scan. intros [] ? ? ? ? [=]. constructor; lia.
Qed.

Lemma iter_ok desc p :
  Z.of_nat (length desc) ≤ REPORT_DSC_SIZE → parser_ok desc p → Pos p < Z.of_nat (length desc) →
  match iter desc p with
  | Continue p' => parser_ok desc p' ∧ Pos p < Pos p' ∧ Count p' = 0 ∧ OffsetTab p' = OffsetTab p
  | Done r p' d => 0 ≤ r →
      ∃ o, d = Some o ∧ parser_ok desc p' ∧ work desc p' < work desc p ∧ emitted p p' r o
  | Fault => faulty desc p
  end.
Proof.
  intros Hlen [Hs Hsh] Hlt. pose proof (fetch_ok desc p Hlen Hs Hlt) as Hf. unfold iter.
  destruct (fetch desc p) as [[q|]|] eqn:Efetch; [|lia|done].
  destruct Hf as (Hpos & Hrc & Hcnt & Hd & Ht & Hu & Hus & Hcase).
  assert (shape q) as Hq by (destruct Hsh; constructor; rewrite ?Hd, ?Ht, ?Hu, ?Hus; done).
  assert (iter_item desc q = Fault → shift_overrun q ∨ end_overrun q → faulty desc p) as Hfault
    by (intros; by exists q).
  destruct (iter_item_inv desc q Hlen) as [[Hfield Ei0]|[Hnf Hcases]].
  { pose proof (iter_field_ok q Hq) as Hok. pose proof (iter_field_continue q) as Hnc.
    rewrite Ei0 in Hfault |- *. destruct (iter_field q) as [p'|r p' d|] eqn:Ei; [done| |].
    2: { apply Hfault; [done|left]. apply shift_overrun_intro; [done..|].
         unfold takes_usage. by rewrite Hfield, orb_true_r. }
    intros Hr. destruct (Hok Hr) as (o & -> & Hp' & Hem).
    destruct (iter_field_done q r p' _ Ei Hr) as (_ & HP & HI & HR & Hne & HC).
    exists o. split; [done|]. destruct Hs. split; [split; [|done]|split].
    - constructor; rewrite ?HP, ?HR, ?HI; [lia|lia| |done].
      destruct (Z.eqb_spec (Count q) 0); lia.
    - unfold work. rewrite HP, HC. destruct (Z.eqb_spec (Count p) 0).
      + destruct (Z.eqb_spec (Count q) 0); lia.
      + subst q. destruct (Z.eqb_spec (Count p) 0); lia.
    - by eapply emitted_tab; [..|exact Hem]. }
  assert (Count p = 0) as Hc0.
  { destruct (Z.eqb_spec (Count p) 0); [done|]. subst q. destruct Hs as [_ _ _ Hpend].
    rewrite Hpend in Hnf; done. }
  rewrite Hc0 in Hcase. cbn in Hcase.
  assert (∀ q', shape q' → scan q' = scan q → OffsetTab q' = OffsetTab q →
    parser_ok desc q' ∧ Pos p < Pos q' ∧ Count q' = 0 ∧ OffsetTab q' = OffsetTab p) as Hnext.
  { intros q' Hsh' Hsc Htab. split; [split; [|done]|].
    - by apply (scan_keep desc p q).
    - unfold scan in Hsc. injection Hsc as HP _ _ _ HC. split; [lia|]. split; congruence. }
  destruct Hcases as [->|[[Hop Ei]|[[Hop Ei]|[->|(q' & -> & Hquiet)]]]].
  - pose proof (iter_usage_ok q Hq) as Hok. destruct (iter_usage q); [|lia|done].
    destruct Hok as (? & ? & ?). auto.
  - pose proof (iter_collection_ok q Hq) as Hok. pose proof (iter_collection_scan q) as Hsc.
    rewrite Ei in Hfault |- *. destruct (iter_collection q); [|lia|].
    + destruct Hok as (? & ?). auto.
    + apply Hfault; [done|left]. apply shift_overrun_intro; [done..|]. unfold takes_usage.
      by rewrite Hop.
  - pose proof (iter_end_collection_ok q Hq) as Hok.
    pose proof (iter_end_collection_scan q) as Hsc.
    rewrite Ei in Hfault |- *. destruct (iter_end_collection q); [|lia|].
    + destruct Hok as (? & ?). auto.
    + apply Hfault; [done|right]. split_and!; [done..|by destruct Hq].
  - lia.
  - pose proof (shape_quiet _ _ _ Hq Hquiet) as Hsh'. destruct Hquiet, Hs.
    split; [split; [constructor; lia|done]|]. split; [|split; congruence]. lia.
Qed.

(** ** Runs *)

(** The iterations of the loop of [HIDParse], across its calls. *)

Inductive step (desc : list Z) (p : HIDParser_t) : HIDParser_t → Prop :=
  | step_continue p' :
      Pos p < Z.of_nat (length desc) → iter desc p = Continue p' → step desc p p'
  | step_done r p' d :
      Pos p < Z.of_nat (length desc) → iter desc p = Done r p' d → 0 ≤ r → step desc p p'.

Definition visited (desc : list Z) : HIDParser_t → Prop := rtc (step desc) parser0.

(** A call of [HIDParse] returns, and a memory error happens in a [faulty] state. *)

Lemma HIDParse_loop_ok desc :
  Z.of_nat (length desc) ≤ REPORT_DSC_SIZE →
  ∀ fuel p, parser_ok desc p → Z.of_nat (length desc) - Pos p ≤ Z.of_nat fuel →
  match HIDParse_loop fuel desc p with
  | Stuck => False
  | UB => ∃ q, rtc (step desc) p q ∧ faulty desc q
  | Ret r p' d => r < 0 ∨ ∃ o, d = Some o ∧ parser_ok desc p' ∧ work desc p' < work desc p
      ∧ emitted p p' r o ∧ rtc (step desc) p p'
  end.
Proof.
  intros Hlen. induction fuel as [|fuel IH]; intros p Hp Hfuel; cbn [HIDParse_loop].
  { rewrite (proj2 (Z.ltb_ge _ _)) by lia. left. lia. }
  destruct (Z.ltb_spec (Pos p) (Z.of_nat (length desc))) as [Hlt|]; [|left; lia].
  pose proof (iter_ok desc p Hlen Hp Hlt) as Hit.
  destruct (iter desc p) as [p1|r p' d|] eqn:Ei.
  - destruct Hit as (Hp1 & Hpos & Hcnt & Htab).
    assert (step desc p p1) as Hstep by by eapply step_continue.
    assert (work desc p1 < work desc p) by (unfold work; destruct Hp as [[]]; lia).
    specialize (IH p1 Hp1 ltac:(lia)). destruct (HIDParse_loop fuel desc p1) as [r p' d| |]; [| |done].
    + destruct IH as [|(o & -> & ? & ? & Hem & ?)]; [by left|right].
      exists o. split_and!; [done..|lia| |by eapply rtc_l].
      eapply emitted_tab, Hem; [|done]. done.
    + destruct IH as (q & ? & ?). exists q. split_and!; [by eapply rtc_l|done..].
  - destruct (Z.lt_ge_cases r 0) as [|Hr]; [by left|right].
    destruct (Hit Hr) as (o & -> & ? & ? & ?). exists o. split_and!; try done.
    apply rtc_once. by eapply step_done.
  - exists p. by split_and!.
Qed.

Lemma HIDParse_ok desc p :
  Z.of_nat (length desc) ≤ REPORT_DSC_SIZE → parser_ok desc p →
  match HIDParse desc p with
  | Stuck => False
  | UB => ∃ q, rtc (step desc) p q ∧ faulty desc q
  | Ret r p' d => r < 0 ∨ ∃ o, d = Some o ∧ parser_ok desc p' ∧ work desc p' < work desc p
      ∧ emitted p p' r o ∧ rtc (step desc) p p'
  end.
Proof. intros Hlen Hp. apply HIDParse_loop_ok; [done..|]. destruct Hp as [[]]. lia. Qed.

Lemma parser0_ok desc : parser_ok desc parser0.
Proof.
  split; constructor; cbn [parser0 Pos ReportCount Count UsageTab UsageSize Data OffsetTab data0 Path path_size
    ReportID Size];
    try done; try lia. by apply Forall_replicate.
Qed.

(** ** The parsed descriptor *)

(** An object placed in its report: inside the report's length, and before the
    next bit the parser will hand out. *)

Record placed (tab : list offset_row) (rl : list Z) (o : HIDData_t) : Prop := {
  pl_id : 0 ≤ ReportID o ≤ 255;
  pl_size : 0 ≤ Size o ≤ 255;
  pl_offset : 0 ≤ Offset o;
  pl_path : 1 ≤ path_size (Path o) ≤ 10;
  pl_nodes : length (path_node (Path o)) = 10%nat;
  pl_len : ∃ n, rl !! Z.to_nat (ReportID o) = Some n ∧ Offset o + Size o ≤ 8 * n;
  pl_next : ReportID o ≠ 0 → ∀ b, next_offset tab (ReportID o) (Type_ o) = Some b →
    Offset o + Size o ≤ b;
  pl_zero : ReportID o = 0 → Offset o = 0
}.

(** Two objects of the same report and type do not overlap. *)

Definition apart (a b : HIDData_t) : Prop :=
  ReportID a = ReportID b → ReportID a ≠ 0 → Type_ a = Type_ b → Offset a + Size a ≤ Offset b.

Record desc_ok (tab : list offset_row) (d : HIDDesc_t) : Prop := {
  dk_items : length (item d) = MAX_REPORT;
  dk_count : (nitems d ≤ MAX_REPORT)%nat;
  dk_replen : length (replen d) = 256%nat;
  dk_placed : ∀ i o, (i < nitems d)%nat → item d !! i = Some o → placed tab (replen d) o;
  dk_apart : ∀ i j a b, (i < j)%nat → (j < nitems d)%nat →
    item d !! i = Some a → item d !! j = Some b → apart a b
}.

Definition grow_replen (rl : list Z) (o : HIDData_t) : list Z :=
  let mx := Z.shiftr (Offset o + Size o + 7) 3 in
  match rd rl (ReportID o) with
  | Some old => if old <? mx then <[Z.to_nat (ReportID o) := mx]> rl else rl
  | None => rl
  end.

Lemma shiftr3_ceil x : x ≤ 8 * Z.shiftr (x + 7) 3.
Proof. rewrite Z.shiftr_div_pow2 by lia. change (2 ^ 3) with 8. Z.to_euclidean_division_equations. lia. Qed.

Lemma grow_replen_mono rl o i n :
  rl !! i = Some n → ∃ n', grow_replen rl o !! i = Some n' ∧ n ≤ n'.
Proof.
  intros H. unfold grow_replen. destruct (rd rl (ReportID o)) as [old|] eqn:E; [|eauto with lia].
  destruct (Z.ltb_spec old (Z.shiftr (Offset o + Size o + 7) 3)); [|eauto with lia].
  destruct (decide (i = Z.to_nat (ReportID o))) as [->|].
  - unfold rd in E. destruct (0 <=? _); [|done]. rewrite H in E. simplify_eq.
    rewrite list_lookup_insert_eq by (by eapply lookup_lt_Some). eauto with lia.
  - rewrite list_lookup_insert_ne by done. eauto with lia.
Qed.

Lemma grow_replen_fits rl o :
  length rl = 256%nat → 0 ≤ ReportID o ≤ 255 →
  ∃ n, grow_replen rl o !! Z.to_nat (ReportID o) = Some n ∧ Offset o + Size o ≤ 8 * n.
Proof.
  intros Hlen Hid. pose proof (shiftr3_ceil (Offset o + Size o)) as Hc. unfold grow_replen.
  destruct (rd_lt rl (ReportID o)) as [old Hold]; [lia|]. rewrite Hold.
  destruct (Z.ltb_spec old (Z.shiftr (Offset o + Size o + 7) 3)).
  - rewrite list_lookup_insert_eq by lia. eauto.
  - unfold rd in Hold. destruct (0 <=? _); [|done]. exists old. split; [done|lia].
Qed.

Lemma grow_replen_length rl o : length (grow_replen rl o) = length rl.
Proof. unfold grow_replen. repeat case_match; by rewrite ?length_insert. Qed.

(** An object stays placed when the parser hands out another one. *)

Lemma placed_step p p' r o rl x :
  emitted p p' r o → placed (OffsetTab p) rl x → placed (OffsetTab p') (grow_replen rl o) x.
Proof.
  intros Hem [? ? ? ? ? (n & Hn & Hle) Hnext ?]. constructor; try done.
  - destruct (grow_replen_mono rl o _ _ Hn) as (n' & ? & ?). exists n'. split; [done|lia].
  - intros Hne b Hb. destruct (decide ((ReportID x, Type_ x) = (ReportID o, Type_ o))) as [E|E].
    + injection E as E1 E2. rewrite E1, E2 in Hb, Hnext.
      rewrite (em_same _ _ _ _ Hem) in Hb by congruence. simplify_eq.
      specialize (Hnext ltac:(congruence) _ (em_next _ _ _ _ Hem)).
      pose proof (em_size _ _ _ _ Hem). lia.
    + destruct (em_other _ _ _ _ Hem _ _ _ Hne E Hb) as (a & Ha & ?).
      specialize (Hnext Hne _ Ha). lia.
Qed.

Lemma placed_new p p' r o rl :
  emitted p p' r o → length rl = 256%nat → placed (OffsetTab p') (grow_replen rl o) o.
Proof.
  intros [? ? ? ? ? ? Hnext Hsame ?] Hlen. constructor; try done; try lia.
  - by apply grow_replen_fits.
  - intros Hne b Hb. rewrite Hsame in Hb by done. simplify_eq. lia.
  - intros E. rewrite E in Hnext. by eapply next_offset_zero.
Qed.

Lemma apart_new p p' r o rl x : emitted p p' r o → placed (OffsetTab p) rl x → apart x o.
Proof.
  intros Hem Hx E1 Hne E2. apply (pl_next _ _ _ Hx Hne).
  rewrite E1, E2. apply (em_next _ _ _ _ Hem).
Qed.

(** Storing an object: it is kept when the parser counts it. *)

Lemma desc_ok_step p p' r o d :
  emitted p p' r o → desc_ok (OffsetTab p) d → (nitems d < MAX_REPORT)%nat →
  desc_ok (OffsetTab p')
    (MkDesc (nitems d + Z.to_nat r) (<[nitems d := o]> (item d)) (grow_replen (replen d) o)).
Proof.
  intros Hem [Hil Hcount Hrl Hpl Hap] Hlt.
  assert (∀ i x, (i < nitems d + Z.to_nat r)%nat → <[nitems d := o]> (item d) !! i = Some x →
    (i < nitems d)%nat ∧ item d !! i = Some x ∨ i = nitems d ∧ x = o) as Hcases.
  { intros i x Hi Hx. destruct (decide (i = nitems d)) as [->|].
    - rewrite list_lookup_insert_eq in Hx by lia. simplify_eq. by right.
    - rewrite list_lookup_insert_ne in Hx by done. left. split; [|done].
      destruct (em_ret _ _ _ _ Hem); lia. }
  constructor; cbn [item nitems replen].
  - by rewrite length_insert.
  - destruct (em_ret _ _ _ _ Hem); lia.
  - by rewrite grow_replen_length.
  - intros i x Hi Hx. destruct (Hcases i x Hi Hx) as [[? ?]|[-> ->]].
    + eapply placed_step, Hpl; done.
    + by eapply placed_new.
  - intros i j a b Hij Hj Ha Hb.
    destruct (Hcases i a) as [[? ?]|[-> ->]]; [lia|done| |].
    + destruct (Hcases j b) as [[? ?]|[-> ->]]; [lia|done|by apply (Hap i j)|].
      eapply apart_new; [done|by eapply Hpl].
    + destruct (Hcases j b) as [[? ?]|[-> ->]]; [lia|done|lia..].
Qed.

Definition desc_finished (d : HIDDesc_t) : Prop :=
  length (item d) = nitems d ∧ (nitems d ≤ MAX_REPORT)%nat ∧ length (replen d) = 256%nat
  ∧ Forall (placed [] (replen d)) (item d)
  ∧ ∀ i j a b, (i < j)%nat → item d !! i = Some a → item d !! j = Some b → apart a b.

Lemma desc_ok_finished tab d :
  desc_ok tab d → desc_finished (MkDesc (nitems d) (take (nitems d) (item d)) (replen d)).
Proof.
  intros [Hil Hcount Hrl Hpl Hap]. split_and!; cbn; [|done|done| |].
  - rewrite length_take. lia.
  - apply Forall_lookup. intros i x [Hx Hi]%lookup_take_Some.
    destruct (Hpl i x Hi Hx). by constructor.
  - intros i j a b Hij [Ha _]%lookup_take_Some [Hb Hj]%lookup_take_Some. eauto.
Qed.

Lemma desc_loop_ok desc :
  Z.of_nat (length desc) ≤ REPORT_DSC_SIZE →
  ∀ fuel p d, parser_ok desc p → desc_ok (OffsetTab p) d → work desc p < Z.of_nat fuel →
  match desc_loop fuel desc p d with
  | Parsed d' => desc_finished d'
  | NullDesc => True
  | DescUB => ∃ q, rtc (step desc) p q ∧ faulty desc q
  | DescStuck => False
  end.
Proof.
  intros Hlen. induction fuel as [|fuel IH]; intros p d Hp Hd Hfuel; cbn [desc_loop].
  { exfalso. unfold work in Hfuel. destruct Hp as [[]]. lia. }
  destruct (Nat.ltb_spec (nitems d) MAX_REPORT) as [Hlt|]; [|by eapply desc_ok_finished].
  pose proof (HIDParse_ok desc p Hlen Hp) as Hpo.
  destruct (HIDParse desc p) as [r p' out| |]; [|done|done].
  destruct (Z.ltb_spec r 0) as [|Hr].
  { destruct (r =? -2); [done|]. destruct (_ =? _)%nat; [done|by eapply desc_ok_finished]. }
  destruct Hpo as [?|(o & -> & Hp' & Hwork & Hem & Hrtc)]; [lia|]. cbn [default].
  rewrite store_lt by (destruct Hd; lia).
  pose proof (desc_ok_step _ _ _ _ _ Hem Hd Hlt) as Hd'. unfold grow_replen in Hd'.
  destruct (rd_lt (replen d) (ReportID o)) as [old Hold].
  { pose proof (em_id _ _ _ _ Hem). destruct Hd. lia. }
  cbn [id]. rewrite Hold in Hd' |- *.
  match goal with |- context [desc_loop fuel desc p' ?x] => specialize (IH p' x Hp' Hd' ltac:(lia)) end.
  destruct (desc_loop _ _ _ _) as [| | |]; try done.
  destruct IH as (q & ? & ?). exists q. split; [by etransitivity|done].
Qed.

(** ** Claims *)

Lemma Parse_ReportDesc_ok desc :
  match Parse_ReportDesc desc with
  | Parsed d' => desc_finished d'
  | NullDesc => True
  | DescUB => ∃ q, visited desc q ∧ faulty desc q
  | DescStuck => False
  end.
Proof.
  unfold Parse_ReportDesc.
  destruct ((_ =? 0) || (REPORT_DSC_SIZE <? _)) eqn:E; [done|].
  apply orb_false_iff in E as [_ E%Z.ltb_ge].
  apply desc_loop_ok; [done|apply parser0_ok| |].
  - constructor; cbn [item nitems replen]; rewrite ?length_replicate; try done; lia.
  - unfold work. cbn. lia.
Qed.

(** C8. Parsing any report descriptor terminates within the model's fuel (256
    calls per byte), and a memory error can only happen at two operations, in a
    state that the run visits: at an item that takes a usage (COLLECTION, INPUT,
    OUTPUT or FEATURE) while 50 are queued, where the shift moves 49 cells and
    then reads [UsageTab[50]]; or at an END_COLLECTION while the size of the path
    has wrapped to 255, where it reads node 254 of 10.  No other item of any
    descriptor, a USAGE item with a full table included, accesses memory out of
    bounds. *)
Theorem Parse_ReportDesc_safe desc :
  match Parse_ReportDesc desc with
  | DescStuck => False
  | DescUB => ∃ q p, visited desc q ∧ fetch desc q = Some (inl p) ∧ iter_item desc p = Fault
      ∧ (shift_overrun p ∨ end_overrun p)
  | NullDesc | Parsed _ => True
  end.
Proof.
  pose proof (Parse_ReportDesc_ok desc) as H. destruct (Parse_ReportDesc desc); try done.
  destruct H as (q & ? & p & ?). by exists q, p.
Qed.

(** C9. In a parsed descriptor at most 500 objects are kept, every object lies
    inside the length recorded for its report, its path has 1 to 10 nodes, and
    two objects of the same numbered report and type occupy disjoint bits, in the
    order of the descriptor. *)
Theorem Parse_ReportDesc_layout desc d :
  Parse_ReportDesc desc = Parsed d →
  length (item d) = nitems d ∧ (nitems d ≤ MAX_REPORT)%nat
  ∧ (∀ o, o ∈ item d → 1 ≤ path_size (Path o) ≤ PATH_SIZE ∧ 0 ≤ Offset o
      ∧ ∃ n, replen d !! Z.to_nat (ReportID o) = Some n ∧ Offset o + Size o ≤ 8 * n)
  ∧ ∀ i j a b, (i < j)%nat → item d !! i = Some a → item d !! j = Some b →
      ReportID a = ReportID b → ReportID a ≠ 0 → Type_ a = Type_ b → Offset a + Size a ≤ Offset b.
Proof.
  intros E. pose proof (Parse_ReportDesc_ok desc) as H. rewrite E in H.
  destruct H as (? & ? & _ & Hpl & Hap). split_and!; [done..| |done].
  intros o Ho. rewrite Forall_forall in Hpl. destruct (Hpl o Ho). done.
Qed.

(** A UPS-like descriptor: two numbered reports, a padded field and a repeated
    one. *)

Definition sample_desc : list Z :=
  [0x05; 0x84; 0x09; 0x04; 0xa1; 0x01; 0x85; 0x01; 0x75; 0x08; 0x95; 0x01; 0x15; 0x00; 0x25; 0x64;
   0x09; 0x66; 0xb1; 0x02; 0x75; 0x04; 0xb1; 0x03; 0x75; 0x01; 0x95; 0x03; 0x09; 0x60; 0x09; 0x61;
   0x09; 0x62; 0xb1; 0x02; 0x85; 0x02; 0x75; 0x10; 0x95; 0x01; 0x09; 0x30; 0x81; 0x02; 0xc0].

Definition sample : HIDDesc_t :=
  Eval vm_compute in match Parse_ReportDesc sample_desc with Parsed d => d | _ => MkDesc 0 [] [] end.

Lemma Parse_ReportDesc_layout_witness :
  Parse_ReportDesc sample_desc = Parsed sample ∧ nitems sample = 5%nat
  ∧ length (item sample) = nitems sample.
Proof.
  split; [vm_compute; reflexivity|]. split; [reflexivity|].
  exact (proj1 (Parse_ReportDesc_layout sample_desc sample ltac:(vm_compute; reflexivity))).
Defined.

(** C36. Reports without an id: the offset table resets the row of id 0 at every
    lookup, so every object of report 0 is placed at bit 0, whatever precedes it
    in the report. *)
Theorem unnumbered_fields_at_zero desc d :
  Parse_ReportDesc desc = Parsed d → ∀ o, o ∈ item d → ReportID o = 0 → Offset o = 0.
Proof.
  intros E o Ho. pose proof (Parse_ReportDesc_ok desc) as H. rewrite E in H.
  destruct H as (_ & _ & _ & Hpl & _). rewrite Forall_forall in Hpl. by destruct (Hpl o Ho).
Qed.

(** Two 8-bit input fields without a report id. *)

Definition unnumbered_desc : list Z :=
  [0x05; 0x84; 0x09; 0x04; 0xa1; 0x01; 0x75; 0x08; 0x95; 0x01; 0x09; 0x66; 0x81; 0x02;
   0x09; 0x68; 0x81; 0x02; 0xc0].

Definition unnumbered : HIDDesc_t :=
  Eval vm_compute in match Parse_ReportDesc unnumbered_desc with Parsed d => d | _ => MkDesc 0 [] [] end.

Lemma unnumbered_fields_at_zero_witness :
  Parse_ReportDesc unnumbered_desc = Parsed unnumbered
  ∧ ∃ a b, item unnumbered = [a; b] ∧ Size a = 8 ∧ Offset a = 0 ∧ Offset b = 0.
Proof.
  split; [vm_compute; reflexivity|]. eexists _, _. split; [reflexivity|].
  pose proof (unnumbered_fields_at_zero unnumbered_desc unnumbered
    ltac:(vm_compute; reflexivity)) as H.
  split; [reflexivity|].
  split; apply H; [by left|reflexivity|right; by left|reflexivity].
Defined.

(** ** The memory errors are reached *)

(** The fetch of an item in the middle of a descriptor. *)

Lemma fetch_item pre it bytes rest p :
  let desc := pre ++ it :: bytes ++ rest in
  Z.of_nat (length desc) ≤ REPORT_DSC_SIZE → Count p = 0 → Pos p = Z.of_nat (length pre) →
  item_size it = Z.of_nat (length bytes) →
  fetch desc p = Some (inl (set_item (Pos p + 1 + item_size it) it (u32 (item_value bytes 0)) p)).
Proof.
  intros desc Hlen Hc Hpos Hsz. unfold fetch. rewrite Hc. cbn [Z.eqb].
  assert (length desc = (length pre + S (length bytes + length rest))%nat) as Hl
    by (unfold desc; rewrite length_app; cbn; by rewrite length_app).
  unfold REPORT_DSC_SIZE in Hlen.
  assert (rd desc (Pos p) = Some it) as ->.
  { unfold rd. rewrite (proj2 (Z.leb_le _ _)) by lia. rewrite Hpos, Nat2Z.id. unfold desc.
    rewrite lookup_app_r, Nat.sub_diag by lia. done. }
  cbn [mbind option_bind]. unfold u16. rewrite (wrap_small 16 (Pos p + 1)) by lia.
  rewrite (proj2 (Z.ltb_ge _ _)) by lia. rewrite wrap_small by lia.
  replace (take _ _) with bytes; [done|]. rewrite Hsz, Nat2Z.id.
  replace (Z.to_nat (Pos p + 1)) with (length pre + 1)%nat by lia.
  unfold desc. rewrite drop_app_add. cbn [drop]. by rewrite drop_0, take_app_length.
Qed.

(** Iterations that go on, then one that faults. *)

Definition goes_on (desc : list Z) (p p' : HIDParser_t) : Prop :=
  Pos p < Z.of_nat (length desc) ∧ iter desc p = Continue p'.

Lemma goes_on_visited desc n p : nsteps (goes_on desc) n parser0 p → visited desc p.
Proof.
  intros H%rtc_nsteps_2. unfold visited. eapply rtc_subrel; [|exact H].
  intros x y [? ?]. by eapply step_continue.
Qed.

Lemma goes_on_fault desc n : ∀ p q fuel,
  nsteps (goes_on desc) n p q → Pos q < Z.of_nat (length desc) → iter desc q = Fault →
  (n < fuel)%nat → HIDParse_loop fuel desc p = UB.
Proof.
  induction n as [|n IH]; intros p q [|fuel] Hn Hq Hf Hlt; try lia; inversion Hn; subst;
    cbn [HIDParse_loop].
  - by rewrite (proj2 (Z.ltb_lt _ _)), Hf by done.
  - match goal with H : goes_on _ _ _ |- _ => destruct H as [? E] end.
    rewrite (proj2 (Z.ltb_lt _ _)), E by done. eapply IH; eauto. lia.
Qed.

Lemma Parse_ReportDesc_fault desc n q :
  Z.of_nat (length desc) ≤ REPORT_DSC_SIZE → nsteps (goes_on desc) n parser0 q →
  (n < length desc)%nat → Pos q < Z.of_nat (length desc) → iter desc q = Fault →
  Parse_ReportDesc desc = DescUB.
Proof.
  intros Hlen Hn Hlt Hq Hf. unfold Parse_ReportDesc.
  rewrite (proj2 (Z.eqb_neq _ 0)), (proj2 (Z.ltb_ge _ _)) by lia. cbn [orb].
  replace (256 * length desc + 256)%nat with (S (256 * length desc + 255)) by lia.
  cbn [desc_loop nitems Nat.ltb Nat.leb MAX_REPORT]. unfold HIDParse.
  by rewrite (goes_on_fault desc n parser0 q).
Qed.

(** [k] usages read, at the start of a descriptor, and nothing else. *)

Record queued (pre : list Z) (k : Z) (p : HIDParser_t) : Prop := {
  qu_shape : shape p;
  qu_pos : Pos p = Z.of_nat (length pre);
  qu_count : Count p = 0;
  qu_size : UsageSize p = k;
  qu_path : path_size (Path (Data p)) = 0
}.

Lemma queue_usage pre u rest k p :
  let desc := pre ++ 0x09 :: u :: rest in
  Z.of_nat (length desc) ≤ REPORT_DSC_SIZE → queued pre k p → 0 ≤ k < 50 →
  ∃ p', goes_on desc p p' ∧ queued (pre ++ [0x09; u]) (k + 1) p'.
Proof.
  intros desc Hlen [Hsh Hpos Hc Hk Hpath] Hlt. unfold goes_on, iter.
  pose proof (fetch_item pre 0x09 [u] rest p Hlen Hc Hpos eq_refl) as Hf.
  cbn [app] in Hf. fold desc in Hf. rewrite Hf. change (item_size 0x09) with 1 in *.
  set (q := set_item _ _ _ _). change (iter_item desc q) with (iter_usage q).
  assert (shape q) as Hq by (by destruct Hsh; constructor).
  pose proof (iter_usage_ok q Hq) as Hok. revert Hok. unfold iter_usage, guard_iter, USAGE_TAB_SIZE.
  change (UsageSize q) with (UsageSize p). rewrite (proj2 (Z.leb_gt 50 _)) by lia.
  destruct (wr _ _ _) as [tab|]; [|done]. cbn [mbind option_bind]. intros (Hs & _).
  eexists. split; [split; [|done]|].
  - rewrite Hpos. unfold desc. rewrite length_app. cbn [length]. lia.
  - constructor; [done|..]; cbn; try done.
    + rewrite length_app. cbn [length]. lia.
    + lia.
Qed.

Definition usage_items (us : list Z) : list Z := concat ((λ u, [0x09; u]) <$> us).

Lemma queue_usages us : ∀ pre rest k p,
  let desc := pre ++ usage_items us ++ rest in
  Z.of_nat (length desc) ≤ REPORT_DSC_SIZE → queued pre k p → 0 ≤ k →
  k + Z.of_nat (length us) ≤ 50 →
  ∃ p', nsteps (goes_on desc) (length us) p p'
    ∧ queued (pre ++ usage_items us) (k + Z.of_nat (length us)) p'.
Proof.
  induction us as [|u us IH]; intros pre rest k p desc Hlen Hq Hk Hle.
  { exists p. split; [constructor|]. unfold usage_items. cbn. by rewrite app_nil_r, Z.add_0_r. }
  cbn [length] in Hle.
  destruct (queue_usage pre u (usage_items us ++ rest) k p Hlen Hq) as (p1 & H1 & Hq1); [lia|].
  specialize (IH (pre ++ [0x09; u]) rest (k + 1) p1). rewrite <- !app_assoc in IH.
  destruct (IH Hlen Hq1) as (p' & Hn & Hq'); [lia..|]. exists p'.
  split; [econstructor; [exact H1|exact Hn]|].
  replace (k + Z.of_nat (length (u :: us))) with (k + 1 + Z.of_nat (length us)) by (cbn [length]; lia).
  exact Hq'.
Qed.

Lemma usage_items_length us : length (usage_items us) = (2 * length us)%nat.
Proof. induction us as [|u us IH]; [done|]. unfold usage_items in *. cbn in *. lia. Qed.

(** A full stack of usages meets a collection. *)

Lemma collection_faults c pos p :
  shape p → UsageSize p = 50 → path_size (Path (Data p)) = 0 →
  iter_collection (set_item pos 0xa1 c p) = Fault.
Proof.
  intros Hp Hu Hpath. unfold iter_collection, guard_iter.
  set (q := set_item _ _ _ _). assert (shape q) as Hq by (by destruct Hp; constructor).
  change (Data q) with (Data p). rewrite Hpath. cbn [PATH_SIZE Z.leb Z.compare].
  destruct (lookup_lt_is_Some_2 (UsageTab q) 0) as [u ->]; [rewrite sh_usage; [lia|done]|].
  destruct (push_node_ok u q Hq) as (p1 & Hp1 & H1 & _ & Hut & Hus1 & _).
  { change (Data q) with (Data p). by rewrite Hpath. }
  cbn [mbind option_bind]. rewrite Hp1.
  assert (unstack_usage p1 = None) as ->; [|done].
  unfold unstack_usage. rewrite Hus1. change (UsageSize q) with (UsageSize p). rewrite Hu.
  cbn [Z.ltb Z.compare]. rewrite (shift_usages_overrun (Z.to_nat 50)); [done|..|lia].
  by rewrite sh_usage.
Qed.

(** The path after a collection under usage page 0xff and the two ends of
    collection that follow. *)

Lemma page_ff_node u : Z.land (Z.lor (Z.shiftl 0xff 16) (Z.land u 0xFFFF)) 0xffff0000 = 0x00ff0000.
Proof. rewrite Z.land_lor_distr_l, <- Z.land_assoc. change (Z.land 0xFFFF _) with 0. by rewrite Z.land_0_r. Qed.

Lemma fetch_at desc pre it bytes rest p pos v :
  desc = pre ++ it :: bytes ++ rest →
  Z.of_nat (length desc) ≤ REPORT_DSC_SIZE → Count p = 0 → Pos p = Z.of_nat (length pre) →
  item_size it = Z.of_nat (length bytes) → pos = Pos p + 1 + item_size it →
  v = u32 (item_value bytes 0) →
  Pos p < Z.of_nat (length desc) ∧ fetch desc p = Some (inl (set_item pos it v p))
  ∧ iter desc p = iter_item desc (set_item pos it v p).
Proof.
  intros -> Hlen Hc Hpos Hsz -> ->.
  pose proof (fetch_item pre it bytes rest p Hlen Hc Hpos Hsz) as Hf.
  split_and!; [|done|unfold iter; by rewrite Hf]. rewrite length_app. cbn [length]. lia.
Qed.

(** The run of a collection under usage page 0xff that is closed twice: the
    states between its items. *)

Definition wrap_desc (u c : Z) (rest : list Z) : list Z :=
  [0x05; 0xff; 0x09; u; 0xa1; c; 0xc0; 0xc0] ++ rest.

Section wrap.
Variables u c : Z.
Variable rest : list Z.
Hypothesis Hlen : Z.of_nat (length (wrap_desc u c rest)) ≤ REPORT_DSC_SIZE.
Hypothesis Hc : 0 ≤ c < 0x80.

Definition wrap_value : Z := u32 (item_value [u] 0).
Definition wrap_node : Z := Z.lor (Z.shiftl 0xff 16) (Z.land wrap_value 0xFFFF).
Definition wrap1 : HIDParser_t := set_upage 0xff (set_item 2 0x05 0xff parser0).
Definition wrap2 : HIDParser_t := set_usage (wrap_node :: replicate 49 0) 1 (set_item 4 0x09 wrap_value wrap1).
Definition wrap3 : HIDParser_t :=
  ResetLocalState (set_Data (set_path (MkPath 1 (wrap_node :: replicate 9 0)) data0) (set_item 6 0xa1 c wrap2)).
Definition wrap4 : HIDParser_t := ResetLocalState (set_path_size 255 (set_item 7 0xc0 0 wrap3)).

Lemma wrap_run :
  nsteps (goes_on (wrap_desc u c rest)) 4 parser0 wrap4
  ∧ ∃ p, fetch (wrap_desc u c rest) wrap4 = Some (inl p) ∧ Pos wrap4 < Z.of_nat (length (wrap_desc u c rest))
    ∧ iter_item (wrap_desc u c rest) p = Fault ∧ end_overrun p.
Proof.
  assert (c = u32 (item_value [c] 0)) as Ec.
  { cbn [item_value]. rewrite Z.shiftl_0_r, Z.add_0_r. unfold u32. rewrite wrap_small; lia. }
  destruct (fetch_at (wrap_desc u c rest) [] 0x05 [0xff] ([0x09; u; 0xa1; c; 0xc0; 0xc0] ++ rest)
    parser0 2 0xff) as (L1 & _ & E1); [done..|].
  destruct (fetch_at (wrap_desc u c rest) [0x05; 0xff] 0x09 [u] ([0xa1; c; 0xc0; 0xc0] ++ rest)
    wrap1 4 wrap_value) as (L2 & _ & E2); [done..|].
  destruct (fetch_at (wrap_desc u c rest) [0x05; 0xff; 0x09; u] 0xa1 [c] ([0xc0; 0xc0] ++ rest)
    wrap2 6 c) as (L3 & _ & E3); [done..|].
  destruct (fetch_at (wrap_desc u c rest) [0x05; 0xff; 0x09; u; 0xa1; c] 0xc0 [] ([0xc0] ++ rest)
    wrap3 7 0) as (L4 & _ & E4); [done..|].
  destruct (fetch_at (wrap_desc u c rest) [0x05; 0xff; 0x09; u; 0xa1; c; 0xc0] 0xc0 [] rest
    wrap4 8 0) as (L5 & F5 & _); [done..|].
  split; [|eexists; split; [exact F5|split; [exact L5|split; [reflexivity|done]]]].
  assert ((0x80 <=? c) = false) as E80 by (apply Z.leb_gt; lia).
  apply (nsteps_l _ _ _ wrap1); [split; [exact L1|rewrite E1; reflexivity]|].
  apply (nsteps_l _ _ _ wrap2); [split; [exact L2|rewrite E2; reflexivity]|].
  apply (nsteps_l _ _ _ wrap3); [split; [exact L3|rewrite E3]|].
  { change (iter_item _ _) with (iter_collection (set_item 6 0xa1 c wrap2)).
    assert (∃ X, iter_collection (set_item 6 0xa1 c wrap2) = if 0x80 <=? c then X else Continue wrap3)
      as [X ->] by (eexists; reflexivity). by rewrite E80. }
  apply (nsteps_l _ _ _ wrap4); [split; [exact L4|rewrite E4]|apply nsteps_O].
  change (iter_item _ _) with (iter_end_collection (set_item 7 0xc0 0 wrap3)).
  assert (iter_end_collection (set_item 7 0xc0 0 wrap3)
    = Continue (ResetLocalState (set_path_size (if Z.land wrap_node 0xffff0000 =? 0x00ff0000 then 255 else 0)
        (set_item 7 0xc0 0 wrap3)))) as ->.
  { unfold iter_end_collection. reflexivity. }
  unfold wrap_node. by rewrite page_ff_node.
Qed.
End wrap.

(** C35. Both memory errors are reached, whatever follows in a descriptor of the
    accepted length (6144 bytes).
    Fifty usages and then a collection: at the collection the usage stack is
    full, and the shift moves 49 cells and then reads [UsageTab[50]].  A
    collection of type below 0x80 under a usage of page 0xff, closed twice: the
    first end removes two nodes of a path of one, which wraps its size to 255,
    and the second reads node 254 of the 10 nodes. *)
Theorem Parse_ReportDesc_faults :
  (∀ us c rest, length us = 50%nat →
    let desc := usage_items us ++ 0xa1 :: c :: rest in
    Z.of_nat (length desc) ≤ REPORT_DSC_SIZE →
    Parse_ReportDesc desc = DescUB
    ∧ ∃ q p, visited desc q ∧ fetch desc q = Some (inl p) ∧ iter_item desc p = Fault ∧ shift_overrun p)
  ∧ (∀ u c rest, 0 ≤ c < 0x80 →
    let desc := [0x05; 0xff; 0x09; u; 0xa1; c; 0xc0; 0xc0] ++ rest in
    Z.of_nat (length desc) ≤ REPORT_DSC_SIZE →
    Parse_ReportDesc desc = DescUB
    ∧ ∃ q p, visited desc q ∧ fetch desc q = Some (inl p) ∧ iter_item desc p = Fault ∧ end_overrun p).
Proof.
  split.
  - intros us c rest Hus desc Hlen.
    assert (queued [] 0 parser0) as H0 by (constructor; try done; apply (parser0_ok desc)).
    destruct (queue_usages us [] (0xa1 :: c :: rest) 0 parser0 Hlen H0) as (q & Hn & [Hsh Hpos Hc Hu Hp]);
      [lia..|].
    rewrite Hus in *. cbn [app] in Hpos, Hn.
    destruct (fetch_at desc (usage_items us) 0xa1 [c] rest q _ _ eq_refl Hlen Hc Hpos eq_refl eq_refl
      eq_refl) as (Hlt & Hf & Hi).
    pose proof (collection_faults (u32 (item_value [c] 0)) (Pos q + 1 + item_size 0xa1) q Hsh Hu Hp) as Hfault.
    split.
    + eapply (Parse_ReportDesc_fault desc 50 q); [done|exact Hn| |done|by rewrite Hi].
      unfold desc. rewrite length_app, usage_items_length, Hus. lia.
    + exists q. eexists. split_and!; [by eapply goes_on_visited|exact Hf|exact Hfault|].
      apply shift_overrun_intro; [|done|done]. by destruct Hsh; constructor.
  - intros u c rest Hc desc Hlen. destruct (wrap_run u c rest Hlen Hc) as (Hn & p & Hf & Hlt & Hi & Ho).
    change desc with (wrap_desc u c rest) in *. clear desc. split.
    + eapply (Parse_ReportDesc_fault _ 4); [done|exact Hn|cbn; lia|done|].
      unfold iter. by rewrite Hf.
    + eexists _, p. split_and!; [by eapply goes_on_visited|exact Hf|exact Hi|exact Ho].
Qed.

Lemma Parse_ReportDesc_faults_witness :
  Parse_ReportDesc (usage_items (replicate 50 0x01) ++ [0xa1; 0x00; 0xc0]) = DescUB
  ∧ Parse_ReportDesc [0x05; 0xff; 0x09; 0x01; 0xa1; 0x00; 0xc0; 0xc0] = DescUB.
Proof.
  destruct Parse_ReportDesc_faults as [Hs Hw]. split.
  - apply (Hs (replicate 50 0x01) 0x00 [0xc0]); vm_compute; congruence.
  - apply (Hw 0x01 0x00 []); vm_compute; [split|]; congruence.
Defined.



(** ** Lookups *)

(** C34. Looking an object up by its report, offset and type returns exactly that
    object, in every parsed descriptor whose objects are not empty: no other
    object of a numbered report starts at the same bit. *)
Theorem FindObject_with_ID_exact desc d o :
  Parse_ReportDesc desc = Parsed d → (∀ x, x ∈ item d → 0 < Size x) →
  o ∈ item d → ReportID o ≠ 0 →
  FindObject_with_ID (item d) (ReportID o) (Offset o) (Type_ o) = Some o.
Proof.
  intros E Hsize Ho Hid. pose proof (Parse_ReportDesc_ok desc) as H. rewrite E in H.
  destruct H as (_ & _ & _ & _ & Hap). revert Hsize Ho Hap. generalize (item d) as l.
  induction l as [|x l IH]; intros Hsize Ho Hap; [by apply not_elem_of_nil in Ho|].
  cbn [FindObject_with_ID].
  destruct (decide (x = o)) as [->|Hne]; [by rewrite !Z.eqb_refl|].
  apply elem_of_cons in Ho as [->|Ho]; [done|].
  assert (FindObject_with_ID l (ReportID o) (Offset o) (Type_ o) = Some o) as IH'.
  { apply IH; [|done|].
    - intros y Hy. apply Hsize. by right.
    - intros i j a b Hij Ha Hb. apply (Hap (S i) (S j)); [lia|done..]. }
  destruct (Z.eqb_spec (ReportID x) (ReportID o)) as [E1|]; cbn [negb]; [|done].
  destruct (Z.eqb_spec (Type_ x) (Type_ o)) as [E2|]; cbn [negb]; [|done].
  destruct (Z.eqb_spec (Offset x) (Offset o)) as [E3|]; cbn [negb]; [|done].
  apply list_elem_of_lookup in Ho as [j Hj].
  pose proof (Hap 0%nat (S j) x o ltac:(lia) eq_refl Hj E1 ltac:(congruence) E2).
  pose proof (Hsize x ltac:(by left)). lia.
Qed.

Definition sample_field : HIDData_t := default data0 (item sample !! 2%nat).

Lemma FindObject_with_ID_exact_witness :
  Offset sample_field = 13
  ∧ FindObject_with_ID (item sample) (ReportID sample_field) (Offset sample_field)
      (Type_ sample_field) = Some sample_field.
Proof.
  split; [reflexivity|].
  apply (FindObject_with_ID_exact sample_desc sample).
  - vm_compute. reflexivity.
  - apply Forall_forall. repeat constructor.
  - apply list_elem_of_lookup. exists 2%nat. reflexivity.
  - done.
Defined.

(** Looking an object up by path and type never reads outside a path and
    returns the first object of that type whose path starts with the given nodes,
    if there is one. *)
Theorem FindObject_with_Path_first desc d path ty :
  Parse_ReportDesc desc = Parsed d →
  0 ≤ path_size path ≤ PATH_SIZE → length (path_node path) = 10%nat →
  FindObject_with_Path (item d) path ty =
  Some (snd <$> list_find (λ o, Type_ o = ty ∧ take (Z.to_nat (path_size path)) (path_node (Path o))
                            = take (Z.to_nat (path_size path)) (path_node path)) (item d)).
Proof.
  intros E Hsz Hn. pose proof (Parse_ReportDesc_ok desc) as H. rewrite E in H.
  destruct H as (_ & _ & _ & Hpl & _). unfold PATH_SIZE in Hsz.
  induction Hpl as [|o l Ho _ IH]; [done|]. cbn [FindObject_with_Path list_find].
  destruct (Z.eqb_spec (Type_ o) ty) as [Et|Et]; cbn [negb].
  - unfold nodes_equal. rewrite Hn, (pl_nodes _ _ _ Ho).
    rewrite (proj2 (Z.ltb_ge (Z.of_nat 10) _)) by lia. cbn [orb mbind option_bind].
    case_bool_decide as Eq.
    + rewrite decide_True by done. done.
    + rewrite decide_False by (by intros [? ?]). rewrite IH.
      by destruct (list_find _ l) as [[? ?]|].
  - rewrite decide_False by (by intros [? ?]). rewrite IH. by destruct (list_find _ l) as [[? ?]|].
Qed.

Lemma FindObject_with_Path_first_witness :
  let path := MkPath 2 ([0x840004; 0x840061] ++ replicate 8 0) in
  FindObject_with_Path (item sample) path ITEM_FEATURE = Some (item sample !! 2%nat).
Proof.
  cbn zeta.
  rewrite (FindObject_with_Path_first sample_desc sample); [|vm_compute; reflexivity|done|reflexivity].
  vm_compute. reflexivity.
Defined.
