(* ===== verification/HidValue.v ===== *)
(** * Values in HID reports (GetValue and SetValue of src/src/drivers/hidparser.c) *)

From Stdlib Require Import ZArith Lia.
From stdpp Require Import base tactics list numbers option.
From S2P Require Import Prelude HidParser.

#[local] Open Scope Z_scope.

(** ** Values in a report

    [None] is a read or write outside [Buf], or a shift of a [long] by its
    width or more.  [1L << 31] is the sign bit, as the compiler has it. *)

Definition bit_set (b i : Z) : bool := negb (Z.land b (Z.shiftl 1 i) =? 0).

Fixpoint get_bits (buf : list Z) (bit : Z) (weight n : nat) (value : Z) : option Z :=
  match n with
  | O => Some value
  | S n' =>
    b ← rd buf (Z.shiftr bit 3);
    if bit_set b (Z.land bit 7) then
      if (weight <? 32)%nat
      then get_bits buf (bit + 1) (S weight) n' (s32 (value + s32 (Z.shiftl 1 (Z.of_nat weight))))
      else None
    else get_bits buf (bit + 1) (S weight) n' value
  end.

Definition GetValue (buf : list Z) (d : HIDData_t) : option Z :=
  value ← get_bits buf (Offset d + 8) 0 (Z.to_nat (Size d)) 0;
  let magMax := u32 (if 0 <=? LogMax d then LogMax d else - (LogMax d + 1)) in
  let magMin := u32 (if 0 <=? LogMin d then LogMin d else - (LogMin d + 1)) in
  let signbit := u32 (Z.shiftl 1 (hibit (if magMin <? magMax then magMax else magMin))) in
  let mask := Z.lor (u32 (signbit - 1)) (if LogMin d <? 0 then signbit else 0) in
  let value := s32 (Z.land (u32 value) mask) in
  let value :=
    if (LogMin d <? 0) && negb (Z.land (u32 value) signbit =? 0)
    then s32 (Z.lor (u32 value) (u32 (Z.lnot mask)))
    else value in
  Some (if value <? LogMin d then LogMin d else if LogMax d <? value then LogMax d else value).

Fixpoint set_bits (buf : list Z) (bit : Z) (weight n : nat) (v : Z) : option (list Z) :=
  match n with
  | O => Some buf
  | S n' =>
    if (weight <? 32)%nat then
      b ← rd buf (Z.shiftr bit 3);
      let m := Z.shiftl 1 (Z.land bit 7) in
      let b' := if bit_set v (Z.of_nat weight) then Z.lor b m
                else Z.land b (u8 (Z.lnot m)) in
      buf ← wr buf (Z.shiftr bit 3) b';
      set_bits buf (bit + 1) (S weight) n' v
    else None
  end.

Definition SetValue (d : HIDData_t) (buf : list Z) (v : Z) : option (list Z) :=
  set_bits buf (Offset d + 8) 0 (Z.to_nat (Size d)) v.

(** ** Bits of a report *)

Definition bit_at (buf : list Z) (i : Z) : bool :=
  Z.testbit (default 0 (rd buf (Z.shiftr i 3))) (Z.land i 7).

(** The number held by [n] bits from [bit], least significant first. *)

Fixpoint bits_value (buf : list Z) (bit : Z) (n : nat) : Z :=
  match n with
  | O => 0
  | S n' => Z.b2z (bit_at buf bit) + 2 * bits_value buf (bit + 1) n'
  end.

Lemma bit_set_testbit b i : 0 ≤ i → bit_set b i = Z.testbit b i.
Proof.
  intros Hi. unfold bit_set. rewrite Z.shiftl_1_l. destruct (Z.testbit b i) eqn:E.
  - apply negb_true_iff, Z.eqb_neq. intros H. apply (f_equal (λ x, Z.testbit x i)) in H.
    rewrite Z.land_spec, Z.pow2_bits_true, E, Z.bits_0 in H by done. done.
  - apply negb_false_iff, Z.eqb_eq. apply Z.bits_inj'. intros k Hk.
    rewrite Z.land_spec, Z.bits_0, Z.pow2_bits_eqb by done.
    destruct (Z.eqb_spec i k) as [->|]; [by rewrite E|apply andb_false_r].
Qed.

Lemma land7_range i : 0 ≤ Z.land i 7 < 8.
Proof. change 7 with (Z.ones 3). rewrite Z.land_ones by lia. apply Z.mod_pos_bound. lia. Qed.

Lemma byte_index i : i = 8 * Z.shiftr i 3 + Z.land i 7.
Proof.
  rewrite Z.shiftr_div_pow2 by lia. change 7 with (Z.ones 3). rewrite Z.land_ones by lia.
  change (2 ^ 3) with 8. apply Z.div_mod. lia.
Qed.

(** The buffer reaches up to bit [n]. *)

Definition holds (buf : list Z) (n : Z) : Prop := n ≤ 8 * Z.of_nat (length buf).

Lemma holds_rd buf bit : 0 ≤ bit → holds buf (bit + 1) → is_Some (rd buf (Z.shiftr bit 3)).
Proof.
  intros Hb H. unfold holds in H. apply rd_lt.
  pose proof (byte_index bit). pose proof (land7_range bit). lia.
Qed.

Lemma s32_add a b : s32 (s32 a + b) = s32 (a + b).
Proof.
  unfold s32, swrap. f_equal. set (h := 2 ^ (32 - 1)).
  replace ((a + h) mod 2 ^ 32 - h + b + h) with ((a + h) mod 2 ^ 32 + b) by lia.
  rewrite Zplus_mod_idemp_l. f_equal. lia.
Qed.

Lemma get_bits_ok n : ∀ buf bit w v,
  0 ≤ bit → holds buf (bit + Z.of_nat n) → (w + n ≤ 32)%nat →
  ∃ r, get_bits buf bit w n v = Some r
    ∧ s32 r = s32 (v + 2 ^ Z.of_nat w * bits_value buf bit n).
Proof.
  induction n as [|n IH]; intros buf bit w v Hb Hh Hw; cbn [get_bits bits_value].
  { exists v. split; [done|]. f_equal. lia. }
  destruct (holds_rd buf bit) as [b Hrd]; [lia|unfold holds in *; lia|]. rewrite Hrd. cbn [mbind option_bind].
  unfold bit_at. rewrite Hrd. cbn [default id from_option].
  rewrite bit_set_testbit by apply land7_range.
  destruct (IH buf (bit + 1) (S w)
    (if Z.testbit b (Z.land bit 7) then s32 (v + s32 (Z.shiftl 1 (Z.of_nat w))) else v)) as (r & Hr & Hs);
    [lia|unfold holds in *; lia|lia|].
  exists r. rewrite (proj2 (Nat.ltb_lt w 32)) by lia.
  assert (2 ^ Z.of_nat (S w) = 2 * 2 ^ Z.of_nat w) as Hp
    by (rewrite Nat2Z.inj_succ; apply Z.pow_succ_r; lia).
  rewrite Z.shiftl_1_l in *. rewrite Hp in Hs.
  destruct (Z.testbit b (Z.land bit 7)); split; try done; rewrite Hs; cbn [Z.b2z].
  - rewrite s32_add. replace (v + s32 (2 ^ Z.of_nat w) + 2 * 2 ^ Z.of_nat w * bits_value buf (bit + 1) n)
      with (s32 (2 ^ Z.of_nat w) + (v + 2 * 2 ^ Z.of_nat w * bits_value buf (bit + 1) n)) by lia.
    rewrite s32_add. f_equal. lia.
  - f_equal. lia.
Qed.

(** ** Bits after a write *)

Lemma set_bit_testbit b (v : bool) j k :
  0 ≤ b < 256 → 0 ≤ j < 8 → 0 ≤ k →
  let b' := if v then Z.lor b (Z.shiftl 1 j) else Z.land b (u8 (Z.lnot (Z.shiftl 1 j))) in
  0 ≤ b' < 256 ∧ Z.testbit b' k = if k =? j then v else Z.testbit b k.
Proof.
  intros Hb Hj Hk. cbn zeta. rewrite Z.shiftl_1_l.
  assert (∀ x, 0 ≤ x → (∀ i, 8 ≤ i → Z.testbit x i = false) → 0 ≤ x < 256) as Hbyte.
  { intros x Hx Hi. split; [done|]. change 256 with (2 ^ 8).
    destruct (decide (x = 0)) as [->|]; [done|]. apply Z.log2_lt_pow2; [lia|].
    destruct (Z.lt_ge_cases (Z.log2 x) 8) as [|Hl]; [done|].
    specialize (Hi _ Hl). rewrite Z.bit_log2 in Hi by lia. done. }
  assert (∀ i, 8 ≤ i → Z.testbit b i = false) as Hhi.
  { intros i Hi. destruct (decide (b = 0)) as [->|]; [apply Z.bits_0|].
    apply Z.bits_above_log2; [lia|]. apply Z.log2_lt_pow2; [lia|].
    apply Z.lt_le_trans with (2 ^ 8); [lia|]. apply Z.pow_le_mono_r; lia. }
  destruct v.
  - split.
    + apply Hbyte; [apply Z.lor_nonneg; lia|]. intros i Hi.
      rewrite Z.lor_spec, Z.pow2_bits_false, Hhi by lia. done.
    + rewrite Z.lor_spec, Z.pow2_bits_eqb by lia. rewrite (Z.eqb_sym j k).
      destruct (k =? j); [apply orb_true_r|apply orb_false_r].
  - split.
    + apply Hbyte; [apply Z.land_nonneg; lia|]. intros i Hi. rewrite Z.land_spec, Hhi by lia. done.
    + unfold u8, wrap. rewrite Z.land_spec. destruct (Z.lt_ge_cases k 8).
      * rewrite Z.mod_pow2_bits_low, Z.lnot_spec, Z.pow2_bits_eqb, (Z.eqb_sym j k) by lia.
        destruct (k =? j); [apply andb_false_r|apply andb_true_r].
      * rewrite Hhi by lia. by destruct (Z.eqb_spec k j); [lia|].
Qed.

Definition bytes (buf : list Z) : Prop := Forall (λ b, 0 ≤ b < 256) buf.

Lemma set_bits_ok n : ∀ buf bit w v,
  bytes buf → 0 ≤ bit → holds buf (bit + Z.of_nat n) → (w + n ≤ 32)%nat →
  ∃ buf', set_bits buf bit w n v = Some buf' ∧ bytes buf' ∧ length buf' = length buf
    ∧ ∀ i, 0 ≤ i → bit_at buf' i =
        if (bit <=? i) && (i <? bit + Z.of_nat n) then Z.testbit v (Z.of_nat w + (i - bit))
        else bit_at buf i.
Proof.
  induction n as [|n IH]; intros buf bit w v Hby Hb Hh Hw; cbn [set_bits].
  { exists buf. split_and!; try done. intros i Hi.
    destruct (Z.leb_spec bit i), (Z.ltb_spec i (bit + Z.of_nat 0)); cbn; done || lia. }
  rewrite (proj2 (Nat.ltb_lt w 32)) by lia.
  destruct (holds_rd buf bit) as [b Hrd]; [lia|unfold holds in *; lia|]. rewrite Hrd. cbn [mbind option_bind].
  rewrite bit_set_testbit by lia. pose proof (land7_range bit) as H7.
  pose proof (byte_index bit) as Hidx.
  set (b' := if Z.testbit v (Z.of_nat w) then _ else _).
  assert (0 ≤ b < 256) as Hbr.
  { unfold rd in Hrd. destruct (0 <=? _); [|done]. exact (Forall_lookup_1 _ _ _ _ Hby Hrd). }
  assert (0 ≤ Z.shiftr bit 3 < Z.of_nat (length buf)) as Hin by (unfold holds in Hh; lia).
  rewrite wr_lt by done. cbn [mbind option_bind].
  set (buf1 := <[Z.to_nat (Z.shiftr bit 3):=b']> buf).
  assert (bytes buf1) as Hby1.
  { apply Forall_insert; [done|]. by apply (set_bit_testbit b (Z.testbit v (Z.of_nat w)) (Z.land bit 7) 0). }
  assert (length buf1 = length buf) as Hl1 by apply length_insert.
  destruct (IH buf1 (bit + 1) (S w) v) as (buf' & -> & Hby' & Hlen' & Hbits);
    [done|lia|unfold holds in *; lia|lia|].
  exists buf'. split_and!; [done|done|congruence|]. intros i Hi. rewrite Hbits by done.
  assert (bit_at buf1 i = if i =? bit then Z.testbit v (Z.of_nat w) else bit_at buf i) as H1.
  { pose proof (byte_index i) as Hii. pose proof (land7_range i) as Hi7. unfold bit_at, rd, buf1.
    rewrite (proj2 (Z.leb_le 0 (Z.shiftr i 3))) by lia.
    destruct (decide (Z.shiftr i 3 = Z.shiftr bit 3)) as [E|E].
    - rewrite E, list_lookup_insert_eq by lia. cbn [default id from_option].
      destruct (set_bit_testbit b (Z.testbit v (Z.of_nat w)) (Z.land bit 7) (Z.land i 7)) as [_ Ht];
        [done|done|lia|]. unfold b'. rewrite Ht.
      unfold rd in Hrd. rewrite (proj2 (Z.leb_le 0 (Z.shiftr bit 3))) in Hrd by lia. rewrite Hrd.
      cbn [default id from_option].
      destruct (Z.eqb_spec (Z.land i 7) (Z.land bit 7)), (Z.eqb_spec i bit); try done; [lia|congruence].
    - rewrite list_lookup_insert_ne by lia. destruct (Z.eqb_spec i bit); [congruence|done]. }
  rewrite H1.
  destruct (Z.leb_spec (bit + 1) i), (Z.leb_spec bit i), (Z.ltb_spec i (bit + 1 + Z.of_nat n)),
    (Z.ltb_spec i (bit + Z.of_nat (S n))), (Z.eqb_spec i bit); cbn; try done; try lia; f_equal; lia.
Qed.

(** ** The width of a range *)

Definition bit_length (x : Z) : Z := if x =? 0 then 0 else Z.log2 x + 1.

Lemma bit_length_shiftr x k :
  0 < k → 2 ^ (k - 1) ≤ x → bit_length x = bit_length (Z.shiftr x k) + k.
Proof.
  intros Hk Hx. assert (0 < 2 ^ (k - 1)) by (apply Z.pow_pos_nonneg; lia).
  assert (k - 1 ≤ Z.log2 x) by (apply Z.log2_le_pow2; lia). unfold bit_length.
  destruct (Z.eqb_spec x 0); [lia|]. destruct (Z.eqb_spec (Z.shiftr x k) 0) as [E|E].
  - apply Z.shiftr_eq_0_iff in E. lia.
  - rewrite Z.log2_shiftr by lia. destruct (Z.lt_ge_cases (Z.log2 x) k); [|lia].
    destruct E. apply Z.shiftr_eq_0_iff. right. lia.
Qed.

Lemma hibit_bits_ok n : ∀ x res, 0 ≤ x < 2 ^ Z.of_nat n → hibit_bits n x res = res + bit_length x.
Proof.
  induction n as [|n IH]; intros x res Hx; cbn [hibit_bits].
  - assert (x = 0) as -> by (cbn in Hx; lia). cbn. lia.
  - destruct (Z.eqb_spec x 0) as [->|]; [cbn; lia|]. rewrite (bit_length_shiftr x 1) by lia.
    rewrite IH; [lia|]. rewrite Nat2Z.inj_succ, Z.pow_succ_r in Hx by lia.
    rewrite Z.shiftr_div_pow2 by lia. change (2 ^ 1) with 2.
    Z.to_euclidean_division_equations. lia.
Qed.

Lemma hibit_bytes_ok n : ∀ x res, 0 ≤ x < 2 ^ (8 * Z.of_nat n + 8) →
  let '(x', res') := hibit_bytes n x res in 0 ≤ x' < 256 ∧ res + bit_length x = res' + bit_length x'.
Proof.
  induction n as [|n IH]; intros x res Hx; cbn [hibit_bytes].
  - split; [exact Hx|done].
  - destruct (Z.ltb_spec 0xff x) as [H|H]; [|split; [lia|done]].
    specialize (IH (Z.shiftr x 8) (res + 8)). destruct (hibit_bytes _ _ _) as [x' res'].
    rewrite (bit_length_shiftr x 8) by lia. destruct IH as [? ?]; [|split; [done|lia]].
    rewrite Z.shiftr_div_pow2 by lia. replace (8 * Z.of_nat (S n) + 8) with (8 + (8 * Z.of_nat n + 8)) in Hx by lia.
    rewrite Z.pow_add_r in Hx by lia. split; [apply Z.div_pos; lia|].
    apply Z.div_lt_upper_bound; lia.
Qed.

Lemma hibit_ok x : 0 ≤ x < 2 ^ 32 → hibit x = bit_length x.
Proof.
  intros Hx. unfold hibit. pose proof (hibit_bytes_ok 32 x 0) as H.
  destruct (hibit_bytes 32 x 0) as [x' res]. destruct H as [Hx' He].
  { split; [lia|]. apply Z.lt_le_trans with (2 ^ 32); [lia|]. apply Z.pow_le_mono_r; lia. }
  rewrite hibit_bits_ok; [lia|]. split; [lia|].
  apply Z.lt_le_trans with 256; [lia|]. by vm_compute.
Qed.

Lemma bit_length_spec x : 0 ≤ x → 0 ≤ bit_length x ∧ x < 2 ^ bit_length x.
Proof.
  intros Hx. unfold bit_length. destruct (Z.eqb_spec x 0) as [->|]; [done|].
  pose proof (Z.log2_nonneg x). split; [lia|]. apply Z.log2_spec. lia.
Qed.

Lemma bit_length_le x k : 0 ≤ k → 0 ≤ x < 2 ^ k → bit_length x ≤ k.
Proof.
  intros Hk Hx. unfold bit_length. destruct (Z.eqb_spec x 0); [lia|].
  assert (Z.log2 x < k); [|lia]. apply Z.log2_lt_pow2; lia.
Qed.

(** ** GetValue *)

Definition magnitude (x : Z) : Z := if 0 <=? x then x else - (x + 1).

(** Bits needed for every value of the logical range. *)

Definition range_bits (d : HIDData_t) : Z :=
  bit_length (Z.max (magnitude (LogMin d)) (magnitude (LogMax d))).

(** What [GetValue] does with the number it read. *)

Definition interpret (d : HIDData_t) (value : Z) : Z :=
  let w := range_bits d in
  let mask := if LogMin d <? 0 then Z.ones (w + 1) else Z.ones w in
  let value := Z.land value mask in
  let value := if (LogMin d <? 0) && Z.testbit value w then value - 2 ^ (w + 1) else value in
  if value <? LogMin d then LogMin d else if LogMax d <? value then LogMax d else value.

Definition long_range (x : Z) : Prop := - 2 ^ 31 ≤ x < 2 ^ 31.

Definition logical_ok (d : HIDData_t) : Prop := long_range (LogMin d) ∧ long_range (LogMax d).

Lemma magnitude_range x : long_range x → 0 ≤ magnitude x < 2 ^ 31.
Proof. unfold magnitude, long_range. destruct (Z.leb_spec 0 x); lia. Qed.

Lemma range_bits_range d : logical_ok d → 0 ≤ range_bits d ≤ 31.
Proof.
  intros [H1 H2]. apply magnitude_range in H1, H2. unfold range_bits.
  split; [apply bit_length_spec; lia|apply bit_length_le; lia].
Qed.

Lemma lor_ones_pow2 w : 0 ≤ w → Z.lor (Z.ones w) (2 ^ w) = Z.ones (w + 1).
Proof.
  intros Hw. apply Z.bits_inj'. intros k Hk. rewrite Z.lor_spec, Z.pow2_bits_eqb by done.
  destruct (Z.lt_ge_cases k w).
  - rewrite !Z.ones_spec_low by lia. done.
  - rewrite (Z.ones_spec_high w) by lia. destruct (Z.eqb_spec w k).
    + by rewrite Z.ones_spec_low by lia.
    + by rewrite Z.ones_spec_high by lia.
Qed.

Lemma land_wrap_ones x k n : 0 ≤ k ≤ n → Z.land (wrap n x) (Z.ones k) = Z.land x (Z.ones k).
Proof.
  intros Hk. apply Z.bits_inj'. intros i Hi. rewrite !Z.land_spec. unfold wrap.
  destruct (Z.lt_ge_cases i k).
  - by rewrite Z.mod_pow2_bits_low by lia.
  - by rewrite Z.ones_spec_high, !andb_false_r by lia.
Qed.

Lemma land_ones_range x k : 0 ≤ k → 0 ≤ Z.land x (Z.ones k) < 2 ^ k.
Proof. intros Hk. rewrite Z.land_ones by done. apply Z.mod_pos_bound. by apply Z.pow_pos_nonneg. Qed.

(** Setting the bits above a sign bit. *)

Lemma sign_extend x k :
  0 ≤ k ≤ 32 → Z.lor (Z.land x (Z.ones k)) (u32 (Z.lnot (Z.ones k)))
               = Z.land x (Z.ones k) + (2 ^ 32 - 2 ^ k).
Proof.
  intros Hk.
  assert (u32 (Z.lnot (Z.ones k)) = 2 ^ 32 - 2 ^ k) as Hu.
  { unfold u32, wrap. assert (2 ^ k ≤ 2 ^ 32) by (apply Z.pow_le_mono_r; lia).
    assert (0 < 2 ^ k) by (apply Z.pow_pos_nonneg; lia).
    rewrite Z.ones_equiv. unfold Z.lnot.
    replace (Z.pred (- Z.pred (2 ^ k))) with (2 ^ 32 - 2 ^ k + (-1) * 2 ^ 32) by lia.
    rewrite Z.mod_add, Z.mod_small; lia. }
  rewrite <- Hu. assert (Z.land (Z.land x (Z.ones k)) (u32 (Z.lnot (Z.ones k))) = 0) as H0.
  { apply Z.bits_inj'. intros i Hi. rewrite Z.bits_0, !Z.land_spec. unfold u32, wrap.
    destruct (Z.lt_ge_cases i k).
    - rewrite Z.mod_pow2_bits_low, Z.lnot_spec, Z.ones_spec_low by lia. apply andb_false_r.
    - rewrite Z.ones_spec_high by lia. by rewrite andb_false_r. }
  by rewrite Z.add_nocarry_lxor, Z.lxor_lor.
Qed.

Lemma testbit_top x k : 0 ≤ k → 0 ≤ x < 2 ^ (k + 1) → Z.testbit x k = (2 ^ k <=? x).
Proof.
  intros Hk Hx. rewrite Z.pow_add_r in Hx by lia. destruct (Z.leb_spec (2 ^ k) x).
  - apply Z.testbit_true; [done|]. replace x with (x - 2 ^ k + 1 * 2 ^ k) by lia.
    rewrite Z.div_add, Z.div_small by lia. done.
  - apply Z.testbit_false; [done|]. rewrite Z.div_small by lia. done.
Qed.

(** The mask and the sign bit that [GetValue] derives from the logical range. *)

Lemma signbit_ok d :
  logical_ok d →
  let magMax := u32 (if 0 <=? LogMax d then LogMax d else - (LogMax d + 1)) in
  let magMin := u32 (if 0 <=? LogMin d then LogMin d else - (LogMin d + 1)) in
  u32 (Z.shiftl 1 (hibit (if magMin <? magMax then magMax else magMin))) = 2 ^ range_bits d.
Proof.
  intros Hd. pose proof (range_bits_range d Hd) as Hw. destruct Hd as [H1 H2].
  apply magnitude_range in H1, H2. unfold range_bits, magnitude in *. cbn zeta. unfold u32.
  rewrite (wrap_small 32 (if 0 <=? LogMax d then _ else _)), (wrap_small 32 (if 0 <=? LogMin d then _ else _)) by lia.
  match goal with |- wrap 32 (Z.shiftl 1 (hibit (if ?a <? ?b then _ else _))) = _ =>
    replace (if a <? b then b else a) with (Z.max a b) by (destruct (Z.ltb_spec a b); lia) end.
  rewrite hibit_ok by lia. rewrite Z.shiftl_1_l. apply wrap_small. split; [lia|].
  apply Z.pow_lt_mono_r; lia.
Qed.

Lemma GetValue_ok buf d :
  0 ≤ Offset d → 0 ≤ Size d ≤ 32 → holds buf (Offset d + 8 + Size d) → logical_ok d →
  GetValue buf d = Some (interpret d (bits_value buf (Offset d + 8) (Z.to_nat (Size d)))).
Proof.
  intros Ho Hs Hh Hd. unfold GetValue.
  destruct (get_bits_ok (Z.to_nat (Size d)) buf (Offset d + 8) 0 0) as (r & Hr & Hrs);
    [lia|by rewrite Z2Nat.id by lia|lia|].
  rewrite Hr. cbn [mbind option_bind]. rewrite signbit_ok by done. f_equal.
  set (V := bits_value buf _ _) in *. rewrite Z.mul_1_l, Z.add_0_l in Hrs.
  assert (u32 r = u32 V) as Hu.
  { unfold u32. rewrite <- (wrap_swrap 32 r), <- (wrap_swrap 32 V) by lia. f_equal. exact Hrs. }
  rewrite Hu. clear r Hr Hrs Hu. pose proof (range_bits_range d Hd) as Hw.
  unfold interpret. set (w := range_bits d) in *.
  assert (2 ^ w ≤ 2 ^ 31) by (apply Z.pow_le_mono_r; lia).
  assert (0 < 2 ^ w) by (apply Z.pow_pos_nonneg; lia).
  replace (u32 (2 ^ w - 1)) with (Z.ones w)
    by (unfold u32; rewrite Z.ones_equiv, wrap_small by lia; lia).
  destruct (Z.ltb_spec (LogMin d) 0); cbn [andb].
  - assert (2 ^ (w + 1) ≤ 2 ^ 32) by (apply Z.pow_le_mono_r; lia).
    assert (2 ^ (w + 1) = 2 * 2 ^ w) as Hp by (rewrite <- Z.pow_succ_r by lia; done).
    rewrite lor_ones_pow2 by lia. unfold u32. rewrite land_wrap_ones by lia.
    pose proof (land_ones_range V (w + 1) ltac:(lia)) as Hm.
    rewrite (wrap_swrap 32 (Z.land V _)), (wrap_small 32 (Z.land V _)) by lia.
    pose proof (bit_set_testbit (Z.land V (Z.ones (w + 1))) w ltac:(lia)) as Hb.
    unfold bit_set in Hb. rewrite Z.shiftl_1_l in Hb. rewrite Hb, testbit_top by lia.
    pose proof (sign_extend V (w + 1) ltac:(lia)) as Hse. unfold u32 in Hse. rewrite Hse.
    set (m := Z.land V (Z.ones (w + 1))) in *.
    destruct (Z.leb_spec (2 ^ w) m).
    + assert (s32 (m + (2 ^ 32 - 2 ^ (w + 1))) = m - 2 ^ (w + 1)) as ->; [|done].
      unfold s32, swrap.
      replace (m + (2 ^ 32 - 2 ^ (w + 1)) + 2 ^ (32 - 1))
        with (m - 2 ^ (w + 1) + 2 ^ 31 + 1 * 2 ^ 32) by lia.
      rewrite Z.mod_add, Z.mod_small; lia.
    + assert (s32 m = m) as ->; [|done]. apply swrap_small; lia.
  - rewrite Z.lor_0_r. unfold u32. rewrite land_wrap_ones by lia.
    pose proof (land_ones_range V w ltac:(lia)) as Hm. set (m := Z.land V (Z.ones w)) in *.
    assert (s32 m = m) as ->; [|done]. apply swrap_small; lia.
Qed.

(** C2. [GetValue] reads the bits of the field and nothing else, sign-extends
    them at the width of the logical range when that range is signed, and clamps
    the result to the range; it never accesses memory outside a report that holds
    the field (of at most 32 bits). *)
Theorem GetValue_spec buf d :
  0 ≤ Offset d → 0 ≤ Size d ≤ 32 → holds buf (Offset d + 8 + Size d) → logical_ok d →
  GetValue buf d = Some (interpret d (bits_value buf (Offset d + 8) (Z.to_nat (Size d)))).
Proof. apply GetValue_ok. Qed.

Lemma GetValue_spec_witness :
  let d := set_log (-10) 20 false (set_size 6 data0) in
  GetValue [0; 0xbd] d = Some (-3) ∧ interpret d (bits_value [0; 0xbd] 8 6) = -3.
Proof.
  cbn zeta. split; [|vm_compute; reflexivity].
  exact (GetValue_spec [0; 0xbd] (set_log (-10) 20 false (set_size 6 data0))
    ltac:(done) ltac:(done) ltac:(done) ltac:(done)).
Defined.

(** ** SetValue *)

Lemma bits_value_testbit n : ∀ buf bit v,
  (∀ i, 0 ≤ i < Z.of_nat n → bit_at buf (bit + i) = Z.testbit v i) →
  bits_value buf bit n = v mod 2 ^ Z.of_nat n.
Proof.
  induction n as [|n IH]; intros buf bit v H; cbn [bits_value].
  { by rewrite Z.mod_1_r. }
  rewrite (IH buf (bit + 1) (Z.shiftr v 1)).
  - rewrite <- (Z.add_0_r bit) at 1. rewrite H by lia.
    rewrite Z.bit0_mod, Z.shiftr_div_pow2, Nat2Z.inj_succ, Z.pow_succ_r, Z.rem_mul_r by lia.
    done.
  - intros i Hi. rewrite Z.shiftr_spec by lia. replace (bit + 1 + i) with (bit + (i + 1)) by lia.
    apply H. lia.
Qed.

Lemma interpret_wrap d v :
  logical_ok d → LogMin d ≤ v ≤ LogMax d →
  range_bits d + (if LogMin d <? 0 then 1 else 0) ≤ Size d →
  interpret d (v mod 2 ^ Size d) = v.
Proof.
  intros Hd Hv Hfit. pose proof (range_bits_range d Hd) as Hw.
  destruct Hd as [H1%magnitude_range H2%magnitude_range]. unfold interpret.
  destruct (bit_length_spec (Z.max (magnitude (LogMin d)) (magnitude (LogMax d)))) as [_ Hb]; [lia|].
  fold (range_bits d) in Hb. set (w := range_bits d) in *.
  fold (wrap (Size d) v). unfold magnitude in *.
  destruct (Z.ltb_spec (LogMin d) 0); cbn [andb]; rewrite land_wrap_ones, Z.land_ones by lia.
  - assert (2 ^ (w + 1) = 2 * 2 ^ w) as Hp by (rewrite <- Z.pow_succ_r by lia; done).
    assert (- 2 ^ w ≤ v < 2 ^ w) as Hr.
    { destruct (Z.leb_spec 0 (LogMin d)), (Z.leb_spec 0 (LogMax d)); lia. }
    assert (v mod 2 ^ (w + 1) = if v <? 0 then v + 2 ^ (w + 1) else v) as ->.
    { destruct (Z.ltb_spec v 0).
      - rewrite <- (Z.mod_add v 1), Z.mul_1_l, Z.mod_small; lia.
      - apply Z.mod_small. lia. }
    rewrite testbit_top by (destruct (Z.ltb_spec v 0); lia).
    destruct (Z.ltb_spec v 0).
    + rewrite (proj2 (Z.leb_le (2 ^ w) (v + 2 ^ (w + 1)))) by lia.
      rewrite !(proj2 (Z.ltb_ge _ _)) by lia. lia.
    + rewrite (proj2 (Z.leb_gt _ _)) by lia. rewrite !(proj2 (Z.ltb_ge _ _)) by lia. done.
  - rewrite Z.mod_small by (destruct (Z.leb_spec 0 (LogMin d)), (Z.leb_spec 0 (LogMax d)); lia).
    rewrite !(proj2 (Z.ltb_ge _ _)) by lia. done.
Qed.

(** The field of an object in a report buffer: [Offset] counts after the byte of
    the report id. *)

Definition in_field (d : HIDData_t) (i : Z) : bool :=
  (Offset d + 8 <=? i) && (i <? Offset d + 8 + Size d).

Lemma SetValue_ok buf d v :
  bytes buf → 0 ≤ Offset d → 0 ≤ Size d ≤ 32 → holds buf (Offset d + 8 + Size d) →
  ∃ buf', SetValue d buf v = Some buf' ∧ bytes buf' ∧ length buf' = length buf
    ∧ ∀ i, 0 ≤ i → bit_at buf' i =
        if in_field d i then Z.testbit v (i - (Offset d + 8)) else bit_at buf i.
Proof.
  intros Hb Ho Hs Hh. unfold SetValue, in_field.
  destruct (set_bits_ok (Z.to_nat (Size d)) buf (Offset d + 8) 0 v) as (buf' & ? & ? & ? & Hbits);
    [done|lia|by rewrite Z2Nat.id by lia|lia|].
  rewrite Z2Nat.id in Hbits by lia. exists buf'. auto.
Qed.

(** C10. Writing a value of the logical range into a field wide enough for that
    range and reading it back gives the value, for signed and unsigned ranges;
    the write keeps the report's length and every bit outside the field. *)
Theorem SetValue_GetValue buf d v :
  bytes buf → 0 ≤ Offset d → Size d ≤ 32 → holds buf (Offset d + 8 + Size d) → logical_ok d →
  LogMin d ≤ v ≤ LogMax d → range_bits d + (if LogMin d <? 0 then 1 else 0) ≤ Size d →
  ∃ buf', SetValue d buf v = Some buf' ∧ GetValue buf' d = Some v ∧ length buf' = length buf
    ∧ ∀ i, 0 ≤ i → in_field d i = false → bit_at buf' i = bit_at buf i.
Proof.
  intros Hb Ho Hs Hh Hd Hv Hfit. pose proof (range_bits_range d Hd) as Hw.
  assert (0 ≤ Size d) by (destruct (LogMin d <? 0); lia).
  destruct (SetValue_ok buf d v) as (buf' & Hset & Hb' & Hlen & Hbits); [done..|].
  exists buf'. split_and!; [done| |done|].
  - rewrite GetValue_ok; [|done|done|unfold holds in *; by rewrite Hlen|done].
    rewrite (bits_value_testbit _ _ _ v).
    + rewrite Z2Nat.id by done. f_equal. by apply interpret_wrap.
    + intros i Hi. rewrite Z2Nat.id in Hi by done. rewrite Hbits by lia. unfold in_field.
      rewrite (proj2 (Z.leb_le _ _)), (proj2 (Z.ltb_lt _ _)) by lia. cbn. f_equal. lia.
  - intros i Hi Hin. by rewrite Hbits, Hin.
Qed.

Lemma SetValue_GetValue_witness :
  let d := set_log (-10) 20 false (set_size 6 data0) in
  ∃ buf', SetValue d [7; 0xc0] (-3) = Some buf' ∧ GetValue buf' d = Some (-3).
Proof.
  destruct (SetValue_GetValue [7; 0xc0] (set_log (-10) 20 false (set_size 6 data0)) (-3))
    as (b & ? & ? & _); [by repeat constructor|done..|]. exists b. split; assumption.
Defined.

(** ** Reports of a parsed descriptor *)

Lemma get_bits_ext n : ∀ buf buf' bit w v,
  0 ≤ bit → holds buf (bit + Z.of_nat n) → length buf' = length buf →
  (∀ i, bit ≤ i < bit + Z.of_nat n → bit_at buf' i = bit_at buf i) →
  get_bits buf' bit w n v = get_bits buf bit w n v.
Proof.
  induction n as [|n IH]; intros buf buf' bit w v Hb Hh Hlen Heq; [done|]. cbn [get_bits].
  destruct (holds_rd buf bit) as [b Hrd]; [lia|unfold holds in *; lia|].
  destruct (holds_rd buf' bit) as [b' Hrd']; [lia|unfold holds in *; lia|].
  rewrite Hrd, Hrd'. cbn [mbind option_bind].
  assert (bit_set b' (Z.land bit 7) = bit_set b (Z.land bit 7)) as ->.
  { specialize (Heq bit ltac:(lia)). unfold bit_at in Heq. rewrite Hrd, Hrd' in Heq.
    cbn in Heq. by rewrite !bit_set_testbit by apply land7_range. }
  repeat case_match; try done; apply IH; try done; try lia; try (unfold holds in *; lia);
    intros i Hi; apply Heq; lia.
Qed.

(** A buffer for a report of the descriptor: the report id and [replen] bytes. *)

Definition report_buffer (d : HIDDesc_t) (o : HIDData_t) (buf : list Z) : Prop :=
  ∃ n, replen d !! Z.to_nat (ReportID o) = Some n ∧ 1 + n ≤ Z.of_nat (length buf).

Lemma report_holds desc d o buf :
  Parse_ReportDesc desc = Parsed d → o ∈ item d → report_buffer d o buf →
  0 ≤ Offset o ∧ 0 ≤ Size o ∧ holds buf (Offset o + 8 + Size o).
Proof.
  intros E Ho (n & Hn & Hlen). pose proof (Parse_ReportDesc_ok desc) as H. rewrite E in H.
  destruct H as (_ & _ & _ & Hpl & _). apply list_elem_of_lookup in Ho as [k Hk].
  destruct (Forall_lookup_1 _ _ _ _ Hpl Hk) as [? ? ? ? ? (n' & Hn' & Hle) _ _]. unfold holds.
  rewrite Hn in Hn'. simplify_eq. lia.
Qed.

(** C11. For every object of at most 32 bits in a parsed descriptor and every
    buffer that holds the report's id byte and then as many bytes as the
    descriptor records for the report ([replen]), [GetValue] and [SetValue] stay
    inside the buffer. *)
Theorem report_access_safe desc d o buf v :
  Parse_ReportDesc desc = Parsed d → o ∈ item d → Size o ≤ 32 →
  report_buffer d o buf → bytes buf →
  is_Some (GetValue buf o) ∧ ∃ buf', SetValue o buf v = Some buf' ∧ length buf' = length buf.
Proof.
  intros E Ho Hs Hr Hb. destruct (report_holds _ _ _ _ E Ho Hr) as (H1 & H2 & H3). split.
  - destruct (get_bits_ok (Z.to_nat (Size o)) buf (Offset o + 8) 0 0) as (r & Hg & _);
      [lia|by rewrite Z2Nat.id by lia|lia|].
    unfold GetValue. rewrite Hg. cbn [mbind option_bind]. eauto.
  - destruct (SetValue_ok buf o v) as (buf' & ? & _ & ? & _); [done|done|lia|done|eauto].
Qed.

Lemma report_access_safe_witness :
  is_Some (GetValue [1; 50; 0; 7] sample_field).
Proof.
  refine (proj1 (report_access_safe sample_desc sample sample_field [1; 50; 0; 7] 1 _ _ _ _ _)).
  - vm_compute. reflexivity.
  - apply list_elem_of_lookup. exists 2%nat. reflexivity.
  - done.
  - exists 2. split; [reflexivity|done].
  - repeat constructor; done.
Defined.

(** C33. Writing one object of a numbered report leaves the value of every other
    object of that report and type as it was. *)
Theorem SetValue_other desc d i j a b buf v buf' :
  Parse_ReportDesc desc = Parsed d → i ≠ j → item d !! i = Some a → item d !! j = Some b →
  ReportID a = ReportID b → ReportID a ≠ 0 → Type_ a = Type_ b →
  Size a ≤ 32 → report_buffer d a buf → bytes buf →
  SetValue a buf v = Some buf' → GetValue buf' b = GetValue buf b.
Proof.
  intros E Hij Ha Hb Hid Hne Hty Hs Hr Hby Hset.
  pose proof (Parse_ReportDesc_ok desc) as H. rewrite E in H. destruct H as (_ & _ & _ & _ & Hap).
  assert (report_buffer d b buf) as Hrb by (unfold report_buffer; by rewrite <- Hid).
  destruct (report_holds _ _ _ _ E (list_elem_of_lookup_2 _ _ _ Ha) Hr) as (Ha1 & Ha2 & Ha3).
  destruct (report_holds _ _ _ _ E (list_elem_of_lookup_2 _ _ _ Hb) Hrb) as (Hb1 & Hb2 & Hb3).
  destruct (SetValue_ok buf a v) as (buf1 & Hset1 & _ & Hlen & Hbits); [done|done|lia|done|].
  rewrite Hset in Hset1. injection Hset1 as <-.
  assert (Offset a + Size a ≤ Offset b ∨ Offset b + Size b ≤ Offset a) as Hdis.
  { destruct (Nat.lt_total i j) as [Hlt|[?|Hlt]]; [left|done|right].
    - by apply (Hap i j).
    - apply (Hap j i); congruence || done. }
  unfold GetValue. rewrite (get_bits_ext _ buf buf'); [done|lia|by rewrite Z2Nat.id by lia|done|].
  intros k Hk. rewrite Z2Nat.id in Hk by lia. rewrite Hbits by lia. unfold in_field.
  destruct (Z.leb_spec (Offset a + 8) k), (Z.ltb_spec k (Offset a + 8 + Size a)); cbn; done || lia.
Qed.

Lemma SetValue_other_witness :
  SetValue sample_field [1; 50; 0; 7] 1 = Some [1; 50; 32; 7]
  ∧ GetValue [1; 50; 32; 7] (default data0 (item sample !! 0%nat)) = Some 50.
Proof.
  split; [vm_compute; reflexivity|].
  rewrite (SetValue_other sample_desc sample 2 0 sample_field (default data0 (item sample !! 0%nat))
    [1; 50; 0; 7] 1 [1; 50; 32; 7]); try done; try (vm_compute; reflexivity).
  - exists 2. split; [reflexivity|done].
  - repeat constructor; done.
Defined.
