(* ===== verification/Platform.v ===== *)
(** * The platform: flash storage, random numbers and hashing

    ESP-IDF and mbedTLS are not part of the repository.  Their calls are the
    operations of [Platform], and what the code relies on of their documented
    behaviour is [PlatformLaws]. *)

From Stdlib Require Import ZArith Lia.
From stdpp Require Import base tactics list numbers option gmap.
From S2P Require Import Prelude.

#[local] Open Scope Z_scope.

(** ** Error codes *)

Inductive esp_err_t :=
  | ESP_OK | ESP_FAIL | ESP_ERR_NO_MEM | ESP_ERR_INVALID_ARG | ESP_ERR_INVALID_STATE
  | ESP_ERR_NOT_FOUND | ESP_ERR_INVALID_CRC | ESP_ERR_INVALID_VERSION
  | ESP_ERR_NVS_NOT_FOUND | ESP_ERR_OTHER (code : Z).

#[export] Instance esp_err_eq_dec : EqDecision esp_err_t.
Proof. solve_decision. Defined.

Definition is_ok (e : esp_err_t) : bool := bool_decide (e = ESP_OK).

(** ** The platform *)

(** The state [W] of the platform is threaded through every call.  A call that
    fills a buffer returns the bytes it wrote. *)

Class Platform (W : Type) := {
  nvs_open : list Z → bool → W → esp_err_t * Z * W;
  nvs_get_blob : Z → list Z → Z → W → esp_err_t * list Z * W;
  nvs_set_blob : Z → list Z → list Z → W → esp_err_t * W;
  nvs_commit : Z → W → esp_err_t * W;
  nvs_close : Z → W → W;
  esp_fill_random : nat → W → list Z * W;
  psa_op : Type;
  psa_op_init : psa_op;
  psa_crypto_init : W → bool * W;
  psa_hash_setup : psa_op → W → bool * psa_op * W;
  psa_hash_update : psa_op → list Z → W → bool * psa_op * W;
  psa_hash_finish : psa_op → nat → W → bool * list Z * W;
  psa_hash_abort : psa_op → W → W
}.

(** What the code relies on.  [flash] is what a read returns, by
    namespace and key; [hashed] is the message fed to a hash operation; a [healthy]
    platform does not fail. *)

Class PlatformLaws (W : Type) `{Platform W} := {
  flash : W → gmap (list Z * list Z) (list Z);
  handle_ok : list Z → Z → W → Prop;
  hashed : psa_op → list Z;
  digest : list Z → list Z;
  healthy : W → Prop;
  digest_length : ∀ m, length (digest m) = 32%nat ∧ Forall is_byte (digest m);
  open_law : ∀ ns rw w e h w', nvs_open ns rw w = (e, h, w') →
    flash w' = flash w ∧ (e = ESP_OK → handle_ok ns h w')
    ∧ (e = ESP_ERR_NVS_NOT_FOUND → ∀ key, flash w !! (ns, key) = None)
    ∧ (healthy w → healthy w' ∧ (e = ESP_OK ∨ rw = false ∧ e = ESP_ERR_NVS_NOT_FOUND));
  get_law : ∀ ns h key n w e b w', handle_ok ns h w → nvs_get_blob h key n w = (e, b, w') →
    flash w' = flash w
    ∧ (e = ESP_OK → flash w !! (ns, key) = Some b ∧ Z.of_nat (length b) ≤ n)
    ∧ (e = ESP_ERR_NVS_NOT_FOUND → flash w !! (ns, key) = None)
    ∧ (healthy w → healthy w' ∧
       match flash w !! (ns, key) with
       | Some b' => Z.of_nat (length b') ≤ n → e = ESP_OK
       | None => e = ESP_ERR_NVS_NOT_FOUND
       end);
  set_law : ∀ ns h key b w e w', handle_ok ns h w → nvs_set_blob h key b w = (e, w') →
    handle_ok ns h w'
    ∧ (flash w' = <[(ns, key) := b]> (flash w) ∨ e ≠ ESP_OK ∧ flash w' = flash w)
    ∧ (healthy w → healthy w' ∧ e = ESP_OK);
  commit_law : ∀ ns h w e w', handle_ok ns h w → nvs_commit h w = (e, w') →
    flash w' = flash w ∧ (healthy w → healthy w' ∧ e = ESP_OK);
  close_law : ∀ h w, flash (nvs_close h w) = flash w ∧ (healthy w → healthy (nvs_close h w));
  random_law : ∀ n w b w', esp_fill_random n w = (b, w') →
    length b = n ∧ Forall is_byte b ∧ flash w' = flash w ∧ (healthy w → healthy w');
  init_law : ∀ w s w', psa_crypto_init w = (s, w') →
    flash w' = flash w ∧ (healthy w → healthy w' ∧ s = true);
  setup_law : ∀ op w s op' w', psa_hash_setup op w = (s, op', w') →
    flash w' = flash w ∧ (s = true → hashed op' = []) ∧ (healthy w → healthy w' ∧ s = true);
  update_law : ∀ op m w s op' w', psa_hash_update op m w = (s, op', w') →
    flash w' = flash w ∧ (s = true → hashed op' = hashed op ++ m)
    ∧ (healthy w → healthy w' ∧ s = true);
  finish_law : ∀ op n w s b w', psa_hash_finish op n w = (s, b, w') →
    flash w' = flash w ∧ (s = true → b = digest (hashed op))
    ∧ (healthy w → n = 32%nat → healthy w' ∧ s = true);
  abort_law : ∀ op w, flash (psa_hash_abort op w) = flash w
    ∧ (healthy w → healthy (psa_hash_abort op w))
}.

(** ** A platform that satisfies the laws

    A flash in memory, a counter as generator and a polynomial checksum as hash;
    with [sim_broken] set every call fails. *)

Record sim := MkSim {
  sim_flash : gmap (list Z * list Z) (list Z);
  sim_open : list Z;
  sim_seed : Z;
  sim_broken : bool
}.

Definition sim_err (w : sim) : esp_err_t := if sim_broken w then ESP_FAIL else ESP_OK.

Definition checksum (m : list Z) : list Z := le_bytes 32 (foldr (λ b acc, b + 31 * acc + 7) 1 m).

#[export] Instance sim_platform : Platform sim := {|
  nvs_open ns rw w :=
    if negb rw && bool_decide (sim_flash w = ∅) then (ESP_ERR_NVS_NOT_FOUND, 0, w)
    else (sim_err w, 1, MkSim (sim_flash w) ns (sim_seed w) (sim_broken w));
  nvs_get_blob h key n w :=
    match sim_flash w !! (sim_open w, key) with
    | None => (ESP_ERR_NVS_NOT_FOUND, [], w)
    | Some b => if Z.of_nat (length b) <=? n then (sim_err w, b, w) else (ESP_ERR_OTHER 0, [], w)
    end;
  nvs_set_blob h key b w :=
    if sim_broken w then (ESP_FAIL, w)
    else (ESP_OK, MkSim (<[(sim_open w, key) := b]> (sim_flash w)) (sim_open w) (sim_seed w) false);
  nvs_commit h w := (sim_err w, w);
  nvs_close h w := w;
  esp_fill_random n w :=
    (le_bytes n (sim_seed w),
     MkSim (sim_flash w) (sim_open w) (sim_seed w * 6364136223846793005 + 1442695040888963407)
       (sim_broken w));
  psa_op := list Z;
  psa_op_init := [];
  psa_crypto_init w := (negb (sim_broken w), w);
  psa_hash_setup op w := (negb (sim_broken w), [], w);
  psa_hash_update op m w := (negb (sim_broken w), op ++ m, w);
  psa_hash_finish op n w := ((n =? 32)%nat, checksum op, w);
  psa_hash_abort op w := w
|}.

#[export, refine] Instance sim_laws : PlatformLaws sim := {|
  flash := sim_flash;
  handle_ok ns h w := sim_open w = ns;
  hashed op := op;
  digest := checksum;
  healthy w := sim_broken w = false
|}.
Proof.
  - intros m. split; [apply le_bytes_length|apply le_bytes_is_byte].
  - intros ns rw w e h w'. cbn. destruct rw; cbn.
    + intros [= <- <- <-]. unfold sim_err. destruct (sim_broken w); naive_solver.
    + case_bool_decide as E; intros [= <- <- <-].
      * split_and!; [done|done|intros _ key; rewrite E; apply lookup_empty|auto].
      * unfold sim_err. destruct (sim_broken w); naive_solver.
  - intros ns h key n w e b w' <-. cbn. unfold sim_err.
    destruct (sim_flash w !! _) as [b'|]; [|intros [= <- <- <-]; naive_solver].
    destruct (Z.leb_spec (Z.of_nat (length b')) n); intros [= <- <- <-];
      destruct (sim_broken w); split_and!; naive_solver lia.
  - intros ns h key b w e w' <-. cbn. destruct (sim_broken w); intros [= <- <-]; naive_solver.
  - intros ns h w e w' _ [= <- <-]. split; [done|]. unfold sim_err. intros ->. done.
  - done.
  - intros n w b w' [= <- <-].
    split_and!; [apply le_bytes_length|apply le_bytes_is_byte|done|done].
  - intros w s w' [= <- <-]. split; [done|]. intros ->. done.
  - intros op w s op' w' [= <- <- <-]. split_and!; [done|done|]. intros ->. done.
  - intros op m w s op' w' [= <- <- <-]. split_and!; [done|done|]. intros ->. done.
  - intros op n w s b w' [= <- <- <-]. split_and!; [done|done|]. by intros ? ->.
  - done.
Defined.

(** ** The HTTP server: headers of a request *)

Class Httpd (R : Type) := {
  httpd_req_get_hdr_value_len : R → list Z → Z;
  httpd_req_get_hdr_value_str : R → list Z → nat → esp_err_t * list Z
}.

(** [header] is the value of a header; the copy succeeds when the value and its
    terminator fit in the buffer. *)

Class HttpdLaws (R : Type) `{Httpd R} := {
  header : R → list Z → option (list Z);
  header_string : ∀ r n v, header r n = Some v → Forall (λ c, c ≠ 0) v;
  hdr_len_law : ∀ r n,
    httpd_req_get_hdr_value_len r n = Z.of_nat (length (default [] (header r n)));
  hdr_str_law : ∀ r n size,
    match header r n with
    | Some v => if (length v <? size)%nat then httpd_req_get_hdr_value_str r n size = (ESP_OK, v)
                else fst (httpd_req_get_hdr_value_str r n size) ≠ ESP_OK
    | None => fst (httpd_req_get_hdr_value_str r n size) ≠ ESP_OK
    end
}.

(** Requests given as their list of headers. *)

Definition headers : Type := list (list Z * list Z).

Fixpoint find_header (r : headers) (n : list Z) : option (list Z) :=
  match r with
  | [] => None
  | (k, v) :: r' => if decide (k = n) then Some (filter (λ c, c ≠ 0) v) else find_header r' n
  end.

#[export] Instance headers_httpd : Httpd headers := {|
  httpd_req_get_hdr_value_len r n := Z.of_nat (length (default [] (find_header r n)));
  httpd_req_get_hdr_value_str r n size :=
    match find_header r n with
    | Some v => if (length v <? size)%nat then (ESP_OK, v) else (ESP_ERR_OTHER 1, take (size - 1) v)
    | None => (ESP_ERR_NOT_FOUND, [])
    end
|}.

#[export, refine] Instance headers_laws : HttpdLaws headers := {| header := find_header |}.
Proof.
  - intros r n v. induction r as [|[k x] r IH]; cbn; [done|].
    destruct (decide (k = n)); [|done]. intros [= <-].
    apply Forall_forall. intros c. by intros [? _]%list_elem_of_filter.
  - done.
  - intros r n size. unfold httpd_req_get_hdr_value_str, headers_httpd.
    destruct (find_header r n) as [v|]; [|done]. by destruct (length v <? size)%nat.
Defined.
