(* ===== verification/TokenStore.v ===== *)
(** * API tokens (src/src/api-token-store.c, src/src/api_tokens.c)

    The store is a versioned blob of fixed-size records in the flash partition.
    The flash (NVS), the random generator and the hash (PSA) are not part of the
    repository: they are the operations of [Platform], and what the code relies on
    is in [PlatformLaws]. *)

From Stdlib Require Import ZArith Lia String.
From stdpp Require Import base tactics list numbers option gmap.
From S2P Require Import Prelude Platform.

#[local] Open Scope Z_scope.

(** ** Data *)

Definition API_TOKEN_NAMESPACE : list Z := str "management".
Definition API_TOKEN_PREFIX : list Z := str "esp32nut_v1_".
Definition API_TOKEN_NAME_MAX_LENGTH : nat := 32.
Definition API_TOKEN_RANDOM_BYTES : nat := 32.
Definition API_TOKEN_VALUE_LENGTH : nat := 76.
Definition API_TOKEN_ID_BYTES : nat := 8.
Definition API_TOKEN_ID_HEX_LENGTH : nat := 16.
Definition API_TOKEN_FINAL_FOUR_LENGTH : nat := 4.
Definition API_TOKEN_ISSUED_AT_LENGTH : nat := 20.
Definition API_TOKEN_VALID_EPOCH : Z := 1704067200.
Definition API_TOKEN_VERIFIER_BYTES : nat := 32.
Definition API_TOKEN_SALT_BYTES : nat := 16.
Definition API_TOKEN_MAX_ID_ATTEMPTS : nat := 8.
Definition RECORD_SIZE : Z := 112.
Definition api_token_verifier_domain : list Z := str "ESP32-NUT API token verifier v1".

Record ApiTokenStoreRecord := MkRecord {
  issued_at : Z;
  scopes : Z;
  active : Z;
  reserved_before_id : list Z;
  id : list Z;
  salt : list Z;
  verifier : list Z;
  name : list Z;
  final_four : list Z;
  reserved_after_final_four : list Z
}.

Record ApiTokenStoreConfig := MkConfig {
  nvs_key : list Z;
  c_version : Z;
  scope : Z;
  record_count : nat
}.

Record ApiTokenStore := MkStore { version : Z; record_size : Z; records : list ApiTokenStoreRecord }.

(** The strings of the metadata are given without the zero fill of their arrays. *)

Record ApiTokenMetadata := MkMetadata {
  m_id : list Z;
  m_name : list Z;
  m_issued_at : list Z;
  m_final_four : list Z;
  m_scopes : Z
}.

Definition zero_record : ApiTokenStoreRecord :=
  MkRecord 0 0 0 (replicate 3 0) (replicate 8 0) (replicate 16 0) (replicate 32 0)
    (replicate 33 0) (replicate 5 0) (replicate 2 0).

Definition zero_metadata : ApiTokenMetadata := MkMetadata [] [] [] [] 0.

(** [mbedtls_platform_zeroize] of the whole storage. *)

Definition zeroize (config : ApiTokenStoreConfig) : ApiTokenStore :=
  MkStore 0 0 (replicate (record_count config) zero_record).

(** *** Layout *)

Definition slice (off len : nat) (b : list Z) : list Z := take len (drop off b).

Definition decode_record (b : list Z) : ApiTokenStoreRecord :=
  MkRecord (s64 (le_value (slice 0 8 b))) (u32 (le_value (slice 8 4 b))) (le_value (slice 12 1 b))
    (slice 13 3 b) (slice 16 8 b) (slice 24 16 b) (slice 40 32 b) (slice 72 33 b)
    (slice 105 5 b) (slice 110 2 b).

Definition encode_record (r : ApiTokenStoreRecord) : list Z :=
  le_bytes 8 (issued_at r) ++ le_bytes 4 (scopes r) ++ [active r] ++ reserved_before_id r ++
  id r ++ salt r ++ verifier r ++ name r ++ final_four r ++ reserved_after_final_four r.

Fixpoint decode_records (n : nat) (b : list Z) : list ApiTokenStoreRecord :=
  match n with O => [] | S n' => decode_record (take 112 b) :: decode_records n' (drop 112 b) end.

Definition decode_store (n : nat) (b : list Z) : ApiTokenStore :=
  MkStore (u32 (le_value (slice 0 4 b))) (u32 (le_value (slice 4 4 b))) (decode_records n (drop 8 b)).

Definition encode_store (s : ApiTokenStore) : list Z :=
  le_bytes 4 (version s) ++ le_bytes 4 (record_size s) ++ concat (encode_record <$> records s).

(** ** Text *)

Definition hexadecimal : list Z := str "0123456789abcdef".

Definition hex_digit (d : Z) : Z := default 0 (rd hexadecimal d).

(** The string left in [destination]. *)

Definition api_token_store_bytes_to_hex (source : list Z) (destination_length : nat) : list Z :=
  if (destination_length <? length source * 2 + 1)%nat then []
  else concat ((λ b, [hex_digit (Z.shiftr b 4); hex_digit (Z.land b 0x0f)]) <$> source).

Definition api_token_store_hexadecimal_value (c : Z) : Z :=
  if (48 <=? c) && (c <=? 57) then c - 48
  else if (97 <=? c) && (c <=? 102) then c - 97 + 10
  else -1.

Fixpoint hex_pairs (s : list Z) (n : nat) : option (list Z) :=
  match n, s with
  | O, _ => Some []
  | S n', h :: l :: s' =>
    let high := api_token_store_hexadecimal_value h in
    let low := api_token_store_hexadecimal_value l in
    if (high <? 0) || (low <? 0) then None
    else rest ← hex_pairs s' n'; Some (u8 (Z.lor (Z.shiftl high 4) low) :: rest)
  | S _, _ => None
  end.

Definition api_token_store_hex_to_bytes (source : list Z) (source_length destination_length : nat)
    : option (list Z) :=
  if (source_length =? destination_length * 2)%nat then hex_pairs source destination_length
  else None.

Fixpoint difference (l r : list Z) (n : nat) (acc : Z) : Z :=
  match n, l, r with
  | S n', x :: l', y :: r' => difference l' r' n' (Z.lor acc (Z.lxor x y))
  | _, _, _ => acc
  end.

Definition api_token_store_constant_time_equal (l r : list Z) (n : nat) : bool :=
  difference l r n 0 =? 0.

Definition api_token_store_value_is_valid (token : option (list Z)) : bool :=
  match token with
  | None => false
  | Some token =>
    if negb (length token =? API_TOKEN_VALUE_LENGTH)%nat
       || negb (bool_decide (take 12 token = API_TOKEN_PREFIX)) then false
    else forallb (λ c, 0 <=? api_token_store_hexadecimal_value c) (drop 12 token)
  end.

Definition name_character (c : Z) : bool :=
  ((97 <=? c) && (c <=? 122)) || ((65 <=? c) && (c <=? 90)) || ((48 <=? c) && (c <=? 57))
  || (c =? 32) || (c =? 45) || (c =? 95) || (c =? 46).

Definition api_token_store_name_is_valid (name : option (list Z)) : bool :=
  match name with
  | None => false
  | Some name =>
    let length := length name in
    if (length =? 0)%nat || (API_TOKEN_NAME_MAX_LENGTH <? length)%nat
       || bool_decide (name !! 0%nat = Some 32) || bool_decide (name !! (length - 1)%nat = Some 32)
    then false
    else forallb name_character name
  end.

Definition api_token_store_ascii_lower (c : Z) : Z :=
  if (65 <=? c) && (c <=? 90) then c - 65 + 97 else c.

(** On two arrays; [None] is a read past the end of one. *)

Fixpoint api_token_store_names_equal (l r : list Z) : option bool :=
  match l, r with
  | x :: l', y :: r' =>
    if negb (x =? 0) && negb (y =? 0) then
      if negb (api_token_store_ascii_lower x =? api_token_store_ascii_lower y) then Some false
      else api_token_store_names_equal l' r'
    else Some (x =? y)
  | _, _ => None
  end.

(** ** Records *)

Definition api_token_store_empty (config : ApiTokenStoreConfig) : ApiTokenStore :=
  MkStore (c_version config) RECORD_SIZE (replicate (record_count config) zero_record).

Definition aggregate (b : list Z) : Z := foldl Z.lor 0 b.

Definition api_token_store_record_is_valid (r : ApiTokenStoreRecord) (config : ApiTokenStoreConfig)
    : bool :=
  if active r =? 0 then true
  else if negb (active r =? 1) || (aggregate (id r) =? 0) || negb (scopes r =? scope config)
          || (issued_at r <? API_TOKEN_VALID_EPOCH)
          || negb (bool_decide (name r !! API_TOKEN_NAME_MAX_LENGTH = Some 0))
          || negb (api_token_store_name_is_valid (cstr (name r)))
          || negb (bool_decide (final_four r !! API_TOKEN_FINAL_FOUR_LENGTH = Some 0))
          || negb (bool_decide (strlen (final_four r) = Some API_TOKEN_FINAL_FOUR_LENGTH))
  then false
  else forallb (λ c, 0 <=? api_token_store_hexadecimal_value c)
         (take API_TOKEN_FINAL_FOUR_LENGTH (final_four r)).

(** The inner loop of the check: no later active record has the name or the
    identifier of [r]. *)

Fixpoint clashes (r : ApiTokenStoreRecord) (others : list ApiTokenStoreRecord) : option bool :=
  match others with
  | [] => Some false
  | o :: others' =>
    if (active r =? 1) && (active o =? 1) then
      same ← api_token_store_names_equal (name r) (name o);
      if (same : bool) || api_token_store_constant_time_equal (id r) (id o) API_TOKEN_ID_BYTES
      then Some true
      else clashes r others'
    else clashes r others'
  end.

Fixpoint records_valid (rs : list ApiTokenStoreRecord) (config : ApiTokenStoreConfig) : option bool :=
  match rs with
  | [] => Some true
  | r :: rs' =>
    if api_token_store_record_is_valid r config then
      bad ← clashes r rs';
      if (bad : bool) then Some false else records_valid rs' config
    else Some false
  end.

Definition storage_size (config : ApiTokenStoreConfig) : Z :=
  8 + RECORD_SIZE * Z.of_nat (record_count config).

(** [gmtime_r] and [strftime] with ["%Y-%m-%dT%H:%M:%SZ"]: the proleptic
    Gregorian calendar of the days since 1970-01-01, by 400-year eras that start
    in March. *)

Definition civil_from_days (days : Z) : Z * Z * Z :=
  let z := days + 719468 in
  let era := z / 146097 in
  let doe := z mod 146097 in
  let yoe := (doe - doe / 1460 + doe / 36524 - doe / 146096) / 365 in
  let doy := doe - (365 * yoe + yoe / 4 - yoe / 100) in
  let mp := (5 * doy + 2) / 153 in
  let d := doy - (153 * mp + 2) / 5 + 1 in
  let m := if mp <? 10 then mp + 3 else mp - 9 in
  let y := yoe + era * 400 in
  (if m <=? 2 then y + 1 else y, m, d).

Definition two_digits (x : Z) : list Z := [48 + x / 10; 48 + x mod 10].

Definition four_digits (x : Z) : list Z := two_digits (x / 100) ++ two_digits (x mod 100).

(** [None] when the text does not fill the 20 characters of the array: years
    after 9999 do not fit, and years before 1000 or negative do not occur (the
    time is at least [API_TOKEN_VALID_EPOCH]). *)

Definition api_token_store_format_issued_at (t : Z) : option (list Z) :=
  let '(y, m, d) := civil_from_days (t / 86400) in
  let s := t mod 86400 in
  if (1000 <=? y) && (y <=? 9999) then
    Some (four_digits y ++ str "-" ++ two_digits m ++ str "-" ++ two_digits d ++ str "T"
          ++ two_digits (s / 3600) ++ str ":" ++ two_digits (s / 60 mod 60) ++ str ":"
          ++ two_digits (s mod 60) ++ str "Z")
  else None.

Definition api_token_store_metadata_from_record (r : ApiTokenStoreRecord) : bool * ApiTokenMetadata :=
  let t := api_token_store_format_issued_at (issued_at r) in
  (bool_decide (is_Some t),
   MkMetadata (api_token_store_bytes_to_hex (id r) (API_TOKEN_ID_HEX_LENGTH + 1))
     (default [] (cstr (name r))) (default [] t) (default [] (cstr (final_four r))) (scopes r)).

(** ** Operations

    [None] is an access out of bounds.  [storage] is the caller's buffer: each
    operation returns what it leaves there ([None] in that place when the
    operation returned before touching it). *)

Section operations.
Context {W : Type} `{Platform W}.

Definition api_token_store_load (config : ApiTokenStoreConfig) (w : W)
    : option (esp_err_t * ApiTokenStore * W) :=
  let '(result, handle, w) := nvs_open API_TOKEN_NAMESPACE false w in
  if bool_decide (result = ESP_ERR_NVS_NOT_FOUND) then
    Some (ESP_OK, api_token_store_empty config, w)
  else if negb (is_ok result) then Some (result, zeroize config, w)
  else
    let '(result, blob, w) := nvs_get_blob handle (nvs_key config) (storage_size config) w in
    let w := nvs_close handle w in
    if bool_decide (result = ESP_ERR_NVS_NOT_FOUND) then
      Some (ESP_OK, api_token_store_empty config, w)
    else if negb (is_ok result) then Some (result, zeroize config, w)
    else
      let store := decode_store (record_count config)
        (blob ++ drop (length blob) (encode_store (api_token_store_empty config))) in
      if negb (Z.of_nat (length blob) =? storage_size config)
         || negb (version store =? c_version config) || negb (record_size store =? RECORD_SIZE)
      then Some (ESP_ERR_INVALID_VERSION, zeroize config, w)
      else
        valid ← records_valid (records store) config;
        if (valid : bool) then Some (ESP_OK, store, w)
        else Some (ESP_ERR_INVALID_CRC, zeroize config, w).

Definition api_token_store_save (config : ApiTokenStoreConfig) (store : ApiTokenStore) (w : W)
    : esp_err_t * W :=
  let '(result, handle, w) := nvs_open API_TOKEN_NAMESPACE true w in
  let '(result, w) :=
    if is_ok result then nvs_set_blob handle (nvs_key config) (encode_store store) w
    else (result, w) in
  let '(result, w) := if is_ok result then nvs_commit handle w else (result, w) in
  let w := if negb (handle =? 0) then nvs_close handle w else w in
  (result, w).

(** The verifier is written when the result is [ESP_OK]. *)

Definition api_token_store_derive_verifier (token salt : list Z) (w : W)
    : esp_err_t * list Z * W :=
  let operation := psa_op_init in
  let '(ok, w) := psa_crypto_init w in
  let '(ok, operation, w) := if ok then psa_hash_setup operation w else (false, operation, w) in
  let '(ok, operation, w) :=
    if ok then psa_hash_update operation api_token_verifier_domain w else (false, operation, w) in
  let '(ok, operation, w) := if ok then psa_hash_update operation salt w else (false, operation, w) in
  let '(ok, operation, w) :=
    if ok then psa_hash_update operation (take API_TOKEN_VALUE_LENGTH token) w
    else (false, operation, w) in
  let '(ok, verifier, w) :=
    if ok then psa_hash_finish operation API_TOKEN_VERIFIER_BYTES w else (false, [], w) in
  let w := psa_hash_abort operation w in
  (if (ok : bool) && (length verifier =? API_TOKEN_VERIFIER_BYTES)%nat then ESP_OK else ESP_FAIL,
   verifier, w).

Definition api_token_store_identifier_is_zero (identifier : list Z) : bool :=
  aggregate identifier =? 0.

Definition api_token_store_identifier_is_unique (store : ApiTokenStore) (identifier : list Z) : bool :=
  forallb (λ r, negb ((active r =? 1)
    && api_token_store_constant_time_equal (id r) identifier API_TOKEN_ID_BYTES)) (records store).

Fixpoint name_exists (rs : list ApiTokenStoreRecord) (name0 : list Z) : option bool :=
  match rs with
  | [] => Some false
  | r :: rs' =>
    if active r =? 1 then
      same ← api_token_store_names_equal (name r) (name0 ++ [0]);
      if (same : bool) then Some true else name_exists rs' name0
    else name_exists rs' name0
  end.

Definition api_token_store_name_exists (store : ApiTokenStore) (name0 : list Z) : option bool :=
  name_exists (records store) name0.

(** The list: the metadata written so far, until a record cannot be formatted. *)

Fixpoint list_records (rs : list ApiTokenStoreRecord) : esp_err_t * list ApiTokenMetadata :=
  match rs with
  | [] => (ESP_OK, [])
  | r :: rs' =>
    if active r =? 1 then
      let '(ok, m) := api_token_store_metadata_from_record r in
      if ok : bool then let '(e, ms) := list_records rs' in (e, m :: ms)
      else (ESP_ERR_INVALID_STATE, [])
    else list_records rs'
  end.

Definition api_token_store_list (config : ApiTokenStoreConfig) (metadata_capacity : nat) (w : W)
    : option (esp_err_t * list ApiTokenMetadata * option ApiTokenStore * W) :=
  if (metadata_capacity <? record_count config)%nat then Some (ESP_ERR_INVALID_ARG, [], None, w)
  else
    '(result, store, w) ← api_token_store_load config w;
    let '(result, metadata) :=
      if is_ok result then list_records (records store) else (result, []) in
    Some (result, if is_ok result then metadata else [], Some (zeroize config), w).

(** [esp_fill_random] until the identifier is usable, [n] attempts at most. *)

Fixpoint fill_identifier (n : nat) (store : ApiTokenStore) (w : W) : option (list Z) * W :=
  match n with
  | O => (None, w)
  | S n' =>
    let '(identifier, w) := esp_fill_random API_TOKEN_ID_BYTES w in
    if negb (api_token_store_identifier_is_zero identifier)
       && api_token_store_identifier_is_unique store identifier
    then (Some identifier, w)
    else fill_identifier n' store w
  end.

(** [snprintf(array, size, "%s", s)] into a zeroed array. *)

Definition to_array (size : nat) (s : list Z) : list Z :=
  let s := take (size - 1) s in s ++ replicate (size - length s) 0.

(** [memcpy] of the prefix and the hexadecimal random value. *)

Definition token_text (random_value : list Z) : list Z :=
  API_TOKEN_PREFIX
  ++ api_token_store_bytes_to_hex random_value (API_TOKEN_RANDOM_BYTES * 2 + 1).

Record create_result := MkCreate {
  cr_result : esp_err_t;
  cr_metadata : ApiTokenMetadata;
  cr_token : list Z;
  cr_storage : option ApiTokenStore
}.

Definition create_failed (e : esp_err_t) (storage : option ApiTokenStore) : create_result :=
  MkCreate e zero_metadata [] storage.

(** The search for a free record. *)

Fixpoint available (rs : list ApiTokenStoreRecord) : option nat :=
  match rs with
  | [] => None
  | r :: rs' => if active r =? 0 then Some 0%nat else S <$> available rs'
  end.

(** From the zeroing of the free record [i] on.  The zeroed record is in the
    store while the identifier is compared: an inactive record never matches. *)

Definition create_at (config : ApiTokenStoreConfig) (name0 : list Z) (issued : Z)
    (store : ApiTokenStore) (i : nat) (w : W) : create_result * W :=
  let store := MkStore (version store) (record_size store) (<[i := zero_record]> (records store)) in
  let '(identifier, w) := fill_identifier API_TOKEN_MAX_ID_ATTEMPTS store w in
  match identifier with
  | None => (create_failed ESP_FAIL (Some (zeroize config)), w)
  | Some identifier =>
    let '(random_value, w) := esp_fill_random API_TOKEN_RANDOM_BYTES w in
    let token := token_text random_value in
    let '(salt0, w) := esp_fill_random API_TOKEN_SALT_BYTES w in
    let '(result, verifier0, w) := api_token_store_derive_verifier token salt0 w in
    if negb (is_ok result) then (create_failed result (Some (zeroize config)), w)
    else
      let r := MkRecord issued (scope config) 1 (replicate 3 0) identifier salt0 verifier0
                 (to_array 33 name0)
                 (to_array 5 (drop (API_TOKEN_VALUE_LENGTH - API_TOKEN_FINAL_FOUR_LENGTH) token))
                 (replicate 2 0) in
      let store := MkStore (version store) (record_size store) (<[i := r]> (records store)) in
      let '(ok, metadata) := api_token_store_metadata_from_record r in
      let '(result, w) :=
        if ok : bool then api_token_store_save config store w else (ESP_ERR_INVALID_STATE, w) in
      if is_ok result then (MkCreate ESP_OK metadata token (Some (zeroize config)), w)
      else (create_failed result (Some (zeroize config)), w)
  end.

(** The metadata and the token are not written by an exit that leaves the storage
    alone. *)

Definition api_token_store_create (config : ApiTokenStoreConfig) (name0 : option (list Z))
    (issued : Z) (w : W) : option (create_result * W) :=
  if negb (api_token_store_name_is_valid name0) || (issued <? API_TOKEN_VALID_EPOCH)
  then Some (create_failed ESP_ERR_INVALID_ARG None, w)
  else
    let name0 := default [] name0 in
    '(result, store, w) ← api_token_store_load config w;
    if negb (is_ok result) then Some (create_failed result (Some store), w)
    else
      exists_ ← api_token_store_name_exists store name0;
      if exists_ : bool then Some (create_failed ESP_ERR_INVALID_STATE (Some (zeroize config)), w)
      else
        match available (records store) with
        | None => Some (create_failed ESP_ERR_NO_MEM (Some (zeroize config)), w)
        | Some i => Some (create_at config name0 issued store i w)
        end.

Fixpoint find_id (rs : list ApiTokenStoreRecord) (identifier : list Z) : option nat :=
  match rs with
  | [] => None
  | r :: rs' =>
    if (active r =? 1) && api_token_store_constant_time_equal (id r) identifier API_TOKEN_ID_BYTES
    then Some 0%nat
    else S <$> find_id rs' identifier
  end.

(** [records[index] = records[index + 1]] from the record found, then the last
    record zeroed. *)

Fixpoint shift_records (rs : list ApiTokenStoreRecord) (i n : nat) : list ApiTokenStoreRecord :=
  match n with
  | O => rs
  | S n' =>
    match rs !! S i with
    | Some r => shift_records (<[i := r]> rs) (S i) n'
    | None => rs
    end
  end.

(** The bytes of a 16-digit identifier. *)

Definition id_text (id0 : option (list Z)) : option (list Z) :=
  id0 ≫= (λ s, if (length s =? API_TOKEN_ID_HEX_LENGTH)%nat
               then api_token_store_hex_to_bytes s API_TOKEN_ID_HEX_LENGTH API_TOKEN_ID_BYTES
               else None).

Definition api_token_store_delete (config : ApiTokenStoreConfig) (id0 : option (list Z)) (w : W)
    : option (esp_err_t * option ApiTokenStore * W) :=
  match id_text id0 with
  | None => Some (ESP_ERR_INVALID_ARG, None, w)
  | Some identifier =>
    '(result, store, w) ← api_token_store_load config w;
    if negb (is_ok result) then Some (result, Some store, w)
    else
      match find_id (records store) identifier with
      | None => Some (ESP_ERR_NOT_FOUND, Some (zeroize config), w)
      | Some found =>
        let rs := shift_records (records store) found (record_count config - 1 - found) in
        let rs := <[(record_count config - 1)%nat := zero_record]> rs in
        let '(result, w) :=
          api_token_store_save config (MkStore (version store) (record_size store) rs) w in
        Some (result, Some (zeroize config), w)
      end
  end.

(** The loop over the records; [authorized] is a byte. *)

Fixpoint authorize_records (rs : list ApiTokenStoreRecord) (token : list Z) (required : Z)
    (authorized : Z) (w : W) : Z * W :=
  match rs with
  | [] => (authorized, w)
  | r :: rs' =>
    let '(result, candidate, w) := api_token_store_derive_verifier token (salt r) w in
    if negb (is_ok result) then (0, w)
    else
      let verifier_matches :=
        if api_token_store_constant_time_equal candidate (verifier r) API_TOKEN_VERIFIER_BYTES
        then 1 else 0 in
      let record_active := if active r =? 1 then 1 else 0 in
      let scope_matches := if Z.land (scopes r) required =? required then 1 else 0 in
      authorize_records rs' token required
        (Z.lor authorized (Z.land (Z.land verifier_matches record_active) scope_matches)) w
  end.

Definition api_token_store_authorize (config : ApiTokenStoreConfig) (token : option (list Z))
    (required_scope : Z) (w : W) : option (bool * option ApiTokenStore * W) :=
  if negb (api_token_store_value_is_valid token) || (required_scope =? 0)
     || negb (Z.land required_scope (u32 (Z.lnot (scope config))) =? 0)
  then Some (false, None, w)
  else
    '(result, store, w) ← api_token_store_load config w;
    if negb (is_ok result) then Some (false, Some store, w)
    else
      let '(authorized, w) :=
        authorize_records (records store) (default [] token) required_scope 0 w in
      Some (negb (authorized =? 0), Some (zeroize config), w).

End operations.

(** ** The two stores (api_tokens.c) *)

Definition API_TOKEN_SCOPE_OTA_INSTALL : Z := 1.
Definition API_TOKEN_SCOPE_DIAGNOSTICS_NUT : Z := 2.
Definition API_TOKEN_MAX_COUNT : nat := 4.
Definition DIAGNOSTIC_TOKEN_MAX_COUNT : nat := 2.

Definition api_token_store_config : ApiTokenStoreConfig :=
  MkConfig (str "api-tokens") 1 API_TOKEN_SCOPE_OTA_INSTALL API_TOKEN_MAX_COUNT.

Definition diagnostic_token_store_config : ApiTokenStoreConfig :=
  MkConfig (str "diag-tokens") 1 API_TOKEN_SCOPE_DIAGNOSTICS_NUT DIAGNOSTIC_TOKEN_MAX_COUNT.

Section stores.
Context {W : Type} `{Platform W}.

Definition api_token_name_is_valid (name : option (list Z)) : bool :=
  api_token_store_name_is_valid name.

Definition api_tokens_list (w : W) :=
  api_token_store_list api_token_store_config API_TOKEN_MAX_COUNT w.

Definition api_tokens_create (name : option (list Z)) (issued scopes : Z) (w : W)
    : option (create_result * W) :=
  if negb (scopes =? API_TOKEN_SCOPE_OTA_INSTALL) then
    Some (create_failed ESP_ERR_INVALID_ARG None, w)
  else api_token_store_create api_token_store_config name issued w.

Definition api_tokens_delete (id : option (list Z)) (w : W) :=
  api_token_store_delete api_token_store_config id w.

Definition api_tokens_authorize (token : option (list Z)) (required_scope : Z) (w : W) :=
  api_token_store_authorize api_token_store_config token required_scope w.

Definition diagnostic_tokens_list (w : W) :=
  api_token_store_list diagnostic_token_store_config DIAGNOSTIC_TOKEN_MAX_COUNT w.

Definition diagnostic_tokens_create (name : option (list Z)) (issued : Z) (w : W) :=
  api_token_store_create diagnostic_token_store_config name issued w.

Definition diagnostic_tokens_delete (id : option (list Z)) (w : W) :=
  api_token_store_delete diagnostic_token_store_config id w.

Definition diagnostic_tokens_authorize (token : option (list Z)) (w : W) :=
  api_token_store_authorize diagnostic_token_store_config token API_TOKEN_SCOPE_DIAGNOSTICS_NUT w.

End stores.

(** ** Layout: decoding an encoded store *)

Record rec_wf (r : ApiTokenStoreRecord) : Prop := {
  wf_issued : - 2 ^ 63 ≤ issued_at r < 2 ^ 63;
  wf_scopes : 0 ≤ scopes r < 2 ^ 32;
  wf_reserved : length (reserved_before_id r) = 3%nat;
  wf_id : length (id r) = 8%nat;
  wf_salt : length (salt r) = 16%nat;
  wf_verifier : length (verifier r) = 32%nat;
  wf_name : length (name r) = 33%nat;
  wf_final_four : length (final_four r) = 5%nat;
  wf_reserved' : length (reserved_after_final_four r) = 2%nat
}.

Lemma slice_here len (a b : list Z) : length a = len → slice 0 len (a ++ b) = a.
Proof. intros <-. unfold slice. rewrite drop_0. apply take_app_length. Qed.

Lemma slice_skip off len (a b : list Z) n :
  length a = n → (n ≤ off)%nat → slice off len (a ++ b) = slice (off - n) len b.
Proof. intros <- Hle. unfold slice. by rewrite drop_app_ge. Qed.

Lemma slice_all len (a : list Z) : length a = len → slice 0 len a = a.
Proof. intros <-. unfold slice. rewrite drop_0. by apply take_ge. Qed.

Ltac skip_field n :=
  erewrite (slice_skip _ _ _ _ n); [cbn [Nat.sub]|first [apply le_bytes_length|done]|lia].

Lemma decode_encode_record r : rec_wf r → decode_record (encode_record r) = r.
Proof.
  intros []. unfold decode_record, encode_record. destruct r;
    cbn [issued_at scopes active reserved_before_id id salt verifier name final_four
      reserved_after_final_four] in *. f_equal.
  - rewrite slice_here by apply le_bytes_length. rewrite le_value_bytes. by apply s64_small.
  - skip_field 8%nat. rewrite slice_here by apply le_bytes_length. rewrite le_value_bytes.
    rewrite Z.mod_small by lia. apply wrap_small. lia.
  - skip_field 8%nat. skip_field 4%nat. rewrite slice_here by done. cbn. lia.
  - skip_field 8%nat. skip_field 4%nat. skip_field 1%nat. by apply slice_here.
  - skip_field 8%nat. skip_field 4%nat. skip_field 1%nat. skip_field 3%nat. by apply slice_here.
  - skip_field 8%nat. skip_field 4%nat. skip_field 1%nat. skip_field 3%nat. skip_field 8%nat.
    by apply slice_here.
  - skip_field 8%nat. skip_field 4%nat. skip_field 1%nat. skip_field 3%nat. skip_field 8%nat.
    skip_field 16%nat. by apply slice_here.
  - skip_field 8%nat. skip_field 4%nat. skip_field 1%nat. skip_field 3%nat. skip_field 8%nat.
    skip_field 16%nat. skip_field 32%nat. by apply slice_here.
  - skip_field 8%nat. skip_field 4%nat. skip_field 1%nat. skip_field 3%nat. skip_field 8%nat.
    skip_field 16%nat. skip_field 32%nat. skip_field 33%nat. by apply slice_here.
  - skip_field 8%nat. skip_field 4%nat. skip_field 1%nat. skip_field 3%nat. skip_field 8%nat.
    skip_field 16%nat. skip_field 32%nat. skip_field 33%nat. skip_field 5%nat. by apply slice_all.
Qed.

Lemma encode_record_length r : rec_wf r → length (encode_record r) = 112%nat.
Proof. intros []. unfold encode_record. rewrite !length_app, !le_bytes_length. cbn. lia. Qed.

Lemma decode_record_wf b : length b = 112%nat → rec_wf (decode_record b).
Proof.
  intros Hb. assert (∀ off len, (off + len ≤ 112)%nat → length (slice off len b) = len) as Hs.
  { intros off len Hl. unfold slice. rewrite length_take, length_drop. lia. }
  constructor; cbn; try (apply Hs; lia).
  - unfold s64, swrap. pose proof (Z.mod_pos_bound (le_value (slice 0 8 b) + 2 ^ (64 - 1)) (2 ^ 64)). lia.
  - unfold u32. apply wrap_range. lia.
Qed.

Lemma decode_records_wf n b :
  (112 * n ≤ length b)%nat → length (decode_records n b) = n ∧ Forall rec_wf (decode_records n b).
Proof.
  revert b. induction n as [|n IH]; intros b Hb; cbn [decode_records]; [done|].
  destruct (IH (drop 112 b)) as [Hl Hf]; [rewrite length_drop; lia|].
  split; [cbn; lia|]. constructor; [|done]. apply decode_record_wf. rewrite length_take. lia.
Qed.

Lemma encode_records_length rs :
  Forall rec_wf rs → length (concat (encode_record <$> rs)) = (112 * length rs)%nat.
Proof.
  induction 1 as [|r rs Hr _ IH]; cbn [fmap list_fmap concat length]; [done|].
  rewrite length_app, IH, encode_record_length by done. lia.
Qed.

Lemma decode_encode_records rs rest :
  Forall rec_wf rs → decode_records (length rs) (concat (encode_record <$> rs) ++ rest) = rs.
Proof.
  induction 1 as [|r rs Hr _ IH]; cbn [length decode_records fmap list_fmap concat]; [done|].
  rewrite <- app_assoc. pose proof (encode_record_length r Hr) as Hl.
  rewrite take_app_le, take_ge, drop_app_ge, Hl, Nat.sub_diag, drop_0, IH by lia.
  by rewrite decode_encode_record.
Qed.

Lemma encode_store_length s :
  Forall rec_wf (records s) → length (encode_store s) = (8 + 112 * length (records s))%nat.
Proof.
  intros Hr. unfold encode_store. rewrite !length_app, !le_bytes_length, encode_records_length by done. lia.
Qed.

Lemma decode_encode_store s rest :
  Forall rec_wf (records s) → 0 ≤ version s < 2 ^ 32 → 0 ≤ record_size s < 2 ^ 32 →
  decode_store (length (records s)) (encode_store s ++ rest) = s.
Proof.
  intros Hr Hv Hz. unfold decode_store, encode_store. rewrite <- !app_assoc. destruct s as [v z rs].
  cbn [version record_size records] in *. f_equal.
  - rewrite slice_here, le_value_bytes by apply le_bytes_length.
    rewrite Z.mod_small by lia. apply wrap_small. lia.
  - skip_field 4%nat. rewrite slice_here, le_value_bytes by apply le_bytes_length.
    rewrite Z.mod_small by lia. apply wrap_small. lia.
  - rewrite (app_assoc (le_bytes 4 v)).
    rewrite drop_app_ge by (rewrite length_app, !le_bytes_length; lia).
    rewrite length_app, !le_bytes_length, drop_0. by apply decode_encode_records.
Qed.

(** ** Comparisons *)

Lemma difference_zero n : ∀ l r acc,
  length l = n → length r = n → difference l r n acc = 0 ↔ acc = 0 ∧ l = r.
Proof.
  induction n as [|n IH]; intros [|x l] [|y r] acc Hl Hr; try done; cbn in *; [naive_solver|].
  rewrite IH, Z.lor_eq_0_iff, Z.lxor_eq_0_iff by lia. naive_solver.
Qed.

Lemma constant_time_equal_spec n l r :
  length l = n → length r = n →
  api_token_store_constant_time_equal l r n = bool_decide (l = r).
Proof.
  intros Hl Hr. unfold api_token_store_constant_time_equal.
  pose proof (difference_zero n l r 0 Hl Hr) as Hd. case_bool_decide as E.
  - apply Z.eqb_eq, Hd. done.
  - apply Z.eqb_neq. rewrite Hd. naive_solver.
Qed.

Definition lower (s : list Z) : list Z := api_token_store_ascii_lower <$> s.

Lemma ascii_lower_zero x : x ≠ 0 → api_token_store_ascii_lower x ≠ 0.
Proof.
  unfold api_token_store_ascii_lower. destruct (Z.leb_spec 65 x), (Z.leb_spec x 90); cbn; lia.
Qed.

Lemma cstr_Some buf a :
  cstr buf = Some a → ∃ rest, buf = a ++ 0 :: rest ∧ Forall (λ x, x ≠ 0) a.
Proof.
  revert a. induction buf as [|x buf IH]; intros a; unfold cstr; cbn; [done|].
  destruct (Z.eqb_spec x 0) as [->|Hx]; cbn; [intros [= <-]; eauto|].
  destruct (strlen buf) as [n|] eqn:E; cbn; [|done]. intros [= <-].
  destruct (IH (take n buf)) as (rest & Hb & Hf); [unfold cstr; by rewrite E|].
  exists rest. split; [by rewrite Hb at 1|by constructor].
Qed.

(** Two terminated names compare without regard to case; reading stops at the
    end of the first, so the second need not be terminated. *)

Lemma names_equal_cstr l r a b :
  cstr l = Some a → cstr r = Some b →
  api_token_store_names_equal l r = Some (bool_decide (lower a = lower b)).
Proof.
  intros (rl & -> & Ha)%cstr_Some (rr & -> & Hb)%cstr_Some.
  revert b Hb. induction Ha as [|x a Hx Ha IH]; intros [|y b] Hb;
    cbn [app api_token_store_names_equal].
  - done.
  - apply Forall_cons_1 in Hb as [Hy _]. cbn [negb andb Z.eqb].
    by destruct y.
  - rewrite (proj2 (Z.eqb_neq x 0)) by done. done.
  - apply Forall_cons_1 in Hb as [Hy Hb].
    rewrite (proj2 (Z.eqb_neq x 0)), (proj2 (Z.eqb_neq y 0)) by done. cbn.
    destruct (Z.eqb_spec (api_token_store_ascii_lower x) (api_token_store_ascii_lower y)) as [E|E]; cbn.
    + rewrite IH by done. f_equal. apply bool_decide_ext. unfold lower. cbn. rewrite E.
      split; congruence.
    + rewrite bool_decide_eq_false_2; [done|]. intros [= ]. congruence.
Qed.

Lemma names_equal_total k : ∀ l r,
  l !! k = Some 0 → (k < length r)%nat → is_Some (api_token_store_names_equal l r).
Proof.
  induction k as [|k IH]; intros [|x l] [|y r] Hl Hr; cbn in *; try done; try lia.
  - simplify_eq. eauto.
  - destruct (_ && _); [|eauto]. destruct (negb _); [eauto|]. apply IH; [done|lia].
Qed.

(** ** Valid stores *)

(** A valid active record, stated on its fields. *)

Record active_ok (config : ApiTokenStoreConfig) (r : ApiTokenStoreRecord) : Prop := {
  ok_active : active r = 1;
  ok_id : aggregate (id r) ≠ 0;
  ok_scope : scopes r = scope config;
  ok_issued : API_TOKEN_VALID_EPOCH ≤ issued_at r;
  ok_name_end : name r !! 32%nat = Some 0;
  ok_name : api_token_store_name_is_valid (cstr (name r)) = true;
  ok_final_end : final_four r !! 4%nat = Some 0;
  ok_final_len : strlen (final_four r) = Some 4%nat;
  ok_final : forallb (λ c, 0 <=? api_token_store_hexadecimal_value c) (take 4 (final_four r)) = true
}.

Lemma record_is_valid_spec config r :
  api_token_store_record_is_valid r config = true ↔ active r = 0 ∨ active_ok config r.
Proof.
  unfold api_token_store_record_is_valid.
  destruct (Z.eqb_spec (active r) 0) as [E|E]; [naive_solver|].
  match goal with |- (if ?b then false else ?c) = true ↔ _ =>
    transitivity (b = false ∧ c = true); [destruct b; naive_solver|] end.
  rewrite !orb_false_iff, !negb_false_iff, !Z.eqb_eq, Z.ltb_ge, Z.eqb_neq, !bool_decide_eq_true.
  split.
  - intros [H1 H2]. right. destruct_and!. by constructor.
  - intros [?|[]]; [done|]. auto 10.
Qed.

(** Active records have different names (without regard to case) and different
    identifiers. *)

Definition name_of (r : ApiTokenStoreRecord) : list Z := default [] (cstr (name r)).

Definition differ (r o : ApiTokenStoreRecord) : Prop :=
  active r = 1 → active o = 1 → lower (name_of r) ≠ lower (name_of o) ∧ id r ≠ id o.

Definition distinct_records (rs : list ApiTokenStoreRecord) : Prop :=
  ∀ i j r o, i ≠ j → rs !! i = Some r → rs !! j = Some o → differ r o.

Lemma differ_sym r o : differ r o → differ o r.
Proof. unfold differ. intros H Ho Hr. destruct (H Hr Ho). split; congruence. Qed.

Lemma distinct_cons r rs :
  distinct_records (r :: rs) ↔ Forall (differ r) rs ∧ distinct_records rs.
Proof.
  split.
  - intros H. split.
    + apply Forall_lookup. intros i o Ho. by apply (H 0%nat (S i)).
    + intros i j a b Hij Ha Hb. apply (H (S i) (S j)); [lia|done..].
  - intros [Hf H] [|i] [|j] a b Hij Ha Hb; cbn in *; simplify_eq; try done.
    + by eapply Forall_lookup_1 in Hf.
    + apply differ_sym. by eapply Forall_lookup_1 in Hf.
    + apply (H i j); [lia|done..].
Qed.

Definition rec_valid (config : ApiTokenStoreConfig) (r : ApiTokenStoreRecord) : Prop :=
  rec_wf r ∧ (active r = 0 ∨ active_ok config r).

Lemma active_ok_cstr config r : active_ok config r → cstr (name r) = Some (name_of r).
Proof.
  intros []. unfold name_of. by destruct (cstr (name r)).
Qed.

Lemma clashes_total config r others :
  rec_valid config r → Forall rec_wf others → is_Some (clashes r others).
Proof.
  intros [_ Hr]. induction 1 as [|o others Ho _ IH]; cbn; [eauto|].
  destruct (Z.eqb_spec (active r) 1) as [E|]; [|done]. destruct (active o =? 1); [|done]. cbn.
  destruct Hr as [?|Hr]; [congruence|].
  destruct (names_equal_total 32 (name r) (name o)) as [b ->]; [apply Hr|rewrite wf_name by done; lia|].
  cbn. destruct (_ || _); eauto.
Qed.

Lemma clashes_spec config r others :
  rec_valid config r → Forall (rec_valid config) others →
  clashes r others = Some false ↔ Forall (differ r) others.
Proof.
  intros [Hwf Hr]. induction 1 as [|o others [Hwo Ho] _ IH]; cbn; [done|].
  rewrite Forall_cons, <- IH. unfold differ.
  destruct (Z.eqb_spec (active r) 1) as [E|E], (Z.eqb_spec (active o) 1) as [E'|E']; cbn [andb];
    try (split; [naive_solver|by intros [_ ?]]).
  destruct Hr as [?|Hr]; [congruence|]. destruct Ho as [?|Ho]; [congruence|].
  rewrite (names_equal_cstr _ _ (name_of r) (name_of o)) by by eapply active_ok_cstr. cbn.
  rewrite constant_time_equal_spec by by apply wf_id.
  case_bool_decide as H1; cbn; [naive_solver|]. case_bool_decide as H2; naive_solver.
Qed.

Lemma records_valid_total config rs :
  Forall rec_wf rs → is_Some (records_valid rs config).
Proof.
  induction 1 as [|r rs Hr Hrs IH]; cbn; [eauto|].
  destruct (api_token_store_record_is_valid r config) eqn:E; [|eauto].
  apply record_is_valid_spec in E.
  destruct (clashes_total config r rs) as [[] ->]; [by split|done|eauto|done].
Qed.

Lemma records_valid_spec config rs :
  Forall rec_wf rs →
  records_valid rs config = Some true ↔ Forall (rec_valid config) rs ∧ distinct_records rs.
Proof.
  induction 1 as [|r rs Hr Hrs IH]; cbn; [split; [|done]; split; [done|by intros [] ?]|].
  rewrite Forall_cons, distinct_cons. unfold rec_valid at 1. rewrite <- record_is_valid_spec.
  destruct (api_token_store_record_is_valid r config) eqn:E; [|naive_solver].
  apply record_is_valid_spec in E.
  destruct (clashes_total config r rs) as [b Hb]; [by split|done|]. rewrite Hb. cbn.
  split.
  - intros H. destruct b; [done|]. apply IH in H as [Hv Hd]. split_and!; try done.
    apply (clashes_spec config r rs); done.
  - intros [[_ Hv] [Hd Hds]]. apply (clashes_spec config) in Hd; [|done|done].
    rewrite Hb in Hd. simplify_eq. apply IH. done.
Qed.

(** ** What the flash holds *)

(** A configuration whose blob can be stored: [version] and [scope] are 32-bit. *)

Definition config_ok (config : ApiTokenStoreConfig) : Prop :=
  0 ≤ c_version config < 2 ^ 32 ∧ 0 < scope config < 2 ^ 32.

Record valid_store (config : ApiTokenStoreConfig) (s : ApiTokenStore) : Prop := {
  vs_version : version s = c_version config;
  vs_size : record_size s = RECORD_SIZE;
  vs_count : length (records s) = record_count config;
  vs_records : Forall (rec_valid config) (records s);
  vs_distinct : distinct_records (records s)
}.

Definition blob_key (config : ApiTokenStoreConfig) : list Z * list Z :=
  (API_TOKEN_NAMESPACE, nvs_key config).

(** The store that a flash content stands for; [None] when it is refused. *)

Definition stored (config : ApiTokenStoreConfig) (f : gmap (list Z * list Z) (list Z))
    : option ApiTokenStore :=
  match f !! blob_key config with
  | None => Some (api_token_store_empty config)
  | Some blob =>
    let s := decode_store (record_count config) blob in
    if (Z.of_nat (length blob) =? storage_size config) && (version s =? c_version config)
       && (record_size s =? RECORD_SIZE) && bool_decide (records_valid (records s) config = Some true)
    then Some s else None
  end.

Lemma zero_record_wf : rec_wf zero_record.
Proof. by constructor. Qed.

Lemma empty_valid config : valid_store config (api_token_store_empty config).
Proof.
  constructor; cbn; [done|done|apply length_replicate| |].
  - apply Forall_replicate. split; [apply zero_record_wf|by left].
  - intros i j r o _ [-> _]%lookup_replicate [-> _]%lookup_replicate. by intros ?.
Qed.

Lemma valid_store_wf config s : valid_store config s → Forall rec_wf (records s).
Proof. intros []. eapply Forall_impl; [done|]. by intros r [? _]. Qed.

Lemma decode_wf config blob :
  Z.of_nat (length blob) = storage_size config →
  length (records (decode_store (record_count config) blob)) = record_count config
  ∧ Forall rec_wf (records (decode_store (record_count config) blob)).
Proof.
  unfold storage_size, RECORD_SIZE. intros Hl. apply decode_records_wf. rewrite length_drop. lia.
Qed.

Lemma stored_valid config f s : stored config f = Some s → valid_store config s.
Proof.
  unfold stored. destruct (f !! _) as [blob|]; [|intros [= <-]; apply empty_valid].
  destruct (_ && _) eqn:E; [|done]. intros [= <-].
  apply andb_true_iff in E as [E Hv]. apply andb_true_iff in E as [E Hz%Z.eqb_eq].
  apply andb_true_iff in E as [Hl%Z.eqb_eq Hver%Z.eqb_eq].
  destruct (decode_wf config blob Hl) as [Hcount Hwf].
  apply bool_decide_eq_true, records_valid_spec in Hv as [? ?]; [|done]. by constructor.
Qed.

(** A valid store that was written is read back. *)

Lemma stored_insert config f s :
  config_ok config → valid_store config s →
  stored config (<[blob_key config := encode_store s]> f) = Some s.
Proof.
  intros [Hv _] Hs. pose proof (valid_store_wf _ _ Hs) as Hwf. pose proof Hs as [E1 E2 E3 Hr Hd].
  unfold stored. rewrite lookup_insert_eq.
  assert (decode_store (record_count config) (encode_store s) = s) as ->.
  { rewrite <- (app_nil_r (encode_store s)), <- E3.
    apply decode_encode_store; [done|lia|rewrite E2; done]. }
  rewrite encode_store_length, E1, E2, E3, !Z.eqb_refl by done.
  assert (Z.of_nat (8 + 112 * record_count config) = storage_size config) as ->
    by (unfold storage_size, RECORD_SIZE; lia).
  rewrite Z.eqb_refl, bool_decide_eq_true_2; [done|]. by apply records_valid_spec.
Qed.

Lemma stored_insert_other config f k b :
  k ≠ blob_key config → stored config (<[k := b]> f) = stored config f.
Proof. intros Hk. unfold stored. by rewrite lookup_insert_ne. Qed.

(** ** The effectful helpers *)

Section laws.
Context {W : Type} `{PlatformLaws W}.

(** An exit of the load that refuses what was read. *)

Ltac load_refused Hh1 Hh2 :=
  eexists _, _, _; split; [reflexivity|]; split; [congruence|]; split; [done|];
  let G := fresh in
  intros G; apply Hh1 in G as [G _]; apply Hh2 in G as [G _]; split; [auto|]; by intros [? ?].

Lemma load_spec config w :
  ∃ e s w', api_token_store_load config w = Some (e, s, w') ∧ flash w' = flash w
    ∧ (e = ESP_OK → stored config (flash w) = Some s)
    ∧ (healthy w → healthy w' ∧ (is_Some (stored config (flash w)) → e = ESP_OK)).
Proof.
  unfold api_token_store_load.
  destruct (nvs_open API_TOKEN_NAMESPACE false w) as [[e1 h] w1] eqn:Eo.
  destruct (open_law _ _ _ _ _ _ Eo) as (Hf1 & Hok1 & Hnf1 & Hh1).
  case_bool_decide as Enf.
  { eexists _, _, _. split; [reflexivity|]. split; [done|]. split.
    - intros _. unfold stored, blob_key. by rewrite Hnf1.
    - intros [? _]%Hh1. done. }
  unfold is_ok. case_bool_decide as Eok; cbn [negb].
  2:{ eexists _, _, _. split; [reflexivity|]. split; [done|]. split; [done|].
      intros [? [?|[_ ?]]]%Hh1; done. }
  destruct (nvs_get_blob h (nvs_key config) (storage_size config) w1) as [[e2 blob] w2] eqn:Eg.
  destruct (get_law _ _ _ _ _ _ _ _ (Hok1 Eok) Eg) as (Hf2 & Hok2 & Hnf2 & Hh2).
  destruct (close_law h w2) as [Hf3 Hh3]. rewrite Hf1 in Hf2, Hok2, Hnf2, Hh2.
  case_bool_decide as Enf2.
  { eexists _, _, _. split; [reflexivity|]. split; [congruence|]. split.
    - intros _. unfold stored, blob_key. by rewrite Hnf2.
    - intros [[? _]%Hh2 _]%Hh1. auto. }
  case_bool_decide as Eok2; cbn [negb].
  2:{ eexists _, _, _. split; [reflexivity|]. split; [congruence|]. split; [done|].
      intros [[? Hc]%Hh2 _]%Hh1. split; [auto|]. unfold stored, blob_key.
      destruct (flash w !! _) as [b'|]; [|done]. intros [s Hs].
      destruct Eok2. apply Hc. destruct (Z.eqb_spec (Z.of_nat (length b')) (storage_size config)); [lia|done]. }
  destruct (Hok2 Eok2) as [Hbl Hle]. unfold stored, blob_key. rewrite Hbl.
  destruct (Z.eqb_spec (Z.of_nat (length blob)) (storage_size config)) as [El|El]; cbn [negb orb andb].
  2:{ load_refused Hh1 Hh2. }
  assert (drop (length blob) (encode_store (api_token_store_empty config)) = []) as ->.
  { apply drop_ge. rewrite encode_store_length by eapply valid_store_wf, empty_valid.
    cbn [records api_token_store_empty]. rewrite length_replicate. unfold storage_size, RECORD_SIZE in El. lia. }
  rewrite app_nil_r. destruct (decode_wf config blob El) as [_ Hwf].
  destruct (records_valid_total config _ Hwf) as [v Hv].
  destruct (version _ =? c_version config); cbn [negb orb andb].
  2:{ load_refused Hh1 Hh2. }
  destruct (record_size _ =? RECORD_SIZE); cbn [negb orb andb].
  2:{ load_refused Hh1 Hh2. }
  rewrite Hv. cbn [mbind option_bind]. destruct v.
  - eexists _, _, _. split; [reflexivity|]. split; [congruence|].
    rewrite bool_decide_eq_true_2 by done. split; [done|]. intros [[? _]%Hh2 _]%Hh1. auto.
  - rewrite bool_decide_eq_false_2 by done. load_refused Hh1 Hh2.
Qed.
Lemma save_spec config s w :
  ∃ e w', api_token_store_save config s w = (e, w')
    ∧ (flash w' = <[blob_key config := encode_store s]> (flash w) ∨ e ≠ ESP_OK ∧ flash w' = flash w)
    ∧ (healthy w → healthy w' ∧ e = ESP_OK).
Proof.
  unfold api_token_store_save, is_ok.
  destruct (nvs_open API_TOKEN_NAMESPACE true w) as [[e1 h] w1] eqn:Eo.
  destruct (open_law _ _ _ _ _ _ Eo) as (Hf1 & Hok1 & _ & Hh1).
  assert (∀ w, flash (if negb (h =? 0) then nvs_close h w else w) = flash w
    ∧ (healthy w → healthy (if negb (h =? 0) then nvs_close h w else w))) as Hclose.
  { intros w0. destruct (negb _); [apply close_law|done]. }
  case_bool_decide as Eok.
  - destruct (nvs_set_blob h (nvs_key config) (encode_store s) w1) as [e2 w2] eqn:Es.
    destruct (set_law _ _ _ _ _ _ _ (Hok1 Eok) Es) as (Hok2 & Hf2 & Hh2). rewrite Hf1 in Hf2.
    case_bool_decide as Eok2.
    + destruct (nvs_commit h w2) as [e3 w3] eqn:Ec.
      destruct (commit_law _ _ _ _ _ Hok2 Ec) as (Hf3 & Hh3).
      destruct (Hclose w3) as [Hf4 Hh4]. eexists _, _. split; [reflexivity|]. split.
      * left. destruct Hf2 as [Hf2|[? _]]; [|done]. rewrite Hf4, Hf3. exact Hf2.
      * intros [[[? ?]%Hh3 _]%Hh2 _]%Hh1. auto.
    + destruct (Hclose w2) as [Hf4 Hh4]. eexists _, _. split; [reflexivity|]. rewrite Hf4. split.
      * destruct Hf2 as [Hf2|[_ Hf2]]; [by left|by right].
      * intros [[? ?]%Hh2 _]%Hh1. done.
  - rewrite bool_decide_eq_false_2 by done. destruct (Hclose w1) as [Hf4 Hh4].
    eexists _, _. split; [reflexivity|]. split; [right; split; [done|congruence]|].
    intros [? [?|[? _]]]%Hh1; done.
Qed.

(** The verifier of a token under a salt. *)

Definition verifier_of (token salt : list Z) : list Z :=
  digest (api_token_verifier_domain ++ salt ++ take API_TOKEN_VALUE_LENGTH token).

(** An exit of the derivation after a failed step. *)

Ltac hash_failed Hfail op w :=
  let e := fresh in let v := fresh in let w' := fresh in let Hw := fresh in
  destruct (Hfail op w false) as (e & v & w' & -> & Hw & ->);
  exists ESP_FAIL, v, w'; split_and!; [done|congruence|done|].

Lemma derive_spec token salt0 w :
  ∃ e v w', api_token_store_derive_verifier token salt0 w = (e, v, w') ∧ flash w' = flash w
    ∧ (e = ESP_OK → v = verifier_of token salt0)
    ∧ (healthy w → healthy w' ∧ e = ESP_OK).
Proof.
  unfold api_token_store_derive_verifier.
  destruct (psa_crypto_init w) as [s0 w0] eqn:E0. destruct (init_law _ _ _ E0) as [F0 G0].
  assert (∀ op w s, ∃ e v w', (if (s : bool) && (length (@nil Z) =? API_TOKEN_VERIFIER_BYTES)%nat
     then ESP_OK else ESP_FAIL, @nil Z, psa_hash_abort op w) = (e, v, w') ∧ flash w' = flash w ∧ e = ESP_FAIL)
    as Hfail.
  { intros op w' s. eexists _, _, _. split; [reflexivity|]. split; [apply abort_law|by destruct s]. }
  destruct s0.
  2:{ hash_failed Hfail psa_op_init w0. intros [_ ?]%G0. done. }
  destruct (psa_hash_setup psa_op_init w0) as [[s1 op1] w1] eqn:E1.
  destruct (setup_law _ _ _ _ _ E1) as (F1 & M1 & G1). destruct s1.
  2:{ hash_failed Hfail op1 w1. intros [[_ ?]%G1 _]%G0. done. }
  destruct (psa_hash_update op1 api_token_verifier_domain w1) as [[s2 op2] w2] eqn:E2.
  destruct (update_law _ _ _ _ _ _ E2) as (F2 & M2 & G2). destruct s2.
  2:{ hash_failed Hfail op2 w2. intros [[[_ ?]%G2 _]%G1 _]%G0. done. }
  destruct (psa_hash_update op2 salt0 w2) as [[s3 op3] w3] eqn:E3.
  destruct (update_law _ _ _ _ _ _ E3) as (F3 & M3 & G3). destruct s3.
  2:{ hash_failed Hfail op3 w3. intros [[[[_ ?]%G3 _]%G2 _]%G1 _]%G0. done. }
  destruct (psa_hash_update op3 (take API_TOKEN_VALUE_LENGTH token) w3) as [[s4 op4] w4] eqn:E4.
  destruct (update_law _ _ _ _ _ _ E4) as (F4 & M4 & G4). destruct s4.
  2:{ hash_failed Hfail op4 w4. intros [[[[[_ ?]%G4 _]%G3 _]%G2 _]%G1 _]%G0. done. }
  destruct (psa_hash_finish op4 API_TOKEN_VERIFIER_BYTES w4) as [[s5 v] w5] eqn:E5.
  destruct (finish_law _ _ _ _ _ _ E5) as (F5 & M5 & G5). destruct (abort_law op4 w5) as [F6 G6].
  assert (s5 = true → v = verifier_of token salt0) as Hv.
  { intros ->. rewrite M5, M4, M3, M2, M1 by done. unfold verifier_of. by rewrite <- !app_assoc. }
  eexists _, v, _. split; [reflexivity|]. split; [congruence|]. split.
  - destruct s5; [auto|done].
  - intros [[[[[G _]%G4 _]%G3 _]%G2 _]%G1 _]%G0. destruct (G5 G eq_refl) as [G' ->].
    split; [auto|]. rewrite Hv by done. unfold verifier_of. by rewrite (proj1 (digest_length _)).
Qed.

Lemma fill_identifier_spec n s w :
  ∃ o w', fill_identifier n s w = (o, w') ∧ flash w' = flash w ∧ (healthy w → healthy w')
    ∧ ∀ identifier, o = Some identifier → length identifier = API_TOKEN_ID_BYTES
        ∧ aggregate identifier ≠ 0 ∧ api_token_store_identifier_is_unique s identifier = true.
Proof.
  revert w. induction n as [|n IH]; intros w; cbn [fill_identifier].
  { eexists _, _. by split_and!. }
  destruct (esp_fill_random API_TOKEN_ID_BYTES w) as [b w1] eqn:Er.
  destruct (random_law _ _ _ _ Er) as (Hl & _ & Hf & Hh).
  destruct (negb _ && _) eqn:E.
  - apply andb_true_iff in E as [E1%negb_true_iff%Z.eqb_neq E2].
    eexists _, _. split; [reflexivity|]. split_and!; [done..|]. intros ? [= <-]. done.
  - destruct (IH w1) as (o & w' & -> & Hf' & Hh' & Ho). exists o, w'.
    split_and!; [done|congruence|auto|done].
Qed.

(** ** Authorization *)

Definition grants (token : list Z) (required : Z) (r : ApiTokenStoreRecord) : Prop :=
  active r = 1 ∧ Z.land (scopes r) required = required ∧ verifier r = verifier_of token (salt r).

Lemma authorize_records_spec token required rs : ∀ acc w,
  Forall rec_wf rs → acc = 0 ∨ acc = 1 →
  ∃ a w', authorize_records rs token required acc w = (a, w') ∧ flash w' = flash w
    ∧ (a ≠ 0 → acc = 1 ∨ Exists (grants token required) rs)
    ∧ (healthy w → healthy w' ∧ (acc = 1 ∨ Exists (grants token required) rs → a ≠ 0)).
Proof.
  induction rs as [|r rs IH]; intros acc w Hwf Hacc; cbn [authorize_records].
  { exists acc, w. split_and!; [done|done|lia|]. intros Hh. split; [done|].
    intros [->|He]; [done|by apply Exists_nil in He]. }
  apply Forall_cons_1 in Hwf as [Hr Hrs].
  destruct (derive_spec token (salt r) w) as (e & v & w1 & -> & Hf & Hv & Hh). unfold is_ok.
  case_bool_decide as Eok; cbn [negb].
  2:{ exists 0, w1. split_and!; [done|done|done|]. intros [_ ?]%Hh. done. }
  specialize (Hv Eok). subst v.
  rewrite constant_time_equal_spec; [|apply digest_length|by apply wf_verifier].
  match goal with |- context [Z.lor acc ?x] => set (bit := x) end.
  assert ((bit = 0 ∨ bit = 1) ∧ (bit = 1 ↔ grants token required r)) as [Hbit Hg].
  { unfold bit, grants. case_bool_decide; destruct (Z.eqb_spec (active r) 1),
      (Z.eqb_spec (Z.land (scopes r) required) required); cbn; split; auto;
      split; (done || naive_solver). }
  destruct (IH (Z.lor acc bit) w1) as (a & w' & -> & Hf' & Ha & Ha').
  { done. } { destruct Hacc as [-> | ->], Hbit as [-> | ->]; auto. }
  assert (Z.lor acc bit = 1 ↔ acc = 1 ∨ bit = 1) as Hor.
  { destruct Hacc as [-> | ->], Hbit as [-> | ->]; cbn; split; (lia || naive_solver lia). }
  exists a, w'. rewrite Exists_cons, <- Hg. split_and!; [done|congruence| |].
  - intros [?%Hor|?]%Ha; tauto.
  - intros [Hw1 _]%Hh. destruct (Ha' Hw1) as [? Ha'']. split; [done|]. tauto.
Qed.

(** The required scope is checked against the configuration before the store is
    read. *)

Lemma scope_guard config required :
  config_ok config → 0 ≤ required < 2 ^ 32 →
  Z.land required (u32 (Z.lnot (scope config))) = 0 ↔ Z.land (scope config) required = required.
Proof.
  intros [_ Hs] Hr. assert (∀ i, 32 ≤ i → Z.testbit required i = false) as Hhi.
  { intros i Hi. destruct (decide (required = 0)) as [->|]; [apply Z.bits_0|].
    apply Z.bits_above_log2; [lia|]. apply Z.log2_lt_pow2; [lia|].
    apply Z.lt_le_trans with (2 ^ 32); [lia|apply Z.pow_le_mono_r; lia]. }
  split; intros E; apply Z.bits_inj'; intros i Hi; apply (f_equal (λ x, Z.testbit x i)) in E;
    unfold u32, wrap in *; rewrite Z.land_spec in *; rewrite ?Z.bits_0 in *;
    (destruct (Z.lt_ge_cases i 32);
     [rewrite ?Z.mod_pow2_bits_low, ?Z.lnot_spec in * by lia|rewrite ?(Hhi i) in * by lia]);
    destruct (Z.testbit required i), (Z.testbit (scope config) i); done.
Qed.
End laws.

Lemma authorize_exits {W} `{PlatformLaws W} config token required w :
  config_ok config → 0 ≤ required < 2 ^ 32 →
  ∃ b st w', api_token_store_authorize config token required w = Some (b, st, w')
    ∧ flash w' = flash w
    ∧ let allowed := ∃ t s r, token = Some t ∧ api_token_store_value_is_valid token = true
        ∧ required ≠ 0 ∧ Z.land (scope config) required = required
        ∧ stored config (flash w) = Some s ∧ r ∈ records s ∧ grants t required r in
      (b = true → allowed) ∧ (healthy w → allowed → b = true).
Proof.
  intros Hc Hreq. unfold api_token_store_authorize. cbn zeta.
  destruct (api_token_store_value_is_valid token) eqn:Ev; cbn [negb orb];
    [|eexists _, _, _; split; [reflexivity|]; split_and!; naive_solver].
  destruct (Z.eqb_spec required 0) as [->|Hne]; cbn [negb orb];
    [eexists _, _, _; split; [reflexivity|]; split_and!; naive_solver|].
  pose proof (scope_guard config required Hc Hreq) as Hg.
  destruct (Z.eqb_spec (Z.land required (u32 (Z.lnot (scope config)))) 0) as [E|E]; cbn [negb orb];
    [|eexists _, _, _; split; [reflexivity|]; split_and!; naive_solver].
  destruct (load_spec config w) as (e & s & w1 & -> & Hf & Hs & Hh). cbn [mbind option_bind].
  unfold is_ok. case_bool_decide as Eok; cbn [negb].
  2:{ eexists _, _, _. split; [reflexivity|]. split_and!; [done|done|].
      intros [_ Hh']%Hh (t & s' & r & _ & _ & _ & _ & Hst & _). destruct Eok. apply Hh'. eauto. }
  specialize (Hs Eok). destruct token as [t|]; [|done].
  destruct (authorize_records_spec t required (records s) 0 w1) as (a & w' & Ha & Hf' & Hsound & Hcomp);
    [by eapply valid_store_wf, stored_valid|by left|].
  change (default [] (Some t)) with t. rewrite Ha. eexists _, _, _. split; [reflexivity|]. split; [congruence|]. split.
  - intros [?|(r & ? & ?)%Exists_exists]%negb_true_iff%Z.eqb_neq%Hsound; [done|].
    exists t, s, r. split_and!; tauto || done.
  - intros [Hw1 _]%Hh (t' & s' & r & [= <-] & _ & _ & _ & Hst & Hr & Hgr).
    rewrite Hs in Hst. injection Hst as <-.
    apply negb_true_iff, Z.eqb_neq, Hcomp; [done|]. right. apply Exists_exists. eauto.
Qed.

(** C3. A request is authorized only if the store in flash is valid, the token
    has the form [esp32nut_v1_] and 64 hexadecimal digits, the required scope is
    not empty and lies within the store's scope, and an active record has the
    salted hash of exactly this token and carries the scope.  On a platform that
    does not fail the converse holds too.  The flash is never changed. *)
Theorem authorize_iff {W} `{PlatformLaws W} config token required w :
  config_ok config → 0 ≤ required < 2 ^ 32 →
  ∃ b st w', api_token_store_authorize config token required w = Some (b, st, w')
    ∧ flash w' = flash w
    ∧ let allowed := ∃ t s r, token = Some t ∧ api_token_store_value_is_valid token = true
        ∧ required ≠ 0 ∧ Z.land (scope config) required = required
        ∧ stored config (flash w) = Some s ∧ r ∈ records s ∧ grants t required r in
      (b = true → allowed) ∧ (healthy w → allowed → b = true).
Proof. apply authorize_exits. Qed.

(** ** Hexadecimal text *)

Lemma hex_digit_value d :
  0 ≤ d < 16 → hex_digit d ≠ 0 ∧ api_token_store_hexadecimal_value (hex_digit d) = d.
Proof.
  intros Hd. assert (d ∈ Z.of_nat <$> seq 0 16) as Hin.
  { apply list_elem_of_fmap. exists (Z.to_nat d). rewrite elem_of_seq. lia. }
  revert d Hd Hin. intros d _. revert d. apply Forall_forall.
  repeat (constructor; [split; [done|reflexivity]|]). constructor.
Qed.

Lemma nibbles b : is_byte b → 0 ≤ Z.shiftr b 4 < 16 ∧ 0 ≤ Z.land b 15 < 16
  ∧ u8 (Z.lor (Z.shiftl (Z.shiftr b 4) 4) (Z.land b 15)) = b.
Proof.
  intros Hb. unfold is_byte in Hb.
  rewrite Z.shiftr_div_pow2 by lia. change 15 with (Z.ones 4). rewrite Z.land_ones by lia.
  split; [Z.to_euclidean_division_equations; lia|]. split; [apply Z.mod_pos_bound; lia|].
  rewrite Z.shiftl_mul_pow2 by lia.
  assert (Z.land (b / 2 ^ 4 * 2 ^ 4) (b mod 2 ^ 4) = 0) as H0.
  { apply Z.bits_inj'. intros i Hi. rewrite Z.land_spec, Z.bits_0.
    destruct (Z.lt_ge_cases i 4).
    - by rewrite Z.mul_pow2_bits_low by lia.
    - rewrite Z.mod_pow2_bits_high by lia. apply andb_false_r. }
  rewrite <- Z.lxor_lor, <- Z.add_nocarry_lxor by done. unfold u8.
  rewrite wrap_small; [|Z.to_euclidean_division_equations; lia].
  pose proof (Z.div_mod b (2 ^ 4)). lia.
Qed.

Definition hex_of (b : list Z) : list Z :=
  concat ((λ b, [hex_digit (Z.shiftr b 4); hex_digit (Z.land b 0x0f)]) <$> b).

Lemma hex_of_length b : length (hex_of b) = (2 * length b)%nat.
Proof. unfold hex_of. induction b as [|x b IH]; cbn; [done|]. rewrite IH. lia. Qed.

Lemma bytes_to_hex_fit b n :
  (n = length b * 2 + 1)%nat → api_token_store_bytes_to_hex b n = hex_of b.
Proof. intros ->. unfold api_token_store_bytes_to_hex. by rewrite Nat.ltb_irrefl. Qed.

Lemma hex_of_digits b :
  Forall is_byte b → Forall (λ c, c ≠ 0 ∧ 0 ≤ api_token_store_hexadecimal_value c) (hex_of b).
Proof.
  unfold hex_of. induction 1 as [|x b Hx _ IH]; cbn [fmap list_fmap concat]; [constructor|].
  destruct (nibbles x Hx) as (H1 & H2 & _).
  apply hex_digit_value in H1 as [? E1], H2 as [? E2].
  repeat constructor; try done; rewrite ?E1, ?E2; destruct (nibbles x Hx) as (? & ? & _); lia.
Qed.

(** Identifiers survive the trip through their hexadecimal text: the
    16-digit text that the list shows is decoded by the delete operation to the
    same 8 bytes. *)
Theorem hex_roundtrip b :
  Forall is_byte b →
  api_token_store_hex_to_bytes (api_token_store_bytes_to_hex b (length b * 2 + 1))
    (length b * 2) (length b) = Some b.
Proof.
  intros Hb. rewrite bytes_to_hex_fit by done. unfold api_token_store_hex_to_bytes.
  rewrite Nat.eqb_refl. unfold hex_of.
  induction Hb as [|x b Hx _ IH]; [done|]. cbn [fmap list_fmap concat app length hex_pairs].
  destruct (nibbles x Hx) as (H1 & H2 & E).
  destruct (hex_digit_value _ H1) as [_ ->]. destruct (hex_digit_value _ H2) as [_ ->].
  rewrite !(proj2 (Z.ltb_ge _ _)) by lia. cbn [orb]. rewrite IH. cbn [mbind option_bind].
  by rewrite E.
Qed.

Lemma hex_roundtrip_witness :
  api_token_store_bytes_to_hex [0x0a; 0xff] 5 = str "0aff"
  ∧ api_token_store_hex_to_bytes (str "0aff") 4 2 = Some [0x0a; 0xff].
Proof.
  split; [reflexivity|].
  exact (hex_roundtrip [0x0a; 0xff] ltac:(repeat constructor; done)).
Defined.

(** ** Creation *)

Lemma name_valid_spec s :
  api_token_store_name_is_valid (Some s) = true →
  (0 < length s ≤ 32)%nat ∧ Forall (λ c, c ≠ 0) s.
Proof.
  unfold api_token_store_name_is_valid, API_TOKEN_NAME_MAX_LENGTH.
  destruct (Nat.eqb_spec (length s) 0); [done|].
  destruct (Nat.ltb_spec 32 (length s)); [done|]. destruct (_ || _); [done|].
  intros Hf. split; [lia|]. apply List.Forall_forall. intros c Hc. rewrite forallb_forall in Hf.
  specialize (Hf c Hc). intros ->. done.
Qed.

Lemma to_array_ok n s :
  (length s < n)%nat → Forall (λ c, c ≠ 0) s →
  length (to_array n s) = n ∧ cstr (to_array n s) = Some s
  ∧ take (length s) (to_array n s) = s ∧ to_array n s !! (n - 1)%nat = Some 0.
Proof.
  intros Hl Hs. unfold to_array. rewrite (take_ge s) by lia.
  destruct (n - length s)%nat as [|k] eqn:E; [lia|]. cbn [replicate]. split_and!.
  - rewrite length_app. cbn. rewrite length_replicate. lia.
  - by apply cstr_split.
  - apply take_app_length.
  - rewrite lookup_app_r by lia. replace (n - 1 - length s)%nat with k by lia.
    change (0 :: replicate k 0) with (replicate (S k) 0). apply lookup_replicate_2. lia.
Qed.

Lemma token_text_ok random :
  length random = 32%nat → Forall is_byte random →
  length (token_text random) = 76%nat
  ∧ api_token_store_value_is_valid (Some (token_text random)) = true
  ∧ Forall (λ c, c ≠ 0 ∧ 0 ≤ api_token_store_hexadecimal_value c) (drop 72 (token_text random)).
Proof.
  intros Hl Hb. unfold token_text. rewrite bytes_to_hex_fit by (rewrite Hl; done).
  pose proof (hex_of_length random) as Hh. pose proof (hex_of_digits random Hb) as Hd.
  assert (length (API_TOKEN_PREFIX ++ hex_of random) = 76%nat) as Hlen
    by (rewrite length_app, Hh, Hl; done).
  split; [done|]. split.
  - unfold api_token_store_value_is_valid. rewrite Hlen. cbn [Nat.eqb negb orb API_TOKEN_VALUE_LENGTH].
    change 12%nat with (length API_TOKEN_PREFIX). rewrite take_app_length, drop_app_length.
    rewrite bool_decide_eq_true_2 by done. cbn. apply forallb_forall. intros c Hc.
    rewrite List.Forall_forall in Hd. apply Z.leb_le, Hd, Hc.
  - rewrite drop_app_ge by (cbn; lia). by apply Forall_drop.
Qed.

Lemma available_spec rs i : available rs = Some i → ∃ r, rs !! i = Some r ∧ active r = 0.
Proof.
  revert i. induction rs as [|r rs IH]; intros i; cbn; [done|].
  destruct (Z.eqb_spec (active r) 0); [intros [= <-]; eauto|].
  destruct (available rs) as [k|]; [|done]. intros [= <-]. by apply IH.
Qed.

Lemma name_exists_spec config rs s :
  Forall (rec_valid config) rs → Forall (λ c, c ≠ 0) s →
  ∃ b, name_exists rs s = Some b
    ∧ (b = false → Forall (λ r, active r = 1 → lower (name_of r) ≠ lower s) rs).
Proof.
  intros Hrs Hs. induction Hrs as [|r rs [_ Hr] _ (b & IH & Hb)]; cbn; [eauto|].
  destruct (Z.eqb_spec (active r) 1) as [E|E].
  - destruct Hr as [?|Hr]; [congruence|].
    rewrite (names_equal_cstr _ _ (name_of r) s); [|by eapply active_ok_cstr|by apply cstr_split].
    cbn. case_bool_decide; [by exists true|]. exists b. split; [done|]. constructor; auto.
  - exists b. split; [done|]. constructor; [done|auto].
Qed.

Lemma unique_spec s identifier :
  Forall rec_wf (records s) → length identifier = 8%nat →
  api_token_store_identifier_is_unique s identifier = true →
  Forall (λ r, active r = 1 → id r ≠ identifier) (records s).
Proof.
  intros Hwf Hl Hu. unfold api_token_store_identifier_is_unique in Hu. rewrite forallb_forall in Hu.
  apply List.Forall_forall. intros r Hr Ha E. specialize (Hu r Hr).
  rewrite List.Forall_forall in Hwf.
  rewrite constant_time_equal_spec in Hu; [|by apply wf_id, Hwf|done].
  rewrite Ha, bool_decide_eq_true_2 in Hu by done. done.
Qed.

(** Putting a new record that is valid and different from the active ones in a
    free place. *)

Lemma valid_store_insert config s i old r :
  valid_store config s → records s !! i = Some old → active old = 0 → rec_wf r →
  active_ok config r →
  Forall (λ o, active o = 1 → lower (name_of o) ≠ lower (name_of r)) (records s) →
  Forall (λ o, active o = 1 → id o ≠ id r) (records s) →
  valid_store config (MkStore (version s) (record_size s) (<[i := r]> (records s))).
Proof.
  intros [] Hi Hold Hwf Hok Hn Hid. constructor; cbn; [done|done|by rewrite length_insert| |].
  - apply Forall_insert; [done|]. by split; [|right].
  - assert (∀ j o, j ≠ i → <[i := r]> (records s) !! j = Some o → differ o r) as Hd.
    { intros j o Hj Ho Ha _. rewrite list_lookup_insert_ne in Ho by done.
      split; [by eapply (Forall_lookup_1 _ _ _ _ Hn Ho)|by eapply (Forall_lookup_1 _ _ _ _ Hid Ho)]. }
    intros a b x y Hab Hx Hy.
    destruct (decide (a = i)) as [->|Ha]; [|destruct (decide (b = i)) as [->|Hb]].
    + rewrite list_lookup_insert_eq in Hx by (by eapply lookup_lt_Some). simplify_eq.
      apply differ_sym. by eapply Hd.
    + rewrite (list_lookup_insert_eq) in Hy by (by eapply lookup_lt_Some). simplify_eq. by eapply Hd.
    + rewrite list_lookup_insert_ne in Hx, Hy by done. by apply (vs_distinct0 a b).
Qed.

Lemma strlen_lt buf n : strlen buf = Some n → (n < length buf)%nat.
Proof.
  revert n. induction buf as [|x buf IH]; intros n; cbn; [done|].
  destruct (x =? 0); [intros [= <-]; lia|]. destruct (strlen buf); [|done].
  intros [= <-]. specialize (IH _ eq_refl). lia.
Qed.

(** The record that a creation builds. *)

Lemma new_record_ok config s issued identifier salt0 verifier0 random :
  config_ok config → API_TOKEN_VALID_EPOCH ≤ issued < 2 ^ 63 →
  api_token_store_name_is_valid (Some s) = true →
  length identifier = 8%nat → aggregate identifier ≠ 0 → length salt0 = 16%nat →
  length verifier0 = 32%nat → length random = 32%nat → Forall is_byte random →
  let r := MkRecord issued (scope config) 1 (replicate 3 0) identifier salt0 verifier0
             (to_array 33 s) (to_array 5 (drop 72 (token_text random))) (replicate 2 0) in
  rec_wf r ∧ active_ok config r ∧ name_of r = s.
Proof.
  intros [_ Hsc] Hi Hn Hid Hagg Hsalt Hver Hrl Hrb r.
  destruct (name_valid_spec s Hn) as [Hs0 Hsn].
  destruct (to_array_ok 33 s) as (N1 & N2 & _ & N4); [lia|done|].
  destruct (token_text_ok random Hrl Hrb) as (Ht & _ & Hf).
  assert (length (drop 72 (token_text random)) = 4%nat) as Hd by (rewrite length_drop; lia).
  assert (Forall (λ c, c ≠ 0) (drop 72 (token_text random))) as Hnz
    by (eapply Forall_impl; [done|]; by intros c [? _]).
  destruct (to_array_ok 5 (drop 72 (token_text random))) as (F1 & F2 & F3 & F4); [lia|done|].
  unfold API_TOKEN_VALID_EPOCH in Hi.
  split; [|split].
  - constructor; cbn [issued_at scopes reserved_before_id id salt verifier name final_four
      reserved_after_final_four r]; try done; lia.
  - rewrite Hd in F3. constructor; cbn [active id scopes issued_at name final_four r]; try done.
    + unfold API_TOKEN_VALID_EPOCH. lia.
    + by rewrite N2.
    + unfold cstr in F2. destruct (strlen _) as [n|] eqn:E; [|done]. cbn [mbind option_bind] in F2. f_equal.
      assert (take n (to_array 5 (drop 72 (token_text random))) = drop 72 (token_text random)) as F5
        by congruence.
      apply (f_equal length) in F5. rewrite length_take, F1, Hd in F5.
      apply strlen_lt in E. rewrite F1 in E. lia.
    + rewrite F3. apply forallb_forall. intros c Hc. rewrite List.Forall_forall in Hf.
      apply Z.leb_le, Hf, Hc.
  - unfold name_of. cbn [name r]. by rewrite N2.
Qed.

(** A successful creation, in terms of the flash before and after. *)

Definition created {W} `{PlatformLaws W} (config : ApiTokenStoreConfig) (name0 : option (list Z))
    (issued : Z) (f f' : gmap (list Z * list Z) (list Z)) (c : create_result) : Prop :=
  ∃ n s s' i old r,
    name0 = Some n ∧ stored config f = Some s ∧ records s !! i = Some old ∧ active old = 0
    ∧ f' = <[blob_key config := encode_store s']> f
    ∧ records s' = <[i := r]> (records s) ∧ stored config f' = Some s'
    ∧ name_of r = n ∧ issued_at r = issued
    ∧ Forall (λ o, active o = 1 → lower (name_of o) ≠ lower n ∧ id o ≠ id r) (records s)
    ∧ api_token_store_value_is_valid (Some (cr_token c)) = true
    ∧ grants (cr_token c) (scope config) r
    ∧ cr_metadata c = snd (api_token_store_metadata_from_record r).

Definition storage_clean (config : ApiTokenStoreConfig) (st : option ApiTokenStore) : Prop :=
  st = None ∨ st = Some (zeroize config).

Lemma load_zeroized {W} `{Platform W} config (w : W) e s w' :
  api_token_store_load config w = Some (e, s, w') → e = ESP_OK ∨ s = zeroize config.
Proof.
  unfold api_token_store_load. intros E.
  repeat (case_match; simplify_eq/=; auto).
  apply bind_Some in E as ([] & _ & E); simplify_eq; auto.
Qed.

(** A failed operation leaves the flash as it was, unless the write itself failed:
    then the new blob may or may not have been stored. *)

Definition kept {W} `{PlatformLaws W} (config : ApiTokenStoreConfig) (w w' : W) : Prop :=
  flash w' = flash w
  ∨ ¬ healthy w ∧ ∃ s', flash w' = <[blob_key config := encode_store s']> (flash w).

(** What every exit of a failed creation has in common. *)

Definition create_refused {W} `{PlatformLaws W} (config : ApiTokenStoreConfig) (w w' : W)
    (c : create_result) : Prop :=
  cr_result c ≠ ESP_OK ∧ cr_token c = [] ∧ cr_metadata c = zero_metadata
  ∧ storage_clean config (cr_storage c)
  ∧ kept config w w'.

Lemma Forall_unset {A} (P : A → Prop) (l : list A) i x y :
  l !! i = Some x → P x → Forall P (<[i := y]> l) → Forall P l.
Proof.
  intros Hi Hx Hf. rewrite <- (list_insert_id l i x Hi), <- (list_insert_insert_eq l i x y).
  by apply Forall_insert.
Qed.

Definition create_ok {W} `{PlatformLaws W} (config : ApiTokenStoreConfig) (name0 : option (list Z))
    (issued : Z) (w : W) (c : create_result) (w' : W) : Prop :=
  cr_result c = ESP_OK ∧ cr_storage c = Some (zeroize config)
  ∧ created config name0 issued (flash w) (flash w') c.

Definition create_outcome {W} `{PlatformLaws W} (config : ApiTokenStoreConfig)
    (name0 : option (list Z)) (issued : Z) (w : W) (res : create_result * W) : Prop :=
  create_refused config w res.2 res.1 ∨ create_ok config name0 issued w res.1 res.2.

Lemma create_exit {W} `{PlatformLaws W} config name0 issued (w w' : W) e st :
  e ≠ ESP_OK → storage_clean config st → kept config w w' →
  create_outcome config name0 issued w (create_failed e st, w').
Proof. intros He Hst Hf. by left. Qed.

Lemma create_at_spec {W} `{PlatformLaws W} config n issued s i old (w0 w : W) :
  config_ok config → API_TOKEN_VALID_EPOCH ≤ issued < 2 ^ 63 →
  api_token_store_name_is_valid (Some n) = true →
  flash w = flash w0 → (healthy w0 → healthy w) → stored config (flash w0) = Some s →
  Forall (λ r, active r = 1 → lower (name_of r) ≠ lower n) (records s) →
  records s !! i = Some old → active old = 0 →
  create_outcome config (Some n) issued w0 (create_at config n issued s i w).
Proof.
  intros Hc Hi En F1 Hh1 Hs Hnames Hold Hact. unfold create_at.
  pose proof (stored_valid _ _ _ Hs) as Hv. pose proof (valid_store_wf _ _ Hv) as Hwf.
  set (s0 := MkStore _ _ (<[i := zero_record]> _)).
  assert (Forall rec_wf (records s0)) as Hwf0 by (apply Forall_insert; [done|apply zero_record_wf]).
  destruct (fill_identifier_spec API_TOKEN_MAX_ID_ATTEMPTS s0 w) as (o & w2 & -> & F2 & Hh2 & Hid).
  destruct o as [identifier|]; [|apply create_exit; [done|by right|left; congruence]].
  destruct (Hid _ eq_refl) as (Hidl & Hagg & Huniq).
  apply unique_spec in Huniq; [|done|done].
  apply (Forall_unset _ _ _ _ _ Hold) in Huniq; [|by rewrite Hact].
  destruct (esp_fill_random API_TOKEN_RANDOM_BYTES w2) as [random w3] eqn:Er.
  destruct (random_law _ _ _ _ Er) as (Hrl & Hrb & F3 & Hh3).
  destruct (esp_fill_random API_TOKEN_SALT_BYTES w3) as [salt0 w4] eqn:Er'.
  destruct (random_law _ _ _ _ Er') as (Hsl & _ & F4 & Hh4).
  destruct (derive_spec (token_text random) salt0 w4) as (e5 & v & w5 & -> & F5 & Hver & Hh5).
  unfold is_ok at 1.
  case_bool_decide as Eok5; cbn [negb]; [|apply create_exit; [done|by right|left; congruence]].
  specialize (Hver Eok5). subst v.
  destruct (new_record_ok config n issued identifier salt0 (verifier_of (token_text random) salt0) random)
    as (Hrwf & Hrok & Hrn); [done..|apply digest_length|done|done|].
  change (API_TOKEN_VALUE_LENGTH - API_TOKEN_FINAL_FOUR_LENGTH)%nat with 72%nat.
  set (r := MkRecord _ _ _ _ _ _ _ _ _ _) in Hrwf, Hrok, Hrn |- *.
  unfold s0. cbn [records version record_size]. rewrite list_insert_insert_eq.
  destruct (api_token_store_metadata_from_record r) as [mok md] eqn:Emd.
  destruct mok; [|apply create_exit; [done|by right|left; congruence]].
  set (s' := MkStore _ _ (<[i := r]> _)).
  assert (valid_store config s') as Hv' by (apply (valid_store_insert _ _ _ old); try done; by rewrite Hrn).
  destruct (save_spec config s' w5) as (e6 & w6 & -> & F6 & Hh6).
  assert (flash w5 = flash w0) as F by congruence. rewrite F in F6.
  assert (healthy w0 → healthy w5) as Hh by (intros; apply Hh5; auto).
  unfold is_ok. case_bool_decide as Eok6.
  2:{ apply create_exit; [done|by right|]. destruct F6 as [F6|[_ ?]]; [right|by left].
      split; [|eauto]. intros Hw. destruct Eok6. by apply Hh6, Hh. }
  destruct F6 as [F6|[? _]]; [|done]. right. split; [done|]. split; [done|].
  exists n, s, s', i, old, r. cbn [fst snd cr_token cr_metadata]. split_and!; try done.
  - rewrite F6. by apply stored_insert.
  - apply Forall_lookup. intros k x Hx Hxa.
    split; [by eapply (Forall_lookup_1 _ _ _ _ Hnames Hx)|by eapply (Forall_lookup_1 _ _ _ _ Huniq Hx)].
  - by apply token_text_ok.
  - split_and!; [done|apply Z.land_diag|done].
  - by rewrite Emd.
Qed.

Lemma create_spec {W} `{PlatformLaws W} config name0 issued w :
  config_ok config → issued < 2 ^ 63 →
  ∃ res, api_token_store_create config name0 issued w = Some res
    ∧ create_outcome config name0 issued w res.
Proof.
  intros Hc Hi. unfold api_token_store_create.
  destruct (api_token_store_name_is_valid name0) eqn:En; cbn [negb orb];
    [|eexists; split; [reflexivity|]; by apply create_exit; [|left|left]].
  destruct (Z.ltb_spec issued API_TOKEN_VALID_EPOCH) as [|Hep];
    [eexists; split; [reflexivity|]; by apply create_exit; [|left|left]|].
  destruct name0 as [n|]; [|done]. change (default [] (Some n)) with n.
  destruct (load_spec config w) as (e & s & w1 & Hl & F1 & Hs & Hh1). rewrite Hl.
  apply load_zeroized in Hl. cbn [mbind option_bind]. unfold is_ok at 1.
  case_bool_decide as Eok; cbn [negb].
  2:{ destruct Hl as [?| ->]; [done|]. eexists; split; [reflexivity|].
      apply create_exit; [done|by right|by left]. }
  specialize (Hs Eok). pose proof (stored_valid _ _ _ Hs) as Hv.
  destruct (name_valid_spec n En) as [_ Hnz].
  destruct (name_exists_spec config (records s) n) as (b & Hne & Hnames); [apply Hv|done|].
  unfold api_token_store_name_exists. rewrite Hne. cbn [mbind option_bind].
  destruct b; [eexists; split; [reflexivity|]; apply create_exit; [done|by right|by left]|].
  destruct (available (records s)) as [i|] eqn:Ea.
  - destruct (available_spec _ _ Ea) as (old & Hold & Hact).
    eexists. split; [reflexivity|]. eapply create_at_spec; try done; [|auto].
    intros Hw. by apply Hh1.
  - eexists. split; [reflexivity|]. apply create_exit; [done|by right|by left].
Qed.

Lemma create_exits {W} `{PlatformLaws W} config name0 issued w :
  config_ok config → issued < 2 ^ 63 →
  ∃ c w', api_token_store_create config name0 issued w = Some (c, w')
    ∧ storage_clean config (cr_storage c)
    ∧ if is_ok (cr_result c) then created config name0 issued (flash w) (flash w') c
      else cr_token c = [] ∧ cr_metadata c = zero_metadata ∧ kept config w w'.
Proof.
  intros Hc Hi. destruct (create_spec config name0 issued w Hc Hi) as ([c w'] & E & Ho).
  exists c, w'. split; [done|]. unfold is_ok. destruct Ho as [(He & ? & ? & ? & ?)|(He & Hst & ?)].
  - split; [done|]. by rewrite bool_decide_eq_false_2.
  - split; [by right|]. by rewrite bool_decide_eq_true_2.
Qed.

(** C14. A creation never accesses memory out of bounds.  When it reports success
    the flash holds the previous records unchanged and one new record in a free
    place, with the requested name (unused before, without regard to case), a new
    identifier and the salted hash of the token that is handed out, and the store
    is valid again.  Otherwise no token and no metadata are handed out and the
    flash is unchanged (or the write to it failed).  Every exit wipes the storage. *)
Theorem create_correct {W} `{PlatformLaws W} config name0 issued w :
  config_ok config → issued < 2 ^ 63 →
  ∃ c w', api_token_store_create config name0 issued w = Some (c, w')
    ∧ storage_clean config (cr_storage c)
    ∧ if is_ok (cr_result c) then created config name0 issued (flash w) (flash w') c
      else cr_token c = [] ∧ cr_metadata c = zero_metadata ∧ kept config w w'.
Proof. apply create_exits. Qed.

Definition w_empty : sim := MkSim ∅ [] 123456789012345678901234567890 false.

Lemma create_correct_witness :
  ∃ c w', api_token_store_create api_token_store_config (Some (str "ci bot")) 1720000000 w_empty
      = Some (c, w')
    ∧ storage_clean api_token_store_config (cr_storage c).
Proof.
  destruct (create_correct api_token_store_config (Some (str "ci bot")) 1720000000 w_empty)
    as (c & w' & E & Hs & _); [done|done|]. exists c, w'. split; assumption.
Defined.

Lemma authorize_iff_witness :
  ∃ b st w', api_token_store_authorize api_token_store_config (Some (str "esp32nut_v1_")) 1 w_empty
    = Some (b, st, w').
Proof.
  destruct (authorize_iff api_token_store_config (Some (str "esp32nut_v1_")) 1 w_empty)
    as (b & st & w' & E & _); [done|done|]. exists b, st, w'. exact E.
Defined.

(** C15. The token handed out by a successful creation authorizes requests for the
    store's scope, on a platform that does not fail. *)
Theorem create_authorizes {W} `{PlatformLaws W} config name0 issued w c w' :
  config_ok config → issued < 2 ^ 63 →
  api_token_store_create config name0 issued w = Some (c, w') → cr_result c = ESP_OK →
  healthy w' →
  ∃ st w'', api_token_store_authorize config (Some (cr_token c)) (scope config) w'
    = Some (true, st, w'').
Proof.
  intros Hc Hi E Hok Hh. destruct (create_spec config name0 issued w Hc Hi) as (res & E' & Ho).
  rewrite E in E'. injection E' as <-. destruct Ho as [(He & _)|(_ & _ & Hcr)]; [done|].
  destruct Hcr as (n & s & s' & i & old & r & _ & _ & Hold & _ & _ & Hrs & Hst & _ & _ & _ & Hval & Hg & _).
  destruct (authorize_exits config (Some (cr_token c)) (scope config) w')
    as (b & st & w'' & Ea & _ & _ & Hb); [done|destruct Hc; lia|].
  exists st, w''. rewrite Ea. do 2 f_equal. f_equal. apply Hb; [done|].
  exists (cr_token c), s', r. split_and!; try done.
  - destruct Hc; lia.
  - apply Z.land_diag.
  - rewrite Hrs. apply list_elem_of_lookup. exists i.
    apply list_lookup_insert_eq. by eapply lookup_lt_Some.
Qed.

Definition w_one : sim := Eval vm_compute in
  match api_tokens_create (Some (str "ci bot")) 1720000000 1 w_empty with
  | Some (_, w) => w | None => w_empty end.

Definition token_one : list Z := Eval vm_compute in
  match api_tokens_create (Some (str "ci bot")) 1720000000 1 w_empty with
  | Some (c, _) => cr_token c | None => [] end.

Definition metadata_one : ApiTokenMetadata := Eval vm_compute in
  match api_tokens_create (Some (str "ci bot")) 1720000000 1 w_empty with
  | Some (c, _) => cr_metadata c | None => zero_metadata end.

Lemma create_authorizes_witness :
  ∃ st w'', api_token_store_authorize api_token_store_config (Some token_one) 1 w_one
    = Some (true, st, w'').
Proof.
  apply (create_authorizes api_token_store_config (Some (str "ci bot")) 1720000000 w_empty
    (MkCreate ESP_OK metadata_one token_one (Some (zeroize api_token_store_config))) w_one).
  - done.
  - done.
  - vm_compute. reflexivity.
  - reflexivity.
  - reflexivity.
Defined.

(** ** Deletion *)

Lemma shift_records_spec n : ∀ rs i,
  (i + n < length rs)%nat →
  shift_records rs i n = take i rs ++ take n (drop (S i) rs) ++ drop (i + n) rs.
Proof.
  induction n as [|n IH]; intros rs i Hn; cbn [shift_records].
  { rewrite take_0, Nat.add_0_r. cbn. by rewrite take_drop. }
  destruct (lookup_lt_is_Some_2 rs (S i)) as [r Hr]; [lia|]. rewrite Hr.
  rewrite IH by (rewrite length_insert; lia).
  rewrite !drop_insert_lt by lia. rewrite (drop_S rs r (S i)) by done. cbn [take].
  rewrite (take_S_r _ _ r) by (apply list_lookup_insert_eq; lia).
  rewrite take_insert_ge by lia. rewrite <- app_assoc. cbn. do 4 f_equal. lia.
Qed.

Definition remove_record (rs : list ApiTokenStoreRecord) (i : nat) : list ApiTokenStoreRecord :=
  take i rs ++ drop (S i) rs ++ [zero_record].

Lemma delete_records_spec rs i :
  (i < length rs)%nat →
  <[(length rs - 1)%nat := zero_record]> (shift_records rs i (length rs - 1 - i))
  = remove_record rs i.
Proof.
  intros Hi. rewrite shift_records_spec by lia. unfold remove_record.
  replace (i + (length rs - 1 - i))%nat with (length rs - 1)%nat by lia.
  rewrite (take_ge (drop (S i) rs)) by (rewrite length_drop; lia).
  destruct (lookup_lt_is_Some_2 rs (length rs - 1)) as [x Hx]; [lia|].
  rewrite (drop_S rs x (length rs - 1)) by done. rewrite (drop_ge rs (S (length rs - 1))) by lia.
  rewrite !insert_app_r_alt by (rewrite ?length_take, ?length_drop; lia).
  rewrite length_take, length_drop.
  match goal with |- context [<[?k := zero_record]> [x]] => replace k with 0%nat by lia end. done.
Qed.

(** A record of the result is the zeroed one or comes from its own place. *)

Lemma remove_record_lookup rs i j x :
  (i < length rs)%nat → remove_record rs i !! j = Some x →
  x = zero_record ∧ S j = length rs ∨ rs !! (if (j <? i)%nat then j else S j) = Some x.
Proof.
  intros Hi. unfold remove_record. destruct (Nat.ltb_spec j i).
  - rewrite lookup_app_l by (rewrite length_take; lia). rewrite lookup_take_lt by done. auto.
  - rewrite lookup_app_r by (rewrite length_take; lia). rewrite length_take.
    destruct (Nat.lt_ge_cases (S j) (length rs)).
    + rewrite lookup_app_l by (rewrite length_drop; lia). rewrite lookup_drop.
      replace (S i + (j - i `min` length rs))%nat with (S j) by lia. auto.
    + rewrite lookup_app_r by (rewrite length_drop; lia). rewrite length_drop.
      intros [Hk ->]%list_lookup_singleton_Some. left. split; [done|lia].
Qed.

Lemma valid_store_remove config s i :
  valid_store config s → (i < length (records s))%nat →
  valid_store config (MkStore (version s) (record_size s) (remove_record (records s) i)).
Proof.
  intros [] Hi. constructor; cbn; try done.
  - rewrite <- vs_count0. unfold remove_record.
    rewrite !length_app, length_take, length_drop. cbn. lia.
  - unfold remove_record. rewrite !Forall_app. split_and!; [by apply Forall_take|by apply Forall_drop|].
    repeat constructor; cbn; done || by left.
  - intros a b x y Hab Hx Hy.
    apply remove_record_lookup in Hx as [[-> _]|Hx]; [by intros ?| |done].
    apply remove_record_lookup in Hy as [[-> _]|Hy]; [by intros _ ?| |done].
    apply (vs_distinct0 _ _ _ _) with (2 := Hx) (3 := Hy).
    destruct (Nat.ltb_spec a i), (Nat.ltb_spec b i); lia.
Qed.

Lemma find_id_spec rs identifier :
  Forall rec_wf rs → length identifier = 8%nat →
  match find_id rs identifier with
  | Some i => ∃ r, rs !! i = Some r ∧ active r = 1 ∧ id r = identifier
  | None => Forall (λ r, active r = 1 → id r ≠ identifier) rs
  end.
Proof.
  intros Hwf Hl. induction Hwf as [|r rs Hr _ IH]; cbn [find_id]; [constructor|].
  rewrite constant_time_equal_spec by (try apply wf_id; done).
  destruct (Z.eqb_spec (active r) 1) as [E|E]; cbn [andb].
  - case_bool_decide as Eid; [by exists r|].
    destruct (find_id rs identifier) as [i|]; cbn; [done|by constructor].
  - destruct (find_id rs identifier) as [i|]; cbn; [done|by constructor].
Qed.

Lemma hex_pairs_length s n b : hex_pairs s n = Some b → length b = n.
Proof.
  revert s b. induction n as [|n IH]; intros [|h [|l s]] b; cbn; try done; try (by intros [= <-]).
  destruct (_ || _); [done|]. destruct (hex_pairs s n) as [r|] eqn:E; cbn; [|done].
  intros [= <-]. cbn. by rewrite (IH s r).
Qed.

Lemma id_text_length id0 b : id_text id0 = Some b → length b = 8%nat.
Proof.
  unfold id_text, api_token_store_hex_to_bytes. destruct id0 as [s|]; cbn [mbind option_bind]; [|done].
  destruct (_ =? _)%nat; [|done]. cbn. apply hex_pairs_length.
Qed.

Lemma delete_exits {W} `{PlatformLaws W} config id0 w :
  config_ok config → (0 < record_count config)%nat →
  ∃ e st w', api_token_store_delete config id0 w = Some (e, st, w') ∧ storage_clean config st
    ∧ (if is_ok e then ∃ identifier s s' i r,
         id_text id0 = Some identifier ∧ stored config (flash w) = Some s
         ∧ records s !! i = Some r ∧ active r = 1 ∧ id r = identifier
         ∧ records s' = remove_record (records s) i
         ∧ flash w' = <[blob_key config := encode_store s']> (flash w)
         ∧ stored config (flash w') = Some s'
       else kept config w w')
    ∧ (healthy w → ∀ identifier s r, id_text id0 = Some identifier →
         stored config (flash w) = Some s → r ∈ records s → active r = 1 → id r = identifier →
         e = ESP_OK).
Proof.
  intros Hc Hcount. unfold api_token_store_delete.
  destruct (id_text id0) as [identifier|] eqn:Eid.
  2:{ eexists _, _, _. split; [reflexivity|]. split; [by left|]. split; [by left|]. naive_solver. }
  pose proof (id_text_length _ _ Eid) as Hl.
  destruct (load_spec config w) as (e & s & w1 & El & F1 & Hs & Hh1). rewrite El.
  apply load_zeroized in El. cbn [mbind option_bind]. unfold is_ok at 1.
  case_bool_decide as Eok; cbn [negb].
  2:{ destruct El as [?| ->]; [done|]. eexists _, _, _. split; [reflexivity|].
      split; [by right|]. unfold is_ok. rewrite bool_decide_eq_false_2 by done. split; [by left|].
      intros [_ Hst]%Hh1 ? ? ? _ E _ _ _. destruct Eok. apply Hst. by rewrite E. }
  specialize (Hs Eok). pose proof (stored_valid _ _ _ Hs) as Hv.
  pose proof (find_id_spec (records s) identifier (valid_store_wf _ _ Hv) Hl) as Hfind.
  destruct (find_id (records s) identifier) as [i|].
  2:{ eexists _, _, _. split; [reflexivity|]. split; [by right|]. split; [by left|].
      intros _ ? s2 r [= <-] E Hr Ha Hid. rewrite Hs in E. injection E as <-.
      apply list_elem_of_lookup in Hr as [k Hk].
      by destruct (Forall_lookup_1 _ _ _ _ Hfind Hk). }
  destruct Hfind as (r & Hr & Ha & Hid). pose proof (lookup_lt_Some _ _ _ Hr) as Hi.
  rewrite <- (vs_count _ _ Hv), delete_records_spec by done.
  set (s' := MkStore _ _ _).
  pose proof (valid_store_remove config s i Hv Hi) as Hv'. fold s' in Hv'.
  destruct (save_spec config s' w1) as (e2 & w2 & -> & F2 & Hh2). rewrite F1 in F2.
  eexists _, _, _. split; [reflexivity|]. split; [by right|]. split.
  - unfold is_ok. case_bool_decide as Eok2.
    + destruct F2 as [F2|[? _]]; [|done]. exists identifier, s, s', i, r.
      split_and!; try done. rewrite F2. by apply stored_insert.
    + destruct F2 as [F2|[_ ?]]; [right|by left]. split; [|eauto].
      intros [Hw1 _]%Hh1. by destruct Eok2, Hh2.
  - intros [Hw1 _]%Hh1 ? ? ? _ _ _ _ _. by apply Hh2.
Qed.

(** C16. A deletion never accesses memory out of bounds and wipes the storage.
    When it reports success, one active record with the given identifier is gone
    from the flash and every other record is kept, in order, with the free place
    at the end; otherwise the flash is unchanged (or the write to it failed).  On a
    platform that does not fail, deleting an identifier in a valid store succeeds
    exactly when some active record has it. *)
Theorem delete_correct {W} `{PlatformLaws W} config id0 w :
  config_ok config → (0 < record_count config)%nat →
  ∃ e st w', api_token_store_delete config id0 w = Some (e, st, w') ∧ storage_clean config st
    ∧ (if is_ok e then ∃ identifier s s' i r,
         id_text id0 = Some identifier ∧ stored config (flash w) = Some s
         ∧ records s !! i = Some r ∧ active r = 1 ∧ id r = identifier
         ∧ records s' = remove_record (records s) i
         ∧ flash w' = <[blob_key config := encode_store s']> (flash w)
         ∧ stored config (flash w') = Some s'
       else kept config w w')
    ∧ (healthy w → ∀ identifier s r, id_text id0 = Some identifier →
         stored config (flash w) = Some s → r ∈ records s → active r = 1 → id r = identifier →
         e = ESP_OK).
Proof. apply delete_exits. Qed.

Lemma delete_correct_witness :
  ∃ e st w', api_token_store_delete api_token_store_config (Some (m_id metadata_one)) w_one
    = Some (e, st, w').
Proof.
  destruct (delete_correct api_token_store_config (Some (m_id metadata_one)) w_one)
    as (e & st & w' & E & _); [done|vm_compute; lia|]. exists e, st, w'. exact E.
Defined.

(** C17. Deleting a token revokes it: after a successful deletion of the record
    [r], no request with a token that only [r] granted is authorized. *)
Theorem delete_revokes {W} `{PlatformLaws W} config id0 w st w' t required s :
  config_ok config → (0 < record_count config)%nat → 0 ≤ required < 2 ^ 32 →
  api_token_store_delete config id0 w = Some (ESP_OK, st, w') →
  stored config (flash w) = Some s →
  (∀ r, r ∈ records s → grants t required r → id_text id0 = Some (id r)) →
  ∃ st' w'', api_token_store_authorize config (Some t) required w' = Some (false, st', w'').
Proof.
  intros Hc Hcount Hreq E Hs Honly.
  destruct (delete_exits config id0 w Hc Hcount) as (e & st0 & w0 & E' & _ & Hok & _).
  rewrite E in E'. injection E' as <- <- <-.
  destruct Hok as (identifier & s1 & s' & i & r & Hid & Hs1 & Hr & Ha & Hrid & Hrs & _ & Hs').
  rewrite Hs in Hs1. injection Hs1 as <-.
  destruct (authorize_exits config (Some t) required w') as (b & st' & w'' & Ea & _ & Hb & _); [done..|].
  exists st', w''. rewrite Ea. destruct b; [|done]. exfalso.
  destruct (Hb eq_refl) as (t' & s2 & r' & [= <-] & _ & _ & _ & Hs2 & Hr' & Hg).
  rewrite Hs' in Hs2. injection Hs2 as <-. rewrite Hrs in Hr'.
  apply list_elem_of_lookup in Hr' as [k Hk].
  apply remove_record_lookup in Hk as [[-> _]|Hk]; [by destruct Hg| |by eapply lookup_lt_Some].
  pose proof (list_elem_of_lookup_2 _ _ _ Hk) as Hin.
  specialize (Honly r' Hin Hg). rewrite Hid in Honly. injection Honly as Honly.
  assert ((if (k <? i)%nat then k else S k) ≠ i) as Hki by (destruct (Nat.ltb_spec k i); lia).
  destruct (vs_distinct _ _ (stored_valid _ _ _ Hs) _ _ _ _ Hki Hk Hr) as [_ Hne];
    [by destruct Hg|done|congruence].
Qed.

Definition w_deleted : sim := Eval vm_compute in
  match api_tokens_delete (Some (m_id metadata_one)) w_one with
  | Some (_, _, w) => w | None => w_empty end.

Definition store_one : ApiTokenStore := Eval vm_compute in
  default (api_token_store_empty api_token_store_config)
    (stored api_token_store_config (sim_flash w_one)).

Lemma delete_revokes_witness :
  ∃ st' w'', api_token_store_authorize api_token_store_config (Some token_one) 1 w_deleted
    = Some (false, st', w'').
Proof.
  apply (delete_revokes api_token_store_config (Some (m_id metadata_one)) w_one
    (Some (zeroize api_token_store_config)) w_deleted token_one 1 store_one).
  - done.
  - vm_compute. lia.
  - done.
  - vm_compute. reflexivity.
  - vm_compute. reflexivity.
  - intros r Hr [Ha _]. unfold store_one in Hr. cbn [records] in Hr.
    repeat (apply elem_of_cons in Hr as [->|Hr]; [first [discriminate Ha|vm_compute; reflexivity]|]).
    by apply not_elem_of_nil in Hr.
Defined.

(** C18. Listing never accesses memory out of bounds, changes nothing in flash and
    wipes the storage.  A successful listing gives the public metadata of exactly
    the active records of a valid store, in order; a failed one gives nothing. *)
Theorem list_correct {W} `{PlatformLaws W} config capacity w :
  ∃ e ms st w', api_token_store_list config capacity w = Some (e, ms, st, w')
    ∧ flash w' = flash w ∧ storage_clean config st
    ∧ if is_ok e then ∃ s, stored config (flash w) = Some s
        ∧ ms = (λ r, snd (api_token_store_metadata_from_record r))
                 <$> filter (λ r, active r = 1) (records s)
        ∧ (length ms ≤ capacity)%nat
      else ms = [].
Proof.
  unfold api_token_store_list. destruct (Nat.ltb_spec capacity (record_count config)) as [|Hcap].
  { eexists _, _, _, _. split; [reflexivity|]. split; [done|]. split; [by left|done]. }
  destruct (load_spec config w) as (e & s & w1 & -> & F1 & Hs & _). cbn [mbind option_bind].
  assert (∀ rs e ms, list_records rs = (e, ms) → e = ESP_OK →
    ms = (λ r, snd (api_token_store_metadata_from_record r)) <$> filter (λ r, active r = 1) rs) as Hlist.
  { clear. induction rs as [|r rs IH]; intros e ms; cbn [list_records]; [by intros [= <- <-]|].
    rewrite filter_cons. destruct (Z.eqb_spec (active r) 1) as [Ea|Ea].
    - rewrite decide_True by done. cbn [fmap list_fmap].
      destruct (api_token_store_metadata_from_record r) as [[] m]; [|by intros [= <- <-]].
      destruct (list_records rs) as [e' ms'] eqn:E. intros [= <- <-] ->. f_equal. by eapply IH.
    - rewrite decide_False by done. apply IH. }
  assert (∀ rs : list ApiTokenStoreRecord,
    (length (filter (λ r, active r = 1%Z) rs) ≤ length rs)%nat) as Hfl
    by (intros rs; apply length_filter).
  unfold is_ok at 1. case_bool_decide as Eok.
  - specialize (Hs Eok). destruct (list_records (records s)) as [e2 ms] eqn:El.
    eexists _, _, _, _. split; [reflexivity|]. split; [done|]. split; [by right|].
    unfold is_ok. case_bool_decide as Eok2; [|done]. exists s. split; [done|].
    specialize (Hlist _ _ _ El Eok2). split; [done|]. rewrite Hlist, length_fmap.
    etransitivity; [apply Hfl|]. by rewrite (vs_count _ _ (stored_valid _ _ _ Hs)).
  - eexists _, _, _, _. split; [reflexivity|]. split; [done|]. split; [by right|].
    unfold is_ok. by rewrite bool_decide_eq_false_2.
Qed.

(** The answer of an authorization path, decided by one store: it accepts a token
    only if that store, as the flash holds it, has an active record with the
    token's hash and the scope, and on a platform that does not fail exactly then. *)

Definition decided_by {W} `{PlatformLaws W} (config : ApiTokenStoreConfig) (required : Z)
    (token : option (list Z)) (w : W) (answer : option (bool * option ApiTokenStore * W)) : Prop :=
  ∃ b st w', answer = Some (b, st, w') ∧ flash w' = flash w
    ∧ let held := ∃ t s r, token = Some t ∧ api_token_store_value_is_valid token = true
        ∧ stored config (flash w) = Some s ∧ r ∈ records s ∧ grants t required r in
      (b = true → held) ∧ (healthy w → held → b = true).

Lemma authorize_decided {W} `{PlatformLaws W} config required token w :
  config_ok config → 0 < required < 2 ^ 32 → Z.land (scope config) required = required →
  decided_by config required token w (api_token_store_authorize config token required w).
Proof.
  intros Hc Hr Hs. destruct (authorize_exits config token required w) as (b & st & w' & E & Hf & Hb & Hb');
    [done|lia|]. exists b, st, w'. split; [done|]. split; [done|]. split.
  - intros (t & s & r & ? & ? & _ & _ & ? & ? & ?)%Hb. eauto 10.
  - intros Hh (t & s & r & ? & ? & ? & ? & ?). apply Hb'; [done|]. exists t, s, r. split_and!; done || lia.
Qed.

(** C19. The two stores do not affect each other: creating or deleting a token of
    one never changes what the other holds.  The diagnostics path accepts a token
    only if the diagnostics store holds an active record with its hash and the
    diagnostics scope, and on a platform that does not fail exactly then; the OTA
    path likewise for the OTA store.  So a token of one store is accepted by the
    other's path only if the other holds it too; the OTA path never answers yes
    for the diagnostics scope. *)
Theorem stores_isolated {W} `{PlatformLaws W} (w w' : W) name0 issued sc id0 c e st :
  issued < 2 ^ 63 →
  (api_tokens_create name0 issued sc w = Some (c, w') ∨ api_tokens_delete id0 w = Some (e, st, w') →
   stored diagnostic_token_store_config (flash w') = stored diagnostic_token_store_config (flash w))
  ∧ (diagnostic_tokens_create name0 issued w = Some (c, w')
     ∨ diagnostic_tokens_delete id0 w = Some (e, st, w') →
   stored api_token_store_config (flash w') = stored api_token_store_config (flash w))
  ∧ (∀ token, decided_by diagnostic_token_store_config API_TOKEN_SCOPE_DIAGNOSTICS_NUT token w
      (diagnostic_tokens_authorize token w))
  ∧ (∀ token, decided_by api_token_store_config API_TOKEN_SCOPE_OTA_INSTALL token w
      (api_tokens_authorize token API_TOKEN_SCOPE_OTA_INSTALL w))
  ∧ (∀ token, api_tokens_authorize token API_TOKEN_SCOPE_DIAGNOSTICS_NUT w = Some (false, None, w)).
Proof.
  intros Hi.
  assert (∀ a b, blob_key b ≠ blob_key a → config_ok a → (0 < record_count a)%nat →
    (api_token_store_create a name0 issued w = Some (c, w')
     ∨ api_token_store_delete a id0 w = Some (e, st, w')) →
    stored b (flash w') = stored b (flash w)) as Hmain.
  { intros a b Hk Ha Hn.
    assert (flash w' = flash w ∨ (∃ s, flash w' = <[blob_key a := encode_store s]> (flash w)) →
      stored b (flash w') = stored b (flash w)) as Hkeep.
    { intros [->|[s ->]]; [done|]. by rewrite stored_insert_other by congruence. }
    intros [E|E].
    - destruct (create_exits a name0 issued w Ha Hi) as (c1 & w1 & E1 & _ & Hr).
      rewrite E in E1. injection E1 as <- <-. apply Hkeep. destruct (is_ok _).
      + destruct Hr as (? & ? & s' & ? & ? & ? & _ & _ & _ & _ & ? & _). eauto.
      + destruct Hr as (_ & _ & [?|[_ ?]]); auto.
    - destruct (delete_exits a id0 w Ha Hn) as (e1 & st1 & w1 & E1 & _ & Hr & _).
      rewrite E in E1. injection E1 as <- <- <-. apply Hkeep. destruct (is_ok _).
      + destruct Hr as (? & ? & s' & ? & ? & _ & _ & _ & _ & _ & _ & ? & _). eauto.
      + destruct Hr as [?|[_ ?]]; auto. }
  split_and!.
  - intros [E|E]; [unfold api_tokens_create in E; destruct (negb _); [congruence|]|];
      (apply (Hmain api_token_store_config); [done|done|vm_compute; lia|]); [by left|by right].
  - intros Hop. apply (Hmain diagnostic_token_store_config); [done|done|vm_compute; lia|done].
  - intros token. by apply authorize_decided.
  - intros token. by apply authorize_decided.
  - intros token. unfold api_tokens_authorize, api_token_store_authorize.
    destruct (api_token_store_value_is_valid token); done.
Qed.

Lemma stores_isolated_witness :
  stored diagnostic_token_store_config (sim_flash w_one)
    = stored diagnostic_token_store_config (sim_flash w_empty).
Proof.
  destruct (stores_isolated w_empty w_one (Some (str "ci bot")) 1720000000 1 None
    (MkCreate ESP_OK metadata_one token_one (Some (zeroize api_token_store_config))) ESP_OK None)
    as [H _]; [done|]. apply H. left. vm_compute. reflexivity.
Defined.
