(* ===== verification/Session.v ===== *)
(** * ADMIN browser sessions (src/src/management-session.c) *)

From Stdlib Require Import ZArith Lia String.
From stdpp Require Import base tactics list numbers option.
From S2P Require Import Prelude Platform TokenStore.

#[local] Open Scope Z_scope.

(** ** Data *)

Definition MANAGEMENT_SESSION_BYTES : nat := 32.
Definition MANAGEMENT_SESSION_HEX_LENGTH : nat := 64.
Definition MANAGEMENT_SESSION_IDLE_SECONDS : Z := 15 * 60.
Definition MANAGEMENT_LOGIN_COOLDOWN_SECONDS : Z := 60.
Definition MANAGEMENT_MICROSECONDS_PER_SECOND : Z := 1000000.
Definition MANAGEMENT_SESSION_IDLE_US : Z :=
  MANAGEMENT_SESSION_IDLE_SECONDS * MANAGEMENT_MICROSECONDS_PER_SECOND.
Definition MANAGEMENT_LOGIN_MAX_FAILURES : Z := 5.
Definition MANAGEMENT_LOGIN_COOLDOWN_US : Z :=
  MANAGEMENT_LOGIN_COOLDOWN_SECONDS * MANAGEMENT_MICROSECONDS_PER_SECOND.

(** The arrays [cookie] and [csrf] hold 65 bytes. *)

Record ManagementSession := MkSession {
  active : bool;
  cookie : list Z;
  csrf : list Z;
  last_activity_us : Z
}.

(** The static variables, and the state after [mbedtls_platform_zeroize]. *)

Definition no_session : ManagementSession :=
  MkSession false (replicate 65 0) (replicate 65 0) 0.

Record login_state := MkLogin {
  management_login_failures : Z;
  management_login_cooldown_until_us : Z
}.

Definition login0 : login_state := MkLogin 0 0.

(** ** Helpers *)

Definition management_bytes_to_hex (source : list Z) (destination_length : nat) : list Z :=
  if (destination_length <? length source * 2 + 1)%nat then []
  else concat ((λ b, [hex_digit (Z.shiftr b 4); hex_digit (Z.land b 0x0f)]) <$> source).

Definition management_constant_time_equal (l r : list Z) (n : nat) : bool :=
  difference l r n 0 =? 0.

Fixpoint strchr (s : list Z) (c : Z) : option nat :=
  match s with
  | [] => None
  | x :: s' => if x =? c then Some 0%nat else S <$> strchr s' c
  end.

Fixpoint skip_separators (s : list Z) : list Z :=
  match s with
  | c :: s' => if (c =? 32) || (c =? 59) then skip_separators s' else s
  | [] => []
  end.

(** The loop over the entries of the header: every turn that goes on leaves a
    shorter rest. *)

Fixpoint cookie_loop (fuel : nat) (entry name : list Z) (size : nat) : option (list Z) :=
  match fuel, entry with
  | O, _ | _, [] => None
  | S fuel', _ =>
    let entry := skip_separators entry in
    match strchr entry 61 with
    | None => None
    | Some separator =>
      let after := drop (S separator) entry in
      let value_length := default (length after) (strchr after 59) in
      if (separator =? length name)%nat && bool_decide (take separator entry = name)
         && (value_length + 1 <=? size)%nat
      then Some (take value_length after)
      else cookie_loop fuel' (drop value_length after) name size
    end
  end.

Definition is_hex_digit (c : Z) : bool := ((48 <=? c) && (c <=? 57)) || ((97 <=? c) && (c <=? 102)).

Definition management_session_is_hex_token (token : option (list Z)) : bool :=
  match token with
  | None => false
  | Some token => (length token =? MANAGEMENT_SESSION_HEX_LENGTH)%nat && forallb is_hex_digit token
  end.

(** A string into an array of [size] bytes, zero after its end. *)

Definition session_array (s : list Z) : list Z := to_array 65 s.

Section requests.
Context {R : Type} `{Httpd R}.

Definition management_session_cookie_value (request : R) (name : list Z) (size : nat)
    : option (list Z) :=
  let cookie_length := httpd_req_get_hdr_value_len request (str "Cookie") in
  if (cookie_length =? 0) || (256 <? cookie_length) || (size =? 0)%nat then None
  else
    let '(e, cookie_header) := httpd_req_get_hdr_value_str request (str "Cookie") 257 in
    if negb (is_ok e) then None
    else cookie_loop (S (length cookie_header)) cookie_header name size.

Definition management_session_is_authorized (request : R) (refresh : bool) (now : Z)
    (s : ManagementSession) : bool * ManagementSession :=
  match management_session_cookie_value request (str "ESP32NUT_SESSION") 65 with
  | None => (false, s)
  | Some value =>
    if negb (length value =? MANAGEMENT_SESSION_HEX_LENGTH)%nat then (false, s)
    else if active s && (now - last_activity_us s <=? MANAGEMENT_SESSION_IDLE_US)
            && management_constant_time_equal value (cookie s) MANAGEMENT_SESSION_HEX_LENGTH
    then (true, if refresh then MkSession (active s) (cookie s) (csrf s) now else s)
    else if active s && (MANAGEMENT_SESSION_IDLE_US <? now - last_activity_us s)
    then (false, no_session)
    else (false, s)
  end.

Definition management_session_csrf_is_valid (request : R) (now : Z) (s : ManagementSession)
    : bool * ManagementSession :=
  let '(authorized, s) := management_session_is_authorized request true now s in
  if negb authorized then (false, s)
  else
    let '(e, value) := httpd_req_get_hdr_value_str request (str "X-ESP32-NUT-CSRF") 65 in
    if negb (is_ok e) || negb (length value =? MANAGEMENT_SESSION_HEX_LENGTH)%nat then (false, s)
    else (management_constant_time_equal value (csrf s) MANAGEMENT_SESSION_HEX_LENGTH, s).

(** The setup cookie of a first run: the given one or a new random one. *)

Definition management_session_start_setup {W} `{Platform W} (request : R) (w : W)
    : list Z * list Z * W :=
  let '(value, w) :=
    match management_session_cookie_value request (str "ESP32NUT_SETUP") 65 with
    | Some value =>
      if management_session_is_hex_token (Some value) then (value, w)
      else let '(b, w) := esp_fill_random MANAGEMENT_SESSION_BYTES w in
           (management_bytes_to_hex b 65, w)
    | None => let '(b, w) := esp_fill_random MANAGEMENT_SESSION_BYTES w in
              (management_bytes_to_hex b 65, w)
    end in
  (value,
   str "ESP32NUT_SETUP=" ++ value ++ str "; Path=/; Max-Age=300; Secure; HttpOnly; SameSite=Strict",
   w).

Definition management_session_setup_csrf_is_valid (request : R) (token : option (list Z)) : bool :=
  if management_session_is_hex_token token then
    match management_session_cookie_value request (str "ESP32NUT_SETUP") 65 with
    | Some value =>
      if management_session_is_hex_token (Some value)
      then management_constant_time_equal value (default [] token) MANAGEMENT_SESSION_HEX_LENGTH
      else false
    | None => false
    end
  else false.

End requests.

(** ** Operations *)

Definition management_session_start {W} `{Platform W} (now : Z) (w : W) : ManagementSession * W :=
  let '(cookie_bytes, w) := esp_fill_random MANAGEMENT_SESSION_BYTES w in
  let '(csrf_bytes, w) := esp_fill_random MANAGEMENT_SESSION_BYTES w in
  (MkSession true (session_array (management_bytes_to_hex cookie_bytes 65))
     (session_array (management_bytes_to_hex csrf_bytes 65)) now, w).

(** The header value, in a buffer that is large enough. *)

Definition management_session_set_cookie (s : ManagementSession) : list Z :=
  str "ESP32NUT_SESSION=" ++ default [] (cstr (cookie s))
  ++ str "; Path=/; Secure; HttpOnly; SameSite=Strict".

Definition management_session_expire_cookie : list Z :=
  str "ESP32NUT_SESSION=; Path=/; Max-Age=0; Secure; HttpOnly; SameSite=Strict".

Definition management_session_clear (s : ManagementSession) : ManagementSession := no_session.

Definition management_session_remaining_seconds (now : Z) (s : ManagementSession) : Z :=
  if active s then
    let elapsed_us := now - last_activity_us s in
    if elapsed_us <? MANAGEMENT_SESSION_IDLE_US then
      let remaining_us := MANAGEMENT_SESSION_IDLE_US - elapsed_us in
      if 0 <? remaining_us then u32 (Z.quot remaining_us MANAGEMENT_MICROSECONDS_PER_SECOND) else 0
    else 0
  else 0.

Definition management_session_copy_csrf (s : ManagementSession) : list Z := default [] (cstr (csrf s)).

Definition management_session_login_retry_after_seconds (now : Z) (l : login_state) : Z :=
  if now <? management_login_cooldown_until_us l then
    s32 (Z.quot (management_login_cooldown_until_us l - now + MANAGEMENT_MICROSECONDS_PER_SECOND - 1)
           MANAGEMENT_MICROSECONDS_PER_SECOND)
  else 0.

Definition management_session_record_login_failure (now : Z) (l : login_state) : bool * login_state :=
  let failures := u32 (management_login_failures l + 1) in
  if MANAGEMENT_LOGIN_MAX_FAILURES <=? failures
  then (true, MkLogin 0 (now + MANAGEMENT_LOGIN_COOLDOWN_US))
  else (false, MkLogin failures (management_login_cooldown_until_us l)).

Definition management_session_record_login_success (l : login_state) : login_state := MkLogin 0 0.

(** ** The Cookie header *)

(** The text a browser sends: [name=value] entries separated by ["; "]. *)

Fixpoint cookies_text (l : list (list Z * list Z)) : list Z :=
  match l with
  | [] => []
  | [(n, v)] => n ++ 61 :: v
  | (n, v) :: l' => n ++ 61 :: v ++ 59 :: 32 :: cookies_text l'
  end.

Definition cookie_ok (e : list Z * list Z) : Prop :=
  Forall (λ c, c ≠ 61 ∧ c ≠ 59 ∧ c ≠ 32) e.1 ∧ Forall (λ c, c ≠ 59) e.2.

Lemma strchr_first a c b : Forall (λ x, x ≠ c) a → strchr (a ++ c :: b) c = Some (length a).
Proof.
  induction 1 as [|x a Hx _ IH]; cbn; [by rewrite Z.eqb_refl|].
  by rewrite (proj2 (Z.eqb_neq x c)), IH by done.
Qed.

Lemma strchr_none a c : Forall (λ x, x ≠ c) a → strchr a c = None.
Proof.
  induction 1 as [|x a Hx _ IH]; cbn; [done|]. by rewrite (proj2 (Z.eqb_neq x c)), IH by done.
Qed.

Lemma skip_separators_name n rest :
  Forall (λ c, c ≠ 61 ∧ c ≠ 59 ∧ c ≠ 32) n →
  skip_separators (n ++ 61 :: rest) = n ++ 61 :: rest.
Proof.
  intros [|x n' (? & ? & ?) _]; [done|]. cbn [app skip_separators].
  by rewrite (proj2 (Z.eqb_neq x 32)), (proj2 (Z.eqb_neq x 59)) by done.
Qed.

(** The first entry that has the name and fits. *)

Fixpoint first_cookie (l : list (list Z * list Z)) (name : list Z) (size : nat) : option (list Z) :=
  match l with
  | [] => None
  | (n, v) :: l' =>
    if bool_decide (n = name) && (length v + 1 <=? size)%nat then Some v
    else first_cookie l' name size
  end.

Lemma first_cookie_0 l name : first_cookie l name 0 = None.
Proof.
  induction l as [|[n v] l IH]; [done|]. cbn [first_cookie].
  by rewrite (proj2 (Nat.leb_gt _ _)), andb_false_r by lia.
Qed.

Lemma name_matches (n rest name : list Z) :
  (length n =? length name)%nat && bool_decide (take (length n) (n ++ rest) = name)
  = bool_decide (n = name).
Proof.
  rewrite take_app_length. case_bool_decide as E; [subst; by rewrite Nat.eqb_refl|apply andb_false_r].
Qed.

Lemma cookie_loop_text l : ∀ fuel name size,
  Forall cookie_ok l → (length (cookies_text l) < fuel)%nat →
  cookie_loop fuel (cookies_text l) name size = first_cookie l name size
  ∧ cookie_loop fuel (59 :: 32 :: cookies_text l) name size = first_cookie l name size.
Proof.
  intros fuel name size Hl.
  assert (∀ fuel s, cookie_loop fuel (59 :: 32 :: s) name size = cookie_loop fuel s name size ∨
    s = [] ∧ cookie_loop fuel (59 :: 32 :: s) name size = None) as Hskip.
  { intros [|k] s; [by left|]. destruct s as [|x s]; [by right|]. by left. }
  enough (∀ fuel, (length (cookies_text l) < fuel)%nat →
    cookie_loop fuel (cookies_text l) name size = first_cookie l name size) as Hmain.
  { intros Hf. split; [by apply Hmain|].
    destruct (Hskip fuel (cookies_text l)) as [->|[E ->]]; [by apply Hmain|].
    rewrite <- (Hmain fuel Hf), E. by destruct fuel. }
  clear fuel. induction Hl as [|[n v] l [Hn Hv] Hl IH]; intros [|fuel] Hf; try done; try lia.
  cbn [fst snd] in Hn, Hv.
  assert (cookies_text ((n, v) :: l) = n ++ 61 :: v ++ match l with [] => [] | _ => 59 :: 32 :: cookies_text l end)
    as Ht by (destruct l; cbn; by rewrite ?app_nil_r).
  rewrite Ht in Hf |- *. set (rest := match l with [] => [] | _ => _ end) in *.
  cbn [cookie_loop first_cookie].
  assert (∃ x s, n ++ 61 :: v ++ rest = x :: s) as (x & s & Ens) by (destruct n; cbn; eauto).
  rewrite Ens, <- Ens, skip_separators_name by done.
  rewrite strchr_first by (eapply list.Forall_impl; [done|]; by intros ? (? & ? & ?)).
  replace (drop (S (length n)) (n ++ 61 :: v ++ rest)) with (v ++ rest)
    by (rewrite <- Nat.add_1_r, drop_app_add; done).
  assert (default (length (v ++ rest)) (strchr (v ++ rest) 59) = length v) as ->.
  { unfold rest. destruct l; [rewrite app_nil_r, strchr_none by done; done|].
    by rewrite strchr_first. }
  rewrite name_matches, take_app_length, drop_app_length.
  destruct (bool_decide (n = name) && _); [done|].
  unfold rest in *. rewrite !length_app in Hf. cbn in Hf. rewrite length_app in Hf.
  destruct l as [|e l]; [by destruct fuel|].
  destruct (Hskip fuel (cookies_text (e :: l))) as [->|[E ->]].
  - apply IH. cbn [length] in Hf. lia.
  - exfalso. destruct e as [[|] ?], l; cbn in E; done.
Qed.

(** C23. Parsing the Cookie header that a browser builds from named values gives
    the first value with the requested name that fits in the buffer when the
    header has at most 256 characters; a longer header is refused, whatever it
    holds.  The names have no [=], [;] or space and the values no [;]. *)
Theorem cookie_value_first {R} `{HttpdLaws R} request l name size :
  header request (str "Cookie") = Some (cookies_text l) → Forall cookie_ok l →
  management_session_cookie_value request name size
  = if (256 <? length (cookies_text l))%nat then None else first_cookie l name size.
Proof.
  intros E Hl. unfold management_session_cookie_value.
  rewrite hdr_len_law, E. change (default [] (Some ?x)) with x.
  destruct (Nat.ltb_spec 256 (length (cookies_text l))) as [Hlong|Hlen].
  { by rewrite (proj2 (Z.ltb_lt 256 _)), orb_true_r by lia. }
  pose proof (hdr_str_law request (str "Cookie") 257) as Hs. rewrite E in Hs.
  rewrite (proj2 (Nat.ltb_lt _ 257)) in Hs by lia. rewrite Hs.
  destruct (decide (l = [])) as [->|Hne]; [done|].
  destruct size as [|size]; [by rewrite orb_true_r, first_cookie_0|].
  assert (length (cookies_text l) ≠ 0%nat) as Hpos.
  { destruct l as [|[n v] [|]]; [done|..]; cbn; rewrite length_app; cbn; lia. }
  rewrite (proj2 (Z.eqb_neq _ 0)), (proj2 (Z.ltb_ge 256 _)), (proj2 (Nat.eqb_neq (S size) 0)) by lia.
  cbn [orb is_ok negb]. apply cookie_loop_text; [done|lia].
Qed.

Definition browser_cookies : list (list Z * list Z) :=
  [(str "theme", str "dark"); (str "ESP32NUT_SESSION", str "0123456789abcdef")].

Lemma cookie_value_first_witness :
  management_session_cookie_value [(str "Cookie", cookies_text browser_cookies)]
    (str "ESP32NUT_SESSION") 65 = Some (str "0123456789abcdef").
Proof.
  rewrite (cookie_value_first _ browser_cookies); [reflexivity|reflexivity|].
  repeat constructor; done.
Defined.

Lemma cookie_loop_nil fuel name size : cookie_loop fuel [] name size = None.
Proof. by destruct fuel. Qed.

(** An entry without [=] hides the one that follows: the parser takes the
    text up to the next [=] as the name, so the cookie after a valueless entry is
    not found. *)
Theorem cookie_value_flag_hides {R} `{HttpdLaws R} request flag name v size :
  flag ≠ [] → Forall (λ c, c ≠ 61 ∧ c ≠ 59 ∧ c ≠ 32) flag → Forall (λ c, c ≠ 61) name →
  Forall (λ c, c ≠ 59) v →
  header request (str "Cookie") = Some (flag ++ 59 :: 32 :: name ++ 61 :: v) →
  management_session_cookie_value request name size = None.
Proof.
  intros Hne Hf Hn Hv E. unfold management_session_cookie_value.
  destruct (_ || _); [done|].
  pose proof (hdr_str_law request (str "Cookie") 257) as Hs. rewrite E in Hs.
  destruct (length _ <? 257)%nat; [rewrite Hs|]; cycle 1.
  { destruct (httpd_req_get_hdr_value_str _ _ _) as [e s]. unfold is_ok.
    by rewrite bool_decide_eq_false_2. }
  change (is_ok ESP_OK) with true. cbn [negb].
  set (pre := flag ++ 59 :: 32 :: name).
  assert (flag ++ 59 :: 32 :: name ++ 61 :: v = pre ++ 61 :: v) as ->
    by (unfold pre; by rewrite <- app_assoc).
  assert (skip_separators (pre ++ 61 :: v) = pre ++ 61 :: v) as Hskip.
  { unfold pre. destruct flag as [|x flag]; [done|]. apply Forall_cons_1 in Hf as [(? & ? & ?) _].
    cbn [app skip_separators]. by rewrite (proj2 (Z.eqb_neq x 32)), (proj2 (Z.eqb_neq x 59)) by done. }
  assert (strchr (pre ++ 61 :: v) 61 = Some (length pre)) as Hsep.
  { apply strchr_first. unfold pre. apply Forall_app. split.
    - eapply list.Forall_impl; [done|]. by intros ? (? & ? & ?).
    - constructor; [done|]. by constructor. }
  assert (length pre ≠ length name) as Hlen.
  { unfold pre. rewrite length_app. cbn. lia. }
  cbn [cookie_loop]. destruct (pre ++ 61 :: v) as [|y s] eqn:Ey; [done|]. rewrite <- Ey in Hskip, Hsep |- *.
  rewrite Hskip, Hsep, (proj2 (Nat.eqb_neq _ _) Hlen). cbn [andb].
  rewrite <- Nat.add_1_r, drop_app_add. change (drop 1 (61 :: v)) with v.
  rewrite strchr_none by done. change (default (length v) None) with (length v).
  rewrite drop_all. apply cookie_loop_nil.
Qed.

Lemma cookie_value_flag_hides_witness :
  management_session_cookie_value [(str "Cookie", str "seen; ESP32NUT_SESSION=00")]
    (str "ESP32NUT_SESSION") 65 = None.
Proof.
  apply (cookie_value_flag_hides _ (str "seen") (str "ESP32NUT_SESSION") (str "00"));
    [done|repeat constructor; done|repeat constructor; done|repeat constructor; done|reflexivity].
Defined.

(** ** The life of a session *)

Section life.
Context {R W : Type} `{HttpdLaws R} `{PlatformLaws W}.

Inductive event :=
  | EStart (now : Z) (w : W)
  | ECheck (request : R) (refresh : bool) (now : Z)
  | ECsrf (request : R) (now : Z)
  | EClear.

Definition apply_event (s : ManagementSession) (e : event) : ManagementSession :=
  match e with
  | EStart now w => fst (management_session_start now w)
  | ECheck r f now => snd (management_session_is_authorized r f now s)
  | ECsrf r now => snd (management_session_csrf_is_valid r now s)
  | EClear => management_session_clear s
  end.

Definition run_events (es : list event) : ManagementSession := foldl apply_event no_session es.

(** Events that neither open nor close a session by themselves. *)

Definition is_check (e : event) : bool :=
  match e with ECheck _ _ _ | ECsrf _ _ => true | _ => false end.

(** The activity that keeps a session open: an event that asks for a refresh,
    carries the cookie [c], and is authorized in the state [s] it meets. *)

Definition renewal (c : list Z) (s : ManagementSession) (e : event) : list Z :=
  match e with
  | ECheck r true now | ECsrf r now =>
    if bool_decide (management_session_cookie_value r (str "ESP32NUT_SESSION") 65 = Some c)
       && fst (management_session_is_authorized r true now s)
    then [now] else []
  | _ => []
  end.

(** The times of the renewals among the events that follow the state [s]. *)

Fixpoint renewals (c : list Z) (s : ManagementSession) (es : list event) : list Z :=
  match es with
  | [] => []
  | e :: es' => renewal c s e ++ renewals c (apply_event s e) es'
  end.

Lemma renewals_snoc c es : ∀ s e,
  renewals c s (es ++ [e]) = renewals c s es ++ renewal c (foldl apply_event s es) e.
Proof.
  induction es as [|x es IH]; intros s e; cbn; [by rewrite app_nil_r|]. by rewrite IH, app_assoc.
Qed.

(** The cookie and CSRF texts of a start. *)

Definition issued_cookie (now : Z) (w : W) : list Z :=
  default [] (cstr (cookie (fst (management_session_start now w)))).

Lemma start_spec now w :
  ∃ c k, fst (management_session_start now w) = MkSession true (session_array c) (session_array k) now
    ∧ length c = 64%nat ∧ length k = 64%nat ∧ Forall (λ x, x ≠ 0) c.
Proof.
  unfold management_session_start.
  destruct (esp_fill_random MANAGEMENT_SESSION_BYTES w) as [b w1] eqn:E1.
  destruct (random_law _ _ _ _ E1) as (L1 & B1 & _).
  destruct (esp_fill_random MANAGEMENT_SESSION_BYTES w1) as [k w2] eqn:E2.
  destruct (random_law _ _ _ _ E2) as (L2 & _ & _).
  eexists _, _. split; [reflexivity|]. unfold MANAGEMENT_SESSION_BYTES in *.
  change (management_bytes_to_hex ?x 65) with (api_token_store_bytes_to_hex x 65).
  rewrite !bytes_to_hex_fit by (rewrite ?L1, ?L2; done). rewrite !hex_of_length, L1, L2.
  split_and!; [done|done|]. eapply list.Forall_impl; [by apply hex_of_digits|]. by intros x [? _].
Qed.

Lemma session_array_spec c :
  length c = 64%nat → Forall (λ x, x ≠ 0) c →
  take 64 (session_array c) = c ∧ cstr (session_array c) = Some c.
Proof.
  intros Hl Hc. destruct (to_array_ok 65 c) as (_ & Hc1 & Hc2 & _); [lia|done|].
  rewrite Hl in Hc2. done.
Qed.

Lemma difference_take n : ∀ l r acc, difference l r n acc = difference l (take n r) n acc.
Proof. induction n as [|n IH]; intros [|x l] [|y r] acc; cbn; auto. Qed.

(** The check of a request against the session. *)

Lemma authorized_spec r f now s s' :
  management_session_is_authorized r f now s = (true, s') →
  active s = true ∧ now - last_activity_us s ≤ MANAGEMENT_SESSION_IDLE_US
  ∧ (∃ v, management_session_cookie_value r (str "ESP32NUT_SESSION") 65 = Some v
      ∧ length v = 64%nat ∧ management_constant_time_equal v (cookie s) 64 = true)
  ∧ s' = if f then MkSession (active s) (cookie s) (csrf s) now else s.
Proof.
  unfold management_session_is_authorized.
  destruct (management_session_cookie_value _ _ _) as [v|]; [|done].
  destruct (Nat.eqb_spec (length v) MANAGEMENT_SESSION_HEX_LENGTH); cbn [negb]; [|done].
  destruct (active s && _ && _) eqn:E; [|match goal with |- context [if ?b then _ else _] => destruct b end; intros [=]].
  intros [= <-]. apply andb_true_iff in E as [[E1 E2%Z.leb_le]%andb_true_iff E3]. eauto 10.
Qed.

Lemma unauthorized_state r f now s s' :
  management_session_is_authorized r f now s = (false, s') → s' = s ∨ s' = no_session.
Proof.
  unfold management_session_is_authorized.
  destruct (management_session_cookie_value _ _ _) as [v|]; [|intros [= <-]; by left].
  destruct (negb _); [intros [= <-]; by left|]. destruct (_ && _ && _); [done|].
  destruct (_ && _); intros [= <-]; auto.
Qed.

Lemma csrf_state r now s :
  snd (management_session_csrf_is_valid r now s) = snd (management_session_is_authorized r true now s).
Proof.
  unfold management_session_csrf_is_valid.
  destruct (management_session_is_authorized r true now s) as [[] s']; cbn; [|done].
  by repeat case_match.
Qed.

(** A cookie that compares equal to the one of a start is the one it issued. *)

Lemma equal_is_issued v now w :
  length v = 64%nat →
  management_constant_time_equal v (cookie (fst (management_session_start now w))) 64 = true →
  v = issued_cookie now w.
Proof.
  intros Hl Heq. unfold issued_cookie. destruct (start_spec now w) as (c & k & Es & Lc & _ & Nc).
  rewrite Es in Heq |- *. cbn [cookie] in *. destruct (session_array_spec c Lc Nc) as [Ht ->].
  unfold management_constant_time_equal in Heq. rewrite difference_take, Ht in Heq.
  apply Z.eqb_eq, difference_zero in Heq as [_ ?]; done.
Qed.

(** What an active session descends from: a start, with only checks since, and as
    its activity time that of the last renewal, or of the start. *)

Definition descends (es : list event) (s : ManagementSession) : Prop :=
  ∃ es1 now0 w es2, es = es1 ++ EStart now0 w :: es2 ∧ Forall (λ e, is_check e = true) es2
    ∧ cookie s = cookie (fst (management_session_start now0 w))
    ∧ csrf s = csrf (fst (management_session_start now0 w))
    ∧ s = foldl apply_event (fst (management_session_start now0 w)) es2
    ∧ list.last (now0 :: renewals (issued_cookie now0 w) (fst (management_session_start now0 w)) es2)
      = Some (last_activity_us s).

Lemma last_snoc_default {A} (l l' : list A) x :
  list.last (x :: l ++ l') = match list.last l' with Some y => Some y | None => list.last (x :: l) end.
Proof. rewrite app_comm_cons. apply list.last_app. Qed.

(** A check of a session that descends from a start, if it is still active
    afterwards. *)

Lemma descends_check es s e r f now :
  descends es s → e = ECheck r f now ∨ e = ECsrf r now ∧ f = true → active s = true →
  active (snd (management_session_is_authorized r f now s)) = true →
  descends (es ++ [e]) (snd (management_session_is_authorized r f now s)).
Proof.
  intros (es1 & now0 & w & es2 & -> & Hc & Hk & Hcs & Hs & Ht) He Ha Ha'.
  set (s0 := fst (management_session_start now0 w)) in *. set (c := issued_cookie now0 w) in *.
  assert (apply_event s e = snd (management_session_is_authorized r f now s)) as Happ
    by (destruct He as [->|[-> ->]]; [done|apply csrf_state]).
  exists es1, now0, w, (es2 ++ [e]). fold s0 c. rewrite <- app_assoc, foldl_app, <- Hs. cbn [foldl].
  rewrite Happ, renewals_snoc, <- Hs, last_snoc_default.
  assert (is_check e = true) as Hce by (by destruct He as [->|[-> _]]).
  assert (renewal c s e = if f then if bool_decide (management_session_cookie_value r
      (str "ESP32NUT_SESSION") 65 = Some c) && fst (management_session_is_authorized r true now s)
    then [now] else [] else []) as -> by (destruct He as [->|[-> ->]]; by try destruct f).
  split; [done|]. split; [by apply Forall_app; split; [|constructor]|].
  destruct (management_session_is_authorized r f now s) as [[] s'] eqn:E; cbn [fst snd] in *.
  - pose proof (authorized_spec _ _ _ _ _ E) as (_ & _ & (v & Hv & Hl & Heq) & ->).
    rewrite Hk in Heq. apply equal_is_issued in Heq as ->; [|done].
    destruct f; [|by split_and!].
    rewrite E, bool_decide_eq_true_2 by done. by split_and!.
  - destruct (unauthorized_state _ _ _ _ _ E) as [-> | ->]; [|done].
    assert ((if f then if bool_decide (management_session_cookie_value r
      (str "ESP32NUT_SESSION") 65 = Some c) && fst (management_session_is_authorized r true now s)
      then [now] else [] else []) = []) as ->; [|by split_and!].
    destruct f; [|done]. by rewrite E, andb_false_r.
Qed.

Lemma run_events_descends es : active (run_events es) = true → descends es (run_events es).
Proof.
  unfold run_events. induction es as [|e es IH] using rev_ind; [done|].
  rewrite foldl_app. cbn [foldl]. set (s := foldl apply_event no_session es) in *.
  assert (∀ r f now, active (snd (management_session_is_authorized r f now s)) = true →
    active s = true) as Hactive.
  { intros r f now Ha. destruct (management_session_is_authorized r f now s) as [[] s'] eqn:E; cbn in Ha.
    - by apply authorized_spec in E as [? _].
    - by apply unauthorized_state in E as [-> | ->]. }
  destruct e as [now w|r f now|r now|]; cbn [apply_event].
  - intros _. exists es, now, w, []. split_and!; try done. cbn.
    by destruct (start_spec now w) as (c & k & -> & _).
  - intros Ha. apply descends_check; eauto.
  - rewrite csrf_state. intros Ha. apply descends_check; eauto.
  - done.
Qed.

(** C5. A request is only ever authorized as ADMIN if it carries the cookie of the
    most recent start of a session, no logout came since, and at most 15 minutes
    have passed since that start or since the last request that carried this
    cookie, was authorized and asked for a refresh.  Requests that were refused do
    not prolong a session; a new start, a logout or a quarter of an hour without
    an authorized request invalidates every earlier cookie. *)
Theorem authorized_origin es r f now s' :
  management_session_is_authorized r f now (run_events es) = (true, s') →
  ∃ es1 now0 w es2 t, es = es1 ++ EStart now0 w :: es2 ∧ Forall (λ e, is_check e = true) es2
    ∧ management_session_cookie_value r (str "ESP32NUT_SESSION") 65 = Some (issued_cookie now0 w)
    ∧ list.last (now0 :: renewals (issued_cookie now0 w) (run_events (es1 ++ [EStart now0 w])) es2) = Some t
    ∧ now - t ≤ MANAGEMENT_SESSION_IDLE_US.
Proof.
  intros (Ha & Hidle & (v & Hv & Hl & Heq) & _)%authorized_spec.
  destruct (run_events_descends es Ha) as (es1 & now0 & w & es2 & -> & Hc & Hk & _ & _ & Ht).
  exists es1, now0, w, es2, (last_activity_us (run_events (es1 ++ EStart now0 w :: es2))).
  split_and!; [done|done| | |done].
  - rewrite Hv. f_equal. rewrite Hk in Heq. by apply equal_is_issued.
  - unfold run_events at 1. by rewrite foldl_app.
Qed.

(** C21. A session that was idle for more than 15 minutes authorizes nothing: the
    first request that carries any 64-character session cookie wipes it, and no
    later request is authorized until a new session is started. *)
Theorem session_expires s r f now checks r' f' now' :
  MANAGEMENT_SESSION_IDLE_US < now - last_activity_us s →
  Forall (λ e, is_check e = true) checks →
  (∃ v, management_session_cookie_value r (str "ESP32NUT_SESSION") 65 = Some v ∧ length v = 64%nat) →
  fst (management_session_is_authorized r f now s) = false
  ∧ let s1 := foldl apply_event (snd (management_session_is_authorized r f now s)) checks in
    active s1 = false ∧ fst (management_session_is_authorized r' f' now' s1) = false.
Proof.
  intros Hidle Hc (v & Hv & Hl).
  assert (∀ s, active s = false → ∀ r f now, ∃ s', management_session_is_authorized r f now s = (false, s')
    ∧ active s' = false) as Hoff.
  { intros s0 Hs0 r0 f0 now0. unfold management_session_is_authorized. rewrite Hs0. cbn [andb].
    repeat case_match; eauto. }
  assert (∃ s', management_session_is_authorized r f now s = (false, s') ∧ active s' = false)
    as (s' & E & Hs').
  { unfold management_session_is_authorized. rewrite Hv, Hl. cbn [Nat.eqb MANAGEMENT_SESSION_HEX_LENGTH negb].
    rewrite (proj2 (Z.leb_gt _ _)), andb_false_r, (proj2 (Z.ltb_lt _ _)) by lia. cbn [andb].
    destruct (active s) eqn:Ea; cbn [andb]; eauto. }
  rewrite E. cbn [fst snd]. split; [done|]. cbn zeta.
  assert (active (foldl apply_event s' checks) = false) as Hend.
  { clear E. revert s' Hs'. induction Hc as [|e checks He _ IH]; intros s' Hs'; cbn [foldl]; [done|].
    apply IH. destruct e as [| r0 f0 now0|r0 now0|]; try done; cbn [apply_event]; rewrite ?csrf_state.
    - by destruct (Hoff s' Hs' r0 f0 now0) as (? & -> & ?).
    - by destruct (Hoff s' Hs' r0 true now0) as (? & -> & ?). }
  split; [done|]. by destruct (Hoff _ Hend r' f' now') as (? & -> & _).
Qed.
End life.

Definition sample_events : list (event (R := headers) (W := sim)) := [EStart 1000 w_empty].

Definition sample_cookie : list Z := Eval vm_compute in issued_cookie 1000 w_empty.

Definition sample_request : headers :=
  [(str "Cookie", cookies_text [(str "ESP32NUT_SESSION", sample_cookie)])].

(** A session that is renewed after 800 seconds, refuses a request without a cookie
    after 900, and still answers after 1600. *)

Definition busy_events : list (event (R := headers) (W := sim)) :=
  [EStart 1000 w_empty; ECheck sample_request true 800000000; ECheck [] true 900000000].

Lemma authorized_origin_witness :
  ∃ now0 w t, busy_events !! 0%nat = Some (EStart now0 w)
    ∧ last (now0 :: renewals (issued_cookie now0 w) (run_events [EStart now0 w]) (drop 1 busy_events)) 0 = t
    ∧ t = 800000000
    ∧ ∃ es1 now1 w1 es2, busy_events = es1 ++ EStart now1 w1 :: es2
      ∧ management_session_cookie_value sample_request (str "ESP32NUT_SESSION") 65
        = Some (issued_cookie now1 w1).
Proof.
  exists 1000, w_empty, 800000000. split; [reflexivity|]. split; [vm_compute; reflexivity|].
  split; [reflexivity|].
  destruct (authorized_origin busy_events sample_request true 1600000000
    (MkSession true (cookie (run_events busy_events)) (csrf (run_events busy_events)) 1600000000))
    as (es1 & now1 & w1 & es2 & t & Ees & _ & Ecookie & _); [vm_compute; reflexivity|].
  exists es1, now1, w1, es2. split; [exact Ees|exact Ecookie].
Defined.

Lemma session_expires_witness :
  fst (management_session_is_authorized sample_request true 2000000000 (run_events sample_events))
    = false.
Proof.
  refine (proj1 (session_expires (W := sim) (run_events sample_events) sample_request true 2000000000 []
    sample_request true 2000000001 _ _ _)).
  - vm_compute. reflexivity.
  - constructor.
  - exists sample_cookie. split; vm_compute; reflexivity.
Defined.

(** ** Login throttling *)

Definition record_failures (times : list Z) (l : login_state) : login_state :=
  foldl (λ l t, snd (management_session_record_login_failure t l)) l times.

Lemma record_failures_count times l :
  0 ≤ management_login_failures l < 5 →
  management_login_failures (record_failures times l)
  = (management_login_failures l + Z.of_nat (length times)) mod 5.
Proof.
  revert l. induction times as [|t times IH]; intros l Hl; cbn [record_failures foldl length].
  { rewrite Z.mod_small; lia. }
  fold (record_failures times (snd (management_session_record_login_failure t l))).
  unfold management_session_record_login_failure, u32, MANAGEMENT_LOGIN_MAX_FAILURES.
  rewrite wrap_small by lia. destruct (Z.leb_spec 5 (management_login_failures l + 1)); cbn [snd].
  - rewrite IH by (cbn; lia). cbn [management_login_failures].
    replace (management_login_failures l) with 4 by lia.
    replace (4 + Z.of_nat (S (length times))) with (0 + Z.of_nat (length times) + 1 * 5) by lia.
    by rewrite Z.mod_add by lia.
  - rewrite IH by (cbn; lia). cbn [management_login_failures]. f_equal. lia.
Qed.

(** C22. Every fifth failed login in a row starts a cooldown, and only that one.
    During the 60 seconds that follow the reported delay is between 1 and 60
    seconds and covers the rest of the cooldown; afterwards, and after a success,
    it is 0. *)
Theorem login_throttle times t now :
  let l := record_failures times login0 in
  let '(started, l') := management_session_record_login_failure t l in
  (started = true ↔ (S (length times)) mod 5 = 0)%nat
  ∧ (started = true → t ≤ now →
     let d := management_session_login_retry_after_seconds now l' in
     if now <? t + MANAGEMENT_LOGIN_COOLDOWN_US
     then 1 ≤ d ≤ 60 ∧ t + MANAGEMENT_LOGIN_COOLDOWN_US ≤ now + d * MANAGEMENT_MICROSECONDS_PER_SECOND
     else d = 0)
  ∧ (0 ≤ now →
     management_session_login_retry_after_seconds now (management_session_record_login_success l') = 0).
Proof.
  cbn zeta. pose proof (record_failures_count times login0) as Hc. cbn [management_login_failures login0] in Hc.
  specialize (Hc ltac:(lia)). set (l := record_failures times login0) in *.
  pose proof (Z.mod_pos_bound (0 + Z.of_nat (length times)) 5 ltac:(lia)) as Hb.
  unfold management_session_record_login_failure, u32, MANAGEMENT_LOGIN_MAX_FAILURES.
  rewrite wrap_small by lia.
  assert ((S (length times) mod 5)%nat = 0%nat ↔ management_login_failures l = 4) as Hmod.
  { rewrite Hc, Z.add_0_l. pose proof (Nat2Z.inj_mod (S (length times)) 5) as E.
    rewrite Nat2Z.inj_succ in E. Z.to_euclidean_division_equations. lia. }
  assert (∀ x, 0 ≤ now → management_session_login_retry_after_seconds now
    (management_session_record_login_success x) = 0) as Hsucc.
  { intros x Hn. unfold management_session_login_retry_after_seconds. cbn.
    by rewrite (proj2 (Z.ltb_ge now 0)) by lia. }
  destruct (Z.leb_spec 5 (management_login_failures l + 1)) as [H5|H5].
  - split_and!; [rewrite Hmod; split; [lia|done]| |auto]. intros _ Ht.
    unfold management_session_login_retry_after_seconds. cbn [management_login_cooldown_until_us].
    change MANAGEMENT_LOGIN_COOLDOWN_US with 60000000. change MANAGEMENT_MICROSECONDS_PER_SECOND with 1000000.
    destruct (Z.ltb_spec now (t + 60000000)); [|done]. rewrite Z.quot_div_nonneg by lia.
    unfold s32. rewrite swrap_small by (try lia; Z.to_euclidean_division_equations; lia).
    Z.to_euclidean_division_equations. lia.
  - split_and!; [rewrite Hmod; split; [done|lia]|done|auto].
Qed.

Lemma login_throttle_witness :
  fst (management_session_record_login_failure 10 (record_failures [1; 2; 3; 4] login0)) = true
  ∧ (1 ≤ management_session_login_retry_after_seconds 1000000
          (snd (management_session_record_login_failure 10 (record_failures [1; 2; 3; 4] login0))) ≤ 60).
Proof.
  split; [reflexivity|].
  pose proof (login_throttle [1; 2; 3; 4] 10 1000000) as (_ & Hd & _).
  exact (proj1 (Hd eq_refl ltac:(done))).
Defined.
