(* ===== verification/MgmtHttp.v ===== *)
(** * HTTP responses, JSON text and form bodies (src/src/management-http.c) *)

From Stdlib Require Import ZArith Lia String.
From stdpp Require Import base tactics list numbers option.
From S2P Require Import Prelude Platform.

#[local] Open Scope Z_scope.

(** ** Responses

    The calls made on a request, in order; the server that carries them out is
    not part of the repository. *)

Inductive http_call :=
  | httpd_resp_set_hdr (field value : list Z)
  | httpd_resp_set_status (status : list Z)
  | httpd_resp_set_type (type : list Z)
  | httpd_resp_sendstr (body : list Z)
  | httpd_resp_send_chunk (chunk : option (list Z)).

Definition management_set_response_headers : list http_call :=
  [httpd_resp_set_hdr (str "Cache-Control") (str "no-store");
   httpd_resp_set_hdr (str "Pragma") (str "no-cache");
   httpd_resp_set_hdr (str "X-Content-Type-Options") (str "nosniff");
   httpd_resp_set_hdr (str "X-Frame-Options") (str "DENY");
   httpd_resp_set_hdr (str "Referrer-Policy") (str "no-referrer")].

Definition csp : http_call :=
  httpd_resp_set_hdr (str "Content-Security-Policy")
    (str "default-src 'self'; style-src 'unsafe-inline'; script-src 'unsafe-inline'; base-uri 'none'; frame-ancestors 'none'; form-action 'self'").

Definition management_send_html (html : list Z) : list http_call :=
  management_set_response_headers
  ++ [csp; httpd_resp_set_type (str "text/html; charset=utf-8"); httpd_resp_sendstr html].

Definition management_send_html_status (status html : list Z) : list http_call :=
  httpd_resp_set_status status :: management_send_html html.

Definition management_send_json (status json : list Z) : list http_call :=
  management_set_response_headers
  ++ [httpd_resp_set_status status; httpd_resp_set_type (str "application/json");
      httpd_resp_sendstr json].

(** The chunked responses: [status_result] and [type_result] are what the server
    answered to the two calls; the first failure ends the preparation. *)

Definition management_start_html_chunks (status : list Z) (status_result type_result : esp_err_t)
    : esp_err_t * list http_call :=
  let calls := management_set_response_headers ++ [csp; httpd_resp_set_status status] in
  if negb (is_ok status_result) then (status_result, calls)
  else (type_result, calls ++ [httpd_resp_set_type (str "text/html; charset=utf-8")]).

Definition management_start_json_chunks (status : list Z) (status_result type_result : esp_err_t)
    : esp_err_t * list http_call :=
  let calls := management_set_response_headers ++ [httpd_resp_set_status status] in
  if negb (is_ok status_result) then (status_result, calls)
  else (type_result, calls ++ [httpd_resp_set_type (str "application/json")]).

Definition management_send_html_chunk (html : option (list Z)) (length : nat) (result : esp_err_t)
    : esp_err_t * list http_call :=
  match html with
  | None => (ESP_ERR_INVALID_ARG, [])
  | Some html => (result, [httpd_resp_send_chunk (Some (take length html))])
  end.

Definition management_send_json_chunk (json : option (list Z)) (result : esp_err_t)
    : esp_err_t * list http_call :=
  match json with
  | None => (ESP_ERR_INVALID_ARG, [])
  | Some json => (result, [httpd_resp_send_chunk (Some json)])
  end.

Definition management_end_html_chunks (result : esp_err_t) : esp_err_t * list http_call :=
  (result, [httpd_resp_send_chunk None]).

Definition management_end_json_chunks (result : esp_err_t) : esp_err_t * list http_call :=
  (result, [httpd_resp_send_chunk None]).

Definition management_send_redirect (location : list Z) : list http_call :=
  management_set_response_headers
  ++ [httpd_resp_set_status (str "303 See Other"); httpd_resp_set_hdr (str "Location") location;
      httpd_resp_sendstr (str "Continue")].

(** ** JSON text

    A destination is its buffer and the index [*used]. *)

Record json_dest := MkDest { dest : list Z; used : nat }.

(** [vsnprintf] of [text] at [*used] followed by the checks: what does not fit is
    cut off and [*used] is set to the size. *)

Definition management_json_append (text : list Z) (d : json_dest) : bool * json_dest :=
  let size := length (dest d) in
  if (size <=? used d)%nat then (false, d)
  else
    let room := (size - used d)%nat in
    let written := take (room - 1) text ++ [0] in
    let buf := take (used d) (dest d) ++ written ++ drop (used d + length written) (dest d) in
    if (room <=? length text)%nat then (false, MkDest buf size)
    else (true, MkDest buf (used d + length text)).

Definition json_hex (d : Z) : Z := if d <? 10 then 48 + d else 87 + d.

(** The text appended for one character. *)

Definition json_char (c : Z) : list Z :=
  if c =? 92 then [92; 92]
  else if c =? 34 then [92; 34]
  else if c =? 8 then [92; 98]
  else if c =? 12 then [92; 102]
  else if c =? 10 then [92; 110]
  else if c =? 13 then [92; 114]
  else if c =? 9 then [92; 116]
  else if c <? 0x20 then [92; 117; 48; 48; json_hex (c / 16); json_hex (c mod 16)]
  else [c].

Fixpoint json_chars (value : list Z) (d : json_dest) : bool * json_dest :=
  match value with
  | [] => (true, d)
  | c :: value' =>
    let '(ok, d) := management_json_append (json_char c) d in
    if ok : bool then json_chars value' d else (false, d)
  end.

Definition management_json_append_string (value : option (list Z)) (d : json_dest)
    : bool * json_dest :=
  let '(ok, d) := management_json_append [34] d in
  if negb ok then (false, d)
  else
    let '(ok, d) := json_chars (default [] value) d in
    if negb ok then (false, d) else management_json_append [34] d.

(** ** Forms *)

Definition MANAGEMENT_FORM_BODY_LIMIT : nat := 640.

(** [strtol(s, NULL, 16)] for a string of two characters: space and a sign are
    accepted, and the value stops at the first character that is no digit. *)

Definition hex_value (c : Z) : option Z :=
  if (48 <=? c) && (c <=? 57) then Some (c - 48)
  else if (97 <=? c) && (c <=? 102) then Some (c - 87)
  else if (65 <=? c) && (c <=? 70) then Some (c - 55)
  else None.

Fixpoint hex_digits_value (acc : Z) (s : list Z) : Z :=
  match s with
  | c :: s' => match hex_value c with Some d => hex_digits_value (acc * 16 + d) s' | None => acc end
  | [] => acc
  end.

Definition strtol16 (s : list Z) : Z :=
  match skip_space s with
  | c :: s' =>
    if c =? 43 then hex_digits_value 0 s'
    else if c =? 45 then - hex_digits_value 0 s'
    else hex_digits_value 0 (c :: s')
  | [] => 0
  end.

(** The bytes stored before the terminator, and whether the whole component was
    read; [n] bytes of the destination are still free. *)

Fixpoint decode_component (encoded : list Z) (n : nat) : list Z * bool :=
  match n with
  | S (S _ as n') =>
    match encoded with
    | [] => ([], true)
    | c :: rest =>
      if c =? 37 then
        match rest with
        | a :: b :: rest' =>
          let '(out, ok) := decode_component rest' n' in (u8 (strtol16 [a; b]) :: out, ok)
        | _ => let '(out, ok) := decode_component rest n' in (c :: out, ok)
        end
      else
        let '(out, ok) := decode_component rest n' in
        ((if c =? 43 then 32 else c) :: out, ok)
    end
  | _ => ([], bool_decide (encoded = []))
  end.

Definition management_decode_form_component (encoded : list Z) (destination_size : nat)
    : bool * list Z :=
  let '(out, ok) := decode_component encoded destination_size in (ok, out).

(** The tokens of [strtok_r(body, "&")]: empty ones are skipped. *)

Fixpoint strtok (s cur : list Z) : list (list Z) :=
  match s with
  | [] => if bool_decide (cur = []) then [] else [cur]
  | c :: s' =>
    if c =? 38 then if bool_decide (cur = []) then strtok s' [] else cur :: strtok s' []
    else strtok s' (cur ++ [c])
  end.

(** [strchr(pair, '=')]: the text before and after the first one. *)

Fixpoint split_pair (s : list Z) : option (list Z * list Z) :=
  match s with
  | [] => None
  | c :: s' =>
    if c =? 61 then Some ([], s')
    else '(a, b) ← split_pair s'; Some (c :: a, b)
  end.

(** A buffer read as a C string ends at its first NUL. *)

Fixpoint until_nul (s : list Z) : list Z :=
  match s with [] => [] | c :: s' => if c =? 0 then [] else c :: until_nul s' end.

(** The result and the bytes put in [destination], when it was written. *)

Fixpoint extract_pairs (pairs : list (list Z)) (name : list Z) (size : nat) : bool * option (list Z) :=
  match pairs with
  | [] => (false, None)
  | entry :: pairs' =>
    match split_pair entry with
    | None => extract_pairs pairs' name size
    | Some (n, encoded_value) =>
      let '(ok, decoded_name) := management_decode_form_component n 40 in
      if negb ok || negb (bool_decide (until_nul decoded_name = name))
      then extract_pairs pairs' name size
      else
        let '(ok, value) := management_decode_form_component encoded_value size in
        (ok, Some value)
    end
  end.

Definition management_extract_form_value (body name : list Z) (size : nat) : bool * option (list Z) :=
  extract_pairs (strtok body []) name size.

Definition management_form_value (body name : list Z) (size : nat) : bool * option (list Z) :=
  management_extract_form_value (take MANAGEMENT_FORM_BODY_LIMIT body) name size.

(** Receiving the body: each call of [httpd_req_recv] yields at most as many bytes
    as asked for, or an error.  The result is the code and the bytes stored. *)

Inductive recv_result := Received (b : list Z) | RecvTimeout | RecvError.

Fixpoint recv_loop (calls : list recv_result) (content_len : nat) (got : list Z)
    : esp_err_t * list Z :=
  if (length got <? content_len)%nat then
    match calls with
    | [] | RecvError :: _ => (ESP_FAIL, got)
    | RecvTimeout :: _ => (ESP_ERR_OTHER 0x107, got)
    | Received b :: calls' =>
      let b := take (content_len - length got) b in
      if bool_decide (b = []) then (ESP_FAIL, got) else recv_loop calls' content_len (got ++ b)
    end
  else (ESP_OK, got).

Definition management_read_form_body (content_len : Z) (body_size : nat) (calls : list recv_result)
    : esp_err_t * list Z :=
  if (content_len <=? 0) || (Z.of_nat MANAGEMENT_FORM_BODY_LIMIT <? content_len)
     || (Z.of_nat body_size <=? content_len)
  then (ESP_ERR_OTHER 0x104, [])
  else recv_loop calls (Z.to_nat content_len) [].

(** ** JSON strings *)

(** A successful append extends the text before [used] and terminates it. *)

Record json_text (size : nat) (text : list Z) (d : json_dest) : Prop := {
  jt_size : length (dest d) = size;
  jt_used : used d = length text;
  jt_text : take (length text) (dest d) = text;
  jt_end : dest d !! length text = Some 0
}.

Lemma append_ok size text more d :
  json_text size text d → (length text + length more < size)%nat →
  ∃ d', management_json_append more d = (true, d') ∧ json_text size (text ++ more) d'.
Proof.
  intros [Hs Hu Ht He] Hlt. unfold management_json_append. rewrite Hs, Hu.
  rewrite (proj2 (Nat.leb_gt _ _)) by lia.
  rewrite (proj2 (Nat.leb_gt (size - length text) (length more))) by lia.
  rewrite (take_ge more) by lia. eexists. split; [reflexivity|]. rewrite Ht.
  rewrite <- (app_assoc more), (app_assoc text more). cbn [app].
  constructor; cbn [dest used].
  - rewrite !length_app. cbn. rewrite length_drop, Hs. cbn in *. rewrite ?length_app. cbn. lia.
  - by rewrite length_app.
  - by rewrite take_app_length.
  - by rewrite lookup_app_r, Nat.sub_diag by lia.
Qed.

(** A failed append leaves [used] at the size, so that every later one fails. *)

Lemma append_fails size text more d :
  json_text size text d → (size ≤ length text + length more)%nat →
  ∃ d', management_json_append more d = (false, d') ∧ length (dest d') = size
    ∧ (size ≤ used d')%nat.
Proof.
  intros [Hs Hu Ht He] Hge. unfold management_json_append. rewrite Hs, Hu.
  pose proof (lookup_lt_Some _ _ _ He) as Hlt.
  rewrite (proj2 (Nat.leb_gt _ _)) by lia.
  rewrite (proj2 (Nat.leb_le (size - length text) (length more))) by lia.
  eexists. split; [reflexivity|]. cbn [dest used]. split; [|done].
  rewrite Ht, !length_app, length_drop, ?length_app, !length_take, Hs. cbn. lia.
Qed.

Definition json_escaped (value : list Z) : list Z := concat (json_char <$> value).

(** Reading a JSON string (RFC 8259) up to its closing quote: the value and the
    rest of the input.  [\u] escapes of code points above 255 are refused. *)

Definition json_simple (c : Z) : option Z :=
  if (c =? 34) || (c =? 92) || (c =? 47) then Some c
  else if c =? 98 then Some 8 else if c =? 102 then Some 12
  else if c =? 110 then Some 10 else if c =? 114 then Some 13
  else if c =? 116 then Some 9 else None.

Fixpoint json_read (s : list Z) : option (list Z * list Z) :=
  match s with
  | [] => None
  | c :: s1 =>
    if c =? 34 then Some ([], s1)
    else if c =? 92 then
      match s1 with
      | [] => None
      | e :: s2 =>
        if e =? 117 then
          match s2 with
          | z0 :: z1 :: h :: l :: s3 =>
            if (z0 =? 48) && (z1 =? 48) then
              a ← hex_value h; b ← hex_value l; '(v, r) ← json_read s3; Some (a * 16 + b :: v, r)
            else None
          | _ => None
          end
        else x ← json_simple e; '(v, r) ← json_read s2; Some (x :: v, r)
      end
    else if c <? 0x20 then None
    else '(v, r) ← json_read s1; Some (c :: v, r)
  end.

Lemma json_hex_value d : 0 ≤ d < 16 → hex_value (json_hex d) = Some d.
Proof.
  intros Hd. unfold json_hex, hex_value. destruct (Z.ltb_spec d 10).
  - rewrite !(proj2 (Z.leb_le _ _)) by lia. cbn. f_equal. lia.
  - rewrite (proj2 (Z.leb_gt (87 + d) 57)), andb_false_r, !(proj2 (Z.leb_le _ _)) by lia. cbn.
    f_equal. lia.
Qed.

Lemma json_read_char c rest v r :
  0 ≤ c < 256 → json_read rest = Some (v, r) → json_read (json_char c ++ rest) = Some (c :: v, r).
Proof.
  intros Hc Hr. unfold json_char.
  repeat match goal with |- context [if c =? ?k then [92; _] else _] =>
    destruct (Z.eqb_spec c k) as [->|]; [cbn; by rewrite Hr|] end.
  destruct (Z.ltb_spec c 0x20).
  - cbn [app json_read]. change (92 =? 34) with false. change (92 =? 92) with true.
    change (117 =? 117) with true. change ((48 =? 48) && (48 =? 48)) with true. cbv iota.
    rewrite !json_hex_value by (Z.to_euclidean_division_equations; lia). cbn [mbind option_bind].
    rewrite Hr. cbn. do 3 f_equal. pose proof (Z.div_mod c 16). lia.
  - cbn [app json_read]. rewrite (proj2 (Z.eqb_neq c 34)), (proj2 (Z.eqb_neq c 92)) by done.
    rewrite (proj2 (Z.ltb_ge c 0x20)) by done. by rewrite Hr.
Qed.

Lemma json_read_escaped value rest :
  Forall is_byte value → json_read (json_escaped value ++ 34 :: rest) = Some (value, rest).
Proof.
  unfold json_escaped. induction 1 as [|c value Hc _ IH]; [done|].
  cbn [fmap list_fmap concat]. rewrite <- app_assoc. by apply json_read_char.
Qed.

Lemma json_chars_ok size value : ∀ text d,
  json_text size text d →
  (length text + length (json_escaped value) < size)%nat →
  ∃ d', json_chars value d = (true, d') ∧ json_text size (text ++ json_escaped value) d'.
Proof.
  unfold json_escaped. induction value as [|c value IH]; intros text d Hd Hlt;
    cbn [json_chars fmap list_fmap concat] in *.
  { exists d. by rewrite app_nil_r. }
  rewrite length_app in Hlt.
  destruct (append_ok size text (json_char c) d Hd) as (d1 & -> & H1); [lia|].
  destruct (IH _ _ H1) as (d2 & -> & H2); [rewrite length_app; lia|].
  exists d2. by rewrite app_assoc.
Qed.

Lemma json_chars_fails size value : ∀ text d,
  json_text size text d → (size ≤ length text + length (json_escaped value))%nat →
  ∃ d', json_chars value d = (false, d') ∧ length (dest d') = size ∧ (size ≤ used d')%nat.
Proof.
  unfold json_escaped. induction value as [|c value IH]; intros text d Hd Hge;
    cbn [json_chars fmap list_fmap concat] in *.
  { destruct Hd as [Hs _ _ He]. apply lookup_lt_Some in He. cbn in Hge. lia. }
  rewrite length_app in Hge. destruct (Nat.lt_ge_cases (length text + length (json_char c)) size).
  - destruct (append_ok size text (json_char c) d Hd) as (d1 & -> & H1); [done|].
    apply (IH _ _ H1). rewrite length_app. lia.
  - destruct (append_fails size text (json_char c) d Hd) as (d1 & -> & ?); [done|eauto].
Qed.

(** C25. Appending a string to a JSON text writes a quoted, escaped form that a
    JSON reader decodes to exactly the string, whatever characters it has, and
    stays within the buffer; when it does not fit the append fails, and so does
    every later append to the same buffer. *)
Theorem json_append_string_correct size text value d :
  json_text size text d → Forall is_byte value →
  let quoted := 34 :: json_escaped value ++ [34] in
  ∃ ok d', management_json_append_string (Some value) d = (ok, d')
  ∧ (ok = true ↔ (length text + length quoted < size)%nat)
  ∧ (ok = true → json_text size (text ++ quoted) d')
  ∧ (ok = false → length (dest d') = size ∧ ∀ more, management_json_append more d' = (false, d'))
  ∧ ∀ rest, json_read (json_escaped value ++ 34 :: rest) = Some (value, rest).
Proof.
  intros Hd Hv. cbn zeta. unfold management_json_append_string.
  change (default [] (Some value)) with value.
  assert (length (34 :: json_escaped value ++ [34]) = (length (json_escaped value) + 2)%nat) as ->
    by (cbn; rewrite length_app; cbn; lia).
  assert (∀ d', length (dest d') = size ∧ (size ≤ used d')%nat → length (dest d') = size ∧
    ∀ more, management_json_append more d' = (false, d')) as Hstuck.
  { intros d' [Hs Hu]. split; [done|]. intros more. unfold management_json_append.
    by rewrite Hs, (proj2 (Nat.leb_le _ _)). }
  pose proof (json_read_escaped value) as Hread.
  destruct (Nat.lt_ge_cases (length text + 1) size) as [H1|H1].
  2:{ destruct (append_fails size text [34] d Hd) as (d1 & -> & Hf); [cbn; lia|]. cbn [negb].
      eexists _, _. split; [reflexivity|]. split_and!; [split; [done|lia]|done|auto|auto]. }
  destruct (append_ok size text [34] d Hd) as (d1 & -> & Hd1); [cbn; lia|]. cbn [negb].
  destruct (Nat.lt_ge_cases (length (text ++ [34%Z]) + length (json_escaped value)) size) as [H2|H2].
  2:{ destruct (json_chars_fails size value _ _ Hd1) as (d2 & -> & Hf); [done|]. cbn [negb].
      rewrite length_app in H2. cbn in H2.
      eexists _, _. split; [reflexivity|]. split_and!; [split; [done|lia]|done|auto|auto]. }
  destruct (json_chars_ok size value _ _ Hd1) as (d2 & -> & Hd2); [done|]. cbn [negb].
  rewrite length_app in H2. cbn in H2.
  destruct (Nat.lt_ge_cases (length text + length (json_escaped value) + 2) size) as [H3|H3].
  - destruct (append_ok size _ [34] d2 Hd2) as (d3 & -> & Hd3); [rewrite !length_app; cbn; lia|].
    eexists _, _. split; [reflexivity|].
    split_and!; [split; [lia|done]| |done|auto]. intros _. by rewrite <- !app_assoc in Hd3.
  - destruct (append_fails size _ [34] d2 Hd2) as (d3 & -> & Hf); [rewrite !length_app; cbn; lia|].
    eexists _, _. split; [reflexivity|]. split_and!; [split; [done|lia]|done|auto|auto].
Qed.

Lemma json_append_string_correct_witness :
  ∃ ok d', management_json_append_string (Some (str "a\b")) (MkDest (replicate 16 0) 0) = (ok, d')
  ∧ json_read (json_escaped (str "a\b") ++ [34]) = Some (str "a\b", []).
Proof.
  destruct (json_append_string_correct 16 [] (str "a\b") (MkDest (replicate 16 0) 0))
    as (ok & d' & E & _ & _ & _ & H).
  - constructor; reflexivity.
  - repeat constructor; done.
  - exists ok, d'. split; [exact E|exact (H [])].
Defined.

(** ** Form bodies *)

Definition form_plain (c : Z) : bool :=
  ((48 <=? c) && (c <=? 57)) || ((65 <=? c) && (c <=? 90)) || ((97 <=? c) && (c <=? 122))
  || (c =? 42) || (c =? 45) || (c =? 46) || (c =? 95).

Definition upper_hex (d : Z) : Z := if d <? 10 then 48 + d else 55 + d.

(** The form encoding of a browser (application/x-www-form-urlencoded). *)

Definition form_char (c : Z) : list Z :=
  if c =? 32 then [43] else if form_plain c then [c] else [37; upper_hex (c / 16); upper_hex (c mod 16)].

Definition form_encode (s : list Z) : list Z := concat (form_char <$> s).

Fixpoint form_text (l : list (list Z * list Z)) : list Z :=
  match l with
  | [] => []
  | [(n, v)] => form_encode n ++ 61 :: form_encode v
  | (n, v) :: l' => form_encode n ++ 61 :: form_encode v ++ 38 :: form_text l'
  end.

Definition form_string (s : list Z) : Prop := Forall (λ c, 1 ≤ c ≤ 255) s.

Lemma upper_hex_value d : 0 ≤ d < 16 → hex_value (upper_hex d) = Some d ∧ 48 ≤ upper_hex d ≤ 70
  ∧ upper_hex d ≠ 61.
Proof.
  intros Hd. unfold upper_hex, hex_value. destruct (Z.ltb_spec d 10).
  - rewrite !(proj2 (Z.leb_le _ _)) by lia. cbn. split; [f_equal; lia|lia].
  - rewrite (proj2 (Z.leb_gt (55 + d) 57)), andb_false_r, (proj2 (Z.leb_gt 97 (55 + d))) by lia.
    cbn [andb]. rewrite !(proj2 (Z.leb_le _ _)) by lia. cbn. split; [f_equal; lia|lia].
Qed.

Lemma strtol16_digits a b x y :
  48 ≤ a → hex_value a = Some x → hex_value b = Some y → strtol16 [a; b] = x * 16 + y.
Proof.
  intros Ha Hx Hy. unfold strtol16. cbn [skip_space].
  assert (isspace a = false) as ->.
  { unfold isspace. rewrite (proj2 (Z.eqb_neq a 32)), (proj2 (Z.leb_gt a 13)) by lia.
    apply andb_false_r. }
  rewrite (proj2 (Z.eqb_neq a 43)), (proj2 (Z.eqb_neq a 45)) by lia.
  cbn [hex_digits_value]. rewrite Hx, Hy. lia.
Qed.

Lemma form_plain_cases c : form_plain c = true → c ≠ 37 ∧ c ≠ 43 ∧ c ≠ 38 ∧ c ≠ 61.
Proof.
  intros H. split_and!; intros ->; done.
Qed.

Lemma decode_char c rest n :
  1 ≤ c ≤ 255 → (2 ≤ n)%nat →
  decode_component (form_char c ++ rest) n
  = let '(out, ok) := decode_component rest (n - 1) in (c :: out, ok).
Proof.
  intros Hc Hn. destruct n as [|[|n]]; [lia|lia|]. replace (S (S n) - 1)%nat with (S n) by lia.
  unfold form_char. destruct (Z.eqb_spec c 32) as [->|]; [done|].
  destruct (form_plain c) eqn:Ep.
  - apply form_plain_cases in Ep as (? & ? & _). cbn [app decode_component].
    by rewrite (proj2 (Z.eqb_neq c 37)), (proj2 (Z.eqb_neq c 43)) by done.
  - cbn [app decode_component]. change (37 =? 37) with true. cbv iota.
    destruct (upper_hex_value (c / 16)) as (H1 & Hr & _); [Z.to_euclidean_division_equations; lia|].
    destruct (upper_hex_value (c mod 16)) as (H2 & ? & _); [apply Z.mod_pos_bound; lia|].
    rewrite (strtol16_digits _ _ _ _ (proj1 Hr) H1 H2).
    replace (c / 16 * 16 + c mod 16) with c by (pose proof (Z.div_mod c 16); lia).
    unfold u8. by rewrite wrap_small by lia.
Qed.

Lemma decode_encode s n :
  form_string s → (length s < n)%nat → decode_component (form_encode s) n = (s, true).
Proof.
  intros Hs. revert n. unfold form_encode.
  induction Hs as [|c s Hc _ IH]; intros n Hn; cbn [fmap list_fmap concat length] in *.
  - by destruct n as [|[|n]].
  - rewrite decode_char by (done || lia). by rewrite IH by lia.
Qed.

(** A text that does not fit is cut, and the cut is reported. *)

Lemma decode_encode_cut s n :
  form_string s → (1 ≤ n ≤ length s)%nat → decode_component (form_encode s) n = (take (n - 1) s, false).
Proof.
  intros Hs. revert n. unfold form_encode.
  induction Hs as [|c s Hc _ IH]; intros n Hn; cbn [fmap list_fmap concat length] in *; [lia|].
  destruct (decide (n = 1%nat)) as [->|].
  - unfold form_char. destruct (c =? 32); [done|]. by destruct (form_plain c).
  - rewrite decode_char by (done || lia). rewrite IH by lia.
    destruct n as [|[|n]]; [lia|done|]. by replace (S (S n) - 1 - 1)%nat with n by lia.
Qed.

Lemma form_encode_chars s :
  form_string s → Forall (λ c, c ≠ 38 ∧ c ≠ 61) (form_encode s).
Proof.
  unfold form_encode. induction 1 as [|c s Hc _ IH]; cbn [fmap list_fmap concat]; [constructor|].
  apply Forall_app. split; [|done]. unfold form_char.
  destruct (c =? 32); [by repeat constructor|]. destruct (form_plain c) eqn:Ep.
  - apply form_plain_cases in Ep. repeat constructor; tauto.
  - destruct (upper_hex_value (c / 16)) as (_ & ? & ?); [Z.to_euclidean_division_equations; lia|].
    destruct (upper_hex_value (c mod 16)) as (_ & ? & ?); [apply Z.mod_pos_bound; lia|].
    repeat constructor; lia.
Qed.

Lemma strtok_token tok rest cur :
  Forall (λ c, c ≠ 38) tok → cur ++ tok ≠ [] →
  strtok (tok ++ 38 :: rest) cur = (cur ++ tok) :: strtok rest [] ∧ strtok tok cur = [cur ++ tok].
Proof.
  intros Ht. revert cur. induction Ht as [|c tok Hc _ IH]; intros cur Hne.
  - rewrite app_nil_r in *. cbn. by rewrite bool_decide_eq_false_2.
  - cbn [app strtok]. rewrite (proj2 (Z.eqb_neq c 38)) by done.
    assert (cur ++ c :: tok = (cur ++ [c]) ++ tok) as E by (by rewrite <- app_assoc).
    rewrite E in *. by apply IH.
Qed.

Lemma split_pair_at a b : Forall (λ c, c ≠ 61) a → split_pair (a ++ 61 :: b) = Some (a, b).
Proof.
  induction 1 as [|c a Hc _ IH]; cbn [app split_pair]; [done|].
  by rewrite (proj2 (Z.eqb_neq c 61)), IH by done.
Qed.

Lemma until_nul_string s : form_string s → until_nul s = s.
Proof.
  induction 1 as [|c s Hc _ IH]; cbn; [done|]. by rewrite (proj2 (Z.eqb_neq c 0)), IH by lia.
Qed.

Fixpoint first_field (l : list (list Z * list Z)) (name : list Z) : option (list Z) :=
  match l with
  | [] => None
  | (n, v) :: l' => if decide (n = name) then Some v else first_field l' name
  end.

Definition field_ok (e : list Z * list Z) : Prop := form_string e.1 ∧ form_string e.2.

(** The fields whose names fit in the 40 bytes that a name is decoded into. *)

Definition short_named (l : list (list Z * list Z)) : list (list Z * list Z) :=
  filter (λ e, (length e.1 < 40)%nat) l.

Lemma strtok_form l :
  Forall field_ok l →
  strtok (form_text l) [] = (λ e, form_encode e.1 ++ 61 :: form_encode e.2) <$> l.
Proof.
  induction 1 as [|[n v] l [Hn Hv] _ IH]; [done|]. cbn [fst snd] in *.
  assert (Forall (λ c, c ≠ 38) (form_encode n ++ 61 :: form_encode v)) as Ht.
  { apply Forall_app. split; [|constructor; [done|]];
      (eapply list.Forall_impl; [by apply form_encode_chars|]; by intros c [? _]). }
  assert ([] ++ (form_encode n ++ 61 :: form_encode v) ≠ []) as Hne by (by destruct (form_encode n)).
  destruct l as [|e l].
  - cbn [form_text fmap list_fmap fst snd]. by destruct (strtok_token _ [] [] Ht Hne) as [_ ->].
  - change (form_text ((n, v) :: e :: l))
      with (form_encode n ++ 61 :: form_encode v ++ 38 :: form_text (e :: l)).
    rewrite (app_comm_cons (form_encode v)), app_assoc.
    destruct (strtok_token _ (form_text (e :: l)) [] Ht Hne) as [-> _]. rewrite IH. done.
Qed.

(** C24. A form body of at most 640 characters that a browser builds from names and
    values (of any bytes but 0) is decoded back: looking a name up finds the first
    field with that name, among the fields whose names have less than 40
    characters, and reports a missing name.  If the value fits in the destination
    with its terminator, the result is true and the destination holds exactly the
    value; if it does not, the result is false and the destination holds as much
    of the value as fits, so no value is cut short silently. *)
Theorem form_value_roundtrip l name size :
  Forall field_ok l → (length (form_text l) ≤ MANAGEMENT_FORM_BODY_LIMIT)%nat → (0 < size)%nat →
  management_form_value (form_text l) name size
  = match first_field (short_named l) name with
    | Some v => ((length v <? size)%nat, Some (take (size - 1) v))
    | None => (false, None)
    end.
Proof.
  intros Hl Hlen Hsize. unfold management_form_value, management_extract_form_value.
  rewrite take_ge, strtok_form by done.
  clear Hlen. induction Hl as [|[n v] l [Hn Hv] _ IH]; [done|].
  cbn [fst snd fmap list_fmap extract_pairs] in *.
  rewrite split_pair_at by (eapply list.Forall_impl; [by apply form_encode_chars|]; by intros c [_ ?]).
  unfold management_decode_form_component at 1. unfold short_named in *.
  destruct (Nat.lt_ge_cases (length n) 40) as [Hshort|Hlong].
  2:{ rewrite filter_cons_False by (cbn; lia).
      by rewrite decode_encode_cut by (done || lia). }
  rewrite filter_cons_True by done. cbn [first_field].
  rewrite decode_encode, until_nul_string by done. cbn [negb orb]. case_bool_decide as E.
  - rewrite decide_True by done. cbn [negb]. unfold management_decode_form_component.
    destruct (Nat.ltb_spec (length v) size).
    + by rewrite decode_encode, take_ge by (done || lia).
    + by rewrite decode_encode_cut by (done || lia).
  - rewrite decide_False by done. exact IH.
Qed.

Lemma form_value_roundtrip_witness :
  let body := form_text [(str "user", str "a&b"); (str "pass", str "p=1 %")] in
  management_form_value body (str "pass") 6 = (true, Some (str "p=1 %"))
  ∧ management_form_value body (str "pass") 5 = (false, Some (str "p=1 ")).
Proof.
  assert (Forall field_ok [(str "user", str "a&b"); (str "pass", str "p=1 %")]) as Hl
    by (repeat constructor; cbn; lia).
  split; rewrite (form_value_roundtrip [(str "user", str "a&b"); (str "pass", str "p=1 %")]);
    [reflexivity|exact Hl|apply Nat.leb_le; reflexivity|lia
    |reflexivity|exact Hl|apply Nat.leb_le; reflexivity|lia].
Defined.
