(* ===== verification/MgmtLog.v ===== *)
(** * The management log (src/src/management-log.c)

    A ring of 50 entries fed by lines that are assembled from log output.  The
    lock is taken around each operation, so operations are atomic. *)

From Stdlib Require Import ZArith Lia String.
From stdpp Require Import base tactics list numbers option pretty.
From S2P Require Import Prelude Platform MgmtHttp.

#[local] Open Scope Z_scope.

(** ** Data *)

Definition MANAGEMENT_LOG_ENTRY_CAPACITY : nat := 50.
Definition MANAGEMENT_LOG_STATUS_WINDOW : nat := 6.
Definition MANAGEMENT_LOG_MESSAGE_LENGTH : nat := 192.
Definition MANAGEMENT_LOG_CHUNK_LENGTH : nat := 256.
Definition MANAGEMENT_LOG_VALID_EPOCH : Z := 1704067200.
Definition MANAGEMENT_LOG_HTTPS_HANDSHAKE_MESSAGE : list Z := str "performing session handshake".

(** [message] is the C string held by the array. *)

Record ManagementLogEntry := MkEntry {
  uptime_ms : Z;
  epoch_seconds : Z;
  level : Z;
  message : list Z
}.

(** The static variables; [pending] is the text before its terminator. *)

Record log_state := MkLog {
  capture_started : bool;
  entries : list ManagementLogEntry;
  next : nat;
  count : nat;
  pending : list Z
}.

(** ** Operations *)

Definition level_letter (c : Z) : bool :=
  (c =? 69) || (c =? 87) || (c =? 73) || (c =? 68) || (c =? 86).

Definition management_log_level_from_line (line : list Z) : Z :=
  match line with
  | c :: 32 :: _ => if level_letter c then c else 73
  | _ => 73
  end.

Fixpoint after_colon (line : list Z) : option (list Z) :=
  match line with
  | [] => None
  | c :: rest => if c =? 58 then Some rest else after_colon rest
  end.

Definition management_log_message_from_line (line : list Z) : list Z :=
  match after_colon line with
  | Some (32 :: text) => text
  | _ => match line with
         | _ :: 32 :: text => text
         | _ => line
         end
  end.

Definition management_log_level_name (level : Z) : list Z :=
  if level =? 69 then str "error"
  else if level =? 87 then str "warning"
  else if (level =? 68) || (level =? 86) then str "debug"
  else str "info".

Definition management_log_current_epoch (now : Z) : Z :=
  if MANAGEMENT_LOG_VALID_EPOCH <=? now then now else 0.

Definition management_log_store_locked (lv : Z) (msg : list Z) (uptime epoch : Z) (s : log_state)
    : log_state :=
  if bool_decide (msg = []) then s
  else if bool_decide (msg = MANAGEMENT_LOG_HTTPS_HANDSHAKE_MESSAGE) then s
  else
    let entry := MkEntry uptime epoch lv (take (MANAGEMENT_LOG_MESSAGE_LENGTH - 1) msg) in
    MkLog (capture_started s) (<[next s := entry]> (entries s))
      ((next s + 1) mod MANAGEMENT_LOG_ENTRY_CAPACITY)
      (if (count s <? MANAGEMENT_LOG_ENTRY_CAPACITY)%nat then count s + 1 else count s)
      (pending s).

Definition set_pending (p : list Z) (s : log_state) : log_state :=
  MkLog (capture_started s) (entries s) (next s) (count s) p.

Definition management_log_commit_pending_locked (uptime epoch : Z) (s : log_state) : log_state :=
  match pending s with
  | [] => s
  | line =>
    set_pending [] (management_log_store_locked (management_log_level_from_line line)
                      (management_log_message_from_line line) uptime epoch s)
  end.

(** One character of a chunk. *)

Definition capture_char (uptime epoch : Z) (s : log_state) (c : Z) : log_state :=
  if c =? 10 then management_log_commit_pending_locked uptime epoch s
  else if c =? 13 then s
  else if (length (pending s) <? MANAGEMENT_LOG_CHUNK_LENGTH - 1)%nat
  then set_pending (pending s ++ [c]) s
  else set_pending (<[254%nat := 46]> (<[253%nat := 46]> (<[252%nat := 46]> (pending s)))) s.

Definition management_log_capture_chunk (chunk : list Z) (uptime epoch : Z) (s : log_state)
    : log_state :=
  if capture_started s then foldl (capture_char uptime epoch) s chunk else s.

(** [vsnprintf] made [text]; the chunk buffer keeps 255 characters of it.  The
    clocks are read again for the second call. *)

Definition management_log_vprintf (text : list Z) (uptime epoch uptime' epoch' : Z) (s : log_state)
    : log_state :=
  let s := management_log_capture_chunk (take (MANAGEMENT_LOG_CHUNK_LENGTH - 1) text) uptime epoch s in
  if (MANAGEMENT_LOG_CHUNK_LENGTH - 1 <=? length text)%nat
  then management_log_capture_chunk [10] uptime' epoch' s
  else s.

Definition management_log_capture_syslog (priority : Z) (text : list Z) (uptime epoch : Z)
    (s : log_state) : log_state :=
  let msg := take (MANAGEMENT_LOG_MESSAGE_LENGTH - 1) text in
  let line := str "NUT: " ++ take (MANAGEMENT_LOG_MESSAGE_LENGTH - 6) msg in
  let lv := if priority <=? 3 then 69 else if priority =? 4 then 87
            else if priority <=? 5 then 73 else 68 in
  if capture_started s then management_log_store_locked lv line uptime epoch s else s.

Definition management_log_flush_pending (uptime epoch : Z) (s : log_state) : log_state :=
  management_log_commit_pending_locked uptime epoch s.

(** The copy of the last [n] entries, oldest first; [None] is a read past the
    ring. *)

Fixpoint copy_entries (ring : list ManagementLogEntry) (first n : nat) (i : nat)
    : option (list ManagementLogEntry) :=
  match n with
  | O => Some []
  | S n' =>
    e ← ring !! ((first + i) mod MANAGEMENT_LOG_ENTRY_CAPACITY)%nat;
    rest ← copy_entries ring first n' (S i);
    Some (e :: rest)
  end.

Definition last_entries (n : nat) (s : log_state) : option (list ManagementLogEntry) :=
  let first := ((next s + MANAGEMENT_LOG_ENTRY_CAPACITY - n) mod MANAGEMENT_LOG_ENTRY_CAPACITY)%nat in
  copy_entries (entries s) first n 0.

Definition management_log_copy_snapshot (capacity : nat) (uptime epoch : Z) (s : log_state)
    : option (bool * list ManagementLogEntry * log_state) :=
  if (capacity <? MANAGEMENT_LOG_ENTRY_CAPACITY)%nat then Some (false, [], s)
  else if negb (capture_started s) then Some (true, [], s)
  else
    let s := management_log_flush_pending uptime epoch s in
    es ← last_entries (count s) s; Some (true, es, s).

(** [heap_caps_calloc] gives a zeroed ring; capture starts once. *)

Definition management_log_capture_start (allocated : bool) (s : log_state) : log_state :=
  if capture_started s then s
  else if allocated
  then MkLog true (replicate MANAGEMENT_LOG_ENTRY_CAPACITY (MkEntry 0 0 0 [])) (next s) (count s)
         (pending s)
  else s.

Definition log0 : log_state := MkLog false [] 0 0 [].

(** *** The JSON snapshot *)

Definition decimal (n : Z) : list Z := str (pretty (Z.to_N n)).

(** Appends in sequence, stopping at the first that fails. *)

Fixpoint append_all (l : list (json_dest → bool * json_dest)) (d : json_dest) : bool * json_dest :=
  match l with
  | [] => (true, d)
  | f :: l' => let '(ok, d) := f d in if ok : bool then append_all l' d else (false, d)
  end.

Section snapshot.

(** [management_log_format_timestamps]: the UTC and local texts of a time, the
    local one by the C library's time zone; [None] when there is none. *)

Variable timestamps : Z → option (list Z * list Z).

Definition timestamp_json (t : option (list Z)) : json_dest → bool * json_dest :=
  match t with
  | Some x => management_json_append_string (Some x)
  | None => management_json_append (str "null")
  end.

Definition entry_json (e : ManagementLogEntry) : list (json_dest → bool * json_dest) :=
  let t := if epoch_seconds e =? 0 then None else timestamps (epoch_seconds e) in
  [management_json_append (str "{" ++ [34] ++ str "uptime_ms" ++ [34] ++ str ":" ++ decimal (uptime_ms e)
      ++ str "," ++ [34] ++ str "timestamp_utc" ++ [34] ++ str ":");
   timestamp_json (fst <$> t);
   management_json_append (str "," ++ [34] ++ str "timestamp_local" ++ [34] ++ str ":");
   timestamp_json (snd <$> t);
   management_json_append (str "," ++ [34] ++ str "level" ++ [34] ++ str ":");
   management_json_append_string (Some (management_log_level_name (level e)));
   management_json_append (str "," ++ [34] ++ str "message" ++ [34] ++ str ":");
   management_json_append_string (Some (message e));
   management_json_append (str "}")].

Fixpoint entries_json (es : list ManagementLogEntry) : list (json_dest → bool * json_dest) :=
  match es with
  | [] => []
  | [e] => entry_json e
  | e :: es' => entry_json e ++ management_json_append (str ",") :: entries_json es'
  end.

Definition management_log_append_snapshot (uptime epoch : Z) (d : json_dest) (s : log_state)
    : option (bool * json_dest * log_state) :=
  if negb (capture_started s) then
    let '(ok, d) := management_json_append (str "," ++ [34] ++ str "logs" ++ [34] ++ str ":[]") d in
    Some (ok, d, s)
  else
    let s := management_log_flush_pending uptime epoch s in
    es ← last_entries (if (count s <? MANAGEMENT_LOG_STATUS_WINDOW)%nat then count s
                       else MANAGEMENT_LOG_STATUS_WINDOW) s;
    let '(ok, d) := append_all
      ((management_json_append (str "," ++ [34] ++ str "logs" ++ [34] ++ str ":[") :: entries_json es)
       ++ [management_json_append (str "]")]) d in
    Some (ok, d, s).

End snapshot.

(** ** The ring holds the last 50 entries *)

(** The log that never forgets: what a store appends. *)

Definition logged (lv : Z) (msg : list Z) (uptime epoch : Z) : list ManagementLogEntry :=
  if bool_decide (msg = []) || bool_decide (msg = MANAGEMENT_LOG_HTTPS_HANDSHAKE_MESSAGE) then []
  else [MkEntry uptime epoch lv (take 191 msg)].

Definition last_n {A} (n : nat) (l : list A) : list A := drop (length l - n) l.

(** The ring represents a history: entry [k] from the end is in cell
    [next - 1 - k]. *)

Record ring (s : log_state) (history : list ManagementLogEntry) : Prop := {
  ring_length : length (entries s) = 50%nat;
  ring_next : next s = (length history mod 50)%nat;
  ring_count : count s = Nat.min (length history) 50;
  ring_cells : ∀ k e, (length history ≤ k + 50)%nat → history !! k = Some e →
    entries s !! (k mod 50)%nat = Some e
}.

Lemma mod_window a b : (a < b)%nat → (b < a + 50)%nat → (a mod 50)%nat ≠ (b mod 50)%nat.
Proof.
  intros H1 H2 E. pose proof (Nat.div_mod_eq a 50). pose proof (Nat.div_mod_eq b 50).
  assert (a / 50 < b / 50)%nat by lia. nia.
Qed.

Lemma ring_store s history lv msg u e :
  ring s history →
  ring (management_log_store_locked lv msg u e s) (history ++ logged lv msg u e)
  ∧ pending (management_log_store_locked lv msg u e s) = pending s
  ∧ capture_started (management_log_store_locked lv msg u e s) = capture_started s.
Proof.
  intros Hr. unfold management_log_store_locked, logged.
  case_bool_decide; [by rewrite app_nil_r|]. case_bool_decide; [by rewrite app_nil_r|].
  cbn [orb]. split; [|done]. destruct Hr as [Hl Hn Hc Hcells].
  pose proof (Nat.mod_upper_bound (length history) 50 ltac:(lia)) as Hb.
  constructor; cbn [entries next count]; unfold MANAGEMENT_LOG_ENTRY_CAPACITY.
  - by rewrite length_insert.
  - rewrite Hn, length_app. cbn [length]. by rewrite Nat.Div0.add_mod_idemp_l.
  - rewrite Hc, length_app. cbn [length].
    destruct (Nat.ltb_spec (Nat.min (length history) 50) 50); lia.
  - rewrite length_app. cbn [length]. intros k x Hk Hx.
    destruct (decide (k = length history)) as [->|Hne].
    + rewrite list_lookup_middle in Hx by done. simplify_eq. rewrite Hn.
      apply list_lookup_insert_eq. lia.
    + pose proof (lookup_lt_Some _ _ _ Hx) as Hlt. rewrite length_app in Hlt. cbn in Hlt.
      rewrite lookup_app_l in Hx by lia. rewrite Hn, list_lookup_insert_ne.
      * apply Hcells; [lia|done].
      * apply not_eq_sym, mod_window; lia.
Qed.

Lemma copy_entries_ok s history first n i :
  ring s history → (first + i + n = length history)%nat → (n + i ≤ 50)%nat →
  (length history ≤ first + i + 50)%nat →
  copy_entries (entries s) (first mod 50) n i = Some (drop (first + i) history).
Proof.
  intros Hr. revert i. induction n as [|n IH]; intros i Hlen Hi Hw; cbn [copy_entries].
  { rewrite drop_ge by lia. done. }
  destruct (lookup_lt_is_Some_2 history (first + i)) as [e He]; [lia|].
  unfold MANAGEMENT_LOG_ENTRY_CAPACITY. rewrite Nat.Div0.add_mod_idemp_l.
  rewrite (ring_cells _ _ Hr (first + i) e) by (lia || done). cbn [mbind option_bind].
  rewrite (IH (S i)) by lia. cbn [mbind option_bind].
  rewrite (drop_S history e (first + i)) by done. do 3 f_equal. lia.
Qed.

Lemma last_entries_ok s history n :
  ring s history → (n ≤ count s)%nat → last_entries n s = Some (last_n n history).
Proof.
  intros Hr Hn. pose proof Hr as [_ Hnext Hc _]. unfold last_entries, last_n, MANAGEMENT_LOG_ENTRY_CAPACITY.
  rewrite Hnext, Hc in *.
  assert (((length history mod 50 + 50 - n) mod 50)%nat = ((length history - n) mod 50)%nat) as ->.
  { pose proof (Nat.div_mod_eq (length history) 50) as E.
    replace (length history mod 50 + 50 - n)%nat with (length history mod 50 + (50 - n))%nat by lia.
    rewrite Nat.Div0.add_mod_idemp_l.
    replace (length history + (50 - n))%nat with (length history - n + 1 * 50)%nat by lia.
    by rewrite Nat.Div0.mod_add. }
  rewrite (copy_entries_ok s history) by (done || lia). by rewrite Nat.add_0_r.
Qed.

(** ** Lines *)

(** What is kept of a line: 255 characters, the last three replaced by dots when
    the line was longer. *)

Definition clip (line : list Z) : list Z :=
  if (length line <=? 255)%nat then line else take 252 line ++ [46; 46; 46].

Lemma clip_length line : (length (clip line) ≤ 255)%nat.
Proof.
  unfold clip. destruct (Nat.leb_spec (length line) 255); [done|].
  rewrite length_app, length_take. cbn [length]. lia.
Qed.

Lemma clip_nil line : clip line = [] ↔ line = [].
Proof.
  unfold clip. destruct (Nat.leb_spec (length line) 255); [done|].
  split; [|intros ->; cbn in *; lia]. by destruct (take 252 line).
Qed.

Lemma dots l :
  length l = 255%nat →
  <[254%nat := 46]> (<[253%nat := 46]> (<[252%nat := 46]> l)) = take 252 l ++ [46; 46; 46].
Proof.
  intros Hl. rewrite <- (take_drop 252 l) at 1.
  assert (length (take 252 l) = 252%nat) as Ht by (rewrite length_take; lia).
  assert (length (drop 252 l) = 3%nat) as Hd by (rewrite length_drop; lia).
  rewrite !insert_app_r_alt by (rewrite ?length_app; lia). rewrite Ht.
  by destruct (drop 252 l) as [|? [|? [|? [|]]]].
Qed.

Lemma clip_snoc line c :
  clip (line ++ [c])
  = if (length (clip line) <? 255)%nat then clip line ++ [c]
    else <[254%nat := 46]> (<[253%nat := 46]> (<[252%nat := 46]> (clip line))).
Proof.
  unfold clip. rewrite length_app. cbn [length].
  destruct (Nat.leb_spec (length line) 255) as [H|H].
  - destruct (Nat.ltb_spec (length line) 255).
    + rewrite (proj2 (Nat.leb_le _ _)) by lia. done.
    + rewrite (proj2 (Nat.leb_gt _ _)) by lia. rewrite dots by lia. by rewrite take_app_le by lia.
  - rewrite (proj2 (Nat.leb_gt (length line + 1) 255)) by lia.
    assert (length (take 252 line ++ [46; 46; 46]) = 255%nat) as Hl
      by (rewrite length_app, length_take; cbn [length]; lia).
    rewrite Hl. change (255 <? 255)%nat with false. cbv iota. rewrite dots by done.
    rewrite take_app_le by lia. rewrite take_app_le by (rewrite length_take; lia).
    rewrite take_take. f_equal.
Qed.

(** ** Log calls

    A call of [management_log_vprintf] reads the clocks for its text, and again
    for the newline that it adds to a long one; each call is taken to end before
    the next one begins. *)

Inductive log_call :=
  | LogOutput (text : list Z) (uptime epoch uptime' epoch' : Z)
  | LogSyslog (priority : Z) (text : list Z) (uptime epoch : Z).

Definition apply_call (s : log_state) (c : log_call) : log_state :=
  match c with
  | LogOutput text u e u' e' => management_log_vprintf text u e u' e' s
  | LogSyslog p text u e => management_log_capture_syslog p text u e s
  end.

(** The specification: a history that never forgets and the current line. *)

Definition spec_line (line : list Z) (u e : Z) : list ManagementLogEntry :=
  if bool_decide (line = []) then []
  else logged (management_log_level_from_line (clip line))
         (management_log_message_from_line (clip line)) u e.

Definition spec_char (u e : Z) (st : list ManagementLogEntry * list Z) (c : Z)
    : list ManagementLogEntry * list Z :=
  let '(history, line) := st in
  if c =? 10 then (history ++ spec_line line u e, [])
  else if c =? 13 then (history, line)
  else (history, line ++ [c]).

Definition syslog_level (priority : Z) : Z :=
  if priority <=? 3 then 69 else if priority =? 4 then 87 else if priority <=? 5 then 73 else 68.

Definition spec_call (st : list ManagementLogEntry * list Z) (c : log_call)
    : list ManagementLogEntry * list Z :=
  match c with
  | LogOutput text u e u' e' =>
    let st := foldl (spec_char u e) st (take 255 text) in
    if (255 <=? length text)%nat then spec_char u' e' st 10 else st
  | LogSyslog p text u e =>
    (st.1 ++ logged (syslog_level p) (str "NUT: " ++ take 186 text) u e, st.2)
  end.

Definition log_rel (s : log_state) (st : list ManagementLogEntry * list Z) : Prop :=
  ring s st.1 ∧ pending s = clip st.2 ∧ capture_started s = true.

Lemma commit_rel s st u e :
  log_rel s st →
  log_rel (management_log_commit_pending_locked u e s) (st.1 ++ spec_line st.2 u e, []).
Proof.
  destruct st as [history line]. intros (Hr & Hp & Hs). cbn [fst snd] in *.
  unfold management_log_commit_pending_locked, spec_line.
  pose proof (clip_nil line) as Hn. rewrite <- Hp in Hn |- *.
  destruct (pending s) as [|c l] eqn:E.
  - rewrite bool_decide_eq_true_2 by (by apply Hn). rewrite app_nil_r. by split_and!.
  - rewrite bool_decide_eq_false_2 by (intros ?; by apply Hn in H).
    destruct (ring_store s history (management_log_level_from_line (c :: l))
      (management_log_message_from_line (c :: l)) u e Hr) as ([] & _ & Hst).
    split_and!; [by constructor|done|]. cbn [set_pending capture_started]. congruence.
Qed.

Lemma char_rel u e s st c : log_rel s st → log_rel (capture_char u e s c) (spec_char u e st c).
Proof.
  destruct st as [history line]. intros Hrel. unfold capture_char, spec_char.
  destruct (c =? 10); [by apply (commit_rel s (history, line) u e)|]. destruct (c =? 13); [done|].
  destruct Hrel as (Hr & Hp & Hs). cbn [fst snd] in *. rewrite Hp.
  pose proof (clip_snoc line c) as Hc. unfold MANAGEMENT_LOG_CHUNK_LENGTH.
  change (256 - 1)%nat with 255%nat.
  destruct (length (clip line) <? 255)%nat; (split_and!; [by destruct Hr|exact (eq_sym Hc)|done]).
Qed.

Lemma chunk_rel text u e s st :
  log_rel s st → log_rel (management_log_capture_chunk text u e s) (foldl (spec_char u e) st text).
Proof.
  intros Hrel. unfold management_log_capture_chunk. pose proof Hrel as (_ & _ & ->).
  revert s st Hrel. induction text as [|c text IH]; intros s st Hrel; cbn [foldl]; [done|].
  by apply IH, char_rel.
Qed.

Lemma call_rel s st c : log_rel s st → log_rel (apply_call s c) (spec_call st c).
Proof.
  intros Hrel. destruct c as [text u e u' e'|p text u e]; cbn [apply_call spec_call].
  - unfold management_log_vprintf, MANAGEMENT_LOG_CHUNK_LENGTH. change (256 - 1)%nat with 255%nat.
    destruct (255 <=? length text)%nat; [|by apply chunk_rel].
    by apply (chunk_rel [10]), chunk_rel.
  - destruct Hrel as (Hr & Hp & Hs). unfold management_log_capture_syslog. rewrite Hs.
    unfold MANAGEMENT_LOG_MESSAGE_LENGTH. rewrite take_take.
    change (Nat.min (192 - 6) (192 - 1)) with 186%nat.
    destruct (ring_store s st.1 (syslog_level p) (str "NUT: " ++ take 186 text) u e Hr)
      as (? & ? & ?). split_and!; cbn [fst snd]; [done|unfold syslog_level in *; congruence..].
Qed.

Lemma start_rel : log_rel (management_log_capture_start true log0) ([], []).
Proof.
  split_and!; [|done|done]. constructor; [done|done|done|]. by intros k e _ ?.
Qed.

Definition run_calls (calls : list log_call) : log_state :=
  foldl apply_call (management_log_capture_start true log0) calls.

Definition spec_calls (calls : list log_call) : list ManagementLogEntry * list Z :=
  foldl spec_call ([], []) calls.

Lemma run_calls_rel calls : log_rel (run_calls calls) (spec_calls calls).
Proof.
  unfold run_calls, spec_calls. generalize start_rel.
  generalize (management_log_capture_start true log0) as s. generalize (@nil ManagementLogEntry, @nil Z) as st.
  induction calls as [|c calls IH]; intros st s H; cbn [foldl]; [done|]. by apply IH, call_rel.
Qed.

Lemma last_n_count s history : ring s history → last_n (count s) history = last_n 50 history.
Proof. intros Hr. unfold last_n. rewrite (ring_count _ _ Hr). f_equal. lia. Qed.

(** C26. After any sequence of log output and syslog calls, the snapshot is the
    last 50 entries, oldest first, of a log that never forgets.  Each output call
    contributes its first 255 characters and, when it has 255 or more, ends the
    line; the lines are put together from the calls whatever the pieces they
    arrive in, without carriage returns, and a line of more than 255 characters is
    cut to 252 and three dots.  Every complete line, every syslog message (its
    first 186 characters after [NUT: ]) and last the unfinished line gives one
    entry, unless its message is empty or the TLS handshake's; of a message an
    entry keeps the first 191 characters.  The copy never reads outside the
    ring. *)
Theorem log_snapshot_correct calls uptime epoch :
  ∃ s', management_log_copy_snapshot 50 uptime epoch (run_calls calls)
    = Some (true, last_n 50 ((spec_calls calls).1 ++ spec_line (spec_calls calls).2 uptime epoch), s').
Proof.
  pose proof (run_calls_rel calls) as Hrel. unfold management_log_copy_snapshot.
  destruct Hrel as (Hr & Hp & Hs). rewrite Hs. cbn [negb].
  change (50 <? MANAGEMENT_LOG_ENTRY_CAPACITY)%nat with false. cbv iota.
  pose proof (commit_rel (run_calls calls) (spec_calls calls) uptime epoch (conj Hr (conj Hp Hs)))
    as (Hr' & _ & _). cbn [fst snd] in Hr'. unfold management_log_flush_pending.
  set (s' := management_log_commit_pending_locked uptime epoch (run_calls calls)) in *.
  rewrite (last_entries_ok _ _ _ Hr') by done. cbn [mbind option_bind]. exists s'.
  by rewrite (last_n_count _ _ Hr').
Qed.

(** The status page shows the last 6 entries of the same log: a capture of at
    least that many entries never drops one of the six newest. *)
Theorem log_status_window calls uptime epoch timestamps d :
  let history := (spec_calls calls).1 ++ spec_line (spec_calls calls).2 uptime epoch in
  ∃ ok d' s', management_log_append_snapshot timestamps uptime epoch d (run_calls calls)
    = Some (ok, d', s')
  ∧ (ok, d') = append_all ((management_json_append (str "," ++ [34] ++ str "logs" ++ [34] ++ str ":[")
       :: entries_json timestamps (last_n 6 history)) ++ [management_json_append (str "]")]) d.
Proof.
  pose proof (run_calls_rel calls) as Hrel. cbn zeta. unfold management_log_append_snapshot.
  destruct Hrel as (Hr & Hp & Hs). rewrite Hs. cbn [negb].
  pose proof (commit_rel (run_calls calls) (spec_calls calls) uptime epoch (conj Hr (conj Hp Hs)))
    as (Hr' & _ & _). cbn [fst snd] in Hr'. unfold management_log_flush_pending.
  set (s' := management_log_commit_pending_locked uptime epoch (run_calls calls)) in *.
  set (h := (spec_calls calls).1 ++ spec_line _ _ _) in *.
  assert (last_entries (if (count s' <? MANAGEMENT_LOG_STATUS_WINDOW)%nat then count s'
    else MANAGEMENT_LOG_STATUS_WINDOW) s' = Some (last_n 6 h)) as ->.
  { unfold MANAGEMENT_LOG_STATUS_WINDOW. pose proof (ring_count _ _ Hr') as Hc.
    destruct (Nat.ltb_spec (count s') 6).
    - rewrite (last_entries_ok _ _ _ Hr') by done. unfold last_n. do 2 f_equal. rewrite Hc in *. lia.
    - by rewrite (last_entries_ok _ _ _ Hr') by lia. }
  cbn [mbind option_bind]. destruct (append_all _ d) as [ok d'] eqn:E.
  exists ok, d', s'. by split.
Qed.
