(* ===== verification/Authorization.v ===== *)
(** * Authorization of requests (src/src/management-authorization.c)

    The browser session ([Session]) and the bearer tokens ([TokenStore]) behind
    the two boundaries that the route handlers use. *)

From Stdlib Require Import ZArith Lia String.
From stdpp Require Import base tactics list numbers option gmap.
From S2P Require Import Prelude Platform TokenStore MgmtHttp Session.

#[local] Open Scope Z_scope.

Definition MANAGEMENT_AUTH_BEARER_PREFIX : list Z := str "Bearer ".

(** A JSON object with the one member [error]. *)

Definition error_json (text : list Z) : list Z :=
  str "{" ++ [34] ++ str "error" ++ [34] ++ str ":" ++ [34] ++ text ++ [34] ++ str "}".

Definition quoted (s : list Z) : list Z := [34] ++ s ++ [34].

Section authorization.
Context {R W : Type} `{Httpd R} `{Platform W}.

(** The result, the session afterwards and the response sent. *)

Definition management_require_session_impl (request : R) (refresh : bool) (now : Z)
    (s : ManagementSession) : bool * ManagementSession * list http_call :=
  let '(ok, s) := management_session_is_authorized request refresh now s in
  if ok : bool then (true, s, [])
  else (false, s, management_send_json (str "401 Unauthorized")
                    (error_json (str "ADMIN authentication is required."))).

Definition management_require_session (request : R) (refresh : bool) (now : Z)
    (s : ManagementSession) := management_require_session_impl request refresh now s.

Definition management_require_session_without_activity (request : R) (now : Z)
    (s : ManagementSession) := management_require_session_impl request false now s.

(** [None] is a memory error of the token store. *)

Definition management_bearer_check (request : R)
    (authorize_fn : list Z → Z → W → option (bool * option ApiTokenStore * W))
    (required_scope : Z) (w : W) : option (bool * W) :=
  let expected_length := (7 + API_TOKEN_VALUE_LENGTH)%nat in
  if negb (httpd_req_get_hdr_value_len request (str "Authorization") =? Z.of_nat expected_length)
  then Some (false, w)
  else
    let '(e, authorization) :=
      httpd_req_get_hdr_value_str request (str "Authorization") (expected_length + 1) in
    if negb (is_ok e) then Some (false, w)
    else if bool_decide (take 7 authorization = MANAGEMENT_AUTH_BEARER_PREFIX)
    then '(authorized, _, w) ← authorize_fn (drop 7 authorization) required_scope w;
         Some (authorized, w)
    else Some (false, w).

Definition management_bearer_authorize_ota (token : list Z) (required_scope : Z) (w : W) :=
  api_tokens_authorize (Some token) required_scope w.

Definition management_bearer_authorize_diagnostic (token : list Z) (required_scope : Z) (w : W) :=
  diagnostic_tokens_authorize (Some token) w.

Definition management_bearer_is_authorized (request : R) (required_scope : Z) (w : W) :=
  management_bearer_check request management_bearer_authorize_ota required_scope w.

Definition management_diagnostic_bearer_is_authorized (request : R) (w : W) :=
  management_bearer_check request management_bearer_authorize_diagnostic 0 w.

Definition management_send_bearer_unauthorized : list http_call :=
  httpd_resp_set_hdr (str "WWW-Authenticate")
    (str "Bearer realm=" ++ quoted (str "ESP32-NUT Agent OTA") ++ str ", scope="
     ++ quoted (str "ota.install"))
  :: management_send_json (str "401 Unauthorized")
       (error_json (str "A valid API token with ota.install scope is required.")).

Definition management_send_diagnostic_bearer_unauthorized : list http_call :=
  httpd_resp_set_hdr (str "WWW-Authenticate")
    (str "Bearer realm=" ++ quoted (str "ESP32-NUT Diagnostics") ++ str ", scope="
     ++ quoted (str "diagnostics.nut"))
  :: management_send_json (str "401 Unauthorized")
       (error_json (str "A valid API token with diagnostics.nut scope is required.")).

End authorization.

(** ** Bearer tokens *)

(** The decision of a store on a token and a scope, in terms of the flash. *)

Definition bearer_allowed {W} `{PlatformLaws W} (config : ApiTokenStoreConfig)
    (f : gmap (list Z * list Z) (list Z)) (token : list Z) (required : Z) : Prop :=
  ∃ s r, api_token_store_value_is_valid (Some token) = true ∧ required ≠ 0
    ∧ Z.land (scope config) required = required
    ∧ stored config f = Some s ∧ r ∈ records s ∧ grants token required r.

Lemma bearer_check_spec {R W} `{HttpdLaws R} `{PlatformLaws W} config authorize_fn required
    (request : R) (w : W) required0 :
  config_ok config → 0 ≤ required < 2 ^ 32 →
  (∀ token w, authorize_fn token required0 w = api_token_store_authorize config (Some token) required w) →
  ∃ b w', management_bearer_check request authorize_fn required0 w = Some (b, w')
    ∧ flash w' = flash w
    ∧ (b = true → ∃ token, header request (str "Authorization") = Some (str "Bearer " ++ token)
                    ∧ bearer_allowed config (flash w) token required)
    ∧ (healthy w → ∀ token, header request (str "Authorization") = Some (str "Bearer " ++ token) →
       bearer_allowed config (flash w) token required → b = true).
Proof.
  intros Hc Hreq Hfn. unfold management_bearer_check, API_TOKEN_VALUE_LENGTH.
  rewrite hdr_len_law. change (Z.of_nat (7 + 76)) with 83. change (7 + 76 + 1)%nat with 84%nat.
  assert (∀ token, bearer_allowed config (flash w) token required → length token = 76%nat) as Hlen.
  { intros token (s & r & Hv & _). unfold api_token_store_value_is_valid in Hv.
    by destruct (Nat.eqb_spec (length token) API_TOKEN_VALUE_LENGTH). }
  pose proof (hdr_str_law request (str "Authorization") 84) as Hs.
  destruct (header request (str "Authorization")) as [v|].
  2:{ exists false, w. split; [done|]. split_and!; done. }
  change (default [] (Some v)) with v.
  destruct (Z.eqb_spec (Z.of_nat (length v)) 83) as [El|El]; cbn [negb].
  2:{ exists false, w. split_and!; [done|done|done|]. intros _ token E Hb.
      assert (v = str "Bearer " ++ token) as Ev by congruence. apply Hlen in Hb.
      destruct El. rewrite Ev, length_app, Hb. done. }
  rewrite (proj2 (Nat.ltb_lt _ 84)) in Hs by lia. rewrite Hs. change (is_ok ESP_OK) with true.
  cbn [negb]. case_bool_decide as Ep.
  2:{ exists false, w. split_and!; [done|done|done|]. intros _ token E _. destruct Ep.
      assert (v = str "Bearer " ++ token) as -> by congruence. done. }
  rewrite Hfn. destruct (authorize_exits config (Some (drop 7 v)) required w Hc Hreq)
    as (b & st & w' & -> & Hf & Hsound & Hcomp).
  cbn [mbind option_bind]. exists b, w'. split_and!; [done|done| |].
  - intros Hb. destruct (Hsound Hb) as (t & s & r & [= <-] & Hrest).
    exists (drop 7 v). split; [|by exists s, r].
    change (str "Bearer ") with MANAGEMENT_AUTH_BEARER_PREFIX. by rewrite <- Ep, take_drop.
  - intros Hh token E (s & r & Hrest). apply Hcomp; [done|].
    assert (v = str "Bearer " ++ token) as -> by congruence.
    exists token, s, r. split; [done|]. exact Hrest.
Qed.

(** C20. The bearer check that guards the agents' OTA routes accepts a request only
    with an Authorization header that is exactly [Bearer] and a token of which the
    OTA store in flash holds an active, valid record with that scope; the check of
    the diagnostics routes likewise for the diagnostics store.  On a platform that does not fail every such header
    is accepted.  Checking changes nothing in flash. *)
Theorem bearer_correct {R W} `{HttpdLaws R} `{PlatformLaws W} (request : R) required (w : W) :
  0 ≤ required < 2 ^ 32 →
  let correct config required (res : option (bool * W)) :=
    ∃ b w', res = Some (b, w') ∧ flash w' = flash w
    ∧ (b = true → ∃ token, header request (str "Authorization") = Some (str "Bearer " ++ token)
                    ∧ bearer_allowed config (flash w) token required)
    ∧ (healthy w → ∀ token, header request (str "Authorization") = Some (str "Bearer " ++ token) →
       bearer_allowed config (flash w) token required → b = true) in
  correct api_token_store_config required (management_bearer_is_authorized request required w)
  ∧ correct diagnostic_token_store_config API_TOKEN_SCOPE_DIAGNOSTICS_NUT
      (management_diagnostic_bearer_is_authorized request w).
Proof. intros Hreq. cbn zeta. split; by apply bearer_check_spec. Qed.

Lemma bearer_correct_witness :
  ∃ b w', management_bearer_is_authorized
      [(str "Authorization", str "Bearer " ++ token_one)] API_TOKEN_SCOPE_OTA_INSTALL w_one = Some (b, w').
Proof.
  destruct (bearer_correct [(str "Authorization", str "Bearer " ++ token_one)]
    API_TOKEN_SCOPE_OTA_INSTALL w_one) as [(b & w' & E & _) _]; [done|].
  exists b, w'. exact E.
Defined.

(** A refused session request is answered with status 401 and never with content. *)

Lemma require_session_refusal {R} `{Httpd R} (request : R) refresh now s s' calls :
  management_require_session request refresh now s = (false, s', calls) →
  httpd_resp_set_status (str "401 Unauthorized") ∈ calls.
Proof.
  unfold management_require_session, management_require_session_impl.
  destruct (management_session_is_authorized request refresh now s) as [[] ?]; [done|].
  intros [= _ <-]. unfold management_send_json. apply elem_of_app. right. by left.
Qed.
