(* ===== verification/Dns.v ===== *)
(** * Captive-portal name server (src/src/dns-server.c)

    [Reply]: the construction of a reply from a received datagram.
    [Lifetime]: the handle shared by the worker task and [dns_server_stop], as
    two threads whose steps interleave. *)

From Stdlib Require Import ZArith Lia String.
From stdpp Require Import base tactics list numbers option.
From S2P Require Import Prelude Platform.

#[local] Open Scope Z_scope.

Definition DNS_PACKET_MAX_LENGTH : nat := 512.
Definition DNS_HEADER_LENGTH : nat := 12.
Definition DNS_TYPE_A : Z := 1.
Definition DNS_CLASS_IN : Z := 1.
Definition DNS_ANSWER_TTL_SECONDS : Z := 30.

(** [htons] and [htonl] as the bytes they leave in memory; [ntohs] reads the two
    bytes at an offset, [None] outside the buffer. *)

Definition htons (x : Z) : list Z := [x / 256 mod 256; x mod 256].
Definition htonl (x : Z) : list Z := htons (x / 65536) ++ htons x.

Definition ntohs (buf : list Z) (offset : nat) : option Z :=
  hi ← buf !! offset; lo ← buf !! S offset; Some (256 * hi + lo).

(** [memcpy(buf + offset, src, strlen(src))]. *)

Definition memcpy (buf : list Z) (offset : nat) (src : list Z) : option (list Z) :=
  if (offset + length src <=? length buf)%nat
  then Some (take offset buf ++ src ++ drop (offset + length src) buf) else None.

(** The first [n] bytes of a source of which all must exist. *)

Definition read_bytes (buf : list Z) (n : nat) : option (list Z) :=
  if (n <=? length buf)%nat then Some (take n buf) else None.

Module Reply.

(** The packed answer record, in memory order. *)

Record DnsAnswer := {
  name_pointer : Z; type : Z; class_code : Z; ttl : Z; address_length : Z;
  address : list Z   (* [ip_info.ip.addr], already in network order *)
}.

Definition DnsAnswer_bytes (a : DnsAnswer) : list Z :=
  htons (name_pointer a) ++ htons (type a) ++ htons (class_code a) ++ htonl (ttl a)
  ++ htons (address_length a) ++ address a.

Definition sizeof_DnsAnswer : nat := 16.

(** The loop over the labels of the first name: [Some (Some offset)] leaves the
    loop at [offset], [Some None] is the [return -1] inside. *)

Fixpoint label_loop (fuel : nat) (request : list Z) (request_length offset : nat)
  : option (option nat) :=
  match fuel with
  | O => None
  | S fuel =>
    if (offset <? request_length)%nat then
      b ← request !! offset;
      if b =? 0 then Some (Some offset)
      else
        let label_length := Z.to_nat b in
        if (63 <? label_length)%nat || (request_length <=? offset + label_length + 1)%nat
        then Some None
        else label_loop fuel request request_length (offset + label_length + 1)
    else Some (Some offset)
  end.

Section prepare.
Context {I : Type}.
Context (esp_netif_get_handle_from_ifkey : list Z → option I).
Context (esp_netif_get_ip_info : I → esp_err_t * list Z).

Definition interface_address (interface_key : list Z) : option (list Z) :=
  match esp_netif_get_handle_from_ifkey interface_key with
  | Some i => let '(e, addr) := esp_netif_get_ip_info i in
              if is_ok e then Some addr else None
  | None => None
  end.

(** The reply written over the buffer of [reply_capacity] bytes. *)

Definition write_reply (request reply : list Z) (request_flags : Z) (question_end : nat)
    (addr : list Z) : option (list Z) :=
  head ← read_bytes request question_end;
  reply ← memcpy reply 0 head;
  reply ← memcpy reply 2 (htons (Z.lor (Z.lor request_flags 32768) 1024));
  reply ← memcpy reply 4 (htons 1);
  reply ← memcpy reply 6 (htons 1);
  reply ← memcpy reply 8 (htons 0);
  reply ← memcpy reply 10 (htons 0);
  memcpy reply question_end
    (DnsAnswer_bytes {| name_pointer := 49164; type := DNS_TYPE_A; class_code := DNS_CLASS_IN;
                        ttl := DNS_ANSWER_TTL_SECONDS; address_length := 4; address := addr |}).

(** The return value and the reply buffer afterwards; [None] is an access
    outside [request] or [reply]. *)

Definition dns_prepare_reply (request : list Z) (request_length : nat) (reply : list Z)
    (interface_key : list Z) : option (Z * list Z) :=
  let reply_capacity := length reply in
  let fail := Some (-1, reply) in
  if (request_length <? DNS_HEADER_LENGTH)%nat || (reply_capacity <? request_length)%nat then fail
  else
    question_count ← ntohs request 4;
    if question_count =? 0 then fail
    else
      request_flags ← ntohs request 2;
      if negb (Z.land request_flags 30720 =? 0) then fail
      else
        left ← label_loop (S request_length) request request_length DNS_HEADER_LENGTH;
        match left with
        | None => fail
        | Some offset =>
          if (request_length <? offset + 5)%nat then fail
          else
            let offset := (offset + 1)%nat in
            question_type ← ntohs request offset;
            question_class ← ntohs request (offset + 2);
            if negb (question_type =? DNS_TYPE_A) || negb (question_class =? DNS_CLASS_IN) then fail
            else
              let question_end := (offset + 2 + 2)%nat in
              let reply_length := (question_end + sizeof_DnsAnswer)%nat in
              if (reply_capacity <? reply_length)%nat then fail
              else
                match interface_address interface_key with
                | None => fail
                | Some addr =>
                  reply ← write_reply request reply request_flags question_end addr;
                  Some (Z.of_nat reply_length, reply)
                end
        end.

End prepare.

(** ** What a reply is *)

(** The wire form of a name (RFC 1035, 4.1.2) without its final zero byte. *)

Fixpoint encode_labels (labels : list (list Z)) : list Z :=
  match labels with [] => [] | l :: labels => Z.of_nat (length l) :: l ++ encode_labels labels end.

Definition encode_name (labels : list (list Z)) : list Z := encode_labels labels ++ [0].

Definition labels_ok (labels : list (list Z)) : Prop :=
  Forall (λ l, (1 ≤ length l ≤ 63)%nat) labels.

(** A standard query whose first question asks for an address. *)

Record Query := {
  q_id : list Z; q_flags : Z; q_count : Z; q_others : list Z;
  q_name : list (list Z); q_rest : list Z
}.

Definition question (q : Query) : list Z :=
  encode_name (q_name q) ++ htons DNS_TYPE_A ++ htons DNS_CLASS_IN.

Definition Query_bytes (q : Query) : list Z :=
  q_id q ++ htons (q_flags q) ++ htons (q_count q) ++ q_others q ++ question q ++ q_rest q.

Definition Query_ok (q : Query) : Prop :=
  length (q_id q) = 2%nat ∧ length (q_others q) = 6%nat
  ∧ 0 ≤ q_flags q < 65536 ∧ Z.land (q_flags q) 30720 = 0
  ∧ 0 < q_count q < 65536 ∧ labels_ok (q_name q).

(** The authoritative answer to it. *)

Definition Reply_bytes (q : Query) (addr : list Z) : list Z :=
  q_id q ++ htons (Z.lor (Z.lor (q_flags q) 32768) 1024)
  ++ htons 1 ++ htons 1 ++ htons 0 ++ htons 0
  ++ question q
  ++ htons 49164 ++ htons DNS_TYPE_A ++ htons DNS_CLASS_IN ++ htonl DNS_ANSWER_TTL_SECONDS
  ++ htons 4 ++ addr.

(** ** Lemmas *)

Lemma ntohs_htons pre x post :
  0 ≤ x < 65536 → ntohs (pre ++ htons x ++ post) (length pre) = Some x.
Proof.
  intros Hx. unfold ntohs.
  assert ((pre ++ htons x ++ post) !! length pre = Some (x / 256 mod 256)) as -> by
    (rewrite lookup_app_r, Nat.sub_diag by lia; done).
  assert ((pre ++ htons x ++ post) !! S (length pre) = Some (x mod 256)) as -> by
    (rewrite lookup_app_r by lia; by replace (S (length pre) - length pre)%nat with 1%nat by lia).
  cbn [mbind option_bind].
  rewrite (Z.mod_small (x / 256)) by (split; [apply Z.div_pos|apply Z.div_lt_upper_bound]; lia).
  f_equal. pose proof (Z.div_mod x 256). lia.
Qed.

Lemma ntohs_inv buf i x :
  Forall is_byte buf → ntohs buf i = Some x →
  0 ≤ x < 65536 ∧ drop i buf = htons x ++ drop (i + 2) buf.
Proof.
  intros Hb. unfold ntohs. destruct (buf !! i) as [hi|] eqn:Eh; [|done]. cbn [mbind option_bind].
  destruct (buf !! S i) as [lo|] eqn:El; [|done]. cbn [mbind option_bind].
  intros E. assert (x = 256 * hi + lo) as -> by congruence. clear E.
  pose proof (Forall_lookup_1 _ _ _ _ Hb Eh) as H1. pose proof (Forall_lookup_1 _ _ _ _ Hb El) as H2.
  unfold is_byte in *. split; [lia|].
  assert (htons (256 * hi + lo) = [hi; lo]) as ->.
  { unfold htons. rewrite (Z.mul_comm 256), Z.div_add_l, Z.div_small, Z.add_0_r by lia.
    rewrite Z.add_comm, Z.mod_add, !Z.mod_small by lia. done. }
  rewrite (drop_S _ _ _ Eh), (drop_S _ _ _ El). by replace (i + 2)%nat with (S (S i)) by lia.
Qed.

Lemma ntohs_app d s i : (S i < length d)%nat → ntohs (d ++ s) i = ntohs d i.
Proof. intros H. unfold ntohs. by rewrite !lookup_app_l by lia. Qed.

Lemma ntohs_lt buf i : (S i < length buf)%nat → is_Some (ntohs buf i).
Proof.
  intros H. unfold ntohs.
  destruct (lookup_lt_is_Some_2 buf i) as [x ->]; [lia|].
  destruct (lookup_lt_is_Some_2 buf (S i)) as [y ->]; [lia|]. by eexists.
Qed.

(** The loop walks exactly over well-formed labels. *)

Lemma label_loop_complete labels pre post n fuel :
  labels_ok labels → (length (encode_labels labels) < fuel)%nat →
  (length pre + length (encode_labels labels) < n)%nat →
  label_loop fuel (pre ++ encode_name labels ++ post) n (length pre)
  = Some (Some (length pre + length (encode_labels labels))%nat).
Proof.
  intros Hok. revert pre fuel. induction Hok as [|l labels Hl Hok IH]; intros pre fuel Hf Hn;
    (destruct fuel as [|fuel]; [cbn in Hf; lia|]).
  - unfold encode_name. cbn [encode_labels label_loop app length] in *.
    guards.
    rewrite lookup_app_r, Nat.sub_diag by lia. cbn. by rewrite Nat.add_0_r.
  - unfold encode_name in *. cbn [encode_labels app label_loop]. cbn [encode_labels length] in Hf, Hn.
    rewrite length_app in Hf, Hn.
    guards.
    rewrite lookup_app_r, Nat.sub_diag by lia. cbn [lookup list_lookup mbind option_bind].
    rewrite Nat2Z.id. guards.
    assert (length (pre ++ Z.of_nat (length l) :: l) = (length pre + length l + 1)%nat) as Hpre
      by lens.
    specialize (IH (pre ++ Z.of_nat (length l) :: l) fuel). rewrite Hpre in IH.
    specialize (IH ltac:(lia) ltac:(lia)).
    rewrite <- !app_assoc in *. cbn [app] in *. rewrite IH.
    cbn [length]. rewrite length_app. do 2 f_equal. lia.
Qed.

(** It never reads outside the datagram, terminates, and leaves only at its end
    or at the zero byte that closes a sequence of labels. *)

Lemma label_loop_sound fuel request n offset :
  Forall is_byte request → (n ≤ length request)%nat → (n < offset + fuel)%nat →
  (offset ≤ n)%nat →
  ∃ r, label_loop fuel request n offset = Some r ∧
    ∀ off, r = Some off → (off < n)%nat →
      ∃ labels post, labels_ok labels ∧ off = (offset + length (encode_labels labels))%nat
        ∧ request = take offset request ++ encode_name labels ++ post.
Proof.
  intros Hb Hn. revert offset. induction fuel as [|fuel IH]; intros offset Hf Ho;
    (destruct (Nat.ltb_spec offset n) as [Hlt|Hge]; [|]).
  - lia.
  - lia.
  - cbn [label_loop]. rewrite (proj2 (Nat.ltb_lt _ _)) by done.
    destruct (lookup_lt_is_Some_2 request offset) as [b Eb]; [lia|].
    rewrite Eb. binds.
    pose proof (Forall_lookup_1 _ _ _ _ Hb Eb) as Hbb. unfold is_byte in Hbb.
    pose proof (take_drop_middle _ _ _ Eb) as Esplit.
    destruct (Z.eqb_spec b 0) as [->|Hb0].
    { exists (Some offset). split; [done|]. intros off [= <-] _.
      exists [], (drop (S offset) request). split_and!; [by constructor|cbn; lia|].
      unfold encode_name. cbn [encode_labels app]. done. }
    destruct (Nat.ltb_spec 63 (Z.to_nat b)) as [|H63]; cbn [orb]; [by exists None|].
    destruct (Nat.leb_spec n (offset + Z.to_nat b + 1)) as [|Hroom]; [by exists None|].
    destruct (IH (offset + Z.to_nat b + 1)%nat) as (r & -> & Hr); [lia|lia|].
    exists r. split; [done|]. intros off Er Hoff. destruct (Hr off Er Hoff) as (labels & post & Hok & -> & E).
    set (l := take (Z.to_nat b) (drop (S offset) request)).
    assert (length l = Z.to_nat b) as Hl by (unfold l; rewrite length_take, length_drop; lia).
    exists (l :: labels), post. split_and!; [constructor; [lia|done]| |].
    { cbn [encode_labels length]. rewrite length_app. lia. }
    rewrite E at 1. unfold encode_name. cbn [encode_labels]. rewrite <- !app_assoc. cbn [app].
    rewrite Hl, Z2Nat.id by lia.
    replace (take (offset + Z.to_nat b + 1) request)
      with (take offset request ++ b :: l); [by rewrite <- !app_assoc|].
    rewrite <- Esplit at 2. rewrite take_app, length_take.
    rewrite Nat.min_l by lia. rewrite (take_ge (take offset request)) by lens.
    f_equal. replace (offset + Z.to_nat b + 1 - offset)%nat with (S (Z.to_nat b)) by lia. done.
  - cbn [label_loop]. rewrite (proj2 (Nat.ltb_ge _ _)) by done. exists (Some offset).
    split; [done|]. intros off [= <-] ?. lia.
Qed.

Lemma label_loop_app fuel d s offset :
  label_loop fuel (d ++ s) (length d) offset = label_loop fuel d (length d) offset.
Proof.
  revert offset. induction fuel as [|fuel IH]; intros offset; cbn [label_loop]; [done|].
  destruct (Nat.ltb_spec offset (length d)); [|done]. rewrite lookup_app_l by done.
  destruct (d !! offset); [|done]. binds. by rewrite IH.
Qed.

Lemma memcpy_app (a b c src : list Z) :
  length b = length src → memcpy (a ++ b ++ c) (length a) src = Some (a ++ src ++ c).
Proof.
  intros H. unfold memcpy. rewrite (proj2 (Nat.leb_le _ _)) by (rewrite !length_app; lia).
  rewrite take_app_length. by rewrite <- H, (app_assoc a b c), <- length_app, drop_app_length.
Qed.

Lemma memcpy_at buf off src a b c :
  buf = a ++ b ++ c → length a = off → length b = length src →
  memcpy buf off src = Some (a ++ src ++ c).
Proof. intros -> <- ?. by apply memcpy_app. Qed.

Definition question_end (q : Query) : nat := (DNS_HEADER_LENGTH + length (question q))%nat.

Lemma write_reply_spec q stale reply addr :
  Query_ok q → length addr = 4%nat → (question_end q + 16 ≤ length reply)%nat →
  write_reply (Query_bytes q ++ stale) reply (q_flags q) (question_end q) addr
  = Some (Reply_bytes q addr ++ drop (question_end q + 16) reply).
Proof.
  intros (Hid & Hoth & _) Ha Hroom. unfold question_end, DNS_HEADER_LENGTH in *.
  set (fl := Z.lor (Z.lor (q_flags q) 32768) 1024).
  set (head := q_id q ++ htons (q_flags q) ++ htons (q_count q) ++ q_others q ++ question q).
  assert (length head = (12 + length (question q))%nat) as Hh
    by (unfold head; rewrite !length_app, Hid, Hoth; done).
  unfold write_reply, read_bytes. fold fl.
  replace (Query_bytes q ++ stale) with (head ++ (q_rest q ++ stale))
    by (unfold Query_bytes, head; by rewrite <- !app_assoc).
  rewrite (proj2 (Nat.leb_le _ _)) by lens. binds.
  rewrite <- Hh, take_app_length.
  rewrite (memcpy_at reply 0 head [] (take (length head) reply) (drop (length head) reply));
    [|symmetry; apply take_drop|done|rewrite length_take; lia].
  cbn [app mbind option_bind]. replace (head ++ drop (length head) reply) with (q_id q ++ htons (q_flags q) ++ htons (q_count q) ++ q_others q ++ question q ++ drop (length head) reply) by (unfold head; by rewrite <- !app_assoc).
  destruct (q_id q) as [|i0 [|i1 [|]]] eqn:Eid; try done.
  destruct (q_others q) as [|o0 [|o1 [|o2 [|o3 [|o4 [|o5 [|]]]]]]] eqn:Eo; try done.
  set (D := drop (length head) reply).
  erewrite (memcpy_at _ 2 _ [i0; i1] [_; _]); [|reflexivity..]. cbn [app mbind option_bind].
  erewrite (memcpy_at _ 4 _ [_; _; _; _] [_; _]); [|reflexivity..]. cbn [app mbind option_bind].
  erewrite (memcpy_at _ 6 _ [_; _; _; _; _; _] [_; _]); [|reflexivity..]. cbn [app mbind option_bind].
  erewrite (memcpy_at _ 8 _ [_; _; _; _; _; _; _; _] [_; _]); [|reflexivity..]. cbn [app mbind option_bind].
  erewrite (memcpy_at _ 10 _ [_; _; _; _; _; _; _; _; _; _] [_; _]); [|reflexivity..]. cbn [app mbind option_bind].
  set (ans := DnsAnswer_bytes _).
  assert (length ans = 16%nat) as Hans by (unfold ans, DnsAnswer_bytes; cbn [name_pointer type class_code ttl address_length address]; rewrite !length_app, Ha; done).
  assert (D = take 16 D ++ drop 16 D) as -> by (symmetry; apply take_drop).
  set (pre := [i0; i1] ++ htons fl ++ htons 1 ++ htons 1 ++ htons 0 ++ htons 0 ++ question q).
  transitivity (memcpy (pre ++ take 16 D ++ drop 16 D) (length head) ans); [done|].
  replace (length head) with (length pre) by (rewrite Hh; done).
  rewrite memcpy_app by (unfold D; rewrite length_take, length_drop, Hans; lia).
  f_equal. unfold Reply_bytes. rewrite Eid. fold fl. unfold ans, DnsAnswer_bytes. cbn [name_pointer type class_code ttl address_length address].
  unfold D. rewrite drop_drop, Hh. rewrite <- !app_assoc. done.
Qed.

Section correct.
Context {I : Type} (handle_from_ifkey : list Z → option I) (get_ip_info : I → esp_err_t * list Z).

(** An [esp_ip4_addr_t] has four bytes. *)
Context (address_size : ∀ i, length (get_ip_info i).2 = 4%nat).

Definition answers (q : Query) (addr datagram reply interface_key : list Z) : Prop :=
  datagram = Query_bytes q ∧ Query_ok q
  ∧ interface_address handle_from_ifkey get_ip_info interface_key = Some addr
  ∧ (length datagram ≤ length reply)%nat ∧ (question_end q + 16 ≤ length reply)%nat.

Lemma interface_address_length key addr :
  interface_address handle_from_ifkey get_ip_info key = Some addr → length addr = 4%nat.
Proof.
  unfold interface_address. destruct (handle_from_ifkey key) as [i|]; [|done].
  pose proof (address_size i). destruct (get_ip_info i) as [e a]. by destruct (is_ok e); intros [= <-].
Qed.

Lemma prepare_reply_answers q addr datagram stale reply key :
  answers q addr datagram reply key →
  dns_prepare_reply handle_from_ifkey get_ip_info (datagram ++ stale) (length datagram) reply key
  = Some (Z.of_nat (question_end q + 16), Reply_bytes q addr ++ drop (question_end q + 16) reply).
Proof.
  intros (-> & Hq & Haddr & Hlen & Hroom).
  pose proof (write_reply_spec q stale reply addr Hq (interface_address_length _ _ Haddr) Hroom) as Hw.
  destruct Hq as (Hid & Hoth & Hfl & Hop & Hqc & Hlab).
  assert (length (question q) = length (encode_labels (q_name q)) + 5)%nat as Hql.
  { unfold question, encode_name. rewrite !length_app. cbn [length htons]. lia. }
  assert (length (Query_bytes q) = 12 + length (question q) + length (q_rest q))%nat as Hl.
  { unfold Query_bytes. rewrite !length_app, Hid, Hoth. cbn [length htons]. lia. }
  unfold question_end, DNS_HEADER_LENGTH in *.
  unfold dns_prepare_reply, DNS_HEADER_LENGTH.
  guards.
  assert (∀ i pre x post, Query_bytes q = pre ++ htons x ++ post → length pre = i → 0 ≤ x < 65536 →
    ntohs (Query_bytes q ++ stale) i = Some x) as Hn.
  { intros i pre x post -> <- Hx. rewrite <- !app_assoc. by apply ntohs_htons. }
  rewrite (Hn 4%nat (q_id q ++ htons (q_flags q)) (q_count q) (q_others q ++ question q ++ q_rest q));
    [|unfold Query_bytes; by rewrite <- !app_assoc|rewrite length_app, Hid; done|lia].
  binds. guards.
  rewrite (Hn 2%nat (q_id q) (q_flags q) (htons (q_count q) ++ q_others q ++ question q ++ q_rest q));
    [|done|done|lia].
  binds. rewrite Hop. cbn [Z.eqb negb].
  set (hd := q_id q ++ htons (q_flags q) ++ htons (q_count q) ++ q_others q).
  assert (length hd = 12%nat) as Hhd by (unfold hd; rewrite !length_app, Hid, Hoth; done).
  set (rest := htons DNS_TYPE_A ++ htons DNS_CLASS_IN ++ q_rest q ++ stale).
  assert (Query_bytes q ++ stale = hd ++ encode_name (q_name q) ++ rest) as E.
  { unfold Query_bytes, hd, rest, question. by rewrite <- !app_assoc. }
  pose proof (label_loop_complete (q_name q) hd rest (length (Query_bytes q))
    (S (length (Query_bytes q))) Hlab) as HL.
  rewrite Hhd, <- E in HL. rewrite HL by lia. binds.
  guards.
  rewrite (Hn (12 + length (encode_labels (q_name q)) + 1)%nat (hd ++ encode_name (q_name q)) DNS_TYPE_A (htons DNS_CLASS_IN ++ q_rest q));
    [|unfold Query_bytes, hd, question; by rewrite <- !app_assoc
     |unfold encode_name; rewrite !length_app, Hhd; cbn [length]; lia|done].
  binds.
  rewrite (Hn (12 + length (encode_labels (q_name q)) + 1 + 2)%nat (hd ++ encode_name (q_name q) ++ htons DNS_TYPE_A) DNS_CLASS_IN (q_rest q));
    [|unfold Query_bytes, hd, question; by rewrite <- !app_assoc
     |unfold encode_name; rewrite !length_app, Hhd; cbn [length htons]; lia|done].
  cbn [mbind option_bind negb orb]. change (DNS_TYPE_A =? DNS_TYPE_A) with true.
  change (DNS_CLASS_IN =? DNS_CLASS_IN) with true. cbn [negb orb].
  replace (12 + length (encode_labels (q_name q)) + 1 + 2 + 2)%nat with (12 + length (question q))%nat by lia.
  unfold sizeof_DnsAnswer. guards. rewrite Haddr, Hw. done.
Qed.

Lemma Reply_bytes_length q addr key datagram reply :
  answers q addr datagram reply key → length (Reply_bytes q addr) = (question_end q + 16)%nat.
Proof.
  intros (_ & (Hid & _) & Ha & _). apply interface_address_length in Ha.
  unfold Reply_bytes, question_end, DNS_HEADER_LENGTH. rewrite !length_app, Hid, Ha. cbn [length htons htonl app]. lia.
Qed.

(** The query that the parts found in a datagram make up. *)

Definition query_of (datagram : list Z) (fl qc : Z) (labels : list (list Z)) (off : nat) : Query :=
  {| q_id := take 2 datagram; q_flags := fl; q_count := qc;
     q_others := take 6 (drop 6 datagram); q_name := labels; q_rest := drop (off + 5) datagram |}.

Lemma query_of_bytes datagram fl qc labels post off :
  Forall is_byte datagram → (off + 5 ≤ length datagram)%nat →
  ntohs datagram 2 = Some fl → ntohs datagram 4 = Some qc →
  off = (12 + length (encode_labels labels))%nat →
  datagram = take 12 datagram ++ encode_name labels ++ post →
  ntohs datagram (off + 1) = Some DNS_TYPE_A → ntohs datagram (off + 1 + 2) = Some DNS_CLASS_IN →
  datagram = Query_bytes (query_of datagram fl qc labels off).
Proof.
  intros Hb Hlen Efl Eqc Hoff Ed Eqt Eqcl.
  apply ntohs_inv in Eqc as [_ Eqc]; [|done]. apply ntohs_inv in Efl as [_ Efl]; [|done].
  apply ntohs_inv in Eqt as [_ Eqt]; [|done]. apply ntohs_inv in Eqcl as [_ Eqcl]; [|done].
  unfold Query_bytes, question, query_of. cbn [q_id q_flags q_count q_others q_name q_rest].
  rewrite <- !app_assoc.
  replace (off + 5)%nat with (off + 1 + 2 + 2)%nat by lia. rewrite <- Eqcl, <- Eqt.
  assert (drop 12 datagram = encode_name labels ++ drop (off + 1) datagram) as <-.
  { assert (drop 12 datagram = encode_name labels ++ post) as Ep.
    { rewrite Ed at 1. rewrite drop_app_length'; [done|]. rewrite length_take. lia. }
    rewrite Ep. f_equal.
    replace (off + 1)%nat with (12 + length (encode_name labels))%nat
      by (unfold encode_name; rewrite length_app; cbn [length]; lia).
    rewrite <- drop_drop, Ep, drop_app_length. done. }
  replace (drop 12 datagram) with (drop 6 (drop 6 datagram)) by (rewrite drop_drop; done).
  rewrite (take_drop 6 (drop 6 datagram)).
  change 6%nat with (4 + 2)%nat. rewrite <- Eqc. change 4%nat with (2 + 2)%nat. rewrite <- Efl.
  by rewrite take_drop.
Qed.

Lemma query_of_ok datagram fl qc labels off :
  Forall is_byte datagram → (12 ≤ length datagram)%nat → labels_ok labels →
  ntohs datagram 2 = Some fl → ntohs datagram 4 = Some qc → qc ≠ 0 → Z.land fl 30720 = 0 →
  Query_ok (query_of datagram fl qc labels off).
Proof.
  intros Hb Hlen Hlab Efl Eqc Hqc Hop.
  apply ntohs_inv in Eqc as [Hq _]; [|done]. apply ntohs_inv in Efl as [Hf _]; [|done].
  unfold Query_ok, query_of. cbn [q_id q_flags q_count q_others q_name q_rest].
  rewrite !length_take, length_drop. split_and!; lia || done.
Qed.

Lemma prepare_reply_sound datagram stale reply key :
  Forall is_byte datagram →
  ∃ ret reply',
    dns_prepare_reply handle_from_ifkey get_ip_info (datagram ++ stale) (length datagram) reply key
      = Some (ret, reply')
    ∧ ((ret = -1 ∧ reply' = reply) ∨ ∃ q addr, answers q addr datagram reply key).
Proof.
  intros Hb. unfold dns_prepare_reply, DNS_HEADER_LENGTH.
  set (fail := Some (-1, reply)).
  assert (∃ ret reply', fail = Some (ret, reply')
    ∧ ((ret = -1 ∧ reply' = reply) ∨ ∃ q addr, answers q addr datagram reply key)) as Hfail.
  { exists (-1), reply. split; [done|by left]. }
  destruct (Nat.ltb_spec (length datagram) 12) as [|Hlo]; [done|].
  destruct (Nat.ltb_spec (length reply) (length datagram)) as [|Hcap]; [done|]. cbn [orb].
  rewrite (ntohs_app datagram stale 4) by lia. destruct (ntohs_lt datagram 4) as [qc Eqc]; [lia|].
  rewrite Eqc. binds. destruct (Z.eqb_spec qc 0) as [|Hqc]; [done|].
  rewrite (ntohs_app datagram stale 2) by lia. destruct (ntohs_lt datagram 2) as [fl Efl]; [lia|].
  rewrite Efl. binds.
  destruct (Z.eqb_spec (Z.land fl 30720) 0) as [Hop|]; cbn [negb]; [|done].
  rewrite label_loop_app.
  destruct (label_loop_sound (S (length datagram)) datagram (length datagram) 12)
    as (left & -> & Hleft); [done|lia..|].
  binds. destruct left as [off|]; [|done].
  destruct (Nat.ltb_spec (length datagram) (off + 5)) as [|Hoff]; [done|].
  destruct (Hleft off eq_refl) as (labels & post & Hlab & Hoffe & Ed); [lia|].
  rewrite !ntohs_app by lia.
  destruct (ntohs_lt datagram (off + 1)) as [qt Eqt]; [lia|].
  destruct (ntohs_lt datagram (off + 1 + 2)) as [qcl Eqcl]; [lia|].
  rewrite Eqt, Eqcl. binds.
  destruct (Z.eqb_spec qt DNS_TYPE_A) as [->|]; cbn [negb orb]; [|done].
  destruct (Z.eqb_spec qcl DNS_CLASS_IN) as [->|]; cbn [negb]; [|done].
  unfold sizeof_DnsAnswer.
  destruct (Nat.ltb_spec (length reply) (off + 1 + 2 + 2 + 16)) as [|Hroom]; [done|].
  destruct (interface_address _ _ key) as [addr|] eqn:Eaddr; [|done].
  set (q := query_of datagram fl qc labels off).
  assert (question_end q = off + 5)%nat as Hqe.
  { unfold question_end, question, encode_name, DNS_HEADER_LENGTH. cbn [q query_of q_name].
    rewrite !length_app. cbn [length htons]. lia. }
  assert (datagram = Query_bytes q) as Hd by by eapply query_of_bytes.
  assert (Query_ok q) as Hq by by apply query_of_ok.
  assert (answers q addr datagram reply key) as Ha by (split_and!; [done..|lia]).
  pose proof (write_reply_spec q stale reply addr Hq (interface_address_length _ _ Eaddr)) as Hw.
  rewrite <- Hd, Hqe in Hw. replace (off + 1 + 2 + 2)%nat with (off + 5)%nat by lia.
  change (q_flags q) with fl in Hw. rewrite Hw by lia. binds.
  eexists _, _. split; [done|]. right. by exists q, addr.
Qed.

(** C13. The name server reads no byte beyond the datagram and writes none beyond
    the reply buffer, whatever it receives.  It answers exactly the datagrams that
    are standard queries for an address (a header with opcode 0 and a question, a
    name of labels of 1 to 63 bytes, type A, class IN; the bit that tells a
    response from a query is not looked at) when the reply fits and the access
    point has an address; the answer is the question with one authoritative
    A record of that address. Any other datagram is refused with the reply buffer
    untouched. *)
Theorem dns_prepare_reply_correct datagram stale reply key :
  Forall is_byte datagram →
  ∃ ret reply',
    dns_prepare_reply handle_from_ifkey get_ip_info (datagram ++ stale) (length datagram) reply key
      = Some (ret, reply')
    ∧ (∀ q addr, answers q addr datagram reply key →
        ret = Z.of_nat (length (Reply_bytes q addr))
        ∧ reply' = Reply_bytes q addr ++ drop (length (Reply_bytes q addr)) reply)
    ∧ ((ret = -1 ∧ reply' = reply) ∨ ∃ q addr, answers q addr datagram reply key).
Proof.
  intros Hb.
  assert (∃ ret reply', dns_prepare_reply handle_from_ifkey get_ip_info (datagram ++ stale)
            (length datagram) reply key = Some (ret, reply')
          ∧ ((ret = -1 ∧ reply' = reply) ∨ ∃ q addr, answers q addr datagram reply key))
    as (ret & reply' & E & Hr) by by apply prepare_reply_sound.
  exists ret, reply'. split_and!; [done| |done]. intros q addr Ha.
  pose proof (prepare_reply_answers q addr datagram stale reply key Ha) as E'.
  rewrite E in E'. injection E' as -> ->.
  by rewrite (Reply_bytes_length q addr key datagram reply Ha).
Qed.

End correct.

(** A query for [a.bc] received by an access point at 192.168.4.1. *)

Definition ap_address : unit → esp_err_t * list Z := λ _, (ESP_OK, [192; 168; 4; 1]).

Definition query_one : Query :=
  {| q_id := [18; 52]; q_flags := 256; q_count := 1; q_others := [0; 0; 0; 0; 0; 0];
     q_name := [str "a"; str "bc"]; q_rest := [] |}.

Example query_one_reply :
  fst <$> dns_prepare_reply (λ _, Some tt) ap_address (Query_bytes query_one) 22 (replicate 512 0)
            (str "WIFI_AP_DEF") = Some 38.
Proof. reflexivity. Qed.

Lemma dns_prepare_reply_correct_witness :
  ∃ reply',
    dns_prepare_reply (λ _, Some tt) ap_address (Query_bytes query_one ++ [7; 7]) 22
      (replicate 40 0) (str "WIFI_AP_DEF") = Some (38, reply')
    ∧ reply' = Reply_bytes query_one [192; 168; 4; 1] ++ [0; 0].
Proof.
  destruct (dns_prepare_reply_correct (λ _, Some tt) ap_address (λ _, eq_refl) (Query_bytes query_one)
    [7; 7] (replicate 40 0) (str "WIFI_AP_DEF")) as (ret & reply' & E & Ha & _).
  - repeat constructor; discriminate.
  - exists reply'. destruct (Ha query_one [192; 168; 4; 1]) as [Hr Hr'].
    + split_and!; [done| |done|vm_compute; lia|vm_compute; lia].
      split_and!; try done. repeat constructor; cbn; lia.
    + subst ret. split; [exact E|exact Hr'].
Defined.

End Reply.

(** ** The life of the handle

    The worker ([dns_server_task]) and one caller of [dns_server_stop] share the
    handle.  Every access to it is a step; the steps of the two threads
    interleave in any order (two cores), or with no switch while a thread is
    inside the critical section (one core).  The datagrams, which touch nothing
    shared, are one step of the worker's loop. *)

Module Lifetime.

Inductive thread := Worker | Stopper.

#[export] Instance thread_eq_dec : EqDecision thread.
Proof. solve_decision. Defined.

Inductive worker_pc :=
  | WStart           (* the socket is created and bound, or not *)
  | WTest            (* while (handle->running) *)
  | WServe           (* the body; reads handle->interface_key *)
  | WEnter           (* finished: taskENTER_CRITICAL *)
  | WClear           (* handle->task = NULL *)
  | WRead            (* cleanup_deferred = handle->cleanup_deferred *)
  | WGive (deferred : bool)    (* xSemaphoreGive *)
  | WExit (deferred : bool)    (* taskEXIT_CRITICAL *)
  | WDelete          (* vSemaphoreDelete(handle->stopped) *)
  | WFree            (* free(handle) *)
  | WDone.

Inductive stopper_pc :=
  | SIdle            (* dns_server_stop has not been called *)
  | SStop            (* handle->running = false *)
  | STake            (* xSemaphoreTake with a timeout of one second *)
  | SEnter           (* timed out: taskENTER_CRITICAL *)
  | STest            (* if (handle->task != NULL) *)
  | SDefer           (* handle->cleanup_deferred = true *)
  | SExit (finish : bool)      (* taskEXIT_CRITICAL; [finish]: the worker is gone *)
  | SDelete | SFree | SDone.

#[export] Instance worker_pc_eq_dec : EqDecision worker_pc.
Proof. solve_decision. Defined.

#[export] Instance stopper_pc_eq_dec : EqDecision stopper_pc.
Proof. solve_decision. Defined.

(** [struct DnsServerHandle] (the task only as its being set), whether its memory
    and its semaphore exist, and the two program points. *)

Record DnsServerHandle := {
  running : bool; cleanup_deferred : bool; task : bool; stopped : bool;
  lifetime_lock : option thread; allocated : bool; semaphore : bool;
  worker : worker_pc; stopper : stopper_pc
}.

#[export] Instance handle_eq_dec : EqDecision DnsServerHandle.
Proof. solve_decision. Defined.

(** A step ends in the next state or in an access to freed memory. *)

Inductive outcome := Next (s : DnsServerHandle) | UseAfterFree (t : thread) (s : DnsServerHandle).

#[export] Instance outcome_eq_dec : EqDecision outcome.
Proof. solve_decision. Defined.

Definition set_worker (pc : worker_pc) (s : DnsServerHandle) : DnsServerHandle :=
  {| running := running s; cleanup_deferred := cleanup_deferred s; task := task s;
     stopped := stopped s; lifetime_lock := lifetime_lock s; allocated := allocated s;
     semaphore := semaphore s; worker := pc; stopper := stopper s |}.

Definition set_stopper (pc : stopper_pc) (s : DnsServerHandle) : DnsServerHandle :=
  {| running := running s; cleanup_deferred := cleanup_deferred s; task := task s;
     stopped := stopped s; lifetime_lock := lifetime_lock s; allocated := allocated s;
     semaphore := semaphore s; worker := worker s; stopper := pc |}.

Definition set_lock (l : option thread) (s : DnsServerHandle) : DnsServerHandle :=
  {| running := running s; cleanup_deferred := cleanup_deferred s; task := task s;
     stopped := stopped s; lifetime_lock := l; allocated := allocated s;
     semaphore := semaphore s; worker := worker s; stopper := stopper s |}.

Definition set_fields (running' deferred' task' stopped' : bool) (s : DnsServerHandle) : DnsServerHandle :=
  {| running := running'; cleanup_deferred := deferred'; task := task';
     stopped := stopped'; lifetime_lock := lifetime_lock s; allocated := allocated s;
     semaphore := semaphore s; worker := worker s; stopper := stopper s |}.

Definition set_memory (allocated' semaphore' : bool) (s : DnsServerHandle) : DnsServerHandle :=
  {| running := running s; cleanup_deferred := cleanup_deferred s; task := task s;
     stopped := stopped s; lifetime_lock := lifetime_lock s; allocated := allocated';
     semaphore := semaphore'; worker := worker s; stopper := stopper s |}.

(** An access of [t] to the handle, or to its semaphore as well. *)

Definition with_handle (t : thread) (s : DnsServerHandle) (k : list DnsServerHandle) : list outcome :=
  if allocated s then Next <$> k else [UseAfterFree t s].

Definition with_semaphore (t : thread) (s : DnsServerHandle) (k : list DnsServerHandle) : list outcome :=
  if allocated s && semaphore s then Next <$> k else [UseAfterFree t s].

(** [taskENTER_CRITICAL] waits while the other thread is inside. *)

Definition enter (t : thread) (s : DnsServerHandle) : list DnsServerHandle :=
  match lifetime_lock s with None => [set_lock (Some t) s] | Some _ => [] end.

(** The steps of a thread; [[]] when it waits or has ended. *)

Definition dns_server_task (s : DnsServerHandle) : list outcome :=
  match worker s with
  | WStart => Next <$> [set_worker WTest s; set_worker WEnter s]
  | WTest => with_handle Worker s [set_worker (if running s then WServe else WEnter) s]
  | WServe => with_handle Worker s [set_worker WTest s]
  | WEnter => with_handle Worker s (set_worker WClear <$> enter Worker s)
  | WClear => with_handle Worker s
      [set_worker WRead (set_fields (running s) (cleanup_deferred s) false (stopped s) s)]
  | WRead => with_handle Worker s [set_worker (WGive (cleanup_deferred s)) s]
  | WGive d => with_semaphore Worker s
      [set_worker (WExit d) (set_fields (running s) (cleanup_deferred s) (task s) true s)]
  | WExit d => with_handle Worker s [set_worker (if d then WDelete else WDone) (set_lock None s)]
  | WDelete => with_semaphore Worker s [set_worker WFree (set_memory true false s)]
  | WFree => with_handle Worker s [set_worker WDone (set_memory false (semaphore s) s)]
  | WDone => []
  end.

Definition dns_server_stop (s : DnsServerHandle) : list outcome :=
  match stopper s with
  | SIdle => Next <$> [set_stopper SStop s]
  | SStop => with_handle Stopper s
      [set_stopper STake (set_fields false (cleanup_deferred s) (task s) (stopped s) s)]
  | STake => with_semaphore Stopper s
      (if stopped s
       then [set_stopper SDelete (set_fields (running s) (cleanup_deferred s) (task s) false s)]
       else [set_stopper SEnter s])
  | SEnter => with_handle Stopper s (set_stopper STest <$> enter Stopper s)
  | STest => with_handle Stopper s [set_stopper (if task s then SDefer else SExit true) s]
  | SDefer => with_handle Stopper s
      [set_stopper (SExit false) (set_fields (running s) true (task s) (stopped s) s)]
  | SExit finish => with_handle Stopper s
      [set_stopper (if finish then SDelete else SDone) (set_lock None s)]
  | SDelete => with_semaphore Stopper s [set_stopper SFree (set_memory true false s)]
  | SFree => with_handle Stopper s [set_stopper SDone (set_memory false (semaphore s) s)]
  | SDone => []
  end.

(** The state that [dns_server_start] leaves. *)

Definition started : DnsServerHandle :=
  {| running := true; cleanup_deferred := false; task := true; stopped := false;
     lifetime_lock := None; allocated := true; semaphore := true;
     worker := WStart; stopper := SIdle |}.

(** Two cores: both threads may always step.  One core: a thread in its critical
    section is not preempted. *)

Definition may_run (cores : nat) (t : thread) (s : DnsServerHandle) : bool :=
  match lifetime_lock s with
  | Some t' => (2 <=? cores)%nat || bool_decide (t = t')
  | None => true
  end.

Definition successors (cores : nat) (s : DnsServerHandle) : list outcome :=
  (if may_run cores Worker s then dns_server_task s else [])
  ++ (if may_run cores Stopper s then dns_server_stop s else []).

Inductive reachable (cores : nat) : outcome → Prop :=
  | reach_start : reachable cores (Next started)
  | reach_step s o : reachable cores (Next s) → o ∈ successors cores s → reachable cores o.

(** *** The reachable states, enumerated

    The system is finite: [explore] collects what can be reached, and a set that
    contains the start and is closed under steps contains every reachable state. *)

Definition add_new (seen : list outcome) (o : outcome) : list outcome :=
  if bool_decide (o ∈ seen) then seen else o :: seen.

Definition expand (cores : nat) (seen : list outcome) : list outcome :=
  fold_left (λ acc o, match o with
                      | Next s => fold_left add_new (successors cores s) acc
                      | UseAfterFree _ _ => acc
                      end) seen seen.

Definition explore (cores : nat) : list outcome := Nat.iter 24 (expand cores) [Next started].

Definition closed (cores : nat) (seen : list outcome) : bool :=
  bool_decide (Next started ∈ seen)
  && forallb (λ o, match o with
                   | Next s => forallb (λ o', bool_decide (o' ∈ seen)) (successors cores s)
                   | UseAfterFree _ _ => true
                   end) seen.

Lemma closed_reachable cores seen o : closed cores seen = true → reachable cores o → o ∈ seen.
Proof.
  intros [Hs Hc]%andb_prop. induction 1 as [|s o _ IH Ho].
  - by apply bool_decide_eq_true in Hs.
  - rewrite forallb_forall in Hc. specialize (Hc _ (proj1 (list_elem_of_In _ _) IH)). cbn in Hc.
    rewrite forallb_forall in Hc. specialize (Hc o (proj1 (list_elem_of_In _ _) Ho)).
    by apply bool_decide_eq_true in Hc.
Qed.

Lemma explored cores (P : outcome → bool) :
  closed cores (explore cores) = true → forallb P (explore cores) = true →
  ∀ o, reachable cores o → P o = true.
Proof.
  intros Hc HP o Ho. rewrite forallb_forall in HP. apply HP, list_elem_of_In.
  by apply (closed_reachable cores).
Qed.

(** A state from which a thread may still go on, or in which both have ended and
    the handle and its semaphore are gone. *)

Definition settled (cores : nat) (s : DnsServerHandle) : bool :=
  if bool_decide (worker s = WDone) && bool_decide (stopper s = SDone)
  then negb (allocated s) && negb (semaphore s)
  else negb (bool_decide (successors cores s = [])).

Definition sound_on (cores : nat) (o : outcome) : bool :=
  match o with
  | Next s => settled cores s
  | UseAfterFree t s => (2 <=? cores)%nat && bool_decide (t = Worker)
                        && bool_decide (worker s = WExit false) && bool_decide (stopper s = SDone)
  end.

(** C6. Whatever the order in which the worker and [dns_server_stop] run, the
    stop times out or not: they never both wait, and when both have ended the
    handle and its semaphore have been freed, exactly once.  On one core no freed
    memory is touched; on two cores the worker's leaving of the critical section
    is the only access that can come after the free. *)
Theorem dns_lifetime (cores : nat) o :
  cores = 1%nat ∨ cores = 2%nat → reachable cores o → sound_on cores o = true.
Proof.
  intros [->| ->] Ho; revert o Ho; apply explored; vm_compute; reflexivity.
Qed.

Lemma dns_lifetime_witness : sound_on 2 (Next started) = true.
Proof. apply (dns_lifetime 2); [right; reflexivity|constructor]. Defined.

(** A schedule: the successor taken at each step. *)

Fixpoint run (cores : nat) (schedule : list nat) (o : outcome) : option outcome :=
  match schedule with
  | [] => Some o
  | i :: schedule =>
    match o with
    | Next s => o' ← successors cores s !! i; run cores schedule o'
    | UseAfterFree _ _ => None
    end
  end.

Lemma run_reachable cores schedule o o' :
  reachable cores o → run cores schedule o = Some o' → reachable cores o'.
Proof.
  revert o. induction schedule as [|i schedule IH]; intros o Ho; cbn [run].
  - by intros [= <-].
  - destruct o as [s|]; [|done]. destruct (successors cores s !! i) as [o1|] eqn:E; [|done].
    apply IH. apply (reach_step cores s); [done|]. by eapply list_elem_of_lookup_2.
Qed.

(** C37. On two cores the stop frees the handle under the worker: the semaphore is
    given inside the critical section, so [dns_server_stop] takes it, deletes it
    and frees the handle before the worker unlocks [handle->lifetime_lock]. *)
Theorem dns_stop_use_after_free :
  ∃ s, reachable 2 (UseAfterFree Worker s) ∧ worker s = WExit false ∧ lifetime_lock s = Some Worker
    ∧ allocated s = false.
Proof.
  eexists. split; [|split_and!].
  - eapply (run_reachable 2 [1; 1; 1; 0; 0; 0; 0; 1; 1; 1; 0]%nat); [constructor|].
    vm_compute. reflexivity.
  - reflexivity.
  - reflexivity.
  - reflexivity.
Qed.

End Lifetime.

(** ** [dns_server_start]

    The handle is returned, or [NULL] with everything released; the three
    allocations may each fail. *)

Inductive resource := Handle | Semaphore | Task.

#[export] Instance resource_eq_dec : EqDecision resource.
Proof. solve_decision. Defined.

Definition INTERFACE_KEY_SIZE : nat := 16.

(** Whether a handle is returned, its [interface_key], and the resources held. *)

Definition dns_server_start (interface_key : option (list Z)) (calloc_ok semaphore_ok task_ok : bool)
  : option (list Z) * list resource :=
  match interface_key with
  | None => (None, [])
  | Some key =>
    if (INTERFACE_KEY_SIZE <=? length key)%nat then (None, [])
    else if negb calloc_ok then (None, [])
    else
      let held := [Handle] in
      if negb semaphore_ok then (None, list_difference held [Handle])
      else
        let held := Semaphore :: held in
        (* strlcpy into 16 bytes *)
        let copy := take (INTERFACE_KEY_SIZE - 1) key in
        if negb task_ok then (None, list_difference (list_difference held [Semaphore]) [Handle])
        else (Some copy, Task :: held)
  end.

(** A failed start holds nothing; a successful one holds all three and copied the
    whole key. *)

Lemma dns_server_start_correct key calloc_ok semaphore_ok task_ok :
  match dns_server_start key calloc_ok semaphore_ok task_ok with
  | (None, held) => held = []
  | (Some copy, held) => key = Some copy ∧ held = [Task; Semaphore; Handle]
  end.
Proof.
  unfold dns_server_start, INTERFACE_KEY_SIZE. destruct key as [key|]; [|done].
  destruct (Nat.leb_spec 16 (length key)); [done|].
  destruct calloc_ok, semaphore_ok, task_ok; cbn; try done.
  split; [|done]. f_equal. symmetry. apply take_ge. lia.
Qed.
